(** * SOSML: lexer, values, declarations and state

    A shallow embedding of the TypeScript sources of the SOSML interpreter
    (lexer.ts, values.ts, declarations.ts) together with the properties
    that its specification states about them.

    Conventions used throughout:
    - a JavaScript [throw] is the [Throw] outcome of the error monad below,
      a normal return is [Ok];
    - diagnostic texts of errors are not modelled, only the error class;
    - source characters are 8-bit ([ascii]); the values of string constants
      are lists of code units ([N]) because escapes can denote any code
      unit;
    - loops whose trip count is bounded by the input length run on fuel
      that is initialised from that length; running out of fuel is the
      separate error [OutOfFuel], which no theorem below relies on. *)

From Stdlib Require Import ZArith Lia Bool List Ascii String QArith.
From stdpp Require Import base option list strings pretty gmap.

Local Open Scope string_scope.
Local Open Scope Z_scope.

#[local] Set Warnings "-register-all".

(** ** Errors and the error monad *)

Inductive Error : Set :=
| LexerError
| IncompleteError
| ParserError
| ElaborationError
| EvaluationError
| FeatureDisabledError
| InternalInterpreterError
| TypeError      (* raised by the JavaScript runtime itself *)
| OutOfFuel.

Inductive outcome (A : Type) : Type :=
| Ok (a : A)
| Throw (e : Error).
Arguments Ok {A} a.
Arguments Throw {A} e.

Definition outcome_bind {A B : Type} (f : A -> outcome B) (m : outcome A) : outcome B :=
  match m with
  | Ok a => f a
  | Throw e => Throw e
  end.

#[global] Instance outcome_mbind : MBind outcome := @outcome_bind.
#[global] Instance outcome_mret : MRet outcome := @Ok.

Definition is_Ok {A : Type} (m : outcome A) : bool :=
  match m with Ok _ => true | Throw _ => false end.

(** ** JavaScript numbers that hold integers

    An integral double, [NaN] or a signed infinity; every comparison with
    [NaN] is false. *)

Inductive number : Set :=
| Num (z : Z)
| NaN
| Infinity (negative : bool).

(** [v > bound] and [v < bound] for an integer [bound]. *)
Definition number_gt (v : number) (bound : Z) : bool :=
  match v with
  | Num z => bound <? z
  | NaN => false
  | Infinity negative => negb negative
  end.

Definition number_lt (v : number) (bound : Z) : bool :=
  match v with
  | Num z => z <? bound
  | NaN => false
  | Infinity negative => negative
  end.

(** Modelled from the spec: [MAXINT] and [MININT] are imported by lexer.ts
    from values.ts, but the values.ts at hand does not export them.  The
    specification speaks of a 31-bit integer core and the test preamble
    binds [Int.maxInt] to 1073741823 and [Int.minInt] to ~1073741824. *)
Definition MAXINT : Z := 1073741823.
Definition MININT : Z := -1073741824.

(** ** Lexer (lexer.ts) *)

Module Lexer.

Abbreviation char := ascii (only parsing).

Local Open Scope nat_scope.

(** Tokens as the lexer constructs them: the first field is the source
    text of the token. *)
Inductive Token : Type :=
| KeywordToken (text : string)
| IntegerConstantToken (text : string) (value : number)
| NumericToken (text : string) (value : number)
| RealConstantToken (text : string) (literal : string)
    (* [literal] is the argument handed to parseFloat *)
| WordConstantToken (text : string) (value : number)
| CharacterConstantToken (text : string) (value : list N)
| StringConstantToken (text : string) (value : list N)
| IdentifierToken (text : string)
| AlphanumericIdentifierToken (text : string)
| TypeVariableToken (text : string)
| EqualityTypeVariableToken (text : string)
| StarToken
| EqualsToken
| LongIdentifierToken (text : string) (qualifiers : list Token) (id : Token).

Definition Token_text (t : Token) : string :=
  match t with
  | KeywordToken s | IntegerConstantToken s _ | NumericToken s _
  | RealConstantToken s _ | WordConstantToken s _
  | CharacterConstantToken s _ | StringConstantToken s _
  | IdentifierToken s | AlphanumericIdentifierToken s
  | TypeVariableToken s | EqualityTypeVariableToken s
  | LongIdentifierToken s _ _ => s
  | StarToken => "*"
  | EqualsToken => "="
  end.

(** Modelled from the spec: the class hierarchy of tokens.ts, which is
    not at hand.  Alphanumeric identifiers, type variables and long
    identifiers are identifier tokens; only alphanumeric tokens may be
    qualifiers. *)
Definition instanceof_IdentifierToken (t : Token) : bool :=
  match t with
  | IdentifierToken _ | AlphanumericIdentifierToken _
  | TypeVariableToken _ | EqualityTypeVariableToken _
  | LongIdentifierToken _ _ _ => true
  | _ => false
  end.

Definition instanceof_AlphanumericIdentifierToken (t : Token) : bool :=
  match t with AlphanumericIdentifierToken _ => true | _ => false end.

Definition instanceof_TypeVariableToken (t : Token) : bool :=
  match t with
  | TypeVariableToken _ | EqualityTypeVariableToken _ => true
  | _ => false
  end.

Definition instanceof_StarToken (t : Token) : bool :=
  match t with StarToken => true | _ => false end.

Definition reservedWords : list string :=
  [ "abstype"; "and"; "andalso"; "as"; "case"; "datatype"; "do"; "else";
    "end"; "exception"; "fn"; "fun"; "handle"; "if"; "in"; "infix";
    "infixr"; "let"; "local"; "nonfix"; "of"; "op"; "open"; "orelse";
    "raise"; "rec"; "then"; "type"; "val"; "with"; "withtype"; "while";
    "("; ")"; "["; "]"; "{"; "}"; ","; ":"; ";"; "..."; "_"; "|"; "=";
    "=>"; "->"; "#";
    "eqtype"; "functor"; "signature"; "struct"; "include"; "sharing";
    "structure"; "where"; "sig"; ":>" ].

Definition symbolicCharacters : list char :=
  [ "!"; "%"; "&"; "$"; "#"; "+"; "-"; "/"; ":"; "<"; "="; ">"; "?"; "@";
    "\"; "~"; "`"; "^"; "|"; "*" ]%char.

Definition has_string (l : list string) (s : string) : bool :=
  existsb (String.eqb s) l.

Definition has_char (l : list char) (c : char) : bool :=
  existsb (Ascii.eqb c) l.

(** [c >= lo && c <= hi] on one-character strings compares code units. *)
Definition between (lo hi c : char) : bool :=
  (N_of_ascii lo <=? N_of_ascii c)%N && (N_of_ascii c <=? N_of_ascii hi)%N.

Definition isAlphanumeric (c : char) : bool :=
  between "a" "z" c || between "A" "Z" c || between "0" "9" c
  || Ascii.eqb c "'" || Ascii.eqb c "_".

Definition isSymbolic (c : char) : bool := has_char symbolicCharacters c.

Definition isWhitespace (c : char) : bool :=
  Ascii.eqb c " " || Ascii.eqb c "009" || Ascii.eqb c "010"
  || Ascii.eqb c "012".

Definition isNumber (c : char) (hexadecimal : bool) : bool :=
  between "0" "9" c
  || (hexadecimal && (between "a" "f" c || between "A" "F" c)).

(** The end-of-transmission character that [getChar] returns past the
    end of the input. *)
Definition EOT : char := "004"%char.

(** The double quote, and the two comment brackets. *)
Definition dquote : char := "034"%char.
Definition commentOpen : string := String "(" (String "*" EmptyString).
Definition commentClose : string := String "*" (String ")" EmptyString).

Fixpoint string_drop (n : nat) (s : string) : string :=
  match n, s with
  | O, _ => s
  | S n', EmptyString => EmptyString
  | S n', String _ s' => string_drop n' s'
  end.

(** The longest prefix of [s] whose characters all satisfy [p]. *)
Fixpoint span (p : char -> bool) (s : string) : string :=
  match s with
  | EmptyString => EmptyString
  | String c s' => if p c then String c (span p s') else EmptyString
  end.

(** [parseInt(value, radix)] on an optional minus sign followed by
    digits: the longest prefix of valid digits is converted, and the
    result is [NaN] when there is none. *)
Definition digitValue (c : char) : option Z :=
  if between "0" "9" c then Some (Z.of_N (N_of_ascii c) - 48)%Z
  else if between "a" "z" c then Some (Z.of_N (N_of_ascii c) - 87)%Z
  else if between "A" "Z" c then Some (Z.of_N (N_of_ascii c) - 55)%Z
  else None.

Fixpoint parseDigits (radix : Z) (s : string) (acc : number) : number :=
  match s with
  | EmptyString => acc
  | String c s' =>
      match digitValue c with
      | Some d =>
          if (d <? radix)%Z
          then parseDigits radix s'
                 (Num (match acc with Num a => (a * radix + d)%Z | _ => d end))
          else acc
      | None => acc
      end
  end.

Definition parseInt (value : string) (radix : Z) : number :=
  match value with
  | String "-"%char rest =>
      match parseDigits radix rest NaN with
      | Num z => Num (- z)%Z
      | v => v
      end
  | _ => parseDigits radix value NaN
  end.

Record Options : Set := { allowUnicodeInStrings : bool }.

(** The mutable fields of a [Lexer] object; [input] and [options] are
    never assigned after construction. *)
Record Cursor : Set := { position : nat; tokenStart : nat }.

Section WithInput.

Variable input : string.
Variable options : Options.

Definition input_length : nat := String.length input.

Definition charAt (i : nat) : option char := String.get i input.

(** [input.substring(a, b)] for [a <= b]. *)
Definition substring (a b : nat) : string := String.substring a (b - a) input.

(** [input.substr(a, n)]. *)
Definition substr (a n : nat) : string := String.substring a n input.

Definition getChar (pos : nat) (offset : nat) : char :=
  match charAt (pos + offset) with
  | Some c => c
  | None => EOT
  end.

Definition consumeChar (pos : nat) : outcome (char * nat) :=
  match charAt pos with
  | Some c => Ok (c, S pos)
  | None => Throw IncompleteError
  end.

(** [while (isWhitespace(getChar())) ++position]: the position moves
    over the longest run of whitespace. *)
Definition skipWhitespace (pos : nat) : nat :=
  pos + String.length (span isWhitespace (string_drop pos input)).

(** The innermost loop of [skipWhitespaceAndComments], entered with
    [openComments > 0]. *)
Fixpoint skipComment (fuel : nat) (pos : nat) (openComments : nat) : outcome nat :=
  match openComments with
  | O => Ok pos
  | S openComments' =>
      match fuel with
      | O => Throw OutOfFuel
      | S fuel' =>
          if (input_length <? pos + 2) then Throw IncompleteError
          else
            let s := substr pos 2 in
            if String.eqb s commentOpen then skipComment fuel' (pos + 2) (S openComments)
            else if String.eqb s commentClose then skipComment fuel' (pos + 2) openComments'
            else skipComment fuel' (pos + 1) openComments
      end
  end.

(** The loop that skips every comment starting at the position. *)
Fixpoint skipComments (fuel : nat) (pos : nat) : outcome nat :=
  if (pos + 1 <? input_length) && String.eqb (substr pos 2) commentOpen then
    match fuel with
    | O => Throw OutOfFuel
    | S fuel' =>
        pos' ← skipComment (S input_length) (pos + 2) 1;
        skipComments fuel' pos'
    end
  else Ok pos.

Fixpoint skipWhitespaceAndCommentsLoop (fuel : nat) (pos : nat) : outcome nat :=
  let oldnumber := pos in
  pos' ← skipComments (S input_length) (skipWhitespace pos);
  if (pos' =? oldnumber) then Ok pos'
  else
    match fuel with
    | O => Throw OutOfFuel
    | S fuel' => skipWhitespaceAndCommentsLoop fuel' pos'
    end.

Definition skipWhitespaceAndComments (l : Cursor) : outcome Cursor :=
  pos ← skipWhitespaceAndCommentsLoop (S input_length) (position l);
  mret {| position := pos; tokenStart := pos |}.

(** [readNumeric]: digits are taken while the current character is a
    digit and the result has not reached [maxLength] (-1: no limit). *)
Fixpoint readNumericFrom (hexadecimal : bool) (maxLength : Z)
         (rest : string) (len : nat) : string :=
  match rest with
  | EmptyString => EmptyString
  | String c rest' =>
      if isNumber c hexadecimal && negb (Z.of_nat len =? maxLength)%Z
      then String c (readNumericFrom hexadecimal maxLength rest' (S len))
      else EmptyString
  end.

Definition readNumeric (hexadecimal : bool) (maxLength : Z) (pos : nat)
  : string * nat :=
  let result := readNumericFrom hexadecimal maxLength (string_drop pos input) 0 in
  (result, pos + String.length result).

Definition makeNumberToken (l : Cursor) (value : string)
           (real word hexadecimal : bool) : outcome Token :=
  if real && word then Throw InternalInterpreterError
  else
    let token := substring (tokenStart l) (position l) in
    if real then Ok (RealConstantToken token value)
    else
      let v := parseInt value (if hexadecimal then 16%Z else 10%Z) in
      if number_gt v MAXINT then Throw LexerError
      else if number_lt v MININT then Throw LexerError
      else if word then Ok (WordConstantToken token v)
      else
        match String.get 0 token with
        | Some c =>
            if isNumber c false && negb (Ascii.eqb c "0")
            then Ok (NumericToken token v)
            else Ok (IntegerConstantToken token v)
        | None => Ok (IntegerConstantToken token v)
        end.

Definition with_position (l : Cursor) (pos : nat) : Cursor :=
  {| position := pos; tokenStart := tokenStart l |}.

Definition lexNumber (l : Cursor) : outcome (Token * Cursor) :=
  let pos := position l in
  let negative := Ascii.eqb (getChar pos 0) "~" in
  let pos := if negative then S pos else pos in
  let value := if negative then "-" else "" in
  let prefixed :=
    Ascii.eqb (getChar pos 0) "0"
    && (Ascii.eqb (getChar pos 1) "w" || Ascii.eqb (getChar pos 1) "x") in
  let word := prefixed && Ascii.eqb (getChar (S pos) 0) "w" in
  let hexadecimal :=
    prefixed && Ascii.eqb (getChar (S pos) (if word then 1 else 0)) "x" in
  let nextDigitOffset := if word && hexadecimal then 2 else 1 in
  if prefixed
     && ((negative && word)
         || negb (isNumber (getChar (S pos) nextDigitOffset) hexadecimal))
  then
    (* The 'w' or 'x' is not part of the number *)
    t ← makeNumberToken (with_position l (S pos)) (value ++ "0") false false false;
    mret (t, with_position l (S pos))
  else
    let pos := if prefixed then (S pos + nextDigitOffset) else pos in
    let '(digits, pos) := readNumeric hexadecimal (-1)%Z pos in
    let value := value ++ digits in
    if hexadecimal || word then
      t ← makeNumberToken (with_position l pos) value false word hexadecimal;
      mret (t, with_position l pos)
    else
      let finish (pos : nat) (value : string) (real : bool) :=
        t ← makeNumberToken (with_position l pos) value real false false;
        mret (t, with_position l pos) in
      let exponent (pos : nat) (value : string) (real : bool) :=
        if Ascii.eqb (getChar pos 0) "e" || Ascii.eqb (getChar pos 0) "E" then
          if isNumber (getChar pos 1) false then
            let '(digits, pos') := readNumeric false (-1)%Z (S pos) in
            finish pos' (value ++ "e" ++ digits) true
          else if Ascii.eqb (getChar pos 1) "~" && isNumber (getChar pos 2) false then
            let '(digits, pos') := readNumeric false (-1)%Z (pos + 2) in
            finish pos' (value ++ "e-" ++ digits) true
          else finish pos value real
        else finish pos value real in
      if Ascii.eqb (getChar pos 0) "." then
        if isNumber (getChar pos 1) false then
          let '(digits, pos') := readNumeric false (-1)%Z (S pos) in
          exponent pos' (value ++ "." ++ digits) true
        else finish pos value false
      else exponent pos value false.

Definition charCode (c : char) : N := N_of_ascii c.

(** The code unit that one escape sequence denotes, after the
    backslash and the non-whitespace character [c] were consumed. *)
Definition lexEscape (c : char) (pos : nat) : outcome (N * nat) :=
  if Ascii.eqb c "a" then Ok (7%N, pos)
  else if Ascii.eqb c "b" then Ok (8%N, pos)
  else if Ascii.eqb c "t" then Ok (9%N, pos)
  else if Ascii.eqb c "n" then Ok (10%N, pos)
  else if Ascii.eqb c "v" then Ok (11%N, pos)
  else if Ascii.eqb c "f" then Ok (12%N, pos)
  else if Ascii.eqb c "r" then Ok (13%N, pos)
  else if Ascii.eqb c dquote then Ok (34%N, pos)
  else if Ascii.eqb c "\" then Ok (92%N, pos)
  else if Ascii.eqb c "^" then
    '(cc, pos) ← consumeChar pos;
    if (charCode cc <? 64)%N || (95 <? charCode cc)%N then Throw LexerError
    else Ok ((charCode cc - 64)%N, pos)
  else if Ascii.eqb c "u" then
    let '(s, pos) := readNumeric true 4%Z pos in
    if negb (String.length s =? 4) then Throw LexerError
    else
      match parseInt s 16%Z with
      | Num v =>
          if (256 <=? v)%Z && negb (allowUnicodeInStrings options)
          then Throw LexerError
          else Ok (Z.to_N v, pos)
      | _ => Ok (0%N, pos)
      end
  else
    if negb (isNumber c false) then Throw LexerError
    else
      (* 'un-consume' the first character of the number *)
      let '(s, pos) := readNumeric false 3%Z (pos - 1) in
      if negb (String.length s =? 3) then Throw LexerError
      else
        match parseInt s 10%Z with
        | Num v =>
            if (256 <=? v)%Z && negb (allowUnicodeInStrings options)
            then Throw LexerError
            else Ok (Z.to_N v, pos)
        | _ => Ok (0%N, pos)
        end.

(** The loop of [lexString], which runs until the closing quote. *)
Fixpoint lexStringLoop (fuel : nat) (pos : nat) (value : list N)
  : outcome (list N * nat) :=
  if Ascii.eqb (getChar pos 0) dquote then Ok (value, pos)
  else
    match fuel with
    | O => Throw OutOfFuel
    | S fuel' =>
        if Ascii.eqb (getChar pos 0) "\" then
          let pos := S pos in
          if isWhitespace (getChar pos 0) then
            '(c, pos) ← consumeChar (skipWhitespace pos);
            if negb (Ascii.eqb c "\") then Throw LexerError
            else lexStringLoop fuel' pos value
          else
            '(c, pos) ← consumeChar pos;
            '(code, pos) ← lexEscape c pos;
            lexStringLoop fuel' pos (value ++ [code])%list
        else
          '(ch, pos) ← consumeChar pos;
          let c := charCode ch in
          (* Only printable characters (33 to 126) and spaces are allowed;
             all non-ASCII characters are allowed as well. *)
          if ((c <? 33)%N || (126 <? c)%N) && negb (c =? 32)%N && (c <? 128)%N
          then Throw LexerError
          else lexStringLoop fuel' pos (value ++ [c])%list
    end.

Definition lexString (l : Cursor) : outcome (Token * Cursor) :=
  let startnumber := position l in
  '(c, pos) ← consumeChar (position l);
  if negb (Ascii.eqb c dquote) then Throw InternalInterpreterError
  else
    '(value, pos) ← lexStringLoop (S input_length) pos [];
    '(c, pos) ← consumeChar pos;
    if negb (Ascii.eqb c dquote) then Throw InternalInterpreterError
    else Ok (StringConstantToken (substring startnumber pos) value,
             with_position l pos).

Definition lexCharacter (l : Cursor) : outcome (Token * Cursor) :=
  '(c, pos) ← consumeChar (position l);
  if negb (Ascii.eqb c "#") then Throw InternalInterpreterError
  else
    '(t, l') ← lexString (with_position l pos);
    match t with
    | StringConstantToken text value =>
        if negb (length value =? 1) then Throw LexerError
        else Ok (CharacterConstantToken ("#" ++ text) value, l')
    | _ => Throw InternalInterpreterError
    end.

(** The part of [lexIdentifierOrKeyword] after the token text was
    read: [firstChar] is the first character of [token]. *)
Definition classifyIdentifier (firstChar : char) (token : string) : outcome Token :=
  if String.eqb token "*" then Ok StarToken
  else if String.eqb token "=" then Ok EqualsToken
  else if has_string reservedWords token then Ok (KeywordToken token)
  else if Ascii.eqb firstChar "'" then
    if (match String.get 1 token with
        | Some c => Ascii.eqb c "'" | None => false end)
    then
      if (String.length token =? 2) then Throw LexerError
      else Ok (EqualityTypeVariableToken token)
    else
      if (2 <=? String.length token) then Ok (TypeVariableToken token)
      else Throw LexerError
  else if isAlphanumeric firstChar then Ok (AlphanumericIdentifierToken token)
  else Ok (IdentifierToken token).

(** [do { token += consumeChar(); } while (charChecker(getChar()))],
    entered at a character that satisfies [charChecker]: the token is
    the longest run of such characters. *)
Definition readToken (charChecker : char -> bool) (pos : nat) : string :=
  span charChecker (string_drop pos input).

Definition lexIdentifierOrKeyword (l : Cursor) : outcome (Token * Cursor) :=
  let pos := position l in
  let firstChar := getChar pos 0 in
  let scan (charChecker : char -> bool) :=
    let token := readToken charChecker pos in
    t ← classifyIdentifier firstChar token;
    mret (t, with_position l (pos + String.length token)) in
  if isSymbolic firstChar then scan isSymbolic
  else if isAlphanumeric firstChar && negb (isNumber firstChar false)
          && negb (Ascii.eqb firstChar "_")
  then
    (* alphanumeric identifiers may not start with a number *)
    scan isAlphanumeric
  else if has_string reservedWords (String firstChar "") then
    '(c, pos) ← consumeChar pos;
    mret (KeywordToken (String c ""), with_position l pos)
  else if Ascii.eqb firstChar "." && Ascii.eqb (getChar pos 1) "."
          && Ascii.eqb (getChar pos 2) "."
  then Ok (KeywordToken "...", with_position l (pos + 3))
  else Throw LexerError.

(** The do-while loop of [lexLongIdentifierOrKeyword], entered with
    the current character being a dot. *)
Fixpoint lexQualifiers (fuel : nat) (l : Cursor) (t : Token)
         (qualifiers : list Token) : outcome (Token * list Token * Cursor) :=
  match fuel with
  | O => Throw OutOfFuel
  | S fuel' =>
      '(_, pos) ← consumeChar (position l);
      if negb (instanceof_AlphanumericIdentifierToken t) then Throw LexerError
      else
        let qualifiers := (qualifiers ++ [t])%list in
        '(t, l) ← lexIdentifierOrKeyword {| position := pos; tokenStart := pos |};
        if Ascii.eqb (getChar (position l) 0) "." then
          lexQualifiers fuel' l t qualifiers
        else Ok (t, qualifiers, l)
  end.

Definition lexLongIdentifierOrKeyword (l : Cursor) : outcome (Token * Cursor) :=
  let tokenStart0 := tokenStart l in
  '(t, l) ← lexIdentifierOrKeyword l;
  let pos := position l in
  if Ascii.eqb (getChar pos 0) "." && Ascii.eqb (getChar pos 1) "."
     && Ascii.eqb (getChar pos 2) "."
  then Ok (t, l)
  else if negb (Ascii.eqb (getChar pos 0) ".") then Ok (t, l)
  else
    '(t, qualifiers, l) ← lexQualifiers (S input_length) l t [];
    (* Only value identifiers, type constructors and structure
       identifiers are allowed here. *)
    if negb (instanceof_IdentifierToken t || instanceof_StarToken t)
       || instanceof_TypeVariableToken t
    then Throw LexerError
    else Ok (LongIdentifierToken (substring tokenStart0 (position l))
                                 qualifiers t, l).

Definition nextToken (l : Cursor) : outcome (Token * Cursor) :=
  let l := {| position := position l; tokenStart := position l |} in
  let pos := position l in
  '(token, l) ←
    (if isNumber (getChar pos 0) false
        || (Ascii.eqb (getChar pos 0) "~" && isNumber (getChar pos 1) false)
     then lexNumber l
     else if Ascii.eqb (getChar pos 0) dquote then lexString l
     else if Ascii.eqb (getChar pos 0) "#" && Ascii.eqb (getChar pos 1) dquote
     then lexCharacter l
     else lexLongIdentifierOrKeyword l);
  l ← skipWhitespaceAndComments l;
  mret (token, l).

Definition finished (l : Cursor) : bool := (input_length <=? position l).

(** [while (!l.finished()) result.push(l.nextToken())]. *)
Fixpoint lexLoop (fuel : nat) (l : Cursor) (result : list Token)
  : outcome (list Token) :=
  if finished l then Ok result
  else
    match fuel with
    | O => Throw OutOfFuel
    | S fuel' =>
        '(t, l) ← nextToken l;
        lexLoop fuel' l (result ++ [t])%list
    end.

End WithInput.

Definition defaultOptions : Options := {| allowUnicodeInStrings := false |}.

(** [lex(s, options)]: the constructor of [Lexer] skips leading
    whitespace and comments. *)
Definition lex (s : string) (options : Options) : outcome (list Token) :=
  l ← skipWhitespaceAndComments s {| position := 0; tokenStart := 0 |};
  lexLoop s options (S (String.length s)) l [].

End Lexer.

(** ** Properties of the lexer *)

Module LexerFacts.
Import Lexer.

Local Open Scope nat_scope.

Lemma string_drop_get (n : nat) (s : string) :
  String.get n s = String.get 0 (string_drop n s).
Proof.
  revert s; induction n as [|n IH]; intros [|c s]; simpl; auto.
Qed.

Lemma getChar_head (input : string) (pos : nat) (c : ascii) (rest : string) :
  string_drop pos input = String c rest -> getChar input pos 0 = c.
Proof.
  intros H. unfold getChar, charAt.
  rewrite Nat.add_0_r, string_drop_get, H. reflexivity.
Qed.

Lemma getChar_prime_drop (input : string) (pos : nat) :
  getChar input pos 0 = "'"%char ->
  exists rest, string_drop pos input = String "'" rest.
Proof.
  unfold getChar, charAt. rewrite Nat.add_0_r, string_drop_get.
  destruct (string_drop pos input) as [|c rest]; simpl.
  - discriminate.
  - intros ->. eauto.
Qed.

(** No reserved word, nor the star or the equals sign, starts with a
    prime. *)
Lemma classifyIdentifier_prime (rest : string) :
  classifyIdentifier "'" (String "'" rest) =
    if match String.get 1 (String "'" rest) with
       | Some c => Ascii.eqb c "'"
       | None => false
       end
    then
      if String.length (String "'" rest) =? 2 then Throw LexerError
      else Ok (EqualityTypeVariableToken (String "'" rest))
    else
      if 2 <=? String.length (String "'" rest)
      then Ok (TypeVariableToken (String "'" rest))
      else Throw LexerError.
Proof. reflexivity. Qed.

(** C7.  The input [0w] lexes as the integer constant [0] followed by
    the identifier [w], and the input [~0x] as the integer constant [~0]
    (whose value is JavaScript's negative zero, the integer 0) followed
    by the identifier [x]. *)
Theorem lex_word_and_hex_prefix_without_digits (options : Options) :
  lex "0w" options
    = Ok [IntegerConstantToken "0" (Num 0); AlphanumericIdentifierToken "w"]
  /\ lex "~0x" options
    = Ok [IntegerConstantToken "~0" (Num 0); AlphanumericIdentifierToken "x"].
Proof. split; reflexivity. Qed.

(** C8, as the claim words it, fails: the token that consists of two
    primes and nothing else is not an equality type variable, it is
    rejected. *)
Lemma two_primes_alone_rejected :
  lex "''" defaultOptions = Throw LexerError
  /\ ~ (exists t, classifyIdentifier "'" "''" = Ok (EqualityTypeVariableToken t)).
Proof.
  split; [reflexivity|]. intros [t H]. discriminate H.
Qed.

(** C8, amended.  At a prime, the lexer reads the longest run of
    alphanumeric characters as the token.  If its second character is
    a prime as well, the token is an equality type variable exactly
    when it is longer than two characters, and the two-prime token is
    a [LexerError]; otherwise it is an ordinary type variable exactly
    when its length is at least 2, and the lone prime is a
    [LexerError]. *)
Theorem lex_type_variables (input : string) (l : Cursor) :
  getChar input (position l) 0 = "'"%char ->
  let token := readToken input isAlphanumeric (position l) in
  let l' := with_position l (position l + String.length token) in
  String.get 0 token = Some "'"%char
  /\ lexIdentifierOrKeyword input l =
     if match String.get 1 token with
        | Some c => Ascii.eqb c "'"
        | None => false
        end
     then
       if 3 <=? String.length token
       then Ok (EqualityTypeVariableToken token, l')
       else Throw LexerError
     else
       if 2 <=? String.length token
       then Ok (TypeVariableToken token, l')
       else Throw LexerError.
Proof.
  intros Hc token l'.
  destruct (getChar_prime_drop _ _ Hc) as [rest Hrest].
  assert (Htoken : token = String "'" (span isAlphanumeric rest)).
  { unfold token, readToken. rewrite Hrest. reflexivity. }
  split; [rewrite Htoken; reflexivity|].
  unfold lexIdentifierOrKeyword. rewrite Hc.
  change (isSymbolic "'") with false.
  change (isAlphanumeric "'" && negb (isNumber "'" false)
          && negb (Ascii.eqb "'" "_")) with true.
  cbv iota. fold token. fold l'. clearbody l'.
  rewrite Htoken, classifyIdentifier_prime.
  set (tok := String "'" (span isAlphanumeric rest)).
  destruct (match String.get 1 tok with
            | Some c => Ascii.eqb c "'" | None => false end) eqn:Hsecond.
  - assert (Hlen : 2 <= String.length tok).
    { unfold tok in *. simpl in *.
      destruct (span isAlphanumeric rest); [discriminate | simpl; lia]. }
    destruct (String.length tok =? 2) eqn:H2.
    + apply Nat.eqb_eq in H2.
      destruct (3 <=? String.length tok) eqn:H3; [|reflexivity].
      apply Nat.leb_le in H3. lia.
    + apply Nat.eqb_neq in H2.
      destruct (3 <=? String.length tok) eqn:H3; [reflexivity|].
      apply Nat.leb_gt in H3. lia.
  - destruct (2 <=? String.length tok); reflexivity.
Qed.

Lemma lex_type_variables_witness :
  getChar "'a ''b" 0 0 = "'"%char
  /\ lexIdentifierOrKeyword "'a ''b" {| position := 0; tokenStart := 0 |}
     = Ok (TypeVariableToken "'a", {| position := 2; tokenStart := 0 |}).
Proof.
  split; [reflexivity|].
  exact (proj2 (lex_type_variables "'a ''b" {| position := 0; tokenStart := 0 |}
                  eq_refl)).
Defined.

(** Every integer or word constant goes through [makeNumberToken],
    which rejects a value outside of the representable range. *)
Lemma makeNumberToken_out_of_range (input : string) (l : Cursor)
      (value : string) (word hexadecimal : bool) (z : Z) :
  parseInt value (if hexadecimal then 16%Z else 10%Z) = Num z ->
  (MAXINT < z \/ z < MININT)%Z ->
  makeNumberToken input l value false word hexadecimal = Throw LexerError.
Proof.
  intros Hv Hrange. unfold makeNumberToken. simpl. rewrite Hv.
  unfold number_gt, number_lt.
  destruct (Z.ltb_spec MAXINT z); [reflexivity|].
  destruct (Z.ltb_spec z MININT); [reflexivity|]. lia.
Qed.

(** *** Numeric constants out of range *)

(** The four forms of an integer or word constant. *)
Inductive NumberForm : Set := Decimal | Hexadecimal | DecimalWord | HexadecimalWord.

Definition formPrefix (f : NumberForm) : string :=
  match f with
  | Decimal => ""
  | Hexadecimal => "0x"
  | DecimalWord => "0w"
  | HexadecimalWord => "0wx"
  end.

Definition formHexadecimal (f : NumberForm) : bool :=
  match f with Hexadecimal | HexadecimalWord => true | _ => false end.

Definition formWord (f : NumberForm) : bool :=
  match f with DecimalWord | HexadecimalWord => true | _ => false end.

(** A constant as it is written: an optional [~], the prefix of its
    form, and digits. *)
Record NumericConstant : Set :=
  mkConstant { negative : bool; form : NumberForm; digits : string }.

Definition constantText (c : NumericConstant) : string :=
  (if negative c then "~" else "") ++ formPrefix (form c) ++ digits c.

Fixpoint digitsValue (radix : Z) (ds : string) (acc : Z) : Z :=
  match ds with
  | EmptyString => acc
  | String d ds' => digitsValue radix ds' (acc * radix + default 0 (digitValue d))%Z
  end.

(** The number that the constant denotes. *)
Definition constantValue (c : NumericConstant) : Z :=
  let magnitude :=
    digitsValue (if formHexadecimal (form c) then 16 else 10)%Z (digits c) 0%Z in
  if negative c then (- magnitude)%Z else magnitude.

Fixpoint allDigits (hexadecimal : bool) (s : string) : bool :=
  match s with
  | EmptyString => true
  | String c s' => isNumber c hexadecimal && allDigits hexadecimal s'
  end.

(** There is at least one digit, every digit is one of the radix, and a
    word constant has no sign. *)
Definition wellFormed (c : NumericConstant) : bool :=
  negb (String.eqb (digits c) "")
  && allDigits (formHexadecimal (form c)) (digits c)
  && negb (formWord (form c) && negative c).

Definition charOf (s : string) (k : nat) : ascii :=
  match String.get k s with Some c => c | None => EOT end.

(** What follows a decimal constant makes it a real constant: a point
    and a digit, or an exponent. *)
Definition continuesAsReal (rest : string) : bool :=
  (Ascii.eqb (charOf rest 0) "." && isNumber (charOf rest 1) false)
  || ((Ascii.eqb (charOf rest 0) "e" || Ascii.eqb (charOf rest 0) "E")
      && (isNumber (charOf rest 1) false
          || (Ascii.eqb (charOf rest 1) "~" && isNumber (charOf rest 2) false))).

(** The constant ends where [rest] begins: [rest] does not go on with a
    digit, nor, after a decimal constant, with the rest of a real
    constant. *)
Definition delimited (c : NumericConstant) (rest : string) : bool :=
  negb (isNumber (charOf rest 0) (formHexadecimal (form c)))
  && negb (match form c with Decimal => continuesAsReal rest | _ => false end).

Lemma string_drop_add (n k : nat) (s : string) :
  string_drop (n + k) s = string_drop k (string_drop n s).
Proof.
  revert s; induction n as [|n IH]; intros s; simpl; [reflexivity|].
  destruct s as [|c s]; [destruct k; reflexivity | apply IH].
Qed.

Lemma getChar_charOf (input : string) (pos k : nat) :
  getChar input pos k = charOf (string_drop pos input) k.
Proof.
  unfold getChar, charAt, charOf.
  rewrite string_drop_get, string_drop_add, <- string_drop_get. reflexivity.
Qed.

Lemma getChar_shift (input : string) (pos n k : nat) :
  getChar input (pos + n) k = charOf (string_drop pos input) (n + k).
Proof.
  unfold getChar, charAt, charOf.
  rewrite <- Nat.add_assoc.
  rewrite string_drop_get, string_drop_add, <- string_drop_get. reflexivity.
Qed.

Lemma string_drop_length (n : nat) (s : string) (c : ascii) (r : string) :
  string_drop n s = String c r -> n < String.length s.
Proof.
  revert s; induction n as [|n IH]; intros s H; simpl in H.
  - subst s. simpl. lia.
  - destruct s as [|c' s]; [discriminate|]. simpl. apply IH in H. lia.
Qed.

Lemma isNumber_digitValue (c : ascii) (hexadecimal : bool) :
  isNumber c hexadecimal = true ->
  exists d, digitValue c = Some d
            /\ (0 <= d < (if hexadecimal then 16 else 10))%Z.
Proof.
  destruct c as [[] [] [] [] [] [] [] []], hexadecimal;
    try discriminate; intros _; eexists; (split; [reflexivity | simpl; lia]).
Qed.

Lemma isNumber_not_special (c : ascii) (hexadecimal : bool) :
  isNumber c hexadecimal = true ->
  Ascii.eqb c "~" = false /\ Ascii.eqb c "w" = false /\ Ascii.eqb c "x" = false
  /\ Ascii.eqb c "-" = false.
Proof.
  destruct c as [[] [] [] [] [] [] [] []], hexadecimal;
    try discriminate; intros _; repeat split; reflexivity.
Qed.

(** Reading digits stops at the end of the digits of the constant. *)
Lemma readNumericFrom_digits (hexadecimal : bool) (ds rest : string) (len : nat) :
  allDigits hexadecimal ds = true ->
  isNumber (charOf rest 0) hexadecimal = false ->
  readNumericFrom hexadecimal (-1) (ds ++ rest) len = ds.
Proof.
  intros Hds Hrest. revert len. induction ds as [|d ds IH]; intros len.
  - destruct rest as [|c rest]; [reflexivity|].
    change (isNumber c hexadecimal = false) in Hrest.
    change ("" +:+ String c rest) with (String c rest).
    cbn [readNumericFrom]. rewrite Hrest. reflexivity.
  - cbn [allDigits] in Hds. apply andb_true_iff in Hds as [Hd Hds].
    change (String d ds +:+ rest) with (String d (ds +:+ rest)).
    cbn [readNumericFrom]. rewrite Hd.
    destruct (Z.eqb_spec (Z.of_nat len) (-1)) as [E|_]; [lia|].
    cbn [negb andb]. rewrite IH by assumption. reflexivity.
Qed.

Lemma parseDigits_value (hexadecimal : bool) (ds : string) (acc : Z) :
  allDigits hexadecimal ds = true ->
  parseDigits (if hexadecimal then 16 else 10)%Z ds (Num acc)
  = Num (digitsValue (if hexadecimal then 16 else 10)%Z ds acc).
Proof.
  intros Hds. revert acc. induction ds as [|d ds IH]; intros acc.
  - reflexivity.
  - cbn [allDigits] in Hds. apply andb_true_iff in Hds as [Hd Hds].
    cbn [parseDigits digitsValue].
    destruct (isNumber_digitValue d hexadecimal Hd) as (v & -> & Hv).
    destruct (Z.ltb_spec v (if hexadecimal then 16 else 10)%Z); [|lia].
    apply IH, Hds.
Qed.

Lemma parseDigits_value_NaN (hexadecimal : bool) (ds : string) :
  ds <> "" -> allDigits hexadecimal ds = true ->
  parseDigits (if hexadecimal then 16 else 10)%Z ds NaN
  = Num (digitsValue (if hexadecimal then 16 else 10)%Z ds 0).
Proof.
  intros Hne Hds. destruct ds as [|d ds]; [contradiction|].
  cbn [allDigits] in Hds. apply andb_true_iff in Hds as [Hd Hds].
  cbn [parseDigits digitsValue].
  destruct (isNumber_digitValue d hexadecimal Hd) as (v & -> & Hv).
  destruct (Z.ltb_spec v (if hexadecimal then 16 else 10)%Z); [|lia].
  cbn [default]. rewrite Z.mul_0_l, Z.add_0_l.
  apply parseDigits_value, Hds.
Qed.

(** [parseInt] of the sign and the digits is the value of the
    constant. *)
Lemma parseInt_constant (neg hexadecimal : bool) (ds : string) :
  ds <> "" -> allDigits hexadecimal ds = true ->
  parseInt ((if neg then "-" else "") ++ ds) (if hexadecimal then 16 else 10)%Z
  = Num (let magnitude := digitsValue (if hexadecimal then 16 else 10)%Z ds 0 in
         if neg then (- magnitude)%Z else magnitude).
Proof.
  intros Hne Hds. destruct neg; simpl.
  - rewrite parseDigits_value_NaN by assumption. reflexivity.
  - unfold parseInt. destruct ds as [|d ds]; [contradiction|].
    assert (Hd : isNumber d hexadecimal = true).
    { simpl in Hds. apply andb_true_iff in Hds as [Hd _]. exact Hd. }
    destruct (isNumber_not_special d hexadecimal Hd) as (_ & _ & _ & Hminus).
    destruct (Ascii.eqb_spec d "-") as [->|_]; [discriminate|].
    assert (Hgo : parseDigits (if hexadecimal then 16 else 10)%Z (String d ds) NaN
                  = Num (digitsValue (if hexadecimal then 16 else 10)%Z (String d ds) 0))
      by (apply parseDigits_value_NaN; [discriminate | exact Hds]).
    destruct d as [[] [] [] [] [] [] [] []]; try exact Hgo; discriminate.
Qed.

Lemma append_cons (c : ascii) (s t : string) : String c s +:+ t = String c (s +:+ t).
Proof. reflexivity. Qed.

Lemma append_nil (t : string) : "" +:+ t = t.
Proof. reflexivity. Qed.

Lemma getChar_at (input : string) (pos : nat) (s : string) :
  string_drop pos input = s -> forall k, getChar input pos k = charOf s k.
Proof. intros <- k. apply getChar_charOf. Qed.

Lemma string_drop_next (input : string) (pos : nat) (c : ascii) (s : string) :
  string_drop pos input = String c s -> string_drop (S pos) input = s.
Proof.
  intros H. rewrite <- (Nat.add_1_r pos), string_drop_add, H. reflexivity.
Qed.

Lemma string_drop_append (ds rest : string) :
  string_drop (String.length ds) (ds +:+ rest) = rest.
Proof. induction ds as [|d ds IH]; [reflexivity | exact IH]. Qed.

Lemma string_drop_digits (input : string) (pos : nat) (ds rest : string) :
  string_drop pos input = ds +:+ rest ->
  string_drop (pos + String.length ds) input = rest.
Proof. intros H. rewrite string_drop_add, H. apply string_drop_append. Qed.

Lemma readNumeric_digits (input : string) (hexadecimal : bool) (pos : nat)
      (ds rest : string) :
  string_drop pos input = ds +:+ rest ->
  allDigits hexadecimal ds = true ->
  isNumber (charOf rest 0) hexadecimal = false ->
  readNumeric input hexadecimal (-1) pos = (ds, pos + String.length ds).
Proof.
  intros Hdrop Hds Hrest. unfold readNumeric.
  rewrite Hdrop, readNumericFrom_digits by assumption. reflexivity.
Qed.

(** A digit sequence with one digit denotes a number below the radix. *)
Lemma single_digit_in_range (hexadecimal : bool) (d : ascii) :
  isNumber d hexadecimal = true ->
  (0 <= digitsValue (if hexadecimal then 16 else 10) (String d "") 0 < 16)%Z.
Proof.
  intros Hd. destruct (isNumber_digitValue d hexadecimal Hd) as (v & Hv & Hb).
  cbn [digitsValue]. rewrite Hv. simpl. destruct hexadecimal; lia.
Qed.

(** After the digits of a decimal constant that is not continued as a
    real constant, every way through the rest of [lexNumber] makes the
    token from the sign and the digits read so far. *)
Ltac after_decimal_digits Hreal Hmake :=
  unfold continuesAsReal in Hreal;
  destruct (Ascii.eqb (charOf _ 0) ".") eqn:?;
  destruct (isNumber (charOf _ 1) false) eqn:?;
  destruct (Ascii.eqb (charOf _ 0) "e") eqn:?;
  destruct (Ascii.eqb (charOf _ 0) "E") eqn:?;
  destruct (Ascii.eqb (charOf _ 1) "~" && isNumber (charOf _ 2) false) eqn:?;
  cbn [andb orb] in Hreal |- *; try discriminate Hreal;
  rewrite Hmake; reflexivity.

Ltac chars_at H := rewrite ?(getChar_at _ _ _ H); cbn [charOf String.get].

Ltac booleans := cbn [andb orb negb]; rewrite ?andb_false_r; cbn [andb orb negb].

Ltac second_digit Hds Hrange d0 Hd0 d1 Hd1w Hd1x :=
  match type of Hds with
  | allDigits _ (String _ ?ds') = true => destruct ds' as [|d1 ?ds'']
  end;
  [ exfalso; pose proof (single_digit_in_range false d0 Hd0) as Hsmall;
    unfold MAXINT, MININT in Hrange; cbv beta iota zeta in Hrange, Hsmall; lia
  | assert (Hd1 : isNumber d1 false = true)
      by (cbn [allDigits] in Hds; apply andb_true_iff in Hds as [_ H];
          apply andb_true_iff in H as [H _]; exact H);
    destruct (isNumber_not_special d1 _ Hd1) as (_ & Hd1w & Hd1x & _) ].

(** [lexNumber] on a constant that stands at the cursor and denotes a
    number out of range. *)
Lemma lexNumber_out_of_range (input : string) (l : Cursor) (c : NumericConstant)
      (rest : string) :
  string_drop (position l) input = constantText c +:+ rest ->
  wellFormed c = true ->
  delimited c rest = true ->
  (MAXINT < constantValue c \/ constantValue c < MININT)%Z ->
  lexNumber input l = Throw LexerError.
Proof.
  destruct c as [neg f ds]. unfold constantText, wellFormed, delimited, constantValue.
  cbn [negative form digits]. intros Hdrop Hwf Hdelim Hrange.
  apply andb_true_iff in Hwf as [Hwf Hsign]. apply andb_true_iff in Hwf as [Hne Hds].
  apply andb_true_iff in Hdelim as [Hstop Hreal].
  apply negb_true_iff in Hne, Hstop, Hreal, Hsign.
  assert (Hnonempty : ds <> "") by (intros ->; discriminate Hne).
  pose proof (parseInt_constant neg (formHexadecimal f) ds Hnonempty Hds) as Hvalue.
  cbv zeta in Hvalue.
  assert (Hmake : forall l' word,
             makeNumberToken input l' ((if neg then "-" else "") +:+ ds)
                             false word (formHexadecimal f) = Throw LexerError).
  { intros l' word. eapply makeNumberToken_out_of_range; [exact Hvalue | exact Hrange]. }
  destruct ds as [|d0 ds']; [discriminate|]. clear Hne Hnonempty.
  assert (Hd0 : isNumber d0 (formHexadecimal f) = true).
  { cbn [allDigits] in Hds. apply andb_true_iff in Hds as [H _]. exact H. }
  destruct (isNumber_not_special d0 _ Hd0) as (Hd0t & Hd0w & Hd0x & _).
  destruct f, neg; try discriminate Hsign; cbn [formHexadecimal formPrefix] in *.
  - (* ~ and decimal digits *)
    second_digit Hds Hrange d0 Hd0 d1 Hd1w Hd1x.
    change (string_drop (position l) input
            = String "~" (String d0 (String d1 (ds'' +:+ rest)))) in Hdrop.
    pose proof (string_drop_next _ _ _ _ Hdrop) as Hdrop1.
    pose proof (string_drop_digits _ _ (String d0 (String d1 ds'')) rest Hdrop1) as Hend.
    unfold lexNumber.
    chars_at Hdrop. rewrite Ascii.eqb_refl. booleans.
    chars_at Hdrop1. rewrite Hd1w, Hd1x. booleans.
    rewrite (readNumeric_digits input false _ (String d0 (String d1 ds'')) rest Hdrop1 Hds Hstop).
    booleans. chars_at Hend.
    after_decimal_digits Hreal Hmake.
  - (* decimal digits *)
    second_digit Hds Hrange d0 Hd0 d1 Hd1w Hd1x.
    change (string_drop (position l) input
            = String d0 (String d1 (ds'' +:+ rest))) in Hdrop.
    pose proof (string_drop_digits _ _ (String d0 (String d1 ds'')) rest Hdrop) as Hend.
    unfold lexNumber.
    chars_at Hdrop. rewrite Hd0t. booleans.
    chars_at Hdrop. rewrite Hd1w, Hd1x. booleans.
    rewrite (readNumeric_digits input false _ (String d0 (String d1 ds'')) rest Hdrop Hds Hstop).
    booleans. chars_at Hend.
    after_decimal_digits Hreal Hmake.
  - (* ~0x and hexadecimal digits *)
    change (string_drop (position l) input
            = String "~" (String "0" (String "x" (String d0 (ds' +:+ rest))))) in Hdrop.
    pose proof (string_drop_next _ _ _ _ Hdrop) as Hdrop1.
    pose proof (string_drop_next _ _ _ _ Hdrop1) as Hdrop2.
    assert (Hdrop3 : string_drop (S (S (position l)) + 1) input = String d0 ds' +:+ rest)
      by (rewrite string_drop_add, Hdrop2; reflexivity).
    unfold lexNumber.
    chars_at Hdrop. rewrite Ascii.eqb_refl. booleans.
    chars_at Hdrop1. rewrite ?Ascii.eqb_refl.
    change (Ascii.eqb "x" "w") with false. booleans.
    chars_at Hdrop2. rewrite ?Ascii.eqb_refl.
    change (Ascii.eqb "x" "w") with false. booleans.
    chars_at Hdrop2. rewrite Hd0. booleans.
    rewrite (readNumeric_digits input true _ (String d0 ds') rest Hdrop3 Hds Hstop).
    rewrite Hmake. reflexivity.
  - (* 0x and hexadecimal digits *)
    change (string_drop (position l) input
            = String "0" (String "x" (String d0 (ds' +:+ rest)))) in Hdrop.
    pose proof (string_drop_next _ _ _ _ Hdrop) as Hdrop1.
    assert (Hdrop2 : string_drop (S (position l) + 1) input = String d0 ds' +:+ rest)
      by (rewrite string_drop_add, Hdrop1; reflexivity).
    unfold lexNumber.
    chars_at Hdrop. change (Ascii.eqb "0" "~") with false. booleans.
    chars_at Hdrop. rewrite ?Ascii.eqb_refl.
    change (Ascii.eqb "x" "w") with false. booleans.
    chars_at Hdrop1. rewrite ?Ascii.eqb_refl.
    change (Ascii.eqb "x" "w") with false. booleans.
    chars_at Hdrop1. rewrite Hd0. booleans.
    rewrite (readNumeric_digits input true _ (String d0 ds') rest Hdrop2 Hds Hstop).
    rewrite Hmake. reflexivity.
  - (* 0w and decimal digits *)
    change (string_drop (position l) input
            = String "0" (String "w" (String d0 (ds' +:+ rest)))) in Hdrop.
    pose proof (string_drop_next _ _ _ _ Hdrop) as Hdrop1.
    assert (Hdrop2 : string_drop (S (position l) + 1) input = String d0 ds' +:+ rest)
      by (rewrite string_drop_add, Hdrop1; reflexivity).
    unfold lexNumber.
    chars_at Hdrop. change (Ascii.eqb "0" "~") with false. booleans.
    chars_at Hdrop. rewrite ?Ascii.eqb_refl.
    booleans.
    chars_at Hdrop1. rewrite ?Ascii.eqb_refl. booleans.
    chars_at Hdrop1. rewrite Hd0x. booleans.
    chars_at Hdrop1. rewrite Hd0. booleans.
    rewrite (readNumeric_digits input false _ (String d0 ds') rest Hdrop2 Hds Hstop).
    rewrite Hmake. reflexivity.
  - (* 0wx and hexadecimal digits *)
    change (string_drop (position l) input
            = String "0" (String "w" (String "x" (String d0 (ds' +:+ rest))))) in Hdrop.
    pose proof (string_drop_next _ _ _ _ Hdrop) as Hdrop1.
    assert (Hdrop2 : string_drop (S (position l) + 2) input = String d0 ds' +:+ rest)
      by (rewrite string_drop_add, Hdrop1; reflexivity).
    unfold lexNumber.
    chars_at Hdrop. change (Ascii.eqb "0" "~") with false. booleans.
    chars_at Hdrop. rewrite ?Ascii.eqb_refl.
    booleans.
    chars_at Hdrop1. rewrite ?Ascii.eqb_refl. booleans.
    chars_at Hdrop1. rewrite ?Ascii.eqb_refl. booleans.
    chars_at Hdrop1. rewrite Hd0. booleans.
    rewrite (readNumeric_digits input true _ (String d0 ds') rest Hdrop2 Hds Hstop).
    rewrite Hmake. reflexivity.
Qed.

(** A constant at the cursor makes [nextToken] read a number. *)
Lemma constant_starts_number (input : string) (pos : nat) (c : NumericConstant)
      (rest : string) :
  string_drop pos input = constantText c +:+ rest ->
  wellFormed c = true ->
  isNumber (getChar input pos 0) false
  || (Ascii.eqb (getChar input pos 0) "~" && isNumber (getChar input pos 1) false)
  = true.
Proof.
  destruct c as [neg f ds]. unfold constantText, wellFormed.
  cbn [negative form digits]. intros Hdrop Hwf.
  apply andb_true_iff in Hwf as [Hwf Hsign]. apply andb_true_iff in Hwf as [Hne Hds].
  destruct ds as [|d0 ds']; [discriminate|].
  cbn [allDigits] in Hds. apply andb_true_iff in Hds as [Hd0 _].
  rewrite !(getChar_at _ _ _ Hdrop).
  destruct f, neg; try discriminate Hsign;
    cbv [charOf String.get String.append formPrefix formHexadecimal] in Hd0 |- *;
    rewrite ?Hd0; reflexivity.
Qed.

Lemma nextToken_out_of_range (input : string) (options : Options) (l : Cursor)
      (c : NumericConstant) (rest : string) :
  string_drop (position l) input = constantText c +:+ rest ->
  wellFormed c = true ->
  delimited c rest = true ->
  (MAXINT < constantValue c \/ constantValue c < MININT)%Z ->
  nextToken input options l = Throw LexerError.
Proof.
  intros Hdrop Hwf Hdelim Hrange. unfold nextToken. cbn [position].
  rewrite (constant_starts_number input _ c rest Hdrop Hwf).
  rewrite (lexNumber_out_of_range
             input {| position := position l; tokenStart := position l |} c rest
             Hdrop Hwf Hdelim Hrange).
  reflexivity.
Qed.

(** The text of a well-formed constant is not empty, so the lexer has
    not finished where one stands. *)
Lemma constant_not_finished (input : string) (l : Cursor) (c : NumericConstant)
      (rest : string) :
  string_drop (position l) input = constantText c +:+ rest ->
  wellFormed c = true ->
  finished input l = false.
Proof.
  destruct c as [neg f ds]. unfold constantText, wellFormed, finished, input_length.
  cbn [negative form digits]. intros Hdrop Hwf.
  apply andb_true_iff in Hwf as [Hwf _]. apply andb_true_iff in Hwf as [Hne _].
  destruct ds as [|d0 ds']; [discriminate|].
  apply Nat.leb_gt.
  destruct f, neg; cbv [String.append formPrefix] in Hdrop;
    eapply string_drop_length; exact Hdrop.
Qed.

(** The cursor after [n] more tokens, where the loop of [lex] gets that
    far. *)
Fixpoint cursorAfter (input : string) (options : Options) (n : nat) (l : Cursor)
  : option Cursor :=
  match n with
  | O => Some l
  | S n' =>
      if finished input l then None
      else
        match nextToken input options l with
        | Ok (_, l') => cursorAfter input options n' l'
        | Throw _ => None
        end
  end.

Lemma lexLoop_cursorAfter (input : string) (options : Options) (n : nat) :
  forall (l l' : Cursor) (fuel : nat) (result : list Token),
    cursorAfter input options n l = Some l' ->
    exists result', lexLoop input options (n + fuel) l result
                    = lexLoop input options fuel l' result'.
Proof.
  induction n as [|n IH]; intros l l' fuel result Hn.
  - injection Hn as ->. exists result. reflexivity.
  - cbn [cursorAfter] in Hn.
    destruct (finished input l) eqn:Hfin; [discriminate|].
    destruct (nextToken input options l) as [[t l1]|e] eqn:Hnext; [|discriminate].
    destruct (IH l1 l' fuel (result ++ [t])%list Hn) as [result' Hres].
    exists result'. cbn [Nat.add lexLoop]. rewrite Hfin, Hnext. exact Hres.
Qed.

(** The start of [lex]: leading whitespace and comments are skipped. *)
Definition firstCursor (input : string) : outcome Cursor :=
  skipWhitespaceAndComments input {| position := 0; tokenStart := 0 |}.

(** C6.  A numeric constant in the input (decimal digits or [0x] and
    hexadecimal digits, each with or without [~]; [0w] and decimal
    digits; [0wx] and hexadecimal digits) that denotes a number above
    [MAXINT] or below [MININT] makes [lex] fail with a [LexerError].
    The constant [c] stands in the input where the lexer is after [n]
    tokens; it is the whole constant ([delimited]: no further digit and,
    after decimal digits, no fraction or exponent follows).  [n] is
    bounded by the length of the input, as every token takes at least
    one character. *)
Theorem numeric_constant_out_of_range_is_rejected
        (input : string) (options : Options) (n : nat) (l0 l : Cursor)
        (c : NumericConstant) (rest : string) :
  firstCursor input = Ok l0 ->
  cursorAfter input options n l0 = Some l ->
  n <= String.length input ->
  string_drop (position l) input = constantText c +:+ rest ->
  wellFormed c = true ->
  delimited c rest = true ->
  (MAXINT < constantValue c \/ constantValue c < MININT)%Z ->
  lex input options = Throw LexerError.
Proof.
  intros Hfirst Hn Hlen Hdrop Hwf Hdelim Hrange.
  unfold lex. unfold firstCursor in Hfirst. rewrite Hfirst.
  change (lexLoop input options (S (String.length input)) l0 [] = Throw LexerError).
  replace (S (String.length input)) with (n + S (String.length input - n)) by lia.
  destruct (lexLoop_cursorAfter input options n l0 l
              (S (String.length input - n)) [] Hn) as [result' ->].
  cbn [lexLoop].
  rewrite (constant_not_finished input l c rest Hdrop Hwf).
  rewrite (nextToken_out_of_range input options l c rest Hdrop Hwf Hdelim Hrange).
  reflexivity.
Qed.

Lemma numeric_constant_out_of_range_is_rejected_witness :
  lex "val x = 0x40000000 + 1" defaultOptions = Throw LexerError.
Proof.
  apply (numeric_constant_out_of_range_is_rejected
           "val x = 0x40000000 + 1" defaultOptions 3
           {| position := 0; tokenStart := 0 |}
           {| position := 8; tokenStart := 8 |}
           (mkConstant false Hexadecimal "40000000") " + 1").
  - reflexivity.
  - vm_compute. reflexivity.
  - simpl. lia.
  - reflexivity.
  - reflexivity.
  - reflexivity.
  - left. vm_compute. reflexivity.
Defined.

(** The constants at the edges of the range, and the first ones beyond
    them. *)
Example constants_at_the_edges :
  lex "1073741823" defaultOptions
  = Ok [NumericToken "1073741823" (Num 1073741823)]
  /\ lex "~1073741824" defaultOptions
     = Ok [IntegerConstantToken "~1073741824" (Num (-1073741824))]
  /\ lex "1073741824" defaultOptions = Throw LexerError
  /\ lex "~1073741825" defaultOptions = Throw LexerError
  /\ lex "0wx40000000" defaultOptions = Throw LexerError
  /\ lex "0w1073741824" defaultOptions = Throw LexerError
  /\ lex "~0x40000001" defaultOptions = Throw LexerError.
Proof. repeat split; vm_compute; reflexivity. Qed.

End LexerFacts.

(** ** Abstract syntax (expressions.ts, types.ts, declarations.ts)

    expressions.ts and types.ts are not at hand.  The node classes below
    are the ones that declarations.ts and the parser tests construct,
    with the argument order of their constructors.  How these classes
    are evaluated and matched is a parameter of the sections that need
    it; how they are simplified is modelled from the specification, in
    the module [Simplifier]. *)

Module Ast.

(** Positions are offsets into the source; [-1] marks synthetic nodes. *)
Abbreviation Position := Z (only parsing).

(** A token of the syntax tree: the token class with its text, and the
    position that the classes of tokens.ts take as their last argument. *)
Record Token : Type := mkToken { token : Lexer.Token; tokenPosition : Position }.

Definition getText (t : Token) : string := Lexer.Token_text (token t).

(** [new IdentifierToken(text, position)] *)
Definition IdentifierToken (text : string) (position : Position) : Token :=
  mkToken (Lexer.IdentifierToken text) position.

(** [new AlphanumericIdentifierToken(text, position)] *)
Definition AlphanumericIdentifierToken (text : string) (position : Position) : Token :=
  mkToken (Lexer.AlphanumericIdentifierToken text) position.

Inductive Type_ : Type :=
| TypeVariable (name : string) (isFree : bool) (position : Position)
| CustomType (name : string) (typeArguments : list Type_) (position : Position)
| FunctionType (parameterType returnType : Type_) (position : Position)
| RecordType (elements : list (string * Type_)) (complete : bool)
             (position : Position)
| TupleType (elements : list Type_) (position : Position).

Inductive Expression : Type :=
| Wildcard (position : Position)
| ValueIdentifier (position : Position) (name : Token)
| Constant (position : Position) (token : Token)
| Tuple (position : Position) (expressions : list Expression)
| List_ (position : Position) (expressions : list Expression)
| Record_ (position : Position) (complete : bool)
          (entries : list (string * Expression))
| RecordSelector (position : Position) (label : Token)
| Sequence (position : Position) (expressions : list Expression)
| LayeredPattern (position : Position) (identifier : Token)
                 (typeAnnotation : option Type_) (pattern : Expression)
| TypedExpression (position : Position) (expression : Expression)
                  (typeAnnotation : Type_)
| FunctionApplication (position : Position) (func argument : Expression)
| Conjunction (position : Position) (leftOperand rightOperand : Expression)
| Disjunction (position : Position) (leftOperand rightOperand : Expression)
| Conditional (position : Position) (condition consequence alternative : Expression)
| CaseAnalysis (position : Position) (expression : Expression) (match_ : Match)
| Lambda (position : Position) (match_ : Match)
| RaiseException (position : Position) (expression : Expression)
| HandleException (position : Position) (expression : Expression) (match_ : Match)
| While (position : Position) (condition body : Expression)
| LocalDeclarationExpression (position : Position) (declaration : Declaration)
                             (expression : Expression)

with Match : Type :=
| mkMatch (position : Position) (matches : list (Expression * Expression))

with Declaration : Type :=
| ValueDeclaration (position : Position) (typeVariableSequence : list Type_)
                   (valueBinding : list ValueBinding) (id : Z)
| TypeDeclaration (position : Position) (typeBinding : list TypeBinding) (id : Z)
| DatatypeDeclaration (position : Position) (datatypeBinding : list DatatypeBinding)
                      (typeBinding : option (list TypeBinding)) (id : Z)
| DatatypeReplication (position : Position) (name : Token) (oldname : Token) (id : Z)
| AbstypeDeclaration (position : Position) (datatypeBinding : list DatatypeBinding)
                     (typeBinding : option (list TypeBinding))
                     (declaration : Declaration) (id : Z)
| ExceptionDeclaration (position : Position) (bindings : list ExceptionBinding) (id : Z)
| LocalDeclaration (position : Position) (declaration body : Declaration) (id : Z)
| OpenDeclaration (position : Position) (names : list Token) (id : Z)
| EmptyDeclaration (id : Z)
| SequentialDeclaration (position : Position) (declarations : list Declaration) (id : Z)
| FunctionDeclaration (position : Position) (typeVariableSequence : list Type_)
                      (functionValueBinding : list FunctionValueBinding) (id : Z)
| InfixDeclaration (position : Position) (operators : list Token)
                   (precedence : Z) (id : Z)
| InfixRDeclaration (position : Position) (operators : list Token)
                    (precedence : Z) (id : Z)
| NonfixDeclaration (position : Position) (operators : list Token) (id : Z)

(** [<rec> pattern = expression] *)
with ValueBinding : Type :=
| mkValueBinding (position : Position) (isRecursive : bool)
                 (pattern : Expression) (expression : Expression)

(** The clauses of one function: per clause the parameter patterns, the
    optional result type and the body; [name] is a [ValueIdentifier],
    kept as its position and its token. *)
with FunctionValueBinding : Type :=
| mkFunctionValueBinding
    (position : Position)
    (parameters : list (list Expression * option Type_ * Expression))
    (name : Position * Token)

(** [typeVariableSequence name = type] *)
with TypeBinding : Type :=
| mkTypeBinding (position : Position) (typeVariableSequence : list Type_)
                (name : Token) (type : Type_)

(** [typeVariableSequence name = constructor <of type> | ...] *)
with DatatypeBinding : Type :=
| mkDatatypeBinding (position : Position) (typeVariableSequence : list Type_)
                    (name : Token) (type : list (Token * option Type_))

with ExceptionBinding : Type :=
(** [<op> name <of type>] *)
| DirectExceptionBinding (position : Position) (name : Token) (type : option Type_)
(** [<op> name = <op> oldname] *)
| ExceptionAlias (position : Position) (name : Token) (oldname : Token).

(** The [ValueIdentifier] node of a function's name. *)
Definition nameIdentifier (name : Position * Token) : Expression :=
  ValueIdentifier (fst name) (snd name).

(** The constructors of [DatatypeDeclaration] and [AbstypeDeclaration]
    refuse a [withtype] part. *)
Definition new_DatatypeDeclaration (position : Position)
           (datatypeBinding : list DatatypeBinding)
           (typeBinding : option (list TypeBinding)) (id : Z) : outcome Declaration :=
  match typeBinding with
  | Some _ => Throw FeatureDisabledError
  | None => Ok (DatatypeDeclaration position datatypeBinding typeBinding id)
  end.

Definition new_AbstypeDeclaration (position : Position)
           (datatypeBinding : list DatatypeBinding)
           (typeBinding : option (list TypeBinding))
           (declaration : Declaration) (id : Z) : outcome Declaration :=
  match typeBinding with
  | Some _ => Throw FeatureDisabledError
  | None => Ok (AbstypeDeclaration position datatypeBinding typeBinding declaration id)
  end.

End Ast.

(** ** Values (values.ts) *)

Module Values.
Import Ast.

(** A [State] object is a mutable frame that several closures and child
    states can share; a value of type [State] is the address of the frame
    in the heap of frames (see the module [States] below). *)
Abbreviation State := nat (only parsing).

(** The callback of a predefined function is host code; it is kept as a
    key into a table of host functions. *)
Abbreviation HostFunction := nat (only parsing).

(** The payload of [Real]: a finite double (every finite double is a
    rational), a signed infinity or NaN.  The arithmetic of [Real] is
    floating-point arithmetic and is not modelled. *)
Inductive real : Set :=
| RNum (q : Q)
| RNaN
| RInfinity (negative : bool).

Inductive Value : Type :=
| BoolValue (value : bool)
| CharValue (value : string)
| StringValue (value : string)
| Word (value : number)
| Integer (value : number)
| Real (value : real)
| RecordValue (entries : list (string * Value))
| FunctionValue (state : State) (recursives : list (string * Value)) (body : Match)
| ConstructedValue (constructorName : string) (argument : option Value) (id : Z)
| ExceptionValue (constructorName : string) (argument : option Value) (id : Z)
| PredefinedFunction (name : string) (apply : HostFunction)
| ValueConstructor (constructorName : string) (numArgs : Z) (id : Z)
| ExceptionConstructor (exceptionName : string) (numArgs : Z) (id : Z).

(** *** Numbers

    [Integer] and [Word] hold integral doubles.  [Num z] is the double
    whose value is [z] (the two zeros are identified: they differ only as
    divisors), so the result of an operation is its exact result rounded
    to 53 significant bits, to nearest and ties to even. *)

Definition round53 (z : Z) : Z :=
  let a := Z.abs z in
  if a <? 2 ^ 53 then z
  else
    let e := Z.log2 a - 52 in
    let q := a / 2 ^ e in
    let r := a mod 2 ^ e in
    let half := 2 ^ (e - 1) in
    let q' := if (half <? r) || ((r =? half) && Z.odd q) then q + 1 else q in
    Z.sgn z * (q' * 2 ^ e).

Definition number_of_Z (z : Z) : number :=
  let r := round53 z in
  if 2 ^ 1024 <=? Z.abs r then Infinity (r <? 0) else Num r.

Definition number_negate (a : number) : number :=
  match a with
  | Num x => Num (- x)
  | NaN => NaN
  | Infinity s => Infinity (negb s)
  end.

Definition number_add (a b : number) : number :=
  match a, b with
  | Num x, Num y => number_of_Z (x + y)
  | NaN, _ | _, NaN => NaN
  | Infinity s, Infinity s' => if Bool.eqb s s' then Infinity s else NaN
  | Infinity s, Num _ | Num _, Infinity s => Infinity s
  end.

Definition number_multiply (a b : number) : number :=
  match a, b with
  | Num x, Num y => number_of_Z (x * y)
  | NaN, _ | _, NaN => NaN
  | Infinity s, Infinity s' => Infinity (xorb s s')
  | Infinity s, Num y | Num y, Infinity s =>
      if y =? 0 then NaN else Infinity (xorb s (y <? 0))
  end.

(** The integer nearest to [num / den], ties to even, for [num >= 0]
    and [den > 0]. *)
Definition roundQuotient (num den : Z) : Z :=
  let q := num / den in
  let r := num mod den in
  if (den <? 2 * r) || ((2 * r =? den) && Z.odd q) then q + 1 else q.

(** The exponent of the last place of the double nearest to [n / d],
    for positive [n] and [d]: [E - 52] where
    [2 ^ E <= n / d < 2 ^ (E + 1)], and [-1074] in the subnormal range. *)
Definition quotientExponent (n d : Z) : Z :=
  let E0 := Z.log2 n - Z.log2 d in
  let reaches := if 0 <=? E0 then d * 2 ^ E0 <=? n else d <=? n * 2 ^ (- E0) in
  let E := if reaches then E0 else E0 - 1 in
  Z.max (E - 52) (-1074).

(** [Math.floor(x / y)] for finite [x] and [y <> 0]: the division gives
    the double nearest to the exact quotient, [m * 2 ^ e] with the sign
    of the quotient, and the floor is taken of that double. *)
Definition floorOfQuotient (x y : Z) : Z :=
  let n := Z.abs x in
  let d := Z.abs y in
  if n =? 0 then 0
  else
    let e := quotientExponent n d in
    let up := 2 ^ Z.max 0 e in
    let down := 2 ^ Z.max 0 (- e) in
    let m := roundQuotient (n * down) (d * up) in
    let signed := if xorb (x <? 0) (y <? 0) then - m else m in
    (signed * up) / down.

(** [Math.floor(a / b)].  A finite number over an infinity is a zero.
    The two zeros are one in [number], so a zero divisor is taken to be
    the positive one (over the negative zero the sign of the infinity
    is the other one). *)
Definition number_floor_divide (a b : number) : number :=
  match a, b with
  | Num x, Num y =>
      if y =? 0 then (if x =? 0 then NaN else Infinity (x <? 0))
      else Num (floorOfQuotient x y)
  | NaN, _ | _, NaN => NaN
  | Infinity _, Infinity _ => NaN
  | Infinity s, Num y => Infinity (xorb s (y <? 0))
  | Num _, Infinity _ => Num 0
  end.

(** [a % b]: the remainder has the sign of the dividend. *)
Definition number_remainder (a b : number) : number :=
  match a, b with
  | Num x, Num y => if y =? 0 then NaN else Num (Z.rem x y)
  | NaN, _ | _, NaN => NaN
  | Infinity _, _ => NaN
  | Num x, Infinity _ => Num x
  end.

Definition number_ltb (a b : number) : bool :=
  match a, b with
  | Num x, Num y => x <? y
  | NaN, _ | _, NaN => false
  | Infinity s, Infinity s' => s && negb s'
  | Infinity s, Num _ => s
  | Num _, Infinity s => negb s
  end.

Definition real_ltb (a b : real) : bool :=
  match a, b with
  | RNum x, RNum y => match Qcompare x y with Lt => true | _ => false end
  | RNaN, _ | _, RNaN => false
  | RInfinity s, RInfinity s' => s && negb s'
  | RInfinity s, RNum _ => s
  | RNum _, RInfinity s => negb s
  end.

(** *** Methods of [Integer] *)

Definition Integer_negate (this : number) : Value := Integer (number_negate this).
Definition Integer_add (this other : number) : Value := Integer (number_add this other).
Definition Integer_multiply (this other : number) : Value :=
  Integer (number_multiply this other).
Definition Integer_divide (this other : number) : Value :=
  Integer (number_floor_divide this other).
Definition Integer_modulo (this other : number) : Value :=
  Integer (number_remainder this other).

(** [compareTo] of [Integer], [Word] and [Real] on a value of the same
    class: -1, 1 or 0. *)
Definition compareNumbers (this other : number) : Z :=
  if number_ltb this other then -1
  else if number_ltb other this then 1
  else 0.

Definition compareReals (this other : real) : Z :=
  if real_ltb this other then -1
  else if real_ltb other this then 1
  else 0.

(** *** [equals]

    The method of each class, dispatched on [this].  [BoolValue],
    [CharValue] and [StringValue] compare their [value] field with the
    [value] field of the other object by strict equality, whatever its
    class; [Integer], [Word] and [Real] go through [compareTo], which
    answers [false] or [2] for another class; [FunctionValue] inherits
    the method of [Value], which throws. *)
Fixpoint equals (this other : Value) : outcome bool :=
  match this with
  | BoolValue value =>
      Ok match other with
         | BoolValue value' => Bool.eqb value value'
         | _ => false
         end
  | CharValue value | StringValue value =>
      Ok match other with
         | CharValue value' | StringValue value' => String.eqb value value'
         | _ => false
         end
  | Word value =>
      Ok match other with
         | Word value' => compareNumbers value value' =? 0
         | _ => false
         end
  | Integer value =>
      Ok match other with
         | Integer value' => compareNumbers value value' =? 0
         | _ => false
         end
  | Real value =>
      Ok match other with
         | Real value' => compareReals value value' =? 0
         | _ => false
         end
  | RecordValue entries =>
      match other with
      | RecordValue entries' =>
          (* [this.entries[i]] reads a property of the Map object, not an
             entry: the callback throws at the first key of [this] that
             [other] has as well; [forEach] returns [undefined]. *)
          if existsb (fun entry : string * Value =>
                        existsb (fun entry' : string * Value =>
                                   String.eqb (fst entry) (fst entry')) entries')
                     entries
          then Throw TypeError
          else Ok false
      | _ => Ok false
      end
  | FunctionValue _ _ _ => Throw InternalInterpreterError
  | ConstructedValue constructorName argument id =>
      match other with
      | ConstructedValue constructorName' argument' id' =>
          if negb (String.eqb constructorName constructorName') || negb (id =? id')
          then Ok false
          else
            match argument with
            | Some a =>
                match argument' with
                | None => Ok true
                | Some a' => equals a a'
                end
            | None => Ok match argument' with None => true | Some _ => false end
            end
      | _ => Ok false
      end
  | ExceptionValue constructorName argument id =>
      match other with
      | ExceptionValue constructorName' argument' id' =>
          if negb (String.eqb constructorName constructorName') || negb (id =? id')
          then Ok false
          else
            match argument with
            | Some a =>
                match argument' with
                | None => Ok true
                | Some a' => equals a a'
                end
            | None => Ok match argument' with None => true | Some _ => false end
            end
      | _ => Ok false
      end
  | PredefinedFunction name _ =>
      Ok match other with
         | PredefinedFunction name' _ => String.eqb name name'
         | _ => false
         end
  | ValueConstructor constructorName _ id =>
      Ok match other with
         | ValueConstructor constructorName' _ id' =>
             String.eqb constructorName constructorName' && (id =? id')
         | _ => false
         end
  | ExceptionConstructor exceptionName _ id =>
      Ok match other with
         | ExceptionConstructor exceptionName' _ id' =>
             String.eqb exceptionName exceptionName' && (id =? id')
         | _ => false
         end
  end.

(** [construct] of the two constructor classes. *)
Definition ValueConstructor_construct (constructorName : string) (id : Z)
           (parameter : option Value) : Value :=
  ConstructedValue constructorName parameter id.

Definition ExceptionConstructor_construct (exceptionName : string) (id : Z)
           (parameter : option Value) : Value :=
  ExceptionValue exceptionName parameter id.

End Values.

(** ** Properties of values *)

Module ValuesFacts.
Import Values.

(** C10 fails on the code: when [this] has an argument and [other] has
    none, [equals] of [ConstructedValue] and of [ExceptionValue] answers
    [true], and the other way round it answers [false]. *)
Theorem equals_argument_asymmetry (constructorName : string) (a : Value) (id : Z) :
  (equals (ConstructedValue constructorName (Some a) id)
          (ConstructedValue constructorName None id) = Ok true
   /\ equals (ConstructedValue constructorName None id)
             (ConstructedValue constructorName (Some a) id) = Ok false)
  /\ (equals (ExceptionValue constructorName (Some a) id)
             (ExceptionValue constructorName None id) = Ok true
      /\ equals (ExceptionValue constructorName None id)
                (ExceptionValue constructorName (Some a) id) = Ok false).
Proof.
  simpl. rewrite String.eqb_refl, Z.eqb_refl. simpl. auto.
Qed.

Example equals_SOME_1_SOME :
  equals (ConstructedValue "SOME" (Some (Integer (Num 1))) 0)
         (ConstructedValue "SOME" None 0) = Ok true
  /\ equals (ConstructedValue "SOME" None 0)
            (ConstructedValue "SOME" (Some (Integer (Num 1))) 0) = Ok false.
Proof. split; reflexivity. Qed.

End ValuesFacts.

(** ** The arithmetic operators of the initial state

    Modelled from the spec: initialState.ts, which binds the operators
    [+ - * div mod] to predefined functions, is not at hand.  The
    specification says that on [Integer] they detect overflow against
    [[MININT, MAXINT]] and raise [Overflow], and that [div] and [mod] by
    zero raise [Div].  The arithmetic is that of the methods of [Integer]
    in values.ts; [Integer] has no method for the difference, which is
    taken as the sum with the negated operand.  A raised exception is the
    pair of the exception value and [true], as for every predefined
    function. *)

Module Operators.
Import Values.

Definition overflowException : Value := ExceptionConstructor_construct "Overflow" 0 None.
Definition divException : Value := ExceptionConstructor_construct "Div" 0 None.

Definition hasOverflow (v : Value) : bool :=
  match v with
  | Integer value => number_gt value MAXINT || number_lt value MININT
  | _ => false
  end.

Definition checked (result : Value) : Value * bool :=
  if hasOverflow result then (overflowException, true) else (result, false).

Definition isZero (v : number) : bool :=
  match v with Num z => z =? 0 | _ => false end.

Inductive Operator : Set := Plus | Minus | Times | Div | Mod.

Definition applyOperator (op : Operator) (a b : Value) : outcome (Value * bool) :=
  match a, b with
  | Integer x, Integer y =>
      Ok match op with
         | Plus => checked (Integer_add x y)
         | Minus =>
             match Integer_negate y with
             | Integer y' => checked (Integer_add x y')
             | other => (other, false)
             end
         | Times => checked (Integer_multiply x y)
         | Div => if isZero y then (divException, true) else checked (Integer_divide x y)
         | Mod => if isZero y then (divException, true) else checked (Integer_modulo x y)
         end
  | _, _ => Throw InternalInterpreterError
  end.

(** The result that the Definition of Standard ML gives: [div] rounds
    towards negative infinity and [mod] has the sign of the divisor. *)
Definition mathematicalResult (op : Operator) (a b : Z) : Z :=
  match op with
  | Plus => a + b
  | Minus => a - b
  | Times => a * b
  | Div => a / b
  | Mod => a mod b
  end.

Definition inRange (z : Z) : Prop := MININT <= z <= MAXINT.

End Operators.

Module OperatorsFacts.
Import Values Operators.

(** *** The quotient of two doubles

    Rounding the quotient to a double before the floor is taken does not
    show while the dividend is below [2 ^ 53] in magnitude. *)

Lemma roundQuotient_bounds (num den : Z) :
  0 <= num -> 0 < den ->
  let q := num / den in let r := num mod den in
  (roundQuotient num den = q /\ 2 * r <= den)
  \/ (roundQuotient num den = q + 1 /\ den <= 2 * r).
Proof.
  intros Hn Hd q r. unfold roundQuotient. fold q r.
  destruct (Z.ltb_spec den (2 * r)); cbn [orb].
  - right. split; [reflexivity | lia].
  - destruct (Z.eqb_spec (2 * r) den); cbn [andb].
    + destruct (Z.odd q); [right | left]; split; try reflexivity; lia.
    + left. split; [reflexivity | lia].
Qed.

Lemma rounded_floor (n d P : Z) :
  0 < n -> 0 < d -> 0 < P -> d < 2 * P ->
  roundQuotient (n * P) d / P = n / d
  /\ (- roundQuotient (n * P) d) / P = (- n) / d.
Proof.
  intros Hn Hd HP Hsmall.
  pose proof (Z.div_mod n d ltac:(lia)) as Hnd.
  pose proof (Z.mod_pos_bound n d Hd) as Hr0.
  pose proof (Z.div_mod (n * P) d ltac:(lia)) as HnP.
  pose proof (Z.mod_pos_bound (n * P) d Hd) as Hr.
  set (j := n / d) in *. set (r0 := n mod d) in *.
  set (q0 := n * P / d) in *. set (r := (n * P) mod d) in *.
  assert (Hj : 0 <= j) by (apply Z.div_pos; lia).
  assert (L1 : P * j <= q0) by nia.
  assert (L2 : q0 < P * (j + 1)) by nia.
  assert (Hm : (roundQuotient (n * P) d = q0 /\ 2 * r <= d)
               \/ (roundQuotient (n * P) d = q0 + 1 /\ d <= 2 * r)).
  { apply (roundQuotient_bounds (n * P) d); nia. }
  set (m := roundQuotient (n * P) d) in *.
  assert (Hup : m < P * (j + 1)).
  { destruct Hm as [[-> _]|[-> Hround]]; [lia|].
    destruct (Z.eq_dec (q0 + 1) (P * (j + 1))) as [Heq|]; [|lia].
    exfalso. assert (r = d - P * (d - r0)) by nia. nia. }
  assert (Hlo : P * j <= m) by (destruct Hm as [[-> _]|[-> _]]; lia).
  split.
  - symmetry. apply (Z.div_unique m P j (m - P * j)); lia.
  - destruct (Z.eq_dec r0 0) as [Hz|Hnz].
    + assert (Hq : q0 = P * j /\ r = 0) by nia.
      destruct Hq as [Hq Hr']. 
      assert (m = q0) by (destruct Hm as [[-> _]|[_ ?]]; [reflexivity | lia]).
      transitivity (- j).
      * symmetry. apply (Z.div_unique (- m) P (- j) 0); lia.
      * apply (Z.div_unique (- n) d (- j) 0); lia.
    + assert (Hstrict : P * j < m).
      { destruct Hm as [[Hmq Hround]|[-> _]]; [|lia].
        destruct (Z.eq_dec q0 (P * j)) as [Heq|]; [|lia].
        exfalso. assert (r = P * r0) by nia. nia. }
      transitivity (- j - 1).
      * symmetry. apply (Z.div_unique (- m) P (- j - 1) (P * (j + 1) - m)); lia.
      * apply (Z.div_unique (- n) d (- j - 1) (d - r0)); lia.
Qed.

Lemma quotientExponent_reaches (n d : Z) :
  0 < n -> 0 < d ->
  let E0 := Z.log2 n - Z.log2 d in
  let reaches := if 0 <=? E0 then d * 2 ^ E0 <=? n else d <=? n * 2 ^ (- E0) in
  let E := if reaches then E0 else E0 - 1 in
  (0 <= E -> d * 2 ^ E <= n) /\ (E < 0 -> d <= n * 2 ^ (- E)).
Proof.
  intros Hn Hd E0 reaches E.
  destruct (Z.log2_spec n Hn) as [Hn1 Hn2]. destruct (Z.log2_spec d Hd) as [Hd1 Hd2].
  pose proof (Z.log2_nonneg n) as Hln. pose proof (Z.log2_nonneg d) as Hld.
  destruct reaches eqn:Hreach; subst E reaches.
  - destruct (Z.leb_spec 0 E0).
    + apply Z.leb_le in Hreach. split; [intros _; exact Hreach | lia].
    + apply Z.leb_le in Hreach. split; [lia | intros _; exact Hreach].
  - clear Hreach. split; intros HE.
    + (* d * 2^(E0-1) < 2^(ld+1) * 2^(E0-1) = 2^ln <= n *)
      assert (Hpow : 2 ^ Z.succ (Z.log2 d) * 2 ^ (E0 - 1) = 2 ^ Z.log2 n).
      { rewrite <- Z.pow_add_r by lia. f_equal. subst E0. lia. }
      assert (0 < 2 ^ (E0 - 1)) by (apply Z.pow_pos_nonneg; lia).
      nia.
    + (* n * 2^(1-E0) >= 2^ln * 2^(1-E0) = 2^(ld+1) > d *)
      assert (Hpow : 2 ^ Z.log2 n * 2 ^ (- (E0 - 1)) = 2 ^ Z.succ (Z.log2 d)).
      { rewrite <- Z.pow_add_r by lia. f_equal. subst E0. lia. }
      assert (0 < 2 ^ (- (E0 - 1))) by (apply Z.pow_pos_nonneg; lia).
      nia.
Qed.

Lemma quotientExponent_small (n d : Z) :
  0 < n < 2 ^ 53 -> 0 < d < 2 ^ 1024 ->
  quotientExponent n d <= 0 /\ d < 2 * 2 ^ (- quotientExponent n d).
Proof.
  intros Hn Hd. unfold quotientExponent.
  pose proof (quotientExponent_reaches n d ltac:(lia) ltac:(lia)) as Hreach.
  cbv zeta in Hreach.
  set (E0 := Z.log2 n - Z.log2 d) in *.
  set (E := if (if 0 <=? E0 then d * 2 ^ E0 <=? n else d <=? n * 2 ^ (- E0))
            then E0 else E0 - 1) in *.
  assert (HE0 : E0 <= 52).
  { assert (Z.log2 n < 53) by (apply Z.log2_lt_pow2; lia).
    pose proof (Z.log2_nonneg d). subst E0. lia. }
  assert (HE : E <= 52) by (subst E; destruct (if 0 <=? E0 then _ else _); lia).
  split; [lia|].
  destruct (Z.max_spec (E - 52) (-1074)) as [[Hlt ->]|[Hge ->]].
  - change (- -1074) with 1074.
    assert (2 ^ 1024 < 2 ^ 1074) by (apply Z.pow_lt_mono_r; lia). lia.
  - replace (- (E - 52)) with (52 - E) by lia.
    assert (HP : 0 < 2 ^ (52 - E)) by (apply Z.pow_pos_nonneg; lia).
    assert (Hkey : 2 ^ 52 * d <= n * 2 ^ (52 - E)).
    { destruct Hreach as [Hpos Hneg]. destruct (Z.le_gt_cases 0 E) as [H0|H0].
      - specialize (Hpos H0).
        assert (Hpow : 2 ^ E * 2 ^ (52 - E) = 2 ^ 52)
          by (rewrite <- Z.pow_add_r by lia; f_equal; lia).
        nia.
      - specialize (Hneg H0).
        assert (Hpow : 2 ^ (- E) * 2 ^ 52 = 2 ^ (52 - E))
          by (rewrite <- Z.pow_add_r by lia; f_equal; lia).
        nia. }
    assert (0 < 2 ^ 52) by (apply Z.pow_pos_nonneg; lia).
    assert (2 ^ 53 = 2 * 2 ^ 52) by reflexivity.
    nia.
Qed.

(** Below [2 ^ 53] the rounding of the quotient does not show. *)
Lemma floorOfQuotient_exact (x y : Z) :
  Z.abs x < 2 ^ 53 -> y <> 0 -> Z.abs y < 2 ^ 1024 ->
  floorOfQuotient x y = x / y.
Proof.
  intros Hx Hy Hyb. unfold floorOfQuotient.
  destruct (Z.eqb_spec (Z.abs x) 0) as [Hz|Hnz].
  { assert (x = 0) by lia. subst x. reflexivity. }
  destruct (quotientExponent_small (Z.abs x) (Z.abs y) ltac:(lia) ltac:(lia)) as [He Hd].
  set (e := quotientExponent (Z.abs x) (Z.abs y)) in *.
  rewrite (Z.max_l 0 e) by lia. rewrite (Z.max_r 0 (- e)) by lia.
  change (2 ^ 0) with 1. rewrite !Z.mul_1_r.
  assert (HP : 0 < 2 ^ (- e)) by (apply Z.pow_pos_nonneg; lia).
  destruct (rounded_floor (Z.abs x) (Z.abs y) (2 ^ (- e))
              ltac:(lia) ltac:(lia) HP Hd) as [Hpos Hneg].
  destruct (Z.ltb_spec x 0), (Z.ltb_spec y 0); cbn [xorb].
  - rewrite Hpos. rewrite <- (Z.div_opp_opp x y) by lia. f_equal; lia.
  - rewrite Hneg. f_equal; lia.
  - rewrite Hneg. rewrite <- (Z.div_opp_opp x y) by lia. f_equal; lia.
  - rewrite Hpos. f_equal; lia.
Qed.

Lemma round53_small (z : Z) : Z.abs z < 2 ^ 53 -> round53 z = z.
Proof.
  intros H. unfold round53. destruct (Z.ltb_spec (Z.abs z) (2 ^ 53)); [reflexivity|lia].
Qed.

(** Rounding a magnitude of at least [2 ^ 53] gives at least [2 ^ 53],
    and at most twice the magnitude. *)
Lemma round53_large_abs (a : Z) :
  2 ^ 53 <= a ->
  let e := Z.log2 a - 52 in
  let q := a / 2 ^ e in
  forall q', q <= q' <= q + 1 -> 2 ^ 53 <= q' * 2 ^ e <= 2 * a.
Proof.
  intros Ha e q q' Hq'.
  assert (Hlog : 53 <= Z.log2 a) by (apply Z.log2_le_pow2; lia).
  assert (He : 1 <= e) by (unfold e; lia).
  assert (Hpow : 0 < 2 ^ e) by (apply Z.pow_pos_nonneg; lia).
  destruct (Z.log2_spec a ltac:(lia)) as [Hlo Hhi].
  assert (Hsplit : 2 ^ Z.log2 a = 2 ^ 52 * 2 ^ e).
  { rewrite <- Z.pow_add_r by lia. f_equal. unfold e. lia. }
  assert (Hq : 2 ^ 52 <= q).
  { unfold q. apply Z.div_le_lower_bound; [lia|]. rewrite Z.mul_comm. lia. }
  assert (Hqa : q * 2 ^ e <= a).
  { unfold q. rewrite Z.mul_comm. apply Z.mul_div_le. lia. }
  assert (Hea : 2 ^ e <= a).
  { apply Z.le_trans with (2 ^ Z.log2 a); [|lia].
    apply Z.pow_le_mono_r; unfold e; lia. }
  assert (H2e : 2 <= 2 ^ e).
  { change 2 with (2 ^ 1) at 1. apply Z.pow_le_mono_r; lia. }
  split; nia.
Qed.

Lemma round53_large (z : Z) :
  (2 ^ 53 <= z -> 2 ^ 53 <= round53 z <= 2 * z)
  /\ (z <= - 2 ^ 53 -> 2 * z <= round53 z <= - 2 ^ 53).
Proof.
  unfold round53.
  split; intros H;
    (destruct (Z.ltb_spec (Z.abs z) (2 ^ 53)) as [Hs|Hs]; [lia|]);
    set (a := Z.abs z) in *;
    pose proof (round53_large_abs a Hs) as Hbound; cbv zeta in Hbound;
    match goal with
    | |- context [if ?c then ?q + 1 else ?q] =>
        specialize (Hbound (if c then q + 1 else q)
                           ltac:(destruct c; lia))
    end.
  - replace (Z.sgn z) with 1 by (symmetry; apply Z.sgn_pos; lia).
    replace a with z in * by (unfold a; lia). lia.
  - replace (Z.sgn z) with (-1) by (symmetry; apply Z.sgn_neg; lia).
    replace a with (- z) in * by (unfold a; lia). lia.
Qed.

(** The overflow check sees through the rounding: whatever double the
    exact result [z] rounds to, it lies outside of the range exactly
    when [z] does. *)
Lemma hasOverflow_number_of_Z (z : Z) :
  hasOverflow (Integer (number_of_Z z)) = negb ((MININT <=? z) && (z <=? MAXINT)).
Proof.
  assert (Hmax : MAXINT = 1073741823) by reflexivity.
  assert (Hmin : MININT = -1073741824) by reflexivity.
  assert (H53 : 2 ^ 53 = 9007199254740992) by reflexivity.
  assert (Hbig : 2 ^ 53 < 2 ^ 1024) by (apply Z.pow_lt_mono_r; lia).
  unfold hasOverflow, number_of_Z.
  destruct (Z_lt_le_dec (Z.abs z) (2 ^ 53)) as [Hs|Hs].
  - rewrite (round53_small z Hs).
    destruct (Z.leb_spec (2 ^ 1024) (Z.abs z)); [lia|].
    unfold number_gt, number_lt.
    destruct (Z.ltb_spec MAXINT z), (Z.ltb_spec z MININT),
      (Z.leb_spec MININT z), (Z.leb_spec z MAXINT); simpl; lia.
  - destruct (Z_le_gt_dec 0 z) as [Hpos|Hneg].
    + destruct (proj1 (round53_large z) ltac:(lia)) as [Hlo Hhi].
      assert (Hr : (MININT <=? z) && (z <=? MAXINT) = false).
      { apply andb_false_iff. right. apply Z.leb_gt. lia. }
      rewrite Hr. simpl negb.
      destruct (2 ^ 1024 <=? Z.abs (round53 z)).
      * unfold number_gt.
        destruct (Z.ltb_spec (round53 z) 0); [lia|reflexivity].
      * unfold number_gt.
        destruct (Z.ltb_spec MAXINT (round53 z)); [reflexivity|lia].
    + destruct (proj2 (round53_large z) ltac:(lia)) as [Hlo Hhi].
      assert (Hr : (MININT <=? z) && (z <=? MAXINT) = false).
      { apply andb_false_iff. left. apply Z.leb_gt. lia. }
      rewrite Hr. simpl negb.
      destruct (2 ^ 1024 <=? Z.abs (round53 z)).
      * unfold number_gt, number_lt.
        destruct (Z.ltb_spec (round53 z) 0); [reflexivity|lia].
      * unfold number_gt, number_lt.
        destruct (Z.ltb_spec (round53 z) MININT); [apply orb_true_r|lia].
Qed.

Lemma checked_out_of_range (z : Z) :
  ~ inRange z -> checked (Integer (number_of_Z z)) = (overflowException, true).
Proof.
  intros H. unfold checked. rewrite hasOverflow_number_of_Z.
  unfold inRange in H.
  destruct (Z.leb_spec MININT z), (Z.leb_spec z MAXINT); simpl; try reflexivity. lia.
Qed.

Lemma checked_in_range (z : Z) :
  inRange z -> checked (Integer (number_of_Z z)) = (Integer (Num z), false).
Proof.
  intros H. unfold checked. rewrite hasOverflow_number_of_Z.
  unfold inRange in H.
  destruct (Z.leb_spec MININT z), (Z.leb_spec z MAXINT); simpl; try lia.
  unfold number_of_Z. rewrite round53_small by (unfold MININT, MAXINT in *; lia).
  destruct (Z.leb_spec (2 ^ 1024) (Z.abs z)) as [Hbig|_]; [|reflexivity].
  exfalso. assert (2 ^ 53 < 2 ^ 1024) by (apply Z.pow_lt_mono_r; lia).
  unfold MININT, MAXINT in *. lia.
Qed.

Lemma checked_Num_out_of_range (z : Z) :
  ~ inRange z -> checked (Integer (Num z)) = (overflowException, true).
Proof.
  intros H. unfold checked, hasOverflow, number_gt, number_lt, inRange in *.
  destruct (Z.ltb_spec MAXINT z), (Z.ltb_spec z MININT); simpl; try reflexivity. lia.
Qed.

(** C2.  On operands within the range of integers, each of the five
    operators raises [Overflow] when the mathematical result lies
    outside of [[MININT, MAXINT]], and [div] and [mod] raise [Div] when
    the divisor is zero. *)
Theorem integer_operators_raise (op : Operator) (a b : Z) :
  inRange a -> inRange b ->
  (b = 0 -> op = Div \/ op = Mod ->
   applyOperator op (Integer (Num a)) (Integer (Num b)) = Ok (divException, true))
  /\ ((op = Div \/ op = Mod -> b <> 0) ->
      ~ inRange (mathematicalResult op a b) ->
      applyOperator op (Integer (Num a)) (Integer (Num b)) = Ok (overflowException, true)).
Proof.
  intros Ha Hb. split.
  - intros -> [-> | ->]; reflexivity.
  - intros Hnz Hout. unfold applyOperator. f_equal.
    destruct op; cbn [mathematicalResult] in Hout.
    + apply checked_out_of_range, Hout.
    + cbn [Integer_negate number_negate Integer_add number_add].
      change (a + - b) with (a - b). apply checked_out_of_range, Hout.
    + apply checked_out_of_range, Hout.
    + assert (Hb0 : b <> 0) by auto.
      unfold isZero, Integer_divide, number_floor_divide.
      destruct (Z.eqb_spec b 0); [contradiction|].
      rewrite floorOfQuotient_exact; [apply checked_Num_out_of_range, Hout | | exact Hb0 |].
      * unfold inRange, MININT, MAXINT in Ha. change (2 ^ 53) with 9007199254740992. lia.
      * unfold inRange, MININT, MAXINT in Hb.
        assert (2 ^ 53 < 2 ^ 1024) by (apply Z.pow_lt_mono_r; lia).
        change (2 ^ 53) with 9007199254740992 in *. lia.
    + assert (Hb0 : b <> 0) by auto. exfalso. apply Hout.
      unfold inRange, MININT, MAXINT in *.
      pose proof (Z.mod_pos_bound a b). pose proof (Z.mod_neg_bound a b). lia.
Qed.

Lemma integer_operators_raise_witness :
  inRange MAXINT /\ inRange 4
  /\ applyOperator Times (Integer (Num MAXINT)) (Integer (Num 4))
     = Ok (overflowException, true).
Proof.
  assert (H1 : inRange MAXINT) by (unfold inRange, MININT, MAXINT; lia).
  assert (H2 : inRange 4) by (unfold inRange, MININT, MAXINT; lia).
  split; [exact H1|]. split; [exact H2|].
  apply (proj2 (integer_operators_raise Times MAXINT 4 H1 H2)).
  - intros [H|H]; discriminate H.
  - unfold inRange, mathematicalResult, MININT, MAXINT. lia.
Defined.

(** The operators at the edges of the range: the tests of the
    repository expect [4*1073741823] to raise [Overflow] and [1 div 0]
    to raise [Div]; the only quotient that overflows is that of the
    least integer by [~1]. *)
Example operators_at_the_edges :
  applyOperator Times (Integer (Num 4)) (Integer (Num 1073741823))
    = Ok (ExceptionValue "Overflow" None 0, true)
  /\ applyOperator Div (Integer (Num 1)) (Integer (Num 0))
    = Ok (ExceptionValue "Div" None 0, true)
  /\ applyOperator Div (Integer (Num MININT)) (Integer (Num (-1)))
    = Ok (ExceptionValue "Overflow" None 0, true)
  /\ applyOperator Plus (Integer (Num MAXINT)) (Integer (Num MININT))
    = Ok (Integer (Num (-1)), false)
  /\ applyOperator Div (Integer (Num 12)) (Integer (Num 5))
    = Ok (Integer (Num 2), false).
Proof. repeat split; reflexivity. Qed.

End OperatorsFacts.

(** ** Simplification of declarations (declarations.ts) *)

Module Declarations.
Import Ast.

Section Simplify.

(** [simplify()] of the expression and pattern classes, and of the type
    classes.  Both live in files that are not at hand: the
    simplification of declarations is written for any such pair, and
    the module [Simplifier] below models the pair from the
    specification. *)
Variable Expression_simplify : Expression -> outcome Expression.
Variable Type_simplify : Type_ -> Type_.

(** [new ValueIdentifier(-1, new IdentifierToken('__arg' + i, -1))] *)
Definition argIdentifier (i : nat) : Expression :=
  ValueIdentifier (-1) (IdentifierToken ("__arg" +:+ pretty i) (-1)).

(** [for (let i = 0; i < n; ++i) arr.push(...)]: [i] is the loop counter
    and [count] the number of iterations that are left. *)
Fixpoint pushArgIdentifiers (i count : nat) (arr : list Expression) : list Expression :=
  match count with
  | O => arr
  | S count' => pushArgIdentifiers (S i) count' (arr ++ [argIdentifier i])
  end.

(** One clause of the case analysis: the pattern is the single parameter
    pattern or the tuple of the parameter patterns, and a result type
    wraps the body in a typed expression. *)
Definition clauseMatch (parameter : list Expression * option Type_ * Expression)
  : Expression * Expression :=
  let '(patterns, type, body) := parameter in
  let pat2 :=
    match patterns with
    | [single] => single
    | _ => Tuple (-1) patterns
    end in
  match type with
  | None => (pat2, body)
  | Some t => (pat2, TypedExpression (-1) body t)
  end.

(** [for (let i = 0; i < this.parameters.length; ++i) matches.push(...)] *)
Fixpoint pushMatches (parameters : list (list Expression * option Type_ * Expression))
         (matches : list (Expression * Expression)) : list (Expression * Expression) :=
  match parameters with
  | [] => matches
  | parameter :: parameters' =>
      pushMatches parameters' (matches ++ [clauseMatch parameter])
  end.

(** [for (let i = n - 1; i >= 0; --i) exp = new Lambda(...)]: the
    argument [i] is one more than the loop counter. *)
Fixpoint wrapLambdas (i : nat) (exp : Expression) : Expression :=
  match i with
  | O => exp
  | S i' => wrapLambdas i' (Lambda (-1) (mkMatch (-1) [(argIdentifier i', exp)]))
  end.

(** [FunctionValueBinding.simplify].  The type of [name] excludes the
    guarded case [name === undefined]; indexing an empty [parameters]
    array makes the JavaScript runtime throw. *)
Definition FunctionValueBinding_simplify (b : FunctionValueBinding) : outcome ValueBinding :=
  let '(mkFunctionValueBinding position parameters name) := b in
  match parameters with
  | [] => Throw TypeError
  | (first, _, _) :: _ =>
      (* Build the case analysis, starting with the (vid1,...,vidn) *)
      let arr := pushArgIdentifiers 0 (length first) [] in
      let matches := pushMatches parameters [] in
      pat ← match arr with
            | [single] => Ok single
            | _ => Expression_simplify (Tuple (-1) arr)
            end;
      let mat := mkMatch (-1) matches in
      let exp := CaseAnalysis (-1) pat mat in
      (* Now build the lambdas around *)
      let exp := wrapLambdas (length first) exp in
      exp' ← Expression_simplify exp;
      Ok (mkValueBinding position true (nameIdentifier name) exp')
  end.

(** The loop body of [ValueDeclaration.simplify]. *)
Definition ValueBinding_simplify (b : ValueBinding) : outcome ValueBinding :=
  let '(mkValueBinding position isRecursive pattern expression) := b in
  pattern' ← Expression_simplify pattern;
  expression' ← Expression_simplify expression;
  Ok (mkValueBinding position isRecursive pattern' expression').

(** The loop body of [TypeDeclaration.simplify]. *)
Definition TypeBinding_simplify (b : TypeBinding) : TypeBinding :=
  let '(mkTypeBinding position typeVariableSequence name type) := b in
  mkTypeBinding position typeVariableSequence name (Type_simplify type).

(** The loop body of [DatatypeDeclaration.simplify] and of
    [AbstypeDeclaration.simplify]. *)
Definition DatatypeBinding_simplify (b : DatatypeBinding) : DatatypeBinding :=
  let '(mkDatatypeBinding position typeVariableSequence name type) := b in
  let ntype :=
    map (fun constructor : Token * option Type_ =>
           match snd constructor with
           | Some t => (fst constructor, Some (Type_simplify t))
           | None => constructor
           end) type in
  mkDatatypeBinding position typeVariableSequence name ntype.

(** A loop that pushes [f x] for every element [x], in order, and stops
    at the first throw. *)
Fixpoint mapM {A B : Type} (f : A -> outcome B) (l : list A) : outcome (list B) :=
  match l with
  | [] => Ok []
  | x :: l' => y ← f x; ys ← mapM f l'; Ok (y :: ys)
  end.

(** [simplify()] of every declaration class. *)
Fixpoint Declaration_simplify (d : Declaration) : outcome Declaration :=
  match d with
  | ValueDeclaration position typeVariableSequence valueBinding id =>
      valBnd ← mapM ValueBinding_simplify valueBinding;
      Ok (ValueDeclaration position typeVariableSequence valBnd id)
  | TypeDeclaration position typeBinding id =>
      Ok (TypeDeclaration position (map TypeBinding_simplify typeBinding) id)
  | DatatypeDeclaration position datatypeBinding typeBinding id =>
      new_DatatypeDeclaration position (map DatatypeBinding_simplify datatypeBinding)
                              None id
  | DatatypeReplication _ _ _ _ => Ok d
  | AbstypeDeclaration position datatypeBinding typeBinding declaration id =>
      declaration' ← Declaration_simplify declaration;
      new_AbstypeDeclaration position (map DatatypeBinding_simplify datatypeBinding)
                             typeBinding declaration' id
  | ExceptionDeclaration _ _ _ => Ok d
  | LocalDeclaration position declaration body id =>
      declaration' ← Declaration_simplify declaration;
      body' ← Declaration_simplify body;
      Ok (LocalDeclaration position declaration' body' id)
  | OpenDeclaration _ _ _ => Ok d
  | EmptyDeclaration _ => Ok d
  | SequentialDeclaration position declarations id =>
      decls ← (fix simplifyAll (l : list Declaration) : outcome (list Declaration) :=
                 match l with
                 | [] => Ok []
                 | x :: l' =>
                     y ← Declaration_simplify x; ys ← simplifyAll l'; Ok (y :: ys)
                 end) declarations;
      Ok (SequentialDeclaration position decls id)
  | FunctionDeclaration position typeVariableSequence functionValueBinding id =>
      valbnd ← mapM FunctionValueBinding_simplify functionValueBinding;
      Ok (ValueDeclaration position typeVariableSequence valbnd id)
  | InfixDeclaration _ _ _ _ => Ok d
  | InfixRDeclaration _ _ _ _ => Ok d
  | NonfixDeclaration _ _ _ => Ok d
  end.

(** *** The shape of a simplified function binding *)

(** [fn __arg_i => fn __arg_(i+1) => ... => body], with [n] lambdas. *)
Fixpoint spec_lambda_chain (i n : nat) (body : Expression) : Expression :=
  match n with
  | O => body
  | S n' =>
      Lambda (-1) (mkMatch (-1) [(argIdentifier i, spec_lambda_chain (S i) n' body)])
  end.

Lemma pushArgIdentifiers_seq (i count : nat) (arr : list Expression) :
  pushArgIdentifiers i count arr = (arr ++ map argIdentifier (seq i count))%list.
Proof.
  revert i arr; induction count as [|count IH]; intros i arr; simpl.
  - symmetry; apply app_nil_r.
  - rewrite IH, <- app_assoc. reflexivity.
Qed.

Lemma pushMatches_map (parameters : list (list Expression * option Type_ * Expression))
      (matches : list (Expression * Expression)) :
  pushMatches parameters matches = (matches ++ map clauseMatch parameters)%list.
Proof.
  revert matches; induction parameters as [|p ps IH]; intros matches; simpl.
  - symmetry; apply app_nil_r.
  - rewrite IH, <- app_assoc. reflexivity.
Qed.

Lemma wrapLambdas_chain (i n : nat) (body : Expression) :
  wrapLambdas i (spec_lambda_chain i n body) = spec_lambda_chain 0 (i + n) body.
Proof.
  revert n body; induction i as [|i IH]; intros n body; simpl.
  - reflexivity.
  - change (Lambda (-1) (mkMatch (-1) [(argIdentifier i, spec_lambda_chain (S i) n body)]))
      with (spec_lambda_chain i (S n) body).
    rewrite IH. replace (i + S n)%nat with (S (i + n)) by lia. reflexivity.
Qed.

(** What [FunctionValueBinding.simplify] builds, with the loops
    written out: the simplification of the [n] nested lambdas over
    [__arg0], ..., [__arg(n-1)] around the case analysis, whatever the
    simplification of expressions is. *)
Lemma FunctionValueBinding_simplify_chain
        (position : Position) (first : list Expression) (type : option Type_)
        (body : Expression)
        (clauses : list (list Expression * option Type_ * Expression))
        (name : Position * Token) :
  let parameters := (first, type, body) :: clauses in
  let n := length first in
  FunctionValueBinding_simplify (mkFunctionValueBinding position parameters name) =
    (scrutinee ← (if (n =? 1)%nat then Ok (argIdentifier 0)
                  else Expression_simplify (Tuple (-1) (map argIdentifier (seq 0 n))));
     rhs ← Expression_simplify
             (spec_lambda_chain 0 n
                (CaseAnalysis (-1) scrutinee (mkMatch (-1) (map clauseMatch parameters))));
     Ok (mkValueBinding position true (nameIdentifier name) rhs)).
Proof.
  intros parameters n. unfold FunctionValueBinding_simplify, parameters.
  fold parameters. fold n.
  rewrite pushArgIdentifiers_seq, pushMatches_map. simpl app.
  assert (Hpat :
    match map argIdentifier (seq 0 n) with
    | [single] => Ok single
    | _ => Expression_simplify (Tuple (-1) (map argIdentifier (seq 0 n)))
    end
    = if (n =? 1)%nat then Ok (argIdentifier 0)
      else Expression_simplify (Tuple (-1) (map argIdentifier (seq 0 n)))).
  { destruct n as [|[|n']]; reflexivity. }
  rewrite Hpat.
  destruct (if (n =? 1)%nat then _ else _) as [scrutinee|e]; [|reflexivity].
  cbn [mbind outcome_mbind outcome_bind].
  pose proof (wrapLambdas_chain n 0
                (CaseAnalysis (-1) scrutinee (mkMatch (-1) (map clauseMatch parameters))))
    as Hchain.
  simpl spec_lambda_chain in Hchain at 1. rewrite Nat.add_0_r in Hchain.
  rewrite Hchain. reflexivity.
Qed.

(** *** Bindings of types

    The loops over the bindings of types are idempotent when the
    simplification of types is. *)

Hypothesis Type_simplify_idempotent :
  forall t, Type_simplify (Type_simplify t) = Type_simplify t.

Lemma TypeBinding_simplify_fixed (l : list TypeBinding) :
  map TypeBinding_simplify (map TypeBinding_simplify l) = map TypeBinding_simplify l.
Proof.
  rewrite map_map. apply map_ext. intros [position tvs name type]. simpl.
  rewrite Type_simplify_idempotent. reflexivity.
Qed.

Lemma DatatypeBinding_simplify_fixed (l : list DatatypeBinding) :
  map DatatypeBinding_simplify (map DatatypeBinding_simplify l)
  = map DatatypeBinding_simplify l.
Proof.
  rewrite map_map. apply map_ext. intros [position tvs name type]. simpl.
  f_equal. rewrite map_map. apply map_ext. intros [constructor [t|]]; simpl.
  - rewrite Type_simplify_idempotent. reflexivity.
  - reflexivity.
Qed.

End Simplify.

(** The labels of a tuple: 1 to n. *)
Definition numberedLabels {A : Type} (l : list A) : list (string * A) :=
  imap (fun i x => (pretty (S i), x)) l.

End Declarations.

(** ** Simplification of expressions and types (expressions.ts, types.ts) *)

Module Simplifier.
Import Ast Declarations.

(** Modelled from the spec: [simplify()] of the type classes of types.ts,
    which is not at hand.  A tuple type is sugar for the record type with
    the labels 1 to n; every other type keeps its node and its parts are
    simplified. *)
Fixpoint Type_simplify (t : Type_) : Type_ :=
  match t with
  | TypeVariable _ _ _ => t
  | CustomType name typeArguments position =>
      CustomType name (map Type_simplify typeArguments) position
  | FunctionType parameterType returnType position =>
      FunctionType (Type_simplify parameterType) (Type_simplify returnType) position
  | RecordType elements complete position =>
      RecordType (map (fun element => (fst element, Type_simplify (snd element))) elements)
                 complete position
  | TupleType elements position =>
      RecordType (numberedLabels (map Type_simplify elements)) true position
  end.

(** The nodes that a rule of the simplification adds are synthetic:
    their position is [-1].  The node that takes the place of a surface
    node keeps the position of that node. *)
Definition synthetic (text : string) : Expression :=
  ValueIdentifier (-1) (IdentifierToken text (-1)).

(** [()], the empty tuple, is the empty record. *)
Definition unitExpression : Expression := Record_ (-1) true [].

(** [case e of m] in the core calculus: [(fn m) e]. *)
Definition caseOf (position : Position) (e : Expression) (m : Match) : Expression :=
  FunctionApplication position (Lambda (-1) m) e.

(** [if c then t else e] is [case c of true => t | false => e]. *)
Definition conditionalOf (position : Position) (c t e : Expression) : Expression :=
  caseOf position c (mkMatch (-1) [(synthetic "true", t); (synthetic "false", e)]).

(** [(e1; e2; ...; en)] is [case e1 of _ => case e2 of _ => ... en]. *)
Fixpoint sequenceOf (position : Position) (first : Expression) (rest : list Expression)
  : Expression :=
  match rest with
  | [] => first
  | next :: rest' =>
      caseOf position first (mkMatch (-1) [(Wildcard (-1), sequenceOf (-1) next rest')])
  end.

(** [[e1, ..., en]] is [e1 :: ... :: en :: nil], where [::] is applied
    to the pair of the head and the tail. *)
Fixpoint listOf (position : Position) (elements : list Expression) : Expression :=
  match elements with
  | [] => ValueIdentifier position (IdentifierToken "nil" position)
  | head :: tail =>
      FunctionApplication position (synthetic "::")
        (Record_ (-1) true [("1", head); ("2", listOf (-1) tail)])
  end.

(** [while c do b] is [let val rec loop = fn () => if c then (b; loop ())
    else () in loop () end]. *)
Definition whileOf (position : Position) (c b : Expression) : Expression :=
  let call := FunctionApplication (-1) (synthetic "loop") unitExpression in
  LocalDeclarationExpression position
    (ValueDeclaration (-1) []
       [mkValueBinding (-1) true (synthetic "loop")
          (Lambda (-1)
             (mkMatch (-1)
                [(unitExpression,
                  conditionalOf (-1) c (sequenceOf (-1) b [call]) unitExpression)]))]
       0)
    call.

(** The scrutinee of the case analysis of a function with [n]
    parameters: the parameter itself for [n = 1], else the tuple of the
    parameters, which is the record with the labels 1 to n. *)
Definition scrutinee (n : nat) : Expression :=
  match map argIdentifier (seq 0 n) with
  | [single] => single
  | arr => Record_ (-1) true (numberedLabels arr)
  end.

(** Modelled from the spec: [simplify()] of the expression and pattern
    classes and of [Match] of expressions.ts, which is not at hand.
    Every surface node is rewritten to the core calculus of [fn],
    application, records, constructors, typed expressions, [raise],
    [handle] and [let]: tuples become records, lists become applications
    of [::], sequences, conditionals, [andalso], [orelse] and [case]
    become applications of a [fn], [while] becomes a recursive function,
    and the parts of every node are simplified.  A sequence without an
    expression is not an expression.

    The declaration of a [let] is simplified as declarations.ts does it
    ([Declaration_lower] is [Declaration_simplify], see
    [Declaration_lower_spec] below); the right-hand side of a function
    is written here in its simplified form. *)
Fixpoint Expression_simplify (e : Expression) {struct e} : outcome Expression :=
  match e with
  | Wildcard _ | ValueIdentifier _ _ | Constant _ _ | RecordSelector _ _ => Ok e
  | Tuple position expressions =>
      expressions' ← mapM Expression_simplify expressions;
      Ok (Record_ position true (numberedLabels expressions'))
  | List_ position expressions =>
      expressions' ← mapM Expression_simplify expressions;
      Ok (listOf position expressions')
  | Record_ position complete entries =>
      entries' ← mapM (fun entry : string * Expression =>
                         value ← Expression_simplify (snd entry);
                         Ok (fst entry, value)) entries;
      Ok (Record_ position complete entries')
  | Sequence position expressions =>
      expressions' ← mapM Expression_simplify expressions;
      match expressions' with
      | [] => Throw InternalInterpreterError
      | first :: rest => Ok (sequenceOf position first rest)
      end
  | LayeredPattern position identifier typeAnnotation pattern =>
      pattern' ← Expression_simplify pattern;
      Ok (LayeredPattern position identifier (Type_simplify <$> typeAnnotation) pattern')
  | TypedExpression position expression typeAnnotation =>
      expression' ← Expression_simplify expression;
      Ok (TypedExpression position expression' (Type_simplify typeAnnotation))
  | FunctionApplication position func argument =>
      func' ← Expression_simplify func;
      argument' ← Expression_simplify argument;
      Ok (FunctionApplication position func' argument')
  | Conjunction position leftOperand rightOperand =>
      leftOperand' ← Expression_simplify leftOperand;
      rightOperand' ← Expression_simplify rightOperand;
      Ok (conditionalOf position leftOperand' rightOperand' (synthetic "false"))
  | Disjunction position leftOperand rightOperand =>
      leftOperand' ← Expression_simplify leftOperand;
      rightOperand' ← Expression_simplify rightOperand;
      Ok (conditionalOf position leftOperand' (synthetic "true") rightOperand')
  | Conditional position condition consequence alternative =>
      condition' ← Expression_simplify condition;
      consequence' ← Expression_simplify consequence;
      alternative' ← Expression_simplify alternative;
      Ok (conditionalOf position condition' consequence' alternative')
  | CaseAnalysis position expression match_ =>
      match' ← Match_simplify match_;
      expression' ← Expression_simplify expression;
      Ok (caseOf position expression' match')
  | Lambda position match_ =>
      match' ← Match_simplify match_;
      Ok (Lambda position match')
  | RaiseException position expression =>
      expression' ← Expression_simplify expression;
      Ok (RaiseException position expression')
  | HandleException position expression match_ =>
      expression' ← Expression_simplify expression;
      match' ← Match_simplify match_;
      Ok (HandleException position expression' match')
  | While position condition body =>
      condition' ← Expression_simplify condition;
      body' ← Expression_simplify body;
      Ok (whileOf position condition' body')
  | LocalDeclarationExpression position declaration expression =>
      declaration' ← Declaration_lower declaration;
      expression' ← Expression_simplify expression;
      Ok (LocalDeclarationExpression position declaration' expression')
  end

with Match_simplify (m : Match) {struct m} : outcome Match :=
  match m with
  | mkMatch position matches =>
      matches' ← mapM (fun rule : Expression * Expression =>
                         pattern' ← Expression_simplify (fst rule);
                         expression' ← Expression_simplify (snd rule);
                         Ok (pattern', expression')) matches;
      Ok (mkMatch position matches')
  end

with Declaration_lower (d : Declaration) {struct d} : outcome Declaration :=
  match d with
  | ValueDeclaration position typeVariableSequence valueBinding id =>
      valBnd ← mapM ValueBinding_lower valueBinding;
      Ok (ValueDeclaration position typeVariableSequence valBnd id)
  | TypeDeclaration position typeBinding id =>
      Ok (TypeDeclaration position (map (TypeBinding_simplify Type_simplify) typeBinding) id)
  | DatatypeDeclaration position datatypeBinding typeBinding id =>
      new_DatatypeDeclaration
        position (map (DatatypeBinding_simplify Type_simplify) datatypeBinding) None id
  | DatatypeReplication _ _ _ _ => Ok d
  | AbstypeDeclaration position datatypeBinding typeBinding declaration id =>
      declaration' ← Declaration_lower declaration;
      new_AbstypeDeclaration
        position (map (DatatypeBinding_simplify Type_simplify) datatypeBinding)
        typeBinding declaration' id
  | ExceptionDeclaration _ _ _ => Ok d
  | LocalDeclaration position declaration body id =>
      declaration' ← Declaration_lower declaration;
      body' ← Declaration_lower body;
      Ok (LocalDeclaration position declaration' body' id)
  | OpenDeclaration _ _ _ => Ok d
  | EmptyDeclaration _ => Ok d
  | SequentialDeclaration position declarations id =>
      decls ← mapM Declaration_lower declarations;
      Ok (SequentialDeclaration position decls id)
  | FunctionDeclaration position typeVariableSequence functionValueBinding id =>
      valbnd ← mapM FunctionValueBinding_lower functionValueBinding;
      Ok (ValueDeclaration position typeVariableSequence valbnd id)
  | InfixDeclaration _ _ _ _ => Ok d
  | InfixRDeclaration _ _ _ _ => Ok d
  | NonfixDeclaration _ _ _ => Ok d
  end

with ValueBinding_lower (b : ValueBinding) {struct b} : outcome ValueBinding :=
  match b with
  | mkValueBinding position isRecursive pattern expression =>
      pattern' ← Expression_simplify pattern;
      expression' ← Expression_simplify expression;
      Ok (mkValueBinding position isRecursive pattern' expression')
  end

with FunctionValueBinding_lower (b : FunctionValueBinding) {struct b}
  : outcome ValueBinding :=
  match b with
  | mkFunctionValueBinding position parameters name =>
      match parameters with
      | [] => Throw TypeError
      | (first, _, _) :: _ =>
          matches ← mapM (fun clause : list Expression * option Type_ * Expression =>
                            let '(patterns, type, body) := clause in
                            pattern' ← match patterns with
                                       | [single] => Expression_simplify single
                                       | _ =>
                                           patterns' ← mapM Expression_simplify patterns;
                                           Ok (Record_ (-1) true (numberedLabels patterns'))
                                       end;
                            body' ← Expression_simplify body;
                            Ok (pattern',
                                match type with
                                | None => body'
                                | Some t => TypedExpression (-1) body' (Type_simplify t)
                                end)) parameters;
          Ok (mkValueBinding position true (nameIdentifier name)
                (spec_lambda_chain 0 (length first)
                   (caseOf (-1) (scrutinee (length first)) (mkMatch (-1) matches))))
      end
  end.

(** *** Induction over the syntax

    Expressions, matches, declarations and bindings are defined
    together, with lists of one inside the other; the induction
    hypothesis of a node holds of every node in its lists. *)
Section SyntaxInduction.

Variable Pe : Expression -> Prop.
Variable Pm : Match -> Prop.
Variable Pd : Declaration -> Prop.
Variable Pb : ValueBinding -> Prop.
Variable Pf : FunctionValueBinding -> Prop.

Hypothesis HWildcard : forall p, Pe (Wildcard p).
Hypothesis HValueIdentifier : forall p n, Pe (ValueIdentifier p n).
Hypothesis HConstant : forall p t, Pe (Constant p t).
Hypothesis HTuple : forall p es, Forall Pe es -> Pe (Tuple p es).
Hypothesis HList : forall p es, Forall Pe es -> Pe (List_ p es).
Hypothesis HRecord :
  forall p c entries, Forall (fun entry => Pe (snd entry)) entries -> Pe (Record_ p c entries).
Hypothesis HRecordSelector : forall p l, Pe (RecordSelector p l).
Hypothesis HSequence : forall p es, Forall Pe es -> Pe (Sequence p es).
Hypothesis HLayeredPattern : forall p i t e, Pe e -> Pe (LayeredPattern p i t e).
Hypothesis HTypedExpression : forall p e t, Pe e -> Pe (TypedExpression p e t).
Hypothesis HFunctionApplication :
  forall p f a, Pe f -> Pe a -> Pe (FunctionApplication p f a).
Hypothesis HConjunction : forall p l r, Pe l -> Pe r -> Pe (Conjunction p l r).
Hypothesis HDisjunction : forall p l r, Pe l -> Pe r -> Pe (Disjunction p l r).
Hypothesis HConditional :
  forall p c t e, Pe c -> Pe t -> Pe e -> Pe (Conditional p c t e).
Hypothesis HCaseAnalysis : forall p e m, Pe e -> Pm m -> Pe (CaseAnalysis p e m).
Hypothesis HLambda : forall p m, Pm m -> Pe (Lambda p m).
Hypothesis HRaiseException : forall p e, Pe e -> Pe (RaiseException p e).
Hypothesis HHandleException : forall p e m, Pe e -> Pm m -> Pe (HandleException p e m).
Hypothesis HWhile : forall p c b, Pe c -> Pe b -> Pe (While p c b).
Hypothesis HLocalDeclarationExpression :
  forall p d e, Pd d -> Pe e -> Pe (LocalDeclarationExpression p d e).

Hypothesis HMatch :
  forall p matches,
    Forall (fun rule => Pe (fst rule) /\ Pe (snd rule)) matches -> Pm (mkMatch p matches).

Hypothesis HValueDeclaration :
  forall p tvs bindings id, Forall Pb bindings -> Pd (ValueDeclaration p tvs bindings id).
Hypothesis HTypeDeclaration : forall p bindings id, Pd (TypeDeclaration p bindings id).
Hypothesis HDatatypeDeclaration :
  forall p bindings withtype id, Pd (DatatypeDeclaration p bindings withtype id).
Hypothesis HDatatypeReplication : forall p n o id, Pd (DatatypeReplication p n o id).
Hypothesis HAbstypeDeclaration :
  forall p bindings withtype d id, Pd d -> Pd (AbstypeDeclaration p bindings withtype d id).
Hypothesis HExceptionDeclaration : forall p bindings id, Pd (ExceptionDeclaration p bindings id).
Hypothesis HLocalDeclaration :
  forall p d b id, Pd d -> Pd b -> Pd (LocalDeclaration p d b id).
Hypothesis HOpenDeclaration : forall p names id, Pd (OpenDeclaration p names id).
Hypothesis HEmptyDeclaration : forall id, Pd (EmptyDeclaration id).
Hypothesis HSequentialDeclaration :
  forall p ds id, Forall Pd ds -> Pd (SequentialDeclaration p ds id).
Hypothesis HFunctionDeclaration :
  forall p tvs bindings id, Forall Pf bindings -> Pd (FunctionDeclaration p tvs bindings id).
Hypothesis HInfixDeclaration : forall p ops n id, Pd (InfixDeclaration p ops n id).
Hypothesis HInfixRDeclaration : forall p ops n id, Pd (InfixRDeclaration p ops n id).
Hypothesis HNonfixDeclaration : forall p ops id, Pd (NonfixDeclaration p ops id).

Hypothesis HValueBinding :
  forall p r pattern e, Pe pattern -> Pe e -> Pb (mkValueBinding p r pattern e).

Hypothesis HFunctionValueBinding :
  forall p parameters name,
    Forall (fun clause : list Expression * option Type_ * Expression =>
              Forall Pe (fst (fst clause)) /\ Pe (snd clause)) parameters ->
    Pf (mkFunctionValueBinding p parameters name).

Fixpoint Expression_induction (e : Expression) {struct e} : Pe e :=
  let all := fix all (l : list Expression) : Forall Pe l :=
               match l with
               | [] => List.Forall_nil Pe
               | x :: l' => List.Forall_cons Pe x l' (Expression_induction x) (all l')
               end in
  match e with
  | Wildcard p => HWildcard p
  | ValueIdentifier p n => HValueIdentifier p n
  | Constant p t => HConstant p t
  | Tuple p es => HTuple p es (all es)
  | List_ p es => HList p es (all es)
  | Record_ p c entries =>
      HRecord p c entries
        ((fix each (l : list (string * Expression))
            : Forall (fun entry => Pe (snd entry)) l :=
            match l with
            | [] => List.Forall_nil _
            | x :: l' => List.Forall_cons _ x l' (Expression_induction (snd x)) (each l')
            end) entries)
  | RecordSelector p l => HRecordSelector p l
  | Sequence p es => HSequence p es (all es)
  | LayeredPattern p i t e' => HLayeredPattern p i t e' (Expression_induction e')
  | TypedExpression p e' t => HTypedExpression p e' t (Expression_induction e')
  | FunctionApplication p f a =>
      HFunctionApplication p f a (Expression_induction f) (Expression_induction a)
  | Conjunction p l r => HConjunction p l r (Expression_induction l) (Expression_induction r)
  | Disjunction p l r => HDisjunction p l r (Expression_induction l) (Expression_induction r)
  | Conditional p c t e' =>
      HConditional p c t e' (Expression_induction c) (Expression_induction t)
                   (Expression_induction e')
  | CaseAnalysis p e' m => HCaseAnalysis p e' m (Expression_induction e') (Match_induction m)
  | Lambda p m => HLambda p m (Match_induction m)
  | RaiseException p e' => HRaiseException p e' (Expression_induction e')
  | HandleException p e' m =>
      HHandleException p e' m (Expression_induction e') (Match_induction m)
  | While p c b => HWhile p c b (Expression_induction c) (Expression_induction b)
  | LocalDeclarationExpression p d e' =>
      HLocalDeclarationExpression p d e' (Declaration_induction d) (Expression_induction e')
  end

with Match_induction (m : Match) {struct m} : Pm m :=
  match m with
  | mkMatch p matches =>
      HMatch p matches
        ((fix each (l : list (Expression * Expression))
            : Forall (fun rule => Pe (fst rule) /\ Pe (snd rule)) l :=
            match l with
            | [] => List.Forall_nil _
            | x :: l' =>
                List.Forall_cons _ x l'
                  (conj (Expression_induction (fst x)) (Expression_induction (snd x)))
                  (each l')
            end) matches)
  end

with Declaration_induction (d : Declaration) {struct d} : Pd d :=
  match d with
  | ValueDeclaration p tvs bindings id =>
      HValueDeclaration p tvs bindings id
        ((fix each (l : list ValueBinding) : Forall Pb l :=
            match l with
            | [] => List.Forall_nil Pb
            | x :: l' => List.Forall_cons Pb x l' (ValueBinding_induction x) (each l')
            end) bindings)
  | TypeDeclaration p bindings id => HTypeDeclaration p bindings id
  | DatatypeDeclaration p bindings withtype id => HDatatypeDeclaration p bindings withtype id
  | DatatypeReplication p n o id => HDatatypeReplication p n o id
  | AbstypeDeclaration p bindings withtype d' id =>
      HAbstypeDeclaration p bindings withtype d' id (Declaration_induction d')
  | ExceptionDeclaration p bindings id => HExceptionDeclaration p bindings id
  | LocalDeclaration p d' b id =>
      HLocalDeclaration p d' b id (Declaration_induction d') (Declaration_induction b)
  | OpenDeclaration p names id => HOpenDeclaration p names id
  | EmptyDeclaration id => HEmptyDeclaration id
  | SequentialDeclaration p ds id =>
      HSequentialDeclaration p ds id
        ((fix each (l : list Declaration) : Forall Pd l :=
            match l with
            | [] => List.Forall_nil Pd
            | x :: l' => List.Forall_cons Pd x l' (Declaration_induction x) (each l')
            end) ds)
  | FunctionDeclaration p tvs bindings id =>
      HFunctionDeclaration p tvs bindings id
        ((fix each (l : list FunctionValueBinding) : Forall Pf l :=
            match l with
            | [] => List.Forall_nil Pf
            | x :: l' => List.Forall_cons Pf x l' (FunctionValueBinding_induction x) (each l')
            end) bindings)
  | InfixDeclaration p ops n id => HInfixDeclaration p ops n id
  | InfixRDeclaration p ops n id => HInfixRDeclaration p ops n id
  | NonfixDeclaration p ops id => HNonfixDeclaration p ops id
  end

with ValueBinding_induction (b : ValueBinding) {struct b} : Pb b :=
  match b with
  | mkValueBinding p r pattern e =>
      HValueBinding p r pattern e (Expression_induction pattern) (Expression_induction e)
  end

with FunctionValueBinding_induction (b : FunctionValueBinding) {struct b} : Pf b :=
  match b with
  | mkFunctionValueBinding p parameters name =>
      HFunctionValueBinding p parameters name
        ((fix each (l : list (list Expression * option Type_ * Expression))
            : Forall (fun clause => Forall Pe (fst (fst clause)) /\ Pe (snd clause)) l :=
            match l with
            | [] => List.Forall_nil _
            | x :: l' =>
                List.Forall_cons _ x l'
                  (conj ((fix all (l : list Expression) : Forall Pe l :=
                            match l with
                            | [] => List.Forall_nil Pe
                            | y :: l'' =>
                                List.Forall_cons Pe y l'' (Expression_induction y) (all l'')
                            end) (fst (fst x)))
                        (Expression_induction (snd x)))
                  (each l')
            end) parameters)
  end.

Lemma syntax_induction :
  (forall e, Pe e) /\ (forall m, Pm m) /\ (forall d, Pd d)
  /\ (forall b, Pb b) /\ (forall b, Pf b).
Proof.
  split; [exact Expression_induction|]. split; [exact Match_induction|].
  split; [exact Declaration_induction|]. split; [exact ValueBinding_induction|].
  exact FunctionValueBinding_induction.
Qed.

End SyntaxInduction.

(** *** Simplified syntax is left as it is *)

(** [fixed f x]: [f] gives [x] back. *)
Definition fixed {A : Type} (f : A -> outcome A) (x : A) : Prop := f x = Ok x.

(** [settles f x]: what [f] makes of [x], if anything, it gives back. *)
Definition settles {A B : Type} (f : A -> outcome B) (g : B -> outcome B) (x : A) : Prop :=
  forall y, f x = Ok y -> fixed g y.

Lemma mapM_fixed_all {A : Type} (f : A -> outcome A) (l : list A) :
  Forall (fixed f) l -> mapM f l = Ok l.
Proof.
  induction 1 as [|x l Hx _ IH]; [reflexivity|].
  cbn [mapM]. rewrite Hx. cbn [mbind outcome_mbind outcome_bind]. rewrite IH. reflexivity.
Qed.

Lemma mapM_all {A B : Type} (f : A -> outcome B) (Q : B -> Prop) (l : list A) :
  Forall (fun x => forall y, f x = Ok y -> Q y) l ->
  forall l', mapM f l = Ok l' -> Forall Q l'.
Proof.
  induction 1 as [|x l Hx _ IH]; intros l' H; cbn [mapM] in H.
  - injection H as <-. constructor.
  - destruct (f x) as [y|] eqn:Hy; [|discriminate].
    cbn [mbind outcome_mbind outcome_bind] in H.
    destruct (mapM f l) as [ys|]; [|discriminate].
    injection H as <-. constructor; [exact (Hx y eq_refl) | exact (IH ys eq_refl)].
Qed.

Lemma mapM_settles {A B : Type} (f : A -> outcome B) (g : B -> outcome B) (l : list A) :
  Forall (settles f g) l ->
  forall l', mapM f l = Ok l' -> Forall (fixed g) l'.
Proof. apply mapM_all. Qed.

Lemma mapM_map {A B C : Type} (h : A -> B) (f : B -> outcome C) (l : list A) :
  mapM f (map h l) = mapM (fun x => f (h x)) l.
Proof.
  induction l as [|x l IH]; [reflexivity|]. cbn [map mapM]. rewrite IH. reflexivity.
Qed.

(** The function that [Expression_simplify] runs on the entries of a
    record, and the one that [Match_simplify] runs on the rules. *)
Definition Entry_simplify (entry : string * Expression) : outcome (string * Expression) :=
  value ← Expression_simplify (snd entry); Ok (fst entry, value).

Definition Rule_simplify (rule : Expression * Expression)
  : outcome (Expression * Expression) :=
  pattern' ← Expression_simplify (fst rule);
  expression' ← Expression_simplify (snd rule);
  Ok (pattern', expression').

Lemma Entry_fixed (entry : string * Expression) :
  fixed Expression_simplify (snd entry) -> fixed Entry_simplify entry.
Proof.
  unfold fixed, Entry_simplify. intros ->. destruct entry; reflexivity.
Qed.

Lemma Rule_fixed (rule : Expression * Expression) :
  fixed Expression_simplify (fst rule) -> fixed Expression_simplify (snd rule) ->
  fixed Rule_simplify rule.
Proof.
  unfold fixed, Rule_simplify. intros -> ->. destruct rule; reflexivity.
Qed.

Lemma Record_fixed (position : Position) (complete : bool)
      (entries : list (string * Expression)) :
  Forall (fun entry => fixed Expression_simplify (snd entry)) entries ->
  fixed Expression_simplify (Record_ position complete entries).
Proof.
  intros H. unfold fixed. cbn [Expression_simplify].
  change (mapM _ entries) with (mapM Entry_simplify entries).
  rewrite mapM_fixed_all; [reflexivity|].
  eapply Forall_impl; [exact H|]. intros entry. apply Entry_fixed.
Qed.

Lemma imap_snd {A : Type} (P : A -> Prop) (l : list A) :
  forall f : nat -> A -> string * A,
    (forall i x, snd (f i x) = x) ->
    Forall P l -> Forall (fun entry => P (snd entry)) (imap f l).
Proof.
  induction l as [|x l IH]; intros f Hf H; cbn [imap]; [constructor|].
  inversion_clear H as [|? ? Hx Hl]. constructor.
  - rewrite Hf. exact Hx.
  - apply IH; [intros i y; apply Hf | exact Hl].
Qed.

Lemma numberedLabels_snd {A : Type} (P : A -> Prop) (l : list A) :
  Forall P l -> Forall (fun entry => P (snd entry)) (numberedLabels l).
Proof. apply imap_snd. reflexivity. Qed.

Lemma synthetic_fixed (text : string) : fixed Expression_simplify (synthetic text).
Proof. reflexivity. Qed.

Lemma unitExpression_fixed : fixed Expression_simplify unitExpression.
Proof. reflexivity. Qed.

Lemma Match_fixed (position : Position) (matches : list (Expression * Expression)) :
  Forall (fixed Rule_simplify) matches -> fixed Match_simplify (mkMatch position matches).
Proof.
  intros H. unfold fixed. cbn [Match_simplify].
  change (mapM _ matches) with (mapM Rule_simplify matches).
  rewrite mapM_fixed_all by exact H. reflexivity.
Qed.

Lemma Lambda_fixed (position : Position) (m : Match) :
  fixed Match_simplify m -> fixed Expression_simplify (Lambda position m).
Proof. unfold fixed. intros H. cbn [Expression_simplify]. rewrite H. reflexivity. Qed.

Lemma FunctionApplication_fixed (position : Position) (f a : Expression) :
  fixed Expression_simplify f -> fixed Expression_simplify a ->
  fixed Expression_simplify (FunctionApplication position f a).
Proof.
  unfold fixed. intros Hf Ha. cbn [Expression_simplify]. rewrite Hf, Ha. reflexivity.
Qed.

Lemma caseOf_fixed (position : Position) (e : Expression) (m : Match) :
  fixed Expression_simplify e -> fixed Match_simplify m ->
  fixed Expression_simplify (caseOf position e m).
Proof.
  intros He Hm. apply FunctionApplication_fixed; [apply Lambda_fixed, Hm | exact He].
Qed.

Lemma conditionalOf_fixed (position : Position) (c t e : Expression) :
  fixed Expression_simplify c -> fixed Expression_simplify t ->
  fixed Expression_simplify e ->
  fixed Expression_simplify (conditionalOf position c t e).
Proof.
  intros Hc Ht He. apply caseOf_fixed; [exact Hc|]. apply Match_fixed.
  repeat constructor; apply Rule_fixed; cbn [fst snd];
    first [apply synthetic_fixed | assumption].
Qed.

Lemma sequenceOf_fixed (rest : list Expression) :
  forall (position : Position) (first : Expression),
    fixed Expression_simplify first -> Forall (fixed Expression_simplify) rest ->
    fixed Expression_simplify (sequenceOf position first rest).
Proof.
  induction rest as [|next rest IH]; intros position first Hfirst Hrest;
    cbn [sequenceOf]; [exact Hfirst|].
  inversion_clear Hrest as [|? ? Hnext Hrest'].
  apply caseOf_fixed; [exact Hfirst|]. apply Match_fixed.
  repeat constructor. apply Rule_fixed; cbn [fst snd]; [reflexivity|].
  apply IH; assumption.
Qed.

Lemma listOf_fixed (elements : list Expression) :
  forall position : Position,
    Forall (fixed Expression_simplify) elements ->
    fixed Expression_simplify (listOf position elements).
Proof.
  induction elements as [|head tail IH]; intros position H; cbn [listOf]; [reflexivity|].
  inversion_clear H as [|? ? Hhead Htail].
  apply FunctionApplication_fixed; [apply synthetic_fixed|].
  apply Record_fixed. repeat constructor; cbn [snd]; [exact Hhead | apply IH, Htail].
Qed.

Lemma ValueBinding_fixed (position : Position) (isRecursive : bool)
      (pattern expression : Expression) :
  fixed Expression_simplify pattern -> fixed Expression_simplify expression ->
  fixed ValueBinding_lower (mkValueBinding position isRecursive pattern expression).
Proof.
  unfold fixed. intros Hp He. cbn [ValueBinding_lower]. rewrite Hp, He. reflexivity.
Qed.

Lemma whileOf_fixed (position : Position) (c b : Expression) :
  fixed Expression_simplify c -> fixed Expression_simplify b ->
  fixed Expression_simplify (whileOf position c b).
Proof.
  intros Hc Hb. unfold whileOf.
  assert (Hcall : fixed Expression_simplify
                    (FunctionApplication (-1) (synthetic "loop") unitExpression))
    by reflexivity.
  assert (Hbinding :
    fixed ValueBinding_lower
      (mkValueBinding (-1) true (synthetic "loop")
         (Lambda (-1)
            (mkMatch (-1)
               [(unitExpression,
                 conditionalOf (-1) c
                   (sequenceOf (-1) b
                      [FunctionApplication (-1) (synthetic "loop") unitExpression])
                   unitExpression)])))).
  { apply ValueBinding_fixed; [apply synthetic_fixed|].
    apply Lambda_fixed, Match_fixed. repeat constructor.
    apply Rule_fixed; cbn [fst snd]; [apply unitExpression_fixed|].
    apply conditionalOf_fixed; [exact Hc | | apply unitExpression_fixed].
    apply sequenceOf_fixed; [exact Hb | repeat constructor; exact Hcall]. }
  unfold fixed in *. cbv zeta. cbn [Expression_simplify Declaration_lower mapM].
  rewrite Hbinding. cbn [mbind outcome_mbind outcome_bind].
  change (Expression_simplify (FunctionApplication (-1) (synthetic "loop") unitExpression))
    with (Ok (FunctionApplication (-1) (synthetic "loop") unitExpression)).
  reflexivity.
Qed.

Lemma chain_fixed (n : nat) :
  forall (i : nat) (body : Expression),
    fixed Expression_simplify body ->
    fixed Expression_simplify (spec_lambda_chain i n body).
Proof.
  induction n as [|n IH]; intros i body Hbody; cbn [spec_lambda_chain]; [exact Hbody|].
  apply Lambda_fixed, Match_fixed. repeat constructor.
  apply Rule_fixed; cbn [fst snd]; [reflexivity | apply IH, Hbody].
Qed.

Lemma scrutinee_fixed (n : nat) : fixed Expression_simplify (scrutinee n).
Proof.
  unfold scrutinee.
  assert (Hall : Forall (fixed Expression_simplify) (map argIdentifier (seq 0 n))).
  { apply List.Forall_forall. intros x Hx. apply List.in_map_iff in Hx as (i & <- & _).
    reflexivity. }
  destruct (map argIdentifier (seq 0 n)) as [|single [|second arr]] eqn:Harr.
  - apply Record_fixed. constructor.
  - inversion_clear Hall. assumption.
  - apply Record_fixed, numberedLabels_snd, Hall.
Qed.

(** Simplifying a type twice is simplifying it once. *)
Lemma Type_simplify_idempotent :
  forall t, Type_simplify (Type_simplify t) = Type_simplify t.
Proof.
  fix IH 1. intros t. destruct t; cbn [Type_simplify].
  - reflexivity.
  - f_equal. rewrite map_map.
    induction typeArguments as [|x l IHl]; [reflexivity|].
    cbn [map]. rewrite (IH x). f_equal. exact IHl.
  - rewrite (IH t1), (IH t2). reflexivity.
  - f_equal. rewrite map_map.
    induction elements as [|[label x] l IHl]; [reflexivity|].
    cbn [map fst snd]. rewrite (IH x). f_equal. exact IHl.
  - f_equal.
    assert (Hall : Forall (fun y => Type_simplify y = y) (map Type_simplify elements)).
    { induction elements as [|x l IHl]; cbn [map]; constructor; [apply IH | exact IHl]. }
    generalize (numberedLabels_snd _ _ Hall).
    generalize (numberedLabels (map Type_simplify elements)).
    intros entries Hentries. induction Hentries as [|[label y] entries Hy _ IHentries];
      [reflexivity|].
    cbn [map fst snd] in *. rewrite Hy. f_equal. exact IHentries.
Qed.

Lemma TypedExpression_fixed (position : Position) (e : Expression) (t : Type_) :
  fixed Expression_simplify e ->
  fixed Expression_simplify (TypedExpression position e (Type_simplify t)).
Proof.
  unfold fixed. intros He. cbn [Expression_simplify].
  rewrite He, Type_simplify_idempotent. reflexivity.
Qed.

(** The function that [FunctionValueBinding_lower] runs on the clauses
    of a function. *)
Definition Clause_lower (clause : list Expression * option Type_ * Expression)
  : outcome (Expression * Expression) :=
  let '(patterns, type, body) := clause in
  pattern' ← match patterns with
             | [single] => Expression_simplify single
             | _ =>
                 patterns' ← mapM Expression_simplify patterns;
                 Ok (Record_ (-1) true (numberedLabels patterns'))
             end;
  body' ← Expression_simplify body;
  Ok (pattern',
      match type with
      | None => body'
      | Some t => TypedExpression (-1) body' (Type_simplify t)
      end).

Tactic Notation "bind_inv" hyp(H) "as" ident(x) ident(Hx) :=
  match type of H with
  | (?m ≫= _) = Ok _ =>
      destruct m as [x|] eqn:Hx;
      [cbn [mbind outcome_mbind outcome_bind] in H | discriminate H]
  end.

Ltac settled :=
  match goal with
  | H : forall y, Ok ?v = Ok y -> fixed _ y |- fixed _ ?v => exact (H v eq_refl)
  | H : forall y, ?m = Ok y -> fixed _ y, E : ?m = Ok ?v |- fixed _ ?v => exact (H v E)
  | H : settles _ _ ?x, E : _ ?x = Ok ?v |- fixed _ ?v => exact (H v E)
  end.

Lemma LayeredPattern_fixed (position : Position) (identifier : Token)
      (typeAnnotation : option Type_) (pattern : Expression) :
  fixed Expression_simplify pattern ->
  fixed Expression_simplify
    (LayeredPattern position identifier (Type_simplify <$> typeAnnotation) pattern).
Proof.
  unfold fixed. intros H. cbn [Expression_simplify]. rewrite H.
  destruct typeAnnotation; cbn; [rewrite Type_simplify_idempotent|]; reflexivity.
Qed.

Lemma RaiseException_fixed (position : Position) (e : Expression) :
  fixed Expression_simplify e -> fixed Expression_simplify (RaiseException position e).
Proof. unfold fixed. intros H. cbn [Expression_simplify]. rewrite H. reflexivity. Qed.

Lemma HandleException_fixed (position : Position) (e : Expression) (m : Match) :
  fixed Expression_simplify e -> fixed Match_simplify m ->
  fixed Expression_simplify (HandleException position e m).
Proof.
  unfold fixed. intros He Hm. cbn [Expression_simplify]. rewrite He, Hm. reflexivity.
Qed.

Lemma LocalDeclarationExpression_fixed (position : Position) (d : Declaration)
      (e : Expression) :
  fixed Declaration_lower d -> fixed Expression_simplify e ->
  fixed Expression_simplify (LocalDeclarationExpression position d e).
Proof.
  unfold fixed. intros Hd He. cbn [Expression_simplify]. rewrite Hd, He. reflexivity.
Qed.

Lemma LocalDeclaration_fixed (position : Position) (d b : Declaration) (id : Z) :
  fixed Declaration_lower d -> fixed Declaration_lower b ->
  fixed Declaration_lower (LocalDeclaration position d b id).
Proof.
  unfold fixed. intros Hd Hb. cbn [Declaration_lower]. rewrite Hd, Hb. reflexivity.
Qed.

Lemma AbstypeDeclaration_fixed (position : Position) (bindings : list DatatypeBinding)
      (d : Declaration) (id : Z) :
  fixed Declaration_lower d ->
  fixed Declaration_lower
    (AbstypeDeclaration position (map (DatatypeBinding_simplify Type_simplify) bindings)
                        None d id).
Proof.
  unfold fixed. intros Hd. cbn [Declaration_lower]. rewrite Hd.
  cbn [mbind outcome_mbind outcome_bind].
  rewrite (DatatypeBinding_simplify_fixed _ Type_simplify_idempotent). reflexivity.
Qed.

Lemma Clause_lower_settles (clause : list Expression * option Type_ * Expression) :
  Forall (settles Expression_simplify Expression_simplify) (fst (fst clause)) ->
  settles Expression_simplify Expression_simplify (snd clause) ->
  forall rule, Clause_lower clause = Ok rule -> fixed Rule_simplify rule.
Proof.
  destruct clause as [[patterns type] body]. cbn [fst snd]. intros Hpatterns Hbody rule H.
  unfold Clause_lower in H.
  bind_inv H as pattern' Hpattern. bind_inv H as body' Hbody'.
  injection H as <-. apply Rule_fixed; cbn [fst snd].
  - destruct patterns as [|single [|second patterns]].
    + cbn [mapM mbind outcome_mbind outcome_bind] in Hpattern.
      injection Hpattern as <-. reflexivity.
    + inversion_clear Hpatterns as [|? ? Hsingle _]. settled.
    + bind_inv Hpattern as patterns' Hpatterns'. injection Hpattern as <-.
      apply Record_fixed, numberedLabels_snd.
      exact (mapM_settles _ _ _ Hpatterns _ Hpatterns').
  - destruct type as [t|]; [apply TypedExpression_fixed|]; settled.
Qed.

(** What the simplification gives, it gives back: a simplified
    expression, match, declaration or binding is in the core calculus. *)
Lemma simplified_is_fixed :
  (forall e, settles Expression_simplify Expression_simplify e)
  /\ (forall m, settles Match_simplify Match_simplify m)
  /\ (forall d, settles Declaration_lower Declaration_lower d)
  /\ (forall b, settles ValueBinding_lower ValueBinding_lower b)
  /\ (forall b, settles FunctionValueBinding_lower ValueBinding_lower b).
Proof.
  apply syntax_induction; unfold settles.
  - (* Wildcard *) intros p y H. injection H as <-. reflexivity.
  - (* ValueIdentifier *) intros p n y H. injection H as <-. reflexivity.
  - (* Constant *) intros p t y H. injection H as <-. reflexivity.
  - (* Tuple *)
    intros p es IH y H. cbn [Expression_simplify] in H. bind_inv H as es' Hes.
    injection H as <-. apply Record_fixed, numberedLabels_snd.
    exact (mapM_settles _ _ _ IH _ Hes).
  - (* List *)
    intros p es IH y H. cbn [Expression_simplify] in H. bind_inv H as es' Hes.
    injection H as <-. apply listOf_fixed. exact (mapM_settles _ _ _ IH _ Hes).
  - (* Record *)
    intros p c entries IH y H. cbn [Expression_simplify] in H.
    change (mapM _ entries) with (mapM Entry_simplify entries) in H.
    bind_inv H as entries' Hentries. injection H as <-. apply Record_fixed.
    apply (mapM_all Entry_simplify _ entries); [|exact Hentries].
    eapply Forall_impl; [exact IH|]. intros [label e] He entry' Hentry.
    unfold Entry_simplify in Hentry. cbn [fst snd] in *.
    bind_inv Hentry as value Hvalue. injection Hentry as <-. settled.
  - (* RecordSelector *) intros p l y H. injection H as <-. reflexivity.
  - (* Sequence *)
    intros p es IH y H. cbn [Expression_simplify] in H. bind_inv H as es' Hes.
    pose proof (mapM_settles _ _ _ IH _ Hes) as Hfixed.
    destruct es' as [|first rest]; [discriminate|]. injection H as <-.
    inversion_clear Hfixed. apply sequenceOf_fixed; assumption.
  - (* LayeredPattern *)
    intros p i t e IH y H. cbn [Expression_simplify] in H. bind_inv H as e' He.
    injection H as <-. apply LayeredPattern_fixed. settled.
  - (* TypedExpression *)
    intros p e t IH y H. cbn [Expression_simplify] in H. bind_inv H as e' He.
    injection H as <-. apply TypedExpression_fixed. settled.
  - (* FunctionApplication *)
    intros p f a IHf IHa y H. cbn [Expression_simplify] in H.
    bind_inv H as f' Hf. bind_inv H as a' Ha. injection H as <-.
    apply FunctionApplication_fixed; [settled | settled].
  - (* Conjunction *)
    intros p l r IHl IHr y H. cbn [Expression_simplify] in H.
    bind_inv H as l' Hl. bind_inv H as r' Hr. injection H as <-.
    apply conditionalOf_fixed; [settled | settled | apply synthetic_fixed].
  - (* Disjunction *)
    intros p l r IHl IHr y H. cbn [Expression_simplify] in H.
    bind_inv H as l' Hl. bind_inv H as r' Hr. injection H as <-.
    apply conditionalOf_fixed; [settled | apply synthetic_fixed | settled].
  - (* Conditional *)
    intros p c t e IHc IHt IHe y H. cbn [Expression_simplify] in H.
    bind_inv H as c' Hc. bind_inv H as t' Ht. bind_inv H as e' He. injection H as <-.
    apply conditionalOf_fixed; [settled | settled | settled].
  - (* CaseAnalysis *)
    intros p e m IHe IHm y H. cbn [Expression_simplify] in H.
    bind_inv H as m' Hm. bind_inv H as e' He. injection H as <-.
    apply caseOf_fixed; [settled | settled].
  - (* Lambda *)
    intros p m IHm y H. cbn [Expression_simplify] in H. bind_inv H as m' Hm.
    injection H as <-. apply Lambda_fixed. settled.
  - (* RaiseException *)
    intros p e IHe y H. cbn [Expression_simplify] in H. bind_inv H as e' He.
    injection H as <-. apply RaiseException_fixed. settled.
  - (* HandleException *)
    intros p e m IHe IHm y H. cbn [Expression_simplify] in H.
    bind_inv H as e' He. bind_inv H as m' Hm. injection H as <-.
    apply HandleException_fixed; settled.
  - (* While *)
    intros p c b IHc IHb y H. cbn [Expression_simplify] in H.
    bind_inv H as c' Hc. bind_inv H as b' Hb. injection H as <-.
    apply whileOf_fixed; [settled | settled].
  - (* LocalDeclarationExpression *)
    intros p d e IHd IHe y H. cbn [Expression_simplify] in H.
    bind_inv H as d' Hd. bind_inv H as e' He. injection H as <-.
    apply LocalDeclarationExpression_fixed; settled.
  - (* Match *)
    intros p matches IH y H. cbn [Match_simplify] in H.
    change (mapM _ matches) with (mapM Rule_simplify matches) in H.
    bind_inv H as matches' Hmatches. injection H as <-. apply Match_fixed.
    apply (mapM_all Rule_simplify _ matches); [|exact Hmatches].
    eapply Forall_impl; [exact IH|]. intros [pattern e] [Hp He] rule' Hrule.
    unfold Rule_simplify in Hrule. cbn [fst snd] in *.
    bind_inv Hrule as pattern' Hpattern. bind_inv Hrule as e' He'. injection Hrule as <-.
    apply Rule_fixed; [settled | settled].
  - (* ValueDeclaration *)
    intros p tvs bindings id IH y H. cbn [Declaration_lower] in H.
    bind_inv H as bindings' Hbindings. injection H as <-.
    unfold fixed. cbn [Declaration_lower].
    rewrite (mapM_fixed_all _ _ (mapM_settles _ _ _ IH _ Hbindings)). reflexivity.
  - (* TypeDeclaration *)
    intros p bindings id y H. injection H as <-. unfold fixed. cbn [Declaration_lower].
    rewrite (TypeBinding_simplify_fixed _ Type_simplify_idempotent). reflexivity.
  - (* DatatypeDeclaration *)
    intros p bindings withtype id y H. injection H as <-. unfold fixed.
    cbn [Declaration_lower].
    rewrite (DatatypeBinding_simplify_fixed _ Type_simplify_idempotent). reflexivity.
  - (* DatatypeReplication *) intros p n o id y H. injection H as <-. reflexivity.
  - (* AbstypeDeclaration *)
    intros p bindings withtype d id IHd y H. cbn [Declaration_lower] in H.
    bind_inv H as d' Hd. destruct withtype; [discriminate|]. injection H as <-.
    apply AbstypeDeclaration_fixed. settled.
  - (* ExceptionDeclaration *) intros p bindings id y H. injection H as <-. reflexivity.
  - (* LocalDeclaration *)
    intros p d b id IHd IHb y H. cbn [Declaration_lower] in H.
    bind_inv H as d' Hd. bind_inv H as b' Hb. injection H as <-.
    apply LocalDeclaration_fixed; settled.
  - (* OpenDeclaration *) intros p names id y H. injection H as <-. reflexivity.
  - (* EmptyDeclaration *) intros id y H. injection H as <-. reflexivity.
  - (* SequentialDeclaration *)
    intros p ds id IH y H. cbn [Declaration_lower] in H.
    bind_inv H as ds' Hds. injection H as <-. unfold fixed. cbn [Declaration_lower].
    rewrite (mapM_fixed_all _ _ (mapM_settles _ _ _ IH _ Hds)). reflexivity.
  - (* FunctionDeclaration *)
    intros p tvs bindings id IH y H. cbn [Declaration_lower] in H.
    bind_inv H as bindings' Hbindings. injection H as <-.
    unfold fixed. cbn [Declaration_lower].
    rewrite (mapM_fixed_all _ _ (mapM_settles _ _ _ IH _ Hbindings)). reflexivity.
  - (* InfixDeclaration *) intros p ops n id y H. injection H as <-. reflexivity.
  - (* InfixRDeclaration *) intros p ops n id y H. injection H as <-. reflexivity.
  - (* NonfixDeclaration *) intros p ops id y H. injection H as <-. reflexivity.
  - (* ValueBinding *)
    intros p r pattern e IHp IHe y H. cbn [ValueBinding_lower] in H.
    bind_inv H as pattern' Hp. bind_inv H as e' He. injection H as <-.
    apply ValueBinding_fixed; [settled | settled].
  - (* FunctionValueBinding *)
    intros p parameters name IH y H. cbn [FunctionValueBinding_lower] in H.
    destruct parameters as [|[[first type] body] clauses] eqn:Hparameters; [discriminate|].
    rewrite <- Hparameters in H, IH.
    change (mapM _ parameters) with (mapM Clause_lower parameters) in H.
    bind_inv H as matches Hmatches. injection H as <-.
    apply ValueBinding_fixed; [reflexivity|].
    apply chain_fixed, caseOf_fixed; [apply scrutinee_fixed|]. apply Match_fixed.
    apply (mapM_all Clause_lower _ parameters); [|exact Hmatches].
    eapply Forall_impl; [exact IH|]. intros clause [Hpatterns Hbody].
    apply Clause_lower_settles; assumption.
Qed.

(** *** The declarations of a [let] are simplified as declarations.ts does it *)

Lemma mapM_pointwise {A B : Type} (f g : A -> outcome B) (l : list A) :
  (forall x, f x = g x) -> mapM f l = mapM g l.
Proof.
  intros H. induction l as [|x l IH]; [reflexivity|]. cbn [mapM]. rewrite H, IH.
  reflexivity.
Qed.

Lemma ValueBinding_lower_spec (b : ValueBinding) :
  ValueBinding_lower b = ValueBinding_simplify Expression_simplify b.
Proof. destruct b; reflexivity. Qed.

(** The tuple of the parameters, simplified. *)
Lemma scrutinee_spec (n : nat) :
  (if (n =? 1)%nat then Ok (argIdentifier 0)
   else Expression_simplify (Tuple (-1) (map argIdentifier (seq 0 n))))
  = Ok (scrutinee n).
Proof.
  assert (Hall : mapM Expression_simplify (map argIdentifier (seq 0 n))
                 = Ok (map argIdentifier (seq 0 n))).
  { apply mapM_fixed_all, List.Forall_forall. intros x Hx.
    apply List.in_map_iff in Hx as (i & <- & _). reflexivity. }
  unfold scrutinee. destruct n as [|[|n]]; [reflexivity..|].
  cbn [Nat.eqb Expression_simplify]. rewrite Hall. reflexivity.
Qed.

(** Simplification goes through the lambdas of the chain. *)
Lemma chain_simplify (n : nat) :
  forall (i : nat) (body : Expression),
    Expression_simplify (spec_lambda_chain i n body)
    = (body' ← Expression_simplify body; Ok (spec_lambda_chain i n body')).
Proof.
  induction n as [|n IH]; intros i body; cbn [spec_lambda_chain].
  - destruct (Expression_simplify body); reflexivity.
  - cbn [Expression_simplify Match_simplify mapM fst snd]. rewrite IH.
    change (Expression_simplify (argIdentifier i)) with (Ok (argIdentifier i)).
    cbn [mbind outcome_mbind outcome_bind].
    destruct (Expression_simplify body); reflexivity.
Qed.

Lemma Clause_lower_spec (clause : list Expression * option Type_ * Expression) :
  Rule_simplify (clauseMatch clause) = Clause_lower clause.
Proof.
  destruct clause as [[patterns type] body]. unfold Rule_simplify, Clause_lower, clauseMatch.
  destruct patterns as [|single [|second patterns]], type as [t|];
    cbn [fst snd Expression_simplify];
    repeat match goal with
           | |- context [mbind _ (Expression_simplify ?e)] =>
               destruct (Expression_simplify e);
               cbn [mbind outcome_mbind outcome_bind]
           | |- context [mbind _ (mapM ?f ?l)] =>
               destruct (mapM f l); cbn [mbind outcome_mbind outcome_bind]
           end; reflexivity.
Qed.

(** The case analysis of a function, simplified. *)
Lemma case_simplify (n : nat)
      (parameters : list (list Expression * option Type_ * Expression)) :
  Expression_simplify
    (CaseAnalysis (-1) (scrutinee n) (mkMatch (-1) (map clauseMatch parameters)))
  = (matches ← mapM Clause_lower parameters;
     Ok (caseOf (-1) (scrutinee n) (mkMatch (-1) matches))).
Proof.
  cbn [Expression_simplify Match_simplify].
  change (mapM _ (map clauseMatch parameters))
    with (mapM Rule_simplify (map clauseMatch parameters)).
  rewrite mapM_map, (mapM_pointwise _ Clause_lower) by exact Clause_lower_spec.
  destruct (mapM Clause_lower parameters) as [matches|]; [|reflexivity].
  cbn [mbind outcome_mbind outcome_bind]. rewrite (scrutinee_fixed n). reflexivity.
Qed.

Lemma FunctionValueBinding_lower_spec (b : FunctionValueBinding) :
  FunctionValueBinding_lower b = FunctionValueBinding_simplify Expression_simplify b.
Proof.
  destruct b as [position [|[[first type] body] clauses] name]; [reflexivity|].
  rewrite FunctionValueBinding_simplify_chain. cbv zeta.
  rewrite scrutinee_spec. cbn [mbind outcome_mbind outcome_bind].
  rewrite chain_simplify, case_simplify.
  cbn [FunctionValueBinding_lower].
  change (mapM _ ((first, type, body) :: clauses))
    with (mapM Clause_lower ((first, type, body) :: clauses)).
  destruct (mapM Clause_lower ((first, type, body) :: clauses)); reflexivity.
Qed.

Lemma Declaration_lower_spec :
  forall d, Declaration_lower d = Declaration_simplify Expression_simplify Type_simplify d.
Proof.
  fix IH 1. intros d. destruct d; cbn [Declaration_lower Declaration_simplify];
    try reflexivity.
  - rewrite (mapM_pointwise _ _ _ ValueBinding_lower_spec). reflexivity.
  - rewrite (IH d). reflexivity.
  - rewrite (IH d1), (IH d2). reflexivity.
  - f_equal. induction declarations as [|x l IHl]; [reflexivity|].
    cbn [mapM]. rewrite (IH x), IHl. reflexivity.
  - rewrite (mapM_pointwise _ _ _ FunctionValueBinding_lower_spec). reflexivity.
Qed.

(** *** The shape of a simplified function binding *)


(** [fun f x = x] and [fun g x y = (x, y) | g _ z = z]. *)
Definition x_ : Expression := ValueIdentifier 6 (AlphanumericIdentifierToken "x" 6).
Definition y_ : Expression := ValueIdentifier 8 (AlphanumericIdentifierToken "y" 8).
Definition z_ : Expression := ValueIdentifier 26 (AlphanumericIdentifierToken "z" 26).

Definition fun_f : FunctionValueBinding :=
  mkFunctionValueBinding 4 [([x_], None, x_)] (4, AlphanumericIdentifierToken "f" 4).

Definition fun_g : FunctionValueBinding :=
  mkFunctionValueBinding 4
    [([x_; y_], None, Tuple 12 [x_; y_]); ([Wildcard 24; z_], None, z_)]
    (4, AlphanumericIdentifierToken "g" 4).

Example fun_f_simplified :
  FunctionValueBinding_simplify Expression_simplify fun_f
  = Ok (mkValueBinding 4 true (ValueIdentifier 4 (AlphanumericIdentifierToken "f" 4))
          (Lambda (-1) (mkMatch (-1)
             [(argIdentifier 0,
               FunctionApplication (-1) (Lambda (-1) (mkMatch (-1) [(x_, x_)]))
                                   (argIdentifier 0))]))).
Proof. reflexivity. Qed.

Example fun_g_simplified :
  FunctionValueBinding_simplify Expression_simplify fun_g
  = Ok (mkValueBinding 4 true (ValueIdentifier 4 (AlphanumericIdentifierToken "g" 4))
          (Lambda (-1) (mkMatch (-1)
             [(argIdentifier 0,
               Lambda (-1) (mkMatch (-1)
                 [(argIdentifier 1,
                   FunctionApplication (-1)
                     (Lambda (-1)
                        (mkMatch (-1)
                           [(Record_ (-1) true [("1", x_); ("2", y_)],
                             Record_ 12 true [("1", x_); ("2", y_)]);
                            (Record_ (-1) true [("1", Wildcard 24); ("2", z_)], z_)]))
                     (Record_ (-1) true
                        [("1", argIdentifier 0); ("2", argIdentifier 1)]))]))]))).
Proof. reflexivity. Qed.

(** *** Idempotence *)

(** C9.  Simplifying a simplified declaration changes nothing, and a
    declaration whose simplification throws makes the second one throw
    the same error. *)
Theorem Declaration_simplify_idempotent (d : Declaration) :
  Declaration_simplify Expression_simplify Type_simplify d
  ≫= Declaration_simplify Expression_simplify Type_simplify
  = Declaration_simplify Expression_simplify Type_simplify d.
Proof.
  destruct (Declaration_simplify Expression_simplify Type_simplify d) as [d'|e] eqn:H;
    [|reflexivity].
  cbn [mbind outcome_mbind outcome_bind].
  rewrite <- Declaration_lower_spec in H. rewrite <- Declaration_lower_spec.
  exact (proj1 (proj2 (proj2 simplified_is_fixed)) d d' H).
Qed.

(** The same of expressions and of matches. *)
Lemma Expression_simplify_idempotent (e : Expression) :
  Expression_simplify e ≫= Expression_simplify = Expression_simplify e.
Proof.
  destruct (Expression_simplify e) as [e'|] eqn:H; [|reflexivity].
  exact (proj1 simplified_is_fixed e e' H).
Qed.

(** A declaration with every derived form, simplified twice. *)
Example while_simplified_twice :
  let d := SequentialDeclaration 0
             [FunctionDeclaration 0 [] [fun_f; fun_g] 2;
              ValueDeclaration 30 []
                [mkValueBinding 34 false (Wildcard 34)
                   (While 38 (Conjunction 44 x_ (Disjunction 50 y_ z_))
                      (Sequence 60 [List_ 61 [x_; y_]; Conditional 70 x_ y_ z_]))] 3] 1 in
  exists d', Declaration_simplify Expression_simplify Type_simplify d = Ok d'
             /\ Declaration_simplify Expression_simplify Type_simplify d' = Ok d'.
Proof. eexists. split; reflexivity. Qed.

End Simplifier.

(** ** The state (state.ts)

    state.ts is not at hand; this module follows the data model of the
    specification and the way declarations.ts and values.ts call the
    methods of [State].  A [State] object is a mutable scope frame with
    a pointer to its parent.  Frames live in a heap, and a [State] is
    the address of its frame, so that closures and child states share
    the frame they point to. *)

Module States.
Import Ast Values.

Inductive RebindStatus : Set := Allowed | Never.

Record InfixStatus : Set :=
  mkInfixStatus { infix : bool; precedence : Z; rightAssociative : bool }.

(** Modelled from the spec: the fields of a [State] object: the four
    maps for static and dynamic values and types, the fixity table, the
    id counters of the value identifiers, the rebind statuses, the id of
    the state and the parent pointer. *)
Record Frame : Type := mkFrame {
  id : Z;
  parent : option State;
  staticValues : gmap string Type_;
  staticTypes : gmap string (Type_ * list string);
  dynamicValues : gmap string Value;
  dynamicTypes : gmap string (list string);
  infixEnvironment : gmap string InfixStatus;
  valueIdentifierId : gmap string Z;
  rebindStatus : gmap string RebindStatus
}.

Abbreviation Heap := (list Frame) (only parsing).

Definition emptyFrame (newId : Z) (parent : option State) : Frame :=
  mkFrame newId parent ∅ ∅ ∅ ∅ ∅ ∅ ∅.

(** *** Computations on the heap

    A method that mutates states is a function from the heap to an
    outcome and the heap it leaves behind; a JavaScript [throw] keeps the
    mutations made before it. *)

Definition Eval (A : Type) : Type := Heap -> outcome A * Heap.

Definition Eval_ret {A : Type} (a : A) : Eval A := fun h => (Ok a, h).

Definition Eval_bind {A B : Type} (f : A -> Eval B) (m : Eval A) : Eval B :=
  fun h =>
    match m h with
    | (Ok a, h') => f a h'
    | (Throw e, h') => (Throw e, h')
    end.

(** [m] runs first, then [f] on its result. *)
Definition Eval_then {A B : Type} (m : Eval A) (f : A -> Eval B) : Eval B :=
  Eval_bind f m.

Notation "'do' x <- m ; k" := (Eval_then m (fun x => k))
  (at level 10, x pattern, m at level 100, k at level 200,
   format "'[v' 'do'  x  <-  m ; '/' k ']'").

Definition throw {A : Type} (e : Error) : Eval A := fun h => (Throw e, h).
Definition gets {A : Type} (f : Heap -> A) : Eval A := fun h => (Ok (f h), h).
Definition modify (f : Heap -> Heap) : Eval unit := fun h => (Ok tt, f h).

(** [for (...) body(x)], stopping at the first throw. *)
Fixpoint forEach {A : Type} (body : A -> Eval unit) (l : list A) : Eval unit :=
  match l with
  | [] => Eval_ret tt
  | x :: l' => do _ <- body x; forEach body l'
  end.

(** *** Reading

    Modelled from the spec: lookups walk up the parent chain, from the
    frame of the state to the root.  The walk runs on fuel; the number of
    frames is enough in every heap whose parent pointers point to older
    frames. *)
Fixpoint lookupChain {A : Type} (get : Frame -> option A) (fuel : nat)
         (h : Heap) (s : State) : option A :=
  match fuel with
  | O => None
  | S fuel' =>
      match h !! s with
      | None => None
      | Some frame =>
          match get frame with
          | Some x => Some x
          | None =>
              match parent frame with
              | Some p => lookupChain get fuel' h p
              | None => None
              end
          end
      end
  end.

Definition getDynamicValue (h : Heap) (s : State) (name : string) : option Value :=
  lookupChain (fun frame => dynamicValues frame !! name) (length h) h s.

Definition getDynamicType (h : Heap) (s : State) (name : string) : option (list string) :=
  lookupChain (fun frame => dynamicTypes frame !! name) (length h) h s.

Definition getStaticValue (h : Heap) (s : State) (name : string) : option Type_ :=
  lookupChain (fun frame => staticValues frame !! name) (length h) h s.

Definition getStaticType (h : Heap) (s : State) (name : string)
  : option (Type_ * list string) :=
  lookupChain (fun frame => staticTypes frame !! name) (length h) h s.

Definition getInfixStatus (h : Heap) (s : State) (name : string) : option InfixStatus :=
  lookupChain (fun frame => infixEnvironment frame !! name) (length h) h s.

(** An identifier without a status may be rebound. *)
Definition getRebindStatus (h : Heap) (s : State) (name : string) : RebindStatus :=
  default Allowed (lookupChain (fun frame => rebindStatus frame !! name) (length h) h s).

(** The id counter of an identifier starts at 0. *)
Definition getValueIdentifierId (h : Heap) (s : State) (name : string) : Z :=
  default 0 (lookupChain (fun frame => valueIdentifierId frame !! name) (length h) h s).

Definition getId (h : Heap) (s : State) : Z :=
  match h !! s with Some frame => id frame | None => 0 end.

(** *** Writing

    Modelled from the spec: writes always occur in the innermost frame,
    that is in the frame of the state whose method is called. *)

Definition updateFrame (s : State) (f : Frame -> Frame) : Eval unit :=
  modify (alter f s).

Definition setDynamicValue (s : State) (name : string) (value : Value) : Eval unit :=
  updateFrame s (fun frame =>
    mkFrame (id frame) (parent frame) (staticValues frame) (staticTypes frame)
            (<[name := value]> (dynamicValues frame)) (dynamicTypes frame)
            (infixEnvironment frame) (valueIdentifierId frame) (rebindStatus frame)).

Definition setDynamicType (s : State) (name : string) (constructors : list string)
  : Eval unit :=
  updateFrame s (fun frame =>
    mkFrame (id frame) (parent frame) (staticValues frame) (staticTypes frame)
            (dynamicValues frame) (<[name := constructors]> (dynamicTypes frame))
            (infixEnvironment frame) (valueIdentifierId frame) (rebindStatus frame)).

Definition setStaticValue (s : State) (name : string) (type : Type_) : Eval unit :=
  updateFrame s (fun frame =>
    mkFrame (id frame) (parent frame) (<[name := type]> (staticValues frame))
            (staticTypes frame) (dynamicValues frame) (dynamicTypes frame)
            (infixEnvironment frame) (valueIdentifierId frame) (rebindStatus frame)).

Definition setStaticType (s : State) (name : string) (type : Type_)
           (constructors : list string) : Eval unit :=
  updateFrame s (fun frame =>
    mkFrame (id frame) (parent frame) (staticValues frame)
            (<[name := (type, constructors)]> (staticTypes frame))
            (dynamicValues frame) (dynamicTypes frame)
            (infixEnvironment frame) (valueIdentifierId frame) (rebindStatus frame)).

Definition setInfixStatus (s : State) (operator : Token) (precedence : Z)
           (rightAssociative infix : bool) : Eval unit :=
  updateFrame s (fun frame =>
    mkFrame (id frame) (parent frame) (staticValues frame) (staticTypes frame)
            (dynamicValues frame) (dynamicTypes frame)
            (<[getText operator := mkInfixStatus infix precedence rightAssociative]>
               (infixEnvironment frame))
            (valueIdentifierId frame) (rebindStatus frame)).

Definition incrementValueIdentifierId (s : State) (name : string) : Eval unit :=
  fun h =>
    updateFrame s (fun frame =>
      mkFrame (id frame) (parent frame) (staticValues frame) (staticTypes frame)
              (dynamicValues frame) (dynamicTypes frame) (infixEnvironment frame)
              (<[name := getValueIdentifierId h s name + 1]> (valueIdentifierId frame))
              (rebindStatus frame)) h.

(** [state.parent = newParent] *)
Definition setParent (s : State) (newParent : State) : Eval unit :=
  updateFrame s (fun frame =>
    mkFrame (id frame) (Some newParent) (staticValues frame) (staticTypes frame)
            (dynamicValues frame) (dynamicTypes frame) (infixEnvironment frame)
            (valueIdentifierId frame) (rebindStatus frame)).

(** Modelled from the spec: [getNestedState(redefinePrint, newId)]
    allocates an empty frame whose parent is the state; the first
    argument concerns printing only. *)
Definition getNestedState (s : State) (redefinePrint : bool) (newId : Z) : Eval State :=
  fun h => (Ok (length h), h ++ [emptyFrame newId (Some s)])%list.

End States.

(** ** Evaluation and elaboration of declarations (declarations.ts),
    application of closures (values.ts) *)

Module Evaluation.
Import Ast Values States.

(** [[computed state, has an exception been raised, exception]] *)
Definition EvaluationResult : Type := State * bool * option Value.

Definition resultState (r : EvaluationResult) : State := fst (fst r).
Definition resultThrew (r : EvaluationResult) : bool := snd (fst r).
Definition resultValue (r : EvaluationResult) : option Value := snd r.

(** The [id] field of a declaration. *)
Definition Declaration_id (d : Declaration) : Z :=
  match d with
  | ValueDeclaration _ _ _ id | TypeDeclaration _ _ id
  | DatatypeDeclaration _ _ _ id | DatatypeReplication _ _ _ id
  | AbstypeDeclaration _ _ _ _ id | ExceptionDeclaration _ _ id
  | LocalDeclaration _ _ _ id | OpenDeclaration _ _ id | EmptyDeclaration id
  | SequentialDeclaration _ _ id | FunctionDeclaration _ _ _ id
  | InfixDeclaration _ _ _ id | InfixRDeclaration _ _ _ id
  | NonfixDeclaration _ _ id => id
  end.

Section Evaluate.

(** The evaluator of expressions.ts is not at hand: [compute] of an
    expression, which returns a value and whether it is a raised
    exception, [matches] of a pattern, which returns the bindings of a
    successful match, and [compute] of a match. *)
Variable Expression_compute : Expression -> State -> Eval (Value * bool).
Variable Pattern_matches : Expression -> State -> Value -> Eval (option (list (string * Value))).
Variable Match_compute : Match -> State -> Value -> Eval (Value * bool).

(** Of types.ts, elaboration needs the type variables of a type that
    are still free ([getTypeVariables] filtered by [kill]) and
    [simplify]. *)
Variable unguardedTypeVariables : Type_ -> list Type_.
Variable Type_simplify : Type_ -> Type_.

(** [FunctionValue.compute]: the siblings are bound in a fresh state
    under the captured one, then the body runs.  (The call passes a third
    argument [true] to [setDynamicValue].) *)
Definition readjoin (state : State) (recursives : list (string * Value))
           (entry : string * Value) : string * Value :=
  match snd entry with
  | FunctionValue _ _ body => (fst entry, FunctionValue state recursives body)
  | _ => entry
  end.

Definition FunctionValue_compute (state : State) (recursives : list (string * Value))
           (body : Match) (argument : Value) : Eval (Value * bool) :=
  (* adjoin the bindings in this.state into the state *)
  do stateId <- gets (fun h => getId h state);
  do nstate <- getNestedState state false stateId;
  do _ <- forEach (fun entry =>
                 let entry' := readjoin state recursives entry in
                 setDynamicValue nstate (fst entry') (snd entry')) recursives;
  Match_compute body nstate argument.

(** [ValueBinding.compute]: [[bindings | undefined, exception | undefined]] *)
Definition ValueBinding_compute (b : ValueBinding) (state : State)
  : Eval (option (list (string * Value)) * option Value) :=
  let '(mkValueBinding _ _ pattern expression) := b in
  do v <- Expression_compute expression state;
  if snd v then Eval_ret (None, Some (fst v))
  else
    do bindings <- Pattern_matches pattern state (fst v);
    Eval_ret (bindings, None).

Definition isRecursive (b : ValueBinding) : bool :=
  let '(mkValueBinding _ isRecursive _ _) := b in isRecursive.

(** The first loop of [ValueDeclaration.evaluate]: the answer is the
    exception of an early return, or the two lists. *)
Fixpoint collectBindings (state : State) (valueBinding : list ValueBinding)
         (isRec : bool) (result recursives : list (string * Value))
  : Eval (Value + list (string * Value) * list (string * Value)) :=
  match valueBinding with
  | [] => Eval_ret (inr (result, recursives))
  | b :: valueBinding' =>
      let isRec := isRec || isRecursive b in
      do val <- ValueBinding_compute b state;
      match val with
      | (_, Some exception) => Eval_ret (inl exception)
      | (None, None) => Eval_ret (inl (ExceptionValue "Bind" None 0))
      | (Some bindings, None) =>
          if isRec
          then collectBindings state valueBinding' isRec result (recursives ++ bindings)
          else collectBindings state valueBinding' isRec (result ++ bindings) recursives
      end
  end.

(** The value that the last loop of [ValueDeclaration.evaluate] binds:
    a closure is rebuilt with its own state and the whole group. *)
Definition tieRecursive (recursives : list (string * Value)) (entry : string * Value)
  : string * Value :=
  match snd entry with
  | FunctionValue state _ body => (fst entry, FunctionValue state recursives body)
  | _ => entry
  end.

Definition ValueDeclaration_evaluate (valueBinding : list ValueBinding) (state : State)
  : Eval EvaluationResult :=
  do collected <- collectBindings state valueBinding false [] [];
  match collected with
  | inl exception => Eval_ret (state, true, Some exception)
  | inr (result, recursives) =>
      do _ <- forEach (fun entry => setDynamicValue state (fst entry) (snd entry)) result;
      do _ <- forEach (fun entry =>
                     let entry' := tieRecursive recursives entry in
                     setDynamicValue state (fst entry') (snd entry')) recursives;
      Eval_ret (state, false, None)
  end.

(** [DatatypeBinding.compute] *)
Fixpoint computeConstructors (state : State) (type : list (Token * option Type_))
         (ve : list (string * Value)) (connames : list string)
  : Eval (list (string * Value) * list string) :=
  match type with
  | [] => Eval_ret (ve, connames)
  | (constructor, argumentType) :: type' =>
      let numArg := match argumentType with Some _ => 1 | None => 0 end in
      do id <- gets (fun h => getValueIdentifierId h state (getText constructor));
      do _ <- incrementValueIdentifierId state (getText constructor);
      computeConstructors state type'
        (ve ++ [(getText constructor, ValueConstructor (getText constructor) numArg id)])
        (connames ++ [getText constructor])
  end.

Definition DatatypeBinding_compute (b : DatatypeBinding) (state : State)
  : Eval (list (string * Value) * (string * list string)) :=
  let '(mkDatatypeBinding _ _ name type) := b in
  do res <- computeConstructors state type [] [];
  Eval_ret (fst res, (getText name, snd res)).

Definition TypeBinding_name (b : TypeBinding) : Token :=
  let '(mkTypeBinding _ _ name _) := b in name.

Definition ExceptionBinding_evaluate (b : ExceptionBinding) (state : State)
  : Eval EvaluationResult :=
  match b with
  | DirectExceptionBinding position name type =>
      let numArg := match type with Some _ => 1 | None => 0 end in
      do id <- gets (fun h => getValueIdentifierId h state (getText name));
      do _ <- incrementValueIdentifierId state (getText name);
      do status <- gets (fun h => getRebindStatus h state (getText name));
      match status with
      | Never => throw EvaluationError
      | Allowed =>
          do _ <- setDynamicValue state (getText name)
                (ExceptionConstructor (getText name) numArg id);
          Eval_ret (state, false, None)
      end
  | ExceptionAlias position name oldname =>
      do res <- gets (fun h => getDynamicValue h state (getText oldname));
      match res with
      | None => throw EvaluationError
      | Some value =>
          do _ <- setDynamicValue state (getText name) value;
          Eval_ret (state, false, None)
      end
  end.

(** The loop of [ExceptionDeclaration.evaluate]. *)
Fixpoint evaluateBindings (bindings : list ExceptionBinding) (state : State)
  : Eval EvaluationResult :=
  match bindings with
  | [] => Eval_ret (state, false, None)
  | b :: bindings' =>
      do res <- ExceptionBinding_evaluate b state;
      if resultThrew res then Eval_ret res
      else evaluateBindings bindings' (resultState res)
  end.

Fixpoint Declaration_evaluate (d : Declaration) (state : State) {struct d}
  : Eval EvaluationResult :=
  match d with
  | ValueDeclaration _ _ valueBinding _ =>
      ValueDeclaration_evaluate valueBinding state
  | TypeDeclaration _ typeBinding _ =>
      do _ <- forEach (fun b => setDynamicType state (getText (TypeBinding_name b)) [])
                  typeBinding;
      Eval_ret (state, false, None)
  | DatatypeDeclaration _ datatypeBinding _ _ =>
      (* I'm assuming the withtype is empty *)
      do _ <- forEach (fun b =>
             do res <- DatatypeBinding_compute b state;
             do _ <- forEach (fun entry : string * Value =>
                    do status <- gets (fun h => getRebindStatus h state (fst entry));
                    match status with
                    | Never => throw EvaluationError
                    | Allowed => setDynamicValue state (fst entry) (snd entry)
                    end) (fst res);
             setDynamicType state (fst (snd res)) (snd (snd res)))
           datatypeBinding;
      Eval_ret (state, false, None)
  | DatatypeReplication _ name oldname _ =>
      do res <- gets (fun h => getDynamicType h state (getText oldname));
      match res with
      | None => throw EvaluationError
      | Some constructors =>
          do _ <- setDynamicType state (getText name) constructors;
          Eval_ret (state, false, None)
      end
  | AbstypeDeclaration _ datatypeBinding _ declaration _ =>
      do _ <- forEach (fun b =>
             do res <- DatatypeBinding_compute b state;
             forEach (fun entry : string * Value =>
                        setDynamicValue state (fst entry) (snd entry)) (fst res))
           datatypeBinding;
      Declaration_evaluate declaration state
  | ExceptionDeclaration _ bindings _ => evaluateBindings bindings state
  | LocalDeclaration _ declaration body _ =>
      do stateId <- gets (fun h => getId h state);
      do nstate <- getNestedState state false stateId;
      do res <- Declaration_evaluate declaration nstate;
      if resultThrew res then
        (* Something came flying in our direction. So hide we were here
           and let it flow. *)
        Eval_ret (state, true, resultValue res)
      else
        do nstate <- getNestedState (resultState res) false stateId;
        do res <- Declaration_evaluate body nstate;
        (* Forget all local definitions *)
        do _ <- setParent (resultState res) state;
        Eval_ret res
  | OpenDeclaration _ _ _ => throw InternalInterpreterError
  | EmptyDeclaration _ => Eval_ret (state, false, None)
  | SequentialDeclaration _ declarations _ =>
      (fix evaluateAll (l : list Declaration) (state : State) : Eval EvaluationResult :=
         match l with
         | [] => Eval_ret (state, false, None)
         | x :: l' =>
             do nstate <- getNestedState state true (Declaration_id x);
             do res <- Declaration_evaluate x nstate;
             if resultThrew res then
               (* Something blew up, so let someone else handle the mess *)
               Eval_ret res
             else evaluateAll l' (resultState res)
         end) declarations state
  | FunctionDeclaration _ _ _ _ =>
      (* the method of the base class: not yet implemented *)
      throw InternalInterpreterError
  | InfixDeclaration _ operators precedence _ =>
      do _ <- forEach (fun operator => setInfixStatus state operator precedence false true)
                  operators;
      Eval_ret (state, false, None)
  | InfixRDeclaration _ operators precedence _ =>
      do _ <- forEach (fun operator => setInfixStatus state operator precedence true true)
                  operators;
      Eval_ret (state, false, None)
  | NonfixDeclaration _ operators _ =>
      do _ <- forEach (fun operator => setInfixStatus state operator 0 false false)
                  operators;
      Eval_ret (state, false, None)
  end.

Definition ExceptionBinding_elaborate (b : ExceptionBinding) (state : State) : Eval State :=
  match b with
  | DirectExceptionBinding position name type =>
      match type with
      | Some t =>
          match unguardedTypeVariables t with
          | _ :: _ => throw ElaborationError
          | [] =>
              do _ <- setStaticValue state (getText name)
                    (FunctionType (Type_simplify t) (CustomType "exn" [] 0) 0);
              Eval_ret state
          end
      | None =>
          do _ <- setStaticValue state (getText name) (CustomType "exn" [] 0);
          Eval_ret state
      end
  | ExceptionAlias position name oldname =>
      do res <- gets (fun h => getStaticValue h state (getText oldname));
      match res with
      | None => throw ElaborationError
      | Some type =>
          do _ <- setStaticValue state (getText name) type;
          Eval_ret state
      end
  end.

Fixpoint elaborateBindings (bindings : list ExceptionBinding) (state : State) : Eval State :=
  match bindings with
  | [] => Eval_ret state
  | b :: bindings' =>
      do state <- ExceptionBinding_elaborate b state;
      elaborateBindings bindings' state
  end.

Fixpoint Declaration_elaborate (d : Declaration) (state : State) {struct d} : Eval State :=
  match d with
  | ValueDeclaration _ _ _ _ => Eval_ret state
  | TypeDeclaration _ _ _ => Eval_ret state
  | DatatypeDeclaration _ _ _ _ => Eval_ret state
  | DatatypeReplication _ name oldname _ =>
      do res <- gets (fun h => getStaticType h state (getText oldname));
      match res with
      | None => throw ElaborationError
      | Some (type, constructors) =>
          do _ <- setStaticType state (getText name) type constructors;
          Eval_ret state
      end
  | AbstypeDeclaration _ _ _ _ _ => Eval_ret state
  | ExceptionDeclaration _ bindings _ => elaborateBindings bindings state
  | LocalDeclaration _ declaration body _ =>
      do stateId <- gets (fun h => getId h state);
      do nstate <- getNestedState state false stateId;
      do nstate <- Declaration_elaborate declaration nstate;
      do nstate <- getNestedState nstate false stateId;
      do nstate <- Declaration_elaborate body nstate;
      (* Forget all local definitions *)
      do _ <- setParent nstate state;
      Eval_ret nstate
  | OpenDeclaration _ _ _ => throw InternalInterpreterError
  | EmptyDeclaration _ => Eval_ret state
  | SequentialDeclaration _ declarations _ =>
      (fix elaborateAll (l : list Declaration) (state : State) : Eval State :=
         match l with
         | [] => Eval_ret state
         | x :: l' =>
             do nstate <- getNestedState state false (Declaration_id x);
             do state <- Declaration_elaborate x nstate;
             elaborateAll l' state
         end) declarations state
  | FunctionDeclaration _ _ _ _ => throw InternalInterpreterError
  | InfixDeclaration _ _ _ _ => Eval_ret state
  | InfixRDeclaration _ _ _ _ => Eval_ret state
  | NonfixDeclaration _ _ _ => Eval_ret state
  end.

End Evaluate.

End Evaluation.

(** ** Facts about heaps of frames *)

Module HeapFacts.
Import Ast Values States.

(** The parent pointers of a well-formed heap point to older frames. *)
Definition wf (h : Heap) : Prop :=
  forall (a : State) (frame : Frame) (p : State),
    h !! a = Some frame -> parent frame = Some p -> (p < a)%nat.

(** [h'] has the frames of [h], unchanged except for the frame of [s],
    and possibly more. *)
Definition modifies_only (s : State) (h h' : Heap) : Prop :=
  (length h <= length h')%nat
  /\ forall a : State, (a < length h)%nat -> a <> s -> h' !! a = h !! a.

(** [h'] has all the frames of [h], unchanged, and possibly more. *)
Definition preserves (h h' : Heap) : Prop :=
  (length h <= length h')%nat
  /\ forall a : State, (a < length h)%nat -> h' !! a = h !! a.

Lemma preserves_refl (h : Heap) : preserves h h.
Proof. split; auto. Qed.

Lemma preserves_trans (h1 h2 h3 : Heap) :
  preserves h1 h2 -> preserves h2 h3 -> preserves h1 h3.
Proof.
  intros [L1 P1] [L2 P2]. split; [lia|].
  intros a Ha. rewrite P2 by lia. apply P1, Ha.
Qed.

Lemma modifies_only_refl (s : State) (h : Heap) : modifies_only s h h.
Proof. split; auto. Qed.

Lemma preserves_modifies_only (s : State) (h h' : Heap) :
  preserves h h' -> modifies_only s h h'.
Proof. intros [L P]. split; auto. Qed.

(** Composition: the second step may touch the same frame or a frame
    that did not exist at the start. *)
Lemma modifies_only_trans (s t : State) (h1 h2 h3 : Heap) :
  modifies_only s h1 h2 -> modifies_only t h2 h3 ->
  t = s \/ (length h1 <= t)%nat ->
  modifies_only s h1 h3.
Proof.
  intros [L1 P1] [L2 P2] Ht. split; [lia|].
  intros a Ha Hne. rewrite P2; [apply P1; assumption | lia | lia].
Qed.

Lemma modifies_only_fresh (s : State) (h h' : Heap) :
  modifies_only s h h' -> (length h <= s)%nat -> preserves h h'.
Proof.
  intros [L P] Hs. split; [exact L|]. intros a Ha. apply P; lia.
Qed.

Lemma modifies_only_alter (f : Frame -> Frame) (s : State) (h : Heap) :
  modifies_only s h (alter f s h).
Proof.
  split.
  - rewrite length_alter. lia.
  - intros a _ Hne. apply list_lookup_alter_ne. congruence.
Qed.

Lemma preserves_app (h new : Heap) : preserves h (h ++ new)%list.
Proof.
  split.
  - rewrite length_app. lia.
  - intros a Ha. apply lookup_app_l, Ha.
Qed.

(** A walk reads, of each frame it visits, the field it looks for and
    the parent pointer.  Two heaps that agree on these give the same
    walk. *)
Lemma lookupChain_agree {A : Type} (get : Frame -> option A) (fuel : nat)
      (h h' : Heap) (s : State) :
  (forall a, (fun frame => (get frame, parent frame)) <$> h' !! a
             = (fun frame => (get frame, parent frame)) <$> h !! a) ->
  lookupChain get fuel h' s = lookupChain get fuel h s.
Proof.
  intros Hagree. revert s. induction fuel as [|fuel IH]; intros s; simpl; [reflexivity|].
  specialize (Hagree s).
  destruct (h' !! s) as [frame'|], (h !! s) as [frame|]; simpl in Hagree;
    try discriminate; [|reflexivity].
  injection Hagree as Hget Hparent. rewrite Hget, Hparent.
  destruct (get frame); [reflexivity|].
  destruct (parent frame); [apply IH | reflexivity].
Qed.

(** In a well-formed heap a walk from [s] stays at or below [s], so that
    frames allocated later and the amount of fuel beyond [s] do not
    matter. *)
Lemma lookupChain_preserves {A : Type} (get : Frame -> option A)
      (h h' : Heap) :
  wf h -> preserves h h' ->
  forall (s : State) (fuel fuel' : nat),
    (s < length h)%nat -> (s < fuel)%nat -> (s < fuel')%nat ->
    lookupChain get fuel' h' s = lookupChain get fuel h s.
Proof.
  intros Hwf [L P] s. induction (lt_wf s) as [s _ IH].
  intros fuel fuel' Hs Hf Hf'.
  destruct fuel as [|fuel]; [lia|]. destruct fuel' as [|fuel']; [lia|].
  simpl. rewrite (P s Hs).
  destruct (h !! s) as [frame|] eqn:Hframe; [|reflexivity].
  destruct (get frame); [reflexivity|].
  destruct (parent frame) as [p|] eqn:Hp; [|reflexivity].
  pose proof (Hwf s frame p Hframe Hp). apply IH; lia.
Qed.

Lemma wf_initial (frame : Frame) : parent frame = None -> wf [frame].
Proof.
  intros Hroot a frame' p Ha Hp. destruct a as [|a]; simpl in Ha.
  - injection Ha as <-. congruence.
  - destruct a; discriminate.
Qed.

(** The last binding of a name in a list of bindings that are written
    one after the other. *)
Fixpoint lastBinding (l : list (string * Value)) (name : string) : option Value :=
  match l with
  | [] => None
  | entry :: l' =>
      match lastBinding l' name with
      | Some v => Some v
      | None => if String.eqb (fst entry) name then Some (snd entry) else None
      end
  end.

(** The loop that writes the bindings [f entry] into the dynamic values
    of the frame of [s]. *)
Definition writeAll (f : string * Value -> string * Value) (s : State)
           (l : list (string * Value)) : Eval unit :=
  forEach (fun entry => setDynamicValue s (fst (f entry)) (snd (f entry))) l.

Definition withDynamicValues (values : gmap string Value) (frame : Frame) : Frame :=
  mkFrame (id frame) (parent frame) (staticValues frame) (staticTypes frame)
          values (dynamicTypes frame) (infixEnvironment frame)
          (valueIdentifierId frame) (rebindStatus frame).

Lemma writeAll_frame (f : string * Value -> string * Value) (s : State)
      (l : list (string * Value)) (h : Heap) (frame : Frame) :
  h !! s = Some frame ->
  exists values,
    writeAll f s l h = (Ok tt, <[s := withDynamicValues values frame]> h)
    /\ forall name,
        values !! name
        = match lastBinding (map f l) name with
          | Some v => Some v
          | None => dynamicValues frame !! name
          end.
Proof.
  revert h frame. induction l as [|entry l IH]; intros h frame Hframe.
  - exists (dynamicValues frame). split; [|reflexivity].
    unfold writeAll. simpl. unfold Eval_ret. f_equal.
    symmetry. apply list_insert_id. rewrite Hframe. destruct frame; reflexivity.
  - set (frame1 := withDynamicValues (<[fst (f entry) := snd (f entry)]> (dynamicValues frame)) frame).
    assert (Hstep : alter (fun frame =>
                mkFrame (id frame) (parent frame) (staticValues frame) (staticTypes frame)
                  (<[fst (f entry) := snd (f entry)]> (dynamicValues frame))
                  (dynamicTypes frame) (infixEnvironment frame)
                  (valueIdentifierId frame) (rebindStatus frame)) s h
              = <[s := frame1]> h).
    { apply list_eq. intros a. destruct (decide (a = s)) as [->|Hne].
      - rewrite list_lookup_alter_eq, Hframe.
        rewrite list_lookup_insert_eq by (apply lookup_lt_Some in Hframe; exact Hframe).
        reflexivity.
      - rewrite list_lookup_alter_ne, list_lookup_insert_ne by congruence. reflexivity. }
    assert (Hframe1 : <[s := frame1]> h !! s = Some frame1).
    { apply list_lookup_insert_eq. apply lookup_lt_Some in Hframe. exact Hframe. }
    destruct (IH _ _ Hframe1) as (values & Hrun & Hvalues).
    exists values. split.
    + unfold writeAll in *. simpl. unfold Eval_then, Eval_bind.
      unfold setDynamicValue at 1. unfold updateFrame, modify. rewrite Hstep.
      rewrite Hrun. f_equal. rewrite list_insert_insert_eq. reflexivity.
    + intros name. rewrite Hvalues. simpl.
      destruct (lastBinding (map f l) name); [reflexivity|].
      unfold frame1, withDynamicValues. simpl.
      destruct (String.eqb_spec (fst (f entry)) name) as [->|Hne].
      * apply lookup_insert_eq.
      * apply lookup_insert_ne. exact Hne.
Qed.

End HeapFacts.

(** ** Closures and recursive groups *)

Module Closures.
Import Ast Values States Evaluation HeapFacts.

Lemma lastBinding_map (f : string * Value -> string * Value)
      (l : list (string * Value)) (name : string) :
  (forall entry, fst (f entry) = fst entry) ->
  lastBinding (map f l) name
  = (fun v => snd (f (name, v))) <$> lastBinding l name.
Proof.
  intros Hfst. induction l as [|[n v] l IH]; simpl; [reflexivity|].
  rewrite IH. destruct (lastBinding l name); simpl; [reflexivity|].
  rewrite Hfst. simpl.
  destruct (String.eqb_spec n name) as [->|_]; simpl; [|reflexivity].
  destruct (f (name, v)) eqn:E. simpl.
  assert (Hs : fst (f (name, v)) = name) by apply Hfst. rewrite E in Hs. simpl in Hs.
  reflexivity.
Qed.

Lemma readjoin_fst (state : State) (recursives : list (string * Value))
      (entry : string * Value) :
  fst (readjoin state recursives entry) = fst entry.
Proof. unfold readjoin. destruct (snd entry); reflexivity. Qed.

Lemma tieRecursive_fst (recursives : list (string * Value)) (entry : string * Value) :
  fst (tieRecursive recursives entry) = fst entry.
Proof. unfold tieRecursive. destruct (snd entry); reflexivity. Qed.

Section WithEvaluator.

Variable Expression_compute : Expression -> State -> Eval (Value * bool).
Variable Pattern_matches : Expression -> State -> Value -> Eval (option (list (string * Value))).
Variable Match_compute : Match -> State -> Value -> Eval (Value * bool).

(** Applying a closure runs its body in a fresh frame under the
    captured state, in which every sibling is bound again. *)
Lemma FunctionValue_compute_adjoins (h : Heap) (state : State)
      (recursives : list (string * Value)) (body : Match) (argument : Value) :
  wf h -> (state < length h)%nat ->
  exists h1 : Heap,
    FunctionValue_compute Match_compute state recursives body argument h
    = Match_compute body (length h) argument h1
    /\ preserves h h1
    /\ length h1 = S (length h)
    /\ parent <$> h1 !! length h = Some (Some state)
    /\ forall name,
        getDynamicValue h1 (length h) name
        = match lastBinding recursives name with
          | Some v => Some (snd (readjoin state recursives (name, v)))
          | None => getDynamicValue h state name
          end.
Proof.
  intros Hwf Hstate.
  set (frame := emptyFrame (getId h state) (Some state)).
  assert (Hframe : (h ++ [frame])%list !! length h = Some frame).
  { rewrite lookup_app_r by lia. rewrite Nat.sub_diag. reflexivity. }
  destruct (writeAll_frame (readjoin state recursives) (length h) recursives
              (h ++ [frame])%list frame Hframe) as (values & Hrun & Hvalues).
  set (h1 := <[length h := withDynamicValues values frame]> (h ++ [frame])%list).
  assert (Hlen : length h1 = S (length h)).
  { unfold h1. rewrite length_insert, length_app. simpl. lia. }
  assert (Hpres : preserves h h1).
  { split; [lia|]. intros a Ha. unfold h1.
    rewrite list_lookup_insert_ne by lia. apply lookup_app_l, Ha. }
  assert (Hnew : h1 !! length h = Some (withDynamicValues values frame)).
  { unfold h1. apply list_lookup_insert_eq. rewrite length_app. simpl. lia. }
  exists h1. split; [|split; [exact Hpres|split; [exact Hlen|split]]].
  - unfold FunctionValue_compute, Eval_then, Eval_bind, gets, getNestedState.
    fold frame. unfold writeAll in Hrun. rewrite Hrun. reflexivity.
  - rewrite Hnew. reflexivity.
  - intros name. unfold getDynamicValue. rewrite Hlen. simpl. rewrite Hnew. simpl.
    rewrite Hvalues. rewrite lastBinding_map by apply readjoin_fst.
    destruct (lastBinding recursives name); simpl; [reflexivity|].
    rewrite lookup_empty.
    apply (lookupChain_preserves _ h h1 Hwf Hpres); lia.
Qed.

(** C5.  A closure carries its captured state and its recursive group.
    Applying it allocates a fresh state whose parent is the captured
    state and binds in it every name of the group: a sibling that is a
    closure with body [b] is bound to the closure with the captured
    state, the whole group and [b] (whatever state and group the stored
    sibling had), any other value is bound as it is.  Only then the
    body runs, in that state, on the argument; a name outside of the
    group resolves as in the captured state.  And the declaration of a
    recursive group binds each of its closures, with its state and its
    body, to the whole group. *)
Theorem closures_carry_their_group (h : Heap) (state : State) :
  wf h -> (state < length h)%nat ->
  (forall (recursives : list (string * Value)) (body : Match) (argument : Value),
     exists h1 : Heap,
       FunctionValue_compute Match_compute state recursives body argument h
       = Match_compute body (length h) argument h1
       /\ preserves h h1
       /\ length h1 = S (length h)
       /\ parent <$> h1 !! length h = Some (Some state)
       /\ forall name,
           getDynamicValue h1 (length h) name
           = match lastBinding recursives name with
             | Some (FunctionValue _ _ siblingBody) =>
                 Some (FunctionValue state recursives siblingBody)
             | Some v => Some v
             | None => getDynamicValue h state name
             end)
  /\ (forall (valueBinding : list ValueBinding)
             (result recursives : list (string * Value)) (h0 : Heap),
        collectBindings Expression_compute Pattern_matches state valueBinding false [] [] h
        = (Ok (inr (result, recursives)), h0) ->
        (state < length h0)%nat ->
        exists h' : Heap,
          ValueDeclaration_evaluate Expression_compute Pattern_matches valueBinding state h
          = (Ok (state, false, None), h')
          /\ forall name v,
              lastBinding recursives name = Some v ->
              getDynamicValue h' state name
              = Some match v with
                     | FunctionValue captured _ closureBody =>
                         FunctionValue captured recursives closureBody
                     | _ => v
                     end).
Proof.
  intros Hwf Hstate. split.
  - intros recursives body argument.
    destruct (FunctionValue_compute_adjoins h state recursives body argument Hwf Hstate)
      as (h1 & Hrun & Hpres & Hlen & Hparent & Hbound).
    exists h1. split; [exact Hrun|]. split; [exact Hpres|]. split; [exact Hlen|].
    split; [exact Hparent|]. intros name. rewrite Hbound.
    destruct (lastBinding recursives name) as [v|]; [|reflexivity].
    destruct v; reflexivity.
  - intros valueBinding result recursives h0 Hcollect Hstate0.
    destruct (lookup_lt_is_Some_2 h0 state Hstate0) as [frame0 Hframe0].
    destruct (writeAll_frame (fun entry => entry) state result h0 frame0 Hframe0)
      as (values1 & Hrun1 & _).
    set (frame1 := withDynamicValues values1 frame0) in *.
    assert (Hframe1 : <[state := frame1]> h0 !! state = Some frame1).
    { apply list_lookup_insert_eq, Hstate0. }
    destruct (writeAll_frame (tieRecursive recursives) state recursives _ frame1 Hframe1)
      as (values2 & Hrun2 & Hvalues2).
    eexists. split.
    + unfold ValueDeclaration_evaluate, Eval_then, Eval_bind. rewrite Hcollect.
      unfold writeAll in Hrun1, Hrun2. simpl in Hrun1. rewrite Hrun1, Hrun2. reflexivity.
    + intros name v Hlast. unfold getDynamicValue.
      rewrite list_insert_insert_eq.
      rewrite length_insert. destruct (length h0) as [|n] eqn:Hn; [lia|].
      simpl. rewrite list_lookup_insert_eq by lia. simpl.
      rewrite Hvalues2, lastBinding_map by apply tieRecursive_fst.
      rewrite Hlast. destruct v; reflexivity.
Qed.

End WithEvaluator.

End Closures.

(** ** The initial state and a fragment of the evaluator of expressions *)

Module InitialState.
Import Ast Values States Evaluation HeapFacts.

(** Modelled from the spec: [getInitialState()] of initialState.ts,
    which is not at hand.  Of the primordial environment, the frame has
    the dynamic bindings of the built-in value constructors and
    exceptions and the rebind statuses: [true], [false], [nil], [::] and
    [ref] may never be rebound.  The built-in functions are host
    callbacks and are left out. *)
Definition initialFrame : Frame :=
  mkFrame 0 None ∅ ∅
    (list_to_map
       [ ("true", BoolValue true); ("false", BoolValue false);
         ("nil", ValueConstructor "nil" 0 0); ("::", ValueConstructor "::" 1 0);
         ("Bind", ExceptionConstructor "Bind" 0 0);
         ("Match", ExceptionConstructor "Match" 0 0);
         ("Div", ExceptionConstructor "Div" 0 0);
         ("Overflow", ExceptionConstructor "Overflow" 0 0) ])
    (list_to_map [ ("bool", ["true"; "false"]); ("list", ["nil"; "::"]) ])
    ∅
    ∅
    (list_to_map
       [ ("true", Never); ("false", Never); ("nil", Never); ("::", Never);
         ("ref", Never) ]).

Definition initialHeap : Heap := [initialFrame].
Definition getInitialState : State := 0%nat.

Lemma wf_initialHeap : wf initialHeap.
Proof. apply wf_initial. reflexivity. Qed.

(** Modelled from the spec: a fragment of the evaluator of
    expressions.ts, which is not at hand, for the examples: a lambda
    evaluates to a closure over the current state, a value identifier to
    its dynamic binding; the pattern of an identifier that is not a
    constructor binds the value and a wildcard binds nothing; a match
    with one such clause binds the argument in a nested state and
    evaluates the body there. *)
Definition computeFragment (e : Expression) (state : State) : Eval (Value * bool) :=
  match e with
  | Lambda _ match_ => Eval_ret (FunctionValue state [] match_, false)
  | ValueIdentifier _ name =>
      do v <- gets (fun h => getDynamicValue h state (getText name));
      match v with
      | Some v => Eval_ret (v, false)
      | None => throw EvaluationError
      end
  | _ => throw InternalInterpreterError
  end.

Definition matchesFragment (p : Expression) (state : State) (v : Value)
  : Eval (option (list (string * Value))) :=
  match p with
  | ValueIdentifier _ name => Eval_ret (Some [(getText name, v)])
  | Wildcard _ => Eval_ret (Some [])
  | _ => throw InternalInterpreterError
  end.

Definition matchFragment (m : Match) (state : State) (argument : Value)
  : Eval (Value * bool) :=
  match m with
  | mkMatch _ [(ValueIdentifier _ parameter, body)] =>
      do stateId <- gets (fun h => getId h state);
      do nstate <- getNestedState state false stateId;
      do _ <- setDynamicValue nstate (getText parameter) argument;
      computeFragment body nstate
  | _ => throw InternalInterpreterError
  end.

(** A declaration of the top level is evaluated in a state nested under
    the state of the caller, as [SequentialDeclaration.evaluate] does for
    each of its parts. *)
Definition evaluateTopLevel (d : Declaration) (state : State) : Eval EvaluationResult :=
  Declaration_evaluate computeFragment matchesFragment (SequentialDeclaration 0 [d] 1) state.

End InitialState.

Module ClosuresExamples.
Import Ast Values States Evaluation HeapFacts Closures InitialState.

(** [val rec even = fn x => odd and odd = fn y => even] *)
Definition evenBody : Match :=
  mkMatch 15 [(ValueIdentifier 15 (AlphanumericIdentifierToken "x" 15),
               ValueIdentifier 20 (AlphanumericIdentifierToken "odd" 20))].
Definition oddBody : Match :=
  mkMatch 36 [(ValueIdentifier 36 (AlphanumericIdentifierToken "y" 36),
               ValueIdentifier 41 (AlphanumericIdentifierToken "even" 41))].
Definition evenOdd : Declaration :=
  ValueDeclaration 0 []
    [ mkValueBinding 8 true (ValueIdentifier 8 (AlphanumericIdentifierToken "even" 8))
        (Lambda 12 evenBody);
      mkValueBinding 28 false (ValueIdentifier 28 (AlphanumericIdentifierToken "odd" 28))
        (Lambda 33 oddBody) ] 2.

Definition group : list (string * Value) :=
  [("even", FunctionValue 1 [] evenBody); ("odd", FunctionValue 1 [] oddBody)].

(** The declaration binds both closures with the whole group, and
    applying [even] resolves [odd] to its sibling, rebuilt with the
    group. *)
Example mutual_recursion_resolves :
  exists h' : Heap,
    evaluateTopLevel evenOdd getInitialState initialHeap = (Ok (1%nat, false, None), h')
    /\ getDynamicValue h' 1 "even" = Some (FunctionValue 1 group evenBody)
    /\ getDynamicValue h' 1 "odd" = Some (FunctionValue 1 group oddBody)
    /\ fst (FunctionValue_compute matchFragment 1 group evenBody (BoolValue true) h')
       = Ok (FunctionValue 1 group oddBody, false).
Proof. eexists. split; [reflexivity|]. repeat split; reflexivity. Qed.

Lemma closures_carry_their_group_witness :
  wf initialHeap
  /\ (0 < length initialHeap)%nat
  /\ exists h1 : Heap,
      FunctionValue_compute matchFragment 0 group evenBody (BoolValue true) initialHeap
      = matchFragment evenBody (length initialHeap) (BoolValue true) h1
      /\ preserves initialHeap h1
      /\ length h1 = S (length initialHeap)
      /\ parent <$> h1 !! length initialHeap = Some (Some 0%nat)
      /\ forall name,
          getDynamicValue h1 (length initialHeap) name
          = match lastBinding group name with
            | Some (FunctionValue _ _ siblingBody) =>
                Some (FunctionValue 0 group siblingBody)
            | Some v => Some v
            | None => getDynamicValue initialHeap 0 name
            end.
Proof.
  assert (Hlt : (0 < length initialHeap)%nat) by (simpl; lia).
  split; [exact wf_initialHeap|]. split; [exact Hlt|].
  exact (proj1 (closures_carry_their_group computeFragment matchesFragment matchFragment
                  initialHeap 0 wf_initialHeap Hlt)
               group evenBody (BoolValue true)).
Defined.

End ClosuresExamples.

(** ** Rebinding of protected identifiers *)

Module Rebinding.
Import Ast Values States Evaluation HeapFacts InitialState.

Lemma lookupChain_alter {A : Type} (get : Frame -> option A) (f : Frame -> Frame)
      (fuel : nat) (h : Heap) (s s' : State) :
  (forall frame, get (f frame) = get frame /\ parent (f frame) = parent frame) ->
  lookupChain get fuel (alter f s h) s' = lookupChain get fuel h s'.
Proof.
  intros Hf. apply lookupChain_agree. intros a.
  destruct (decide (a = s)) as [->|Hne].
  - rewrite list_lookup_alter_eq. destruct (h !! s) as [frame|]; simpl; [|reflexivity].
    destruct (Hf frame) as [-> ->]. reflexivity.
  - rewrite list_lookup_alter_ne by congruence. reflexivity.
Qed.

(** The path that asks: a direct exception binding of a protected
    identifier throws, and no dynamic value is written. *)
Lemma DirectExceptionBinding_protected
      (Expression_compute : Expression -> State -> Eval (Value * bool))
      (Pattern_matches : Expression -> State -> Value -> Eval (option (list (string * Value))))
      (h : Heap) (state : State)
      (position : Position) (name : Token) (type : option Type_) :
  getRebindStatus h state (getText name) = Never ->
  exists h',
    ExceptionBinding_evaluate (DirectExceptionBinding position name type) state h
    = (Throw EvaluationError, h')
    /\ forall s' name', getDynamicValue h' s' name' = getDynamicValue h s' name'.
Proof.
  intros Hnever. eexists. split.
  - unfold ExceptionBinding_evaluate, Eval_then, Eval_bind, gets,
      incrementValueIdentifierId, updateFrame, modify.
    unfold getRebindStatus in *. rewrite length_alter.
    rewrite lookupChain_alter by (intros frame; split; reflexivity).
    rewrite Hnever. reflexivity.
  - intros s' name'. unfold getDynamicValue. rewrite length_alter.
    apply lookupChain_alter. intros frame; split; reflexivity.
Qed.

Definition exception_nil_is_Bind : Declaration :=
  ExceptionDeclaration 0
    [ExceptionAlias 10 (AlphanumericIdentifierToken "nil" 10)
                       (AlphanumericIdentifierToken "Bind" 16)] 2.

(** C1 fails on the code for an exception alias.  In the initial state
    [nil] is the list constructor and may never be rebound; evaluating
    [exception nil = Bind] at the top level returns normally, and in the
    state that it returns [nil] is the exception constructor [Bind]. *)
Theorem exception_alias_rebinds_protected_identifier :
  getRebindStatus initialHeap getInitialState "nil" = Never
  /\ getDynamicValue initialHeap getInitialState "nil" = Some (ValueConstructor "nil" 0 0)
  /\ exists h' : Heap,
      evaluateTopLevel exception_nil_is_Bind getInitialState initialHeap
      = (Ok (1%nat, false, None), h')
      /\ getDynamicValue h' 1 "nil" = Some (ExceptionConstructor "Bind" 0 0).
Proof.
  split; [reflexivity|]. split; [reflexivity|].
  eexists. split; reflexivity.
Qed.

(** The sibling paths: the direct binding [exception true] and the
    datatype [datatype t = E | true] throw an [EvaluationError]. *)
Example direct_binding_and_datatype_throw :
  fst (evaluateTopLevel
         (ExceptionDeclaration 0
            [DirectExceptionBinding 10 (AlphanumericIdentifierToken "true" 10) None] 2)
         getInitialState initialHeap)
  = Throw EvaluationError
  /\ fst (evaluateTopLevel
            (DatatypeDeclaration 0
               [mkDatatypeBinding 9 [] (AlphanumericIdentifierToken "t" 9)
                  [(AlphanumericIdentifierToken "E" 13, None);
                   (AlphanumericIdentifierToken "true" 17, None)]] None 2)
            getInitialState initialHeap)
     = Throw EvaluationError.
Proof. split; reflexivity. Qed.

End Rebinding.

(** ** Which frames a computation writes to *)

Module Confinement.
Import Ast Values States Evaluation HeapFacts.

(** Started in a heap with at least [base] frames, [m] leaves every
    frame below [base] as it is, except possibly that of [s], and the
    state in its result, read off by [st], is [s] or is not below
    [base]. *)
Definition inv {A : Type} (st : A -> State) (s : State) (base : nat) (m : Eval A) : Prop :=
  forall h : Heap,
    (base <= length h)%nat ->
    (length h <= length (snd (m h)))%nat
    /\ (forall a : State, (a < base)%nat -> a <> s -> snd (m h) !! a = h !! a)
    /\ (forall x : A, fst (m h) = Ok x -> st x = s \/ (base <= st x)%nat).

(** [m] writes to the frame of [s] and to frames that it allocates, and
    the state in its result is [s] or one that it allocated. *)
Definition confined {A : Type} (st : A -> State) (s : State) (m : Eval A) : Prop :=
  forall h : Heap,
    modifies_only s h (snd (m h))
    /\ (forall x : A, fst (m h) = Ok x -> st x = s \/ (length h <= st x)%nat).

(** [m] writes to the frame of [s] and to frames that it allocates. *)
Definition local {A : Type} (s : State) (m : Eval A) : Prop :=
  forall h : Heap, modifies_only s h (snd (m h)).

Lemma inv_confined {A : Type} (st : A -> State) (s : State) (m : Eval A) :
  (forall base, inv st s base m) -> confined st s m.
Proof.
  intros H h. destruct (H (length h) h (Nat.le_refl _)) as (L & P & R).
  split; [split|]; assumption.
Qed.

Lemma confined_inv {A : Type} (st : A -> State) (s t : State) (base : nat) (m : Eval A) :
  confined st t m -> t = s \/ (base <= t)%nat -> inv st s base m.
Proof.
  intros H Ht h Hbase. destruct (H h) as ([L P] & R). split; [exact L|split].
  - intros a Ha Hne. apply P; lia.
  - intros x Hx. destruct (R x Hx); lia.
Qed.

Lemma local_inv {A : Type} (s t : State) (base : nat) (m : Eval A) :
  local t m -> t = s \/ (base <= t)%nat -> inv (fun _ => s) s base m.
Proof.
  intros H Ht h Hbase. destruct (H h) as [L P]. split; [exact L|split].
  - intros a Ha Hne. apply P; lia.
  - auto.
Qed.

Lemma inv_ret {A : Type} (st : A -> State) (s : State) (base : nat) (x : A) :
  st x = s \/ (base <= st x)%nat -> inv st s base (Eval_ret x).
Proof.
  intros Hx h _. simpl. split; [lia|split]; [reflexivity|].
  intros y Hy. injection Hy as <-. exact Hx.
Qed.

Lemma inv_throw {A : Type} (st : A -> State) (s : State) (base : nat) (e : Error) :
  inv st s base (throw e).
Proof. intros h _. simpl. split; [lia|split]; [reflexivity|discriminate]. Qed.

Lemma inv_gets {A : Type} (s : State) (base : nat) (f : Heap -> A) :
  inv (fun _ => s) s base (gets f).
Proof. intros h _. simpl. split; [lia|split]; [reflexivity|auto]. Qed.

Lemma inv_lift {A : Type} (s : State) (base : nat) (o : outcome A) :
  inv (fun _ => s) s base (fun h => (o, h)).
Proof. intros h _. simpl. split; [lia|split]; [reflexivity|auto]. Qed.

Lemma local_updateFrame (t : State) (f : Frame -> Frame) : local t (updateFrame t f).
Proof. intros h. apply modifies_only_alter. Qed.

Lemma local_incrementValueIdentifierId (t : State) (name : string) :
  local t (incrementValueIdentifierId t name).
Proof. intros h. apply modifies_only_alter. Qed.

Lemma inv_nested (s t : State) (base : nat) (redefinePrint : bool) (newId : Z) :
  inv (fun n : State => n) s base (getNestedState t redefinePrint newId).
Proof.
  intros h Hbase. simpl. split; [|split].
  - rewrite length_app. lia.
  - intros a Ha _. apply lookup_app_l. lia.
  - intros x Hx. injection Hx as <-. right. exact Hbase.
Qed.

(** Sequencing: the second computation may depend on what is known
    about the state in the result of the first. *)
Lemma inv_then {A B : Type} (st1 : A -> State) (st2 : B -> State)
      (s : State) (base : nat) (m : Eval A) (f : A -> Eval B) :
  inv st1 s base m ->
  (forall x, st1 x = s \/ (base <= st1 x)%nat -> inv st2 s base (f x)) ->
  inv st2 s base (Eval_then m f).
Proof.
  intros Hm Hf h Hbase. unfold Eval_then, Eval_bind.
  destruct (Hm h Hbase) as (L1 & P1 & R1).
  destruct (m h) as [[x|e] h1] eqn:Hmh; simpl in *.
  - destruct (Hf x (R1 x eq_refl) h1 ltac:(lia)) as (L2 & P2 & R2).
    split; [lia|split].
    + intros a Ha Hne. rewrite P2 by assumption. apply P1; assumption.
    + exact R2.
  - split; [exact L1|split]; [exact P1|discriminate].
Qed.

Lemma inv_then_unit {A B : Type} (st : B -> State) (s : State) (base : nat)
      (m : Eval A) (f : A -> Eval B) :
  inv (fun _ => s) s base m ->
  (forall x, inv st s base (f x)) ->
  inv st s base (Eval_then m f).
Proof. intros Hm Hf. apply (inv_then (fun _ => s)); auto. Qed.

Lemma inv_forEach {A : Type} (s : State) (base : nat) (body : A -> Eval unit)
      (l : list A) :
  (forall x, inv (fun _ => s) s base (body x)) ->
  inv (fun _ => s) s base (forEach body l).
Proof.
  intros Hbody. induction l as [|x l IH]; simpl.
  - apply inv_ret. auto.
  - apply inv_then_unit; auto.
Qed.

(** Every write of [State] goes to the frame of the state whose method
    is called. *)
Lemma inv_write (s t : State) (base : nat) (m : Eval unit) :
  local t m -> t = s \/ (base <= t)%nat -> inv (fun _ => s) s base m.
Proof. apply local_inv. Qed.

End Confinement.

(** ** Evaluation and elaboration write to their own frames *)

Module EvaluationFacts.
Import Ast Values States Evaluation HeapFacts Confinement.

Ltac inv_write :=
  eapply inv_write;
  [ first [ apply local_updateFrame | apply local_incrementValueIdentifierId ]
  | solve [ auto ] ].

Ltac inv_go :=
  repeat first
    [ apply inv_throw
    | apply inv_gets
    | solve [ apply inv_ret; auto ]
    | inv_write
    | (apply inv_forEach; intros)
    | match goal with
      | |- inv _ _ _ (match ?x with _ => _ end) => destruct x
      | |- inv _ _ _ (if ?x then _ else _) => destruct x
      end
    | (apply inv_then_unit; [ | intros ]) ].

Section WithEvaluator.

Variable Expression_compute : Expression -> State -> Eval (Value * bool).
Variable Pattern_matches : Expression -> State -> Value -> Eval (option (list (string * Value))).
Variable unguardedTypeVariables : Type_ -> list Type_.
Variable Type_simplify : Type_ -> Type_.

(** What is assumed of the evaluator of expressions: computing an
    expression and matching a pattern in a state write at most to the
    frame of that state and to frames that they allocate. *)
Hypothesis Expression_compute_local :
  forall e s, local s (Expression_compute e s).
Hypothesis Pattern_matches_local :
  forall p s v, local s (Pattern_matches p s v).

Abbreviation evaluate := (Declaration_evaluate Expression_compute Pattern_matches).
Abbreviation elaborate := (Declaration_elaborate unguardedTypeVariables Type_simplify).

Lemma inv_ValueBinding_compute (b : ValueBinding) (t s : State) (base : nat) :
  t = s \/ (base <= t)%nat ->
  inv (fun _ => s) s base (ValueBinding_compute Expression_compute Pattern_matches b t).
Proof.
  intros Ht. destruct b as [position isRec pattern expression].
  unfold ValueBinding_compute.
  apply inv_then_unit;
    [eapply local_inv; [apply Expression_compute_local | exact Ht]|].
  intros [v threw].
  destruct threw; simpl; [apply inv_ret; auto|].
  apply inv_then_unit;
    [eapply local_inv; [apply Pattern_matches_local | exact Ht]|].
  intros bindings. apply inv_ret. auto.
Qed.

Lemma inv_collectBindings (valueBinding : list ValueBinding) (t s : State) (base : nat)
      (isRec : bool) (result recursives : list (string * Value)) :
  t = s \/ (base <= t)%nat ->
  inv (fun _ => s) s base
      (collectBindings Expression_compute Pattern_matches t valueBinding
                       isRec result recursives).
Proof.
  intros Ht. revert isRec result recursives.
  induction valueBinding as [|b l IH]; intros isRec result recursives; simpl.
  - apply inv_ret. auto.
  - apply inv_then_unit; [apply inv_ValueBinding_compute; exact Ht|].
    intros [[bindings|] [exception|]]; try (apply inv_ret; auto).
    destruct (isRec || isRecursive b); apply IH.
Qed.

Lemma inv_computeConstructors (type : list (Token * option Type_)) (t s : State)
      (base : nat) (ve : list (string * Value)) (connames : list string) :
  t = s \/ (base <= t)%nat ->
  inv (fun _ => s) s base (computeConstructors t type ve connames).
Proof.
  intros Ht. revert ve connames.
  induction type as [|[constructor argumentType] type IH]; intros ve connames; simpl.
  - apply inv_ret. auto.
  - inv_go. apply IH.
Qed.

Lemma inv_DatatypeBinding_compute (b : DatatypeBinding) (t s : State) (base : nat) :
  t = s \/ (base <= t)%nat ->
  inv (fun _ => s) s base (DatatypeBinding_compute b t).
Proof.
  intros Ht. destruct b as [position tvs name type]. unfold DatatypeBinding_compute.
  apply inv_then_unit; [apply inv_computeConstructors; exact Ht|].
  intros res. apply inv_ret. auto.
Qed.

Lemma inv_ExceptionBinding_evaluate (b : ExceptionBinding) (t s : State) (base : nat) :
  t = s \/ (base <= t)%nat ->
  inv resultState s base (ExceptionBinding_evaluate b t).
Proof.
  intros Ht. destruct b; unfold ExceptionBinding_evaluate; inv_go.
Qed.

Lemma inv_evaluateBindings (bindings : list ExceptionBinding) (t s : State) (base : nat) :
  t = s \/ (base <= t)%nat ->
  inv resultState s base (evaluateBindings bindings t).
Proof.
  revert t. induction bindings as [|b l IH]; intros t Ht; simpl.
  - apply inv_ret. auto.
  - apply (inv_then resultState); [apply inv_ExceptionBinding_evaluate; exact Ht|].
    intros res Hres. destruct (resultThrew res).
    + apply inv_ret. exact Hres.
    + apply IH. exact Hres.
Qed.

(** Evaluating a declaration in a state writes to the frame of that
    state and to frames that it allocates, and the state it returns is
    that state or one that it allocated. *)
Lemma inv_Declaration_evaluate :
  forall (d : Declaration) (t s : State) (base : nat),
    t = s \/ (base <= t)%nat ->
    inv resultState s base (evaluate d t).
Proof.
  fix IH 1. intros d t s base Ht. destruct d; simpl.
  - (* ValueDeclaration *)
    unfold ValueDeclaration_evaluate.
    apply inv_then_unit; [apply inv_collectBindings; exact Ht|].
    intros [exception|[result recursives]]; inv_go.
  - (* TypeDeclaration *) inv_go.
  - (* DatatypeDeclaration *)
    apply inv_then_unit; [|intros; apply inv_ret; auto].
    apply inv_forEach. intros b.
    apply inv_then_unit; [apply inv_DatatypeBinding_compute; exact Ht|].
    intros res. inv_go.
  - (* DatatypeReplication *) inv_go.
  - (* AbstypeDeclaration *)
    apply inv_then_unit; [|intros; apply IH; exact Ht].
    apply inv_forEach. intros b.
    apply inv_then_unit; [apply inv_DatatypeBinding_compute; exact Ht|].
    intros res. inv_go.
  - (* ExceptionDeclaration *) apply inv_evaluateBindings. exact Ht.
  - (* LocalDeclaration *)
    apply inv_then_unit; [apply inv_gets|]. intros stateId.
    apply (inv_then (fun n : State => n)); [apply inv_nested|]. intros nstate Hn.
    apply (inv_then resultState); [apply IH; exact Hn|]. intros res Hres.
    destruct (resultThrew res); [apply inv_ret; exact Ht|].
    apply (inv_then (fun n : State => n)); [apply inv_nested|]. intros nstate2 Hn2.
    apply (inv_then resultState); [apply IH; exact Hn2|]. intros res2 Hres2.
    apply inv_then_unit.
    + eapply inv_write; [apply local_updateFrame | exact Hres2].
    + intros _. apply inv_ret. exact Hres2.
  - (* OpenDeclaration *) inv_go.
  - (* EmptyDeclaration *) inv_go.
  - (* SequentialDeclaration *)
    revert t Ht. induction declarations as [|x l IHl]; intros t Ht.
    + apply inv_ret. exact Ht.
    + apply (inv_then (fun n : State => n)); [apply inv_nested|]. intros nstate Hn.
      apply (inv_then resultState); [apply IH; exact Hn|]. intros res Hres.
      destruct (resultThrew res); [apply inv_ret; exact Hres|].
      apply IHl. exact Hres.
  - (* FunctionDeclaration *) inv_go.
  - (* InfixDeclaration *) inv_go.
  - (* InfixRDeclaration *) inv_go.
  - (* NonfixDeclaration *) inv_go.
Qed.

Lemma inv_ExceptionBinding_elaborate (b : ExceptionBinding) (t s : State) (base : nat) :
  t = s \/ (base <= t)%nat ->
  inv (fun n : State => n) s base
      (ExceptionBinding_elaborate unguardedTypeVariables Type_simplify b t).
Proof.
  intros Ht. destruct b; unfold ExceptionBinding_elaborate; inv_go.
Qed.

Lemma inv_elaborateBindings (bindings : list ExceptionBinding) (t s : State) (base : nat) :
  t = s \/ (base <= t)%nat ->
  inv (fun n : State => n) s base
      (elaborateBindings unguardedTypeVariables Type_simplify bindings t).
Proof.
  revert t. induction bindings as [|b l IH]; intros t Ht; simpl.
  - apply inv_ret. exact Ht.
  - apply (inv_then (fun n : State => n)); [apply inv_ExceptionBinding_elaborate; exact Ht|].
    intros t' Ht'. apply IH. exact Ht'.
Qed.

Lemma inv_Declaration_elaborate :
  forall (d : Declaration) (t s : State) (base : nat),
    t = s \/ (base <= t)%nat ->
    inv (fun n : State => n) s base (elaborate d t).
Proof.
  fix IH 1. intros d t s base Ht. destruct d; simpl;
    try (apply inv_ret; exact Ht); try apply inv_throw.
  - (* DatatypeReplication *)
    apply inv_then_unit; [apply inv_gets|]. intros [[type constructors]|]; [|apply inv_throw].
    apply inv_then_unit; [inv_write|]. intros _. apply inv_ret. exact Ht.
  - (* ExceptionDeclaration *) apply inv_elaborateBindings. exact Ht.
  - (* LocalDeclaration *)
    apply inv_then_unit; [apply inv_gets|]. intros stateId.
    apply (inv_then (fun n : State => n)); [apply inv_nested|]. intros nstate Hn.
    apply (inv_then (fun n : State => n)); [apply IH; exact Hn|]. intros nstate1 Hn1.
    apply (inv_then (fun n : State => n)); [apply inv_nested|]. intros nstate2 Hn2.
    apply (inv_then (fun n : State => n)); [apply IH; exact Hn2|]. intros nstate3 Hn3.
    apply inv_then_unit.
    + eapply inv_write; [apply local_updateFrame | exact Hn3].
    + intros _. apply inv_ret. exact Hn3.
  - (* SequentialDeclaration *)
    revert t Ht. induction declarations as [|x l IHl]; intros t Ht.
    + apply inv_ret. exact Ht.
    + apply (inv_then (fun n : State => n)); [apply inv_nested|]. intros nstate Hn.
      apply (inv_then (fun n : State => n)); [apply IH; exact Hn|]. intros t' Ht'.
      apply IHl. exact Ht'.
Qed.

End WithEvaluator.

End EvaluationFacts.

(** ** Processing a chunk of source (main.ts, cli.ts) *)

Module Interpreter.
Import Ast Values States Evaluation HeapFacts Confinement EvaluationFacts.

Record InterpretResult : Type :=
  mkInterpretResult { state : State; evaluationErrored : bool; error : option Value }.

(** The mutable variables of the command line loop of cli.ts: the
    current state and the input kept from incomplete lines. *)
Record Cli : Type := mkCli { cliState : State; tmp : string }.

(** A pure computation used as a step of a computation on the heap. *)
Definition lift {A : Type} (o : outcome A) : Eval A := fun h => (o, h).

(** All lookups through the state [s] give in [h'] what they give in
    [h]: dynamic and static values and types, fixity, id counters and
    rebind statuses. *)
Definition sameLookups (h h' : Heap) (s : State) : Prop :=
  forall name : string,
    getDynamicValue h' s name = getDynamicValue h s name
    /\ getDynamicType h' s name = getDynamicType h s name
    /\ getStaticValue h' s name = getStaticValue h s name
    /\ getStaticType h' s name = getStaticType h s name
    /\ getInfixStatus h' s name = getInfixStatus h s name
    /\ getValueIdentifierId h' s name = getValueIdentifierId h s name
    /\ getRebindStatus h' s name = getRebindStatus h s name.

(** A chunk fails when an error is thrown or when the result says that
    the evaluation raised an exception that nothing handled. *)
Definition chunkFailed (r : outcome InterpretResult) : Prop :=
  match r with
  | Throw _ => True
  | Ok result => evaluationErrored result = true
  end.

Section Interpret.

Variable options : Lexer.Options.

(** parser.ts is not at hand: [parse(tokens, state)] reads the fixity
    table of the state and may record fixity declarations in it. *)
Variable parse : list Lexer.Token -> State -> Eval Declaration.

Variable Expression_simplify : Expression -> outcome Expression.
Variable Type_simplify : Type_ -> Type_.
Variable Expression_compute : Expression -> State -> Eval (Value * bool).
Variable Pattern_matches : Expression -> State -> Value -> Eval (option (list (string * Value))).
Variable unguardedTypeVariables : Type_ -> list Type_.

(** Modelled from the spec: [interpret(source, state, options)] of
    main.ts, which is not at hand.  The chunk is lexed, parsed,
    simplified, elaborated and evaluated, in a frame of its own under
    the state of the caller.  An error of any phase aborts the chunk.
    An exception that the evaluation raises comes back in the result,
    whose state is then the state before the chunk; otherwise the state
    of the result is the one that the evaluation returned. *)
Definition interpret (source : string) (oldState : State) : Eval InterpretResult :=
  do tokens <- lift (Lexer.lex source options);
  do stateId <- gets (fun h => getId h oldState);
  do nstate <- getNestedState oldState false (stateId + 1);
  do ast <- parse tokens nstate;
  do ast <- lift (Declarations.Declaration_simplify Expression_simplify Type_simplify ast);
  do _ <- Declaration_elaborate unguardedTypeVariables Type_simplify ast nstate;
  do res <- Declaration_evaluate Expression_compute Pattern_matches ast nstate;
  if resultThrew res
  then Eval_ret (mkInterpretResult oldState true (resultValue res))
  else Eval_ret (mkInterpretResult (resultState res) false None).

(** The handler of a line in cli.ts, without its output: the line is
    appended to the kept input and interpreted; the state is replaced
    only when the result does not say that the evaluation failed, and
    the kept input is dropped unless the error is an [IncompleteError]. *)
Definition onLine (c : Cli) (line : string) (h : Heap) : Cli * Heap :=
  let source := tmp c +:+ line in
  match interpret source (cliState c) h with
  | (Ok res, h') =>
      if evaluationErrored res then (mkCli (cliState c) "", h')
      else (mkCli (state res) "", h')
  | (Throw IncompleteError, h') => (mkCli (cliState c) source, h')
  | (Throw _, h') => (mkCli (cliState c) "", h')
  end.

Hypothesis parse_local : forall tokens s, local s (parse tokens s).
Hypothesis Expression_compute_local : forall e s, local s (Expression_compute e s).
Hypothesis Pattern_matches_local : forall p s v, local s (Pattern_matches p s v).

(** No phase of [interpret] writes to a frame that existed before. *)
Lemma interpret_preserves (source : string) (oldState : State) (h : Heap) :
  preserves h (snd (interpret source oldState h)).
Proof.
  assert (Hinv : inv (fun _ : InterpretResult => length h) (length h) (length h)
                     (interpret source oldState)).
  { unfold interpret.
    apply inv_then_unit; [apply inv_lift|]. intros tokens.
    apply inv_then_unit; [apply inv_gets|]. intros stateId.
    apply (inv_then (fun n : State => n)); [apply inv_nested|]. intros nstate Hn.
    apply inv_then_unit; [eapply local_inv; [apply parse_local | exact Hn]|].
    intros ast.
    apply inv_then_unit; [apply inv_lift|]. intros ast'.
    apply (inv_then (fun n : State => n));
      [apply inv_Declaration_elaborate; exact Hn|]. intros _ _.
    apply (inv_then resultState);
      [apply inv_Declaration_evaluate; assumption|]. intros res _.
    destruct (resultThrew res); apply inv_ret; auto. }
  destruct (Hinv h (Nat.le_refl _)) as (L & P & _).
  split; [exact L|]. intros a Ha. apply P; lia.
Qed.

Lemma Eval_then_Ok {A B : Type} (m : Eval A) (f : A -> Eval B) (h : Heap) (y : B) :
  fst (Eval_then m f h) = Ok y ->
  exists x h1, m h = (Ok x, h1) /\ fst (f x h1) = Ok y.
Proof.
  unfold Eval_then, Eval_bind. destruct (m h) as [[x|e] h1]; simpl.
  - eauto.
  - discriminate.
Qed.

(** When the result says that the evaluation failed, its state is the
    state that was passed. *)
Lemma interpret_failed_state (source : string) (oldState : State) (h : Heap)
      (result : InterpretResult) :
  fst (interpret source oldState h) = Ok result ->
  evaluationErrored result = true ->
  state result = oldState.
Proof.
  unfold interpret. intros H Herr.
  repeat (apply Eval_then_Ok in H; destruct H as (? & ? & _ & H)).
  destruct (resultThrew _); simpl in H; injection H as <-.
  - reflexivity.
  - discriminate Herr.
Qed.

Lemma sameLookups_preserves (h h' : Heap) (s : State) :
  wf h -> (s < length h)%nat -> preserves h h' -> sameLookups h h' s.
Proof.
  intros Hwf Hs Hpres name.
  assert (Hlen : (s < length h')%nat) by (destruct Hpres; lia).
  unfold getDynamicValue, getDynamicType, getStaticValue, getStaticType,
    getInfixStatus, getValueIdentifierId, getRebindStatus.
  repeat split;
    first [ apply (lookupChain_preserves _ h h' Hwf Hpres); assumption
          | apply (f_equal (default _));
            apply (lookupChain_preserves _ h h' Hwf Hpres); assumption ].
Qed.

(** C3.  When a chunk fails, the caller is left with the state before
    the chunk: the result, if there is one, carries the state that was
    passed, the command line loop keeps its state, every frame that
    existed before the chunk is as it was, and so every lookup through
    the state gives what it gave before: no binding, fixity or id
    counter of the failed chunk is visible. *)
Theorem failed_chunk_leaves_no_trace (h : Heap) (c : Cli) (line : string) :
  wf h -> (cliState c < length h)%nat ->
  let oldState := cliState c in
  let r := interpret (tmp c +:+ line) oldState h in
  chunkFailed (fst r) ->
  (forall result, fst r = Ok result -> state result = oldState)
  /\ cliState (fst (onLine c line h)) = oldState
  /\ preserves h (snd r)
  /\ sameLookups h (snd r) oldState.
Proof.
  intros Hwf Hs oldState r Hfailed.
  assert (Hpres : preserves h (snd r)) by apply interpret_preserves.
  split; [|split; [|split]].
  - intros result Hr. rewrite Hr in Hfailed.
    apply (interpret_failed_state _ _ _ _ Hr Hfailed).
  - unfold onLine. fold oldState. fold r.
    destruct r as [[result|e] h']; simpl in *.
    + rewrite Hfailed. reflexivity.
    + destruct e; reflexivity.
  - exact Hpres.
  - apply sameLookups_preserves; assumption.
Qed.

End Interpret.

End Interpreter.

Module InterpreterExamples.
Import Ast Values States Evaluation HeapFacts Confinement InitialState Interpreter.

(** Modelled from the spec: a fragment of the parser of parser.ts, which
    is not at hand, for the examples: a sequence of declarations of the
    forms [exception name] and [exception name = oldname], separated by
    semicolons. *)
Fixpoint parseDeclarations (tokens : list Lexer.Token) : outcome (list Declaration) :=
  match tokens with
  | [] => Ok []
  | Lexer.KeywordToken ";" :: rest => parseDeclarations rest
  | Lexer.KeywordToken "exception" :: Lexer.AlphanumericIdentifierToken name
      :: Lexer.EqualsToken :: Lexer.AlphanumericIdentifierToken oldname :: rest =>
      declarations ← parseDeclarations rest;
      Ok (ExceptionDeclaration 0
            [ExceptionAlias 0 (AlphanumericIdentifierToken name 0)
                              (AlphanumericIdentifierToken oldname 0)] 2
          :: declarations)
  | Lexer.KeywordToken "exception" :: Lexer.AlphanumericIdentifierToken name :: rest =>
      declarations ← parseDeclarations rest;
      Ok (ExceptionDeclaration 0
            [DirectExceptionBinding 0 (AlphanumericIdentifierToken name 0) None] 2
          :: declarations)
  | _ => Throw ParserError
  end.

Definition parseFragment (tokens : list Lexer.Token) (state : State) : Eval Declaration :=
  lift (declarations ← parseDeclarations tokens;
        Ok (SequentialDeclaration 0 declarations 1)).

Definition noTypeVariables (t : Type_) : list Type_ := [].

Definition interpretFragment : string -> State -> Eval InterpretResult :=
  interpret Lexer.defaultOptions parseFragment
            Simplifier.Expression_simplify Simplifier.Type_simplify
            computeFragment matchesFragment noTypeVariables.

Lemma parseFragment_local (tokens : list Lexer.Token) (s : State) :
  local s (parseFragment tokens s).
Proof. intros h. apply modifies_only_refl. Qed.

Lemma computeFragment_local (e : Expression) (s : State) : local s (computeFragment e s).
Proof.
  intros h. destruct e; try apply modifies_only_refl.
  simpl. unfold Eval_then, Eval_bind, gets.
  destruct (getDynamicValue h s (getText name)); apply modifies_only_refl.
Qed.

Lemma matchesFragment_local (p : Expression) (s : State) (v : Value) :
  local s (matchesFragment p s v).
Proof. intros h. destruct p; apply modifies_only_refl. Qed.

(** The chunk [exception A; exception true] binds [A] and then fails
    on [true].  The frames of the chunk are on the heap, and through the
    state of the caller nothing of it is seen. *)
Example partial_effects_are_not_visible :
  let r := interpretFragment "exception A; exception true" getInitialState initialHeap in
  fst r = Throw EvaluationError
  /\ length (snd r) = 6%nat
  /\ getStaticValue (snd r) 2 "A" = Some (CustomType "exn" [] 0)
  /\ getDynamicValue (snd r) 4 "A" = Some (ExceptionConstructor "A" 0 0)
  /\ getValueIdentifierId (snd r) 4 "A" = 1
  /\ getStaticValue (snd r) getInitialState "A" = None
  /\ getDynamicValue (snd r) getInitialState "A" = None
  /\ getValueIdentifierId (snd r) getInitialState "A" = 0.
Proof. repeat split; reflexivity. Qed.

Lemma failed_chunk_leaves_no_trace_witness :
  (forall tokens s, local s (parseFragment tokens s))
  /\ (forall e s, local s (computeFragment e s))
  /\ (forall p s v, local s (matchesFragment p s v))
  /\ wf initialHeap
  /\ (cliState (mkCli getInitialState "") < length initialHeap)%nat
  /\ chunkFailed (fst (interpretFragment "exception A; exception true"
                                         getInitialState initialHeap))
  /\ cliState (fst (onLine Lexer.defaultOptions parseFragment
                           Simplifier.Expression_simplify Simplifier.Type_simplify
                           computeFragment matchesFragment noTypeVariables
                           (mkCli getInitialState "") "exception A; exception true"
                           initialHeap))
     = getInitialState
  /\ sameLookups initialHeap
       (snd (interpretFragment "exception A; exception true" getInitialState initialHeap))
       getInitialState.
Proof.
  assert (Hlt : (cliState (mkCli getInitialState "") < length initialHeap)%nat)
    by (unfold getInitialState, initialHeap; simpl; lia).
  assert (Hfailed : chunkFailed (fst (interpretFragment "exception A; exception true"
                                                        getInitialState initialHeap)))
    by exact I.
  split; [exact parseFragment_local|].
  split; [exact computeFragment_local|].
  split; [exact matchesFragment_local|].
  split; [exact wf_initialHeap|].
  split; [exact Hlt|].
  split; [exact Hfailed|].
  destruct (failed_chunk_leaves_no_trace Lexer.defaultOptions parseFragment
              Simplifier.Expression_simplify Simplifier.Type_simplify
              computeFragment matchesFragment noTypeVariables
              parseFragment_local computeFragment_local matchesFragment_local
              initialHeap (mkCli getInitialState "") "exception A; exception true"
              wf_initialHeap Hlt Hfailed) as (_ & Hcli & _ & Hlookups).
  split; [exact Hcli | exact Hlookups].
Defined.

End InterpreterExamples.

(** ** Whitespace and comments *)

Module LexerLayout.
Import Lexer LexerFacts.

Local Open Scope nat_scope.

(** The test of the loop that skips comments: two characters are left
    and they open a comment. *)
Definition atCommentOpen (input : string) (pos : nat) : bool :=
  (pos + 1 <? input_length input) && String.eqb (substr input pos 2) commentOpen.

Lemma length_string_drop (n : nat) (s : string) :
  String.length (string_drop n s) = String.length s - n.
Proof.
  revert s; induction n as [|n IH]; intros s; simpl.
  - lia.
  - destruct s as [|c s]; simpl; [reflexivity | apply IH].
Qed.

Lemma substring_string_drop (n m : nat) (s : string) :
  String.substring n m s = String.substring 0 m (string_drop n s).
Proof.
  revert s; induction n as [|n IH]; intros s.
  - reflexivity.
  - destruct s as [|c s]; simpl.
    + destruct m; reflexivity.
    + apply IH.
Qed.

Lemma string_drop_all (s : string) : string_drop (String.length s) s = "".
Proof. induction s as [|c s IH]; [reflexivity | exact IH]. Qed.

Lemma string_drop_beyond (n : nat) (s : string) :
  String.length s <= n -> string_drop n s = "".
Proof.
  revert s; induction n as [|n IH]; intros s H.
  - destruct s; [reflexivity | simpl in H; lia].
  - destruct s as [|c s]; [reflexivity|]. simpl in *. apply IH. lia.
Qed.

Lemma skipWhitespace_le (input : string) (pos : nat) : pos <= skipWhitespace input pos.
Proof. unfold skipWhitespace. lia. Qed.

Lemma span_nil_head (p : ascii -> bool) (s : string) :
  span p s = "" -> p (charOf s 0) = false \/ s = "".
Proof.
  destruct s as [|c s]; [auto|]. simpl. unfold charOf. simpl.
  destruct (p c); [discriminate | auto].
Qed.

Lemma skipWhitespace_fixed (input : string) (pos : nat) :
  skipWhitespace input pos = pos <-> isWhitespace (getChar input pos 0) = false.
Proof.
  unfold skipWhitespace. rewrite getChar_charOf.
  destruct (string_drop pos input) as [|c s]; simpl.
  - split; [reflexivity | lia].
  - unfold charOf. simpl. destruct (isWhitespace c); simpl; split; intros H;
      first [lia | discriminate | reflexivity].
Qed.

Lemma skipComment_le (input : string) (fuel : nat) :
  forall pos openComments p,
    skipComment input fuel pos openComments = Ok p -> pos <= p.
Proof.
  induction fuel as [|fuel IH]; intros pos n p H.
  - destruct n; simpl in H; [injection H as <-; lia | discriminate].
  - destruct n as [|n]; [simpl in H; injection H as <-; lia|].
    cbn [skipComment] in H.
    destruct (input_length input <? pos + 2); [discriminate|].
    destruct (String.eqb (substr input pos 2) commentOpen).
    + apply IH in H. lia.
    + destruct (String.eqb (substr input pos 2) commentClose); apply IH in H; lia.
Qed.

Lemma skipComments_le (input : string) (fuel : nat) :
  forall pos p, skipComments input fuel pos = Ok p -> pos <= p.
Proof.
  induction fuel as [|fuel IH]; intros pos p H; cbn [skipComments] in H.
  - destruct (_ && _); [discriminate | injection H as <-; lia].
  - destruct (_ && _); [|injection H as <-; lia].
    destruct (skipComment input (S (input_length input)) (pos + 2) 1) as [q|e] eqn:Hq;
      [|discriminate].
    apply skipComment_le in Hq. apply IH in H. lia.
Qed.

(** Where no comment opens, the loop over comments stays. *)
Lemma skipComments_stay (input : string) (fuel pos : nat) :
  atCommentOpen input pos = false -> skipComments input fuel pos = Ok pos.
Proof.
  unfold atCommentOpen. intros H. destruct fuel; cbn [skipComments]; rewrite H; reflexivity.
Qed.

Lemma skipComments_fixed (input : string) (fuel pos : nat) :
  skipComments input (S fuel) pos = Ok pos -> atCommentOpen input pos = false.
Proof.
  unfold atCommentOpen. cbn [skipComments]. intros H.
  destruct (_ && _); [|reflexivity]. exfalso.
  destruct (skipComment input (S (input_length input)) (pos + 2) 1) as [q|e] eqn:Hq;
    [|discriminate].
  apply skipComment_le in Hq. apply skipComments_le in H. lia.
Qed.

Lemma skipWhitespaceAndCommentsLoop_spec (input : string) (fuel : nat) :
  forall pos p,
    skipWhitespaceAndCommentsLoop input fuel pos = Ok p ->
    pos <= p
    /\ isWhitespace (getChar input p 0) = false
    /\ atCommentOpen input p = false.
Proof.
  induction fuel as [|fuel IH]; intros pos p H; cbn [skipWhitespaceAndCommentsLoop] in H;
    destruct (skipComments input (S (input_length input)) (skipWhitespace input pos))
      as [q|e] eqn:Hq; try discriminate;
    cbn [mbind outcome_mbind outcome_bind] in H;
    pose proof (skipWhitespace_le input pos) as Hws;
    pose proof (skipComments_le _ _ _ _ Hq) as Hc;
    destruct (Nat.eqb_spec q pos) as [->|Hne].
  - injection H as <-.
    assert (Hfix : skipWhitespace input pos = pos) by lia.
    rewrite Hfix in Hq. split; [lia|]. split.
    + apply skipWhitespace_fixed, Hfix.
    + eapply skipComments_fixed, Hq.
  - discriminate.
  - injection H as <-.
    assert (Hfix : skipWhitespace input pos = pos) by lia.
    rewrite Hfix in Hq. split; [lia|]. split.
    + apply skipWhitespace_fixed, Hfix.
    + eapply skipComments_fixed, Hq.
  - apply IH in H. intuition lia.
Qed.

(** X1.  When [skipWhitespaceAndComments] returns, the lexer has not
    moved backwards, the token start is the position, and the position
    is neither at a whitespace character nor at the opening of a
    comment: every token starts at the first character that is not
    layout. *)
Theorem skipWhitespaceAndComments_stops_at_a_token
        (input : string) (l l' : Cursor) :
  skipWhitespaceAndComments input l = Ok l' ->
  position l <= position l'
  /\ tokenStart l' = position l'
  /\ isWhitespace (getChar input (position l') 0) = false
  /\ atCommentOpen input (position l') = false.
Proof.
  unfold skipWhitespaceAndComments. intros H.
  destruct (skipWhitespaceAndCommentsLoop input (S (input_length input)) (position l))
    as [p|e] eqn:Hp; [|discriminate].
  injection H as <-. cbn [position tokenStart].
  destruct (skipWhitespaceAndCommentsLoop_spec _ _ _ _ Hp) as (H1 & H2 & H3). auto.
Qed.

(** The text of [val  (+ a (+ b +) +) x], with stars for the plus
    signs: a comment with a comment inside. *)
Definition nestedCommentExample : string :=
  "val  " +:+ commentOpen +:+ " a " +:+ commentOpen +:+ " b " +:+ commentClose
  +:+ " " +:+ commentClose +:+ " x".

Lemma skipWhitespaceAndComments_stops_at_a_token_witness :
  position {| position := 3; tokenStart := 0 |} <= 21
  /\ tokenStart {| position := 21; tokenStart := 21 |} = 21
  /\ isWhitespace (getChar nestedCommentExample 21 0) = false
  /\ atCommentOpen nestedCommentExample 21 = false.
Proof.
  exact (skipWhitespaceAndComments_stops_at_a_token
           nestedCommentExample {| position := 3; tokenStart := 0 |}
           {| position := 21; tokenStart := 21 |} eq_refl).
Defined.

(** *** Where the lexer stays, and what it skips *)

Fixpoint allChars (p : ascii -> bool) (s : string) : bool :=
  match s with
  | EmptyString => true
  | String c s' => p c && allChars p s'
  end.

Lemma span_all (p : ascii -> bool) (s rest : string) :
  allChars p s = true -> p (charOf rest 0) = false -> span p (s +:+ rest) = s.
Proof.
  intros Hs Hrest. induction s as [|c s IH].
  - destruct rest as [|r rest]; [reflexivity|].
    change ("" +:+ String r rest) with (String r rest). cbn [span].
    change (p r = false) in Hrest. rewrite Hrest. reflexivity.
  - cbn [allChars] in Hs. apply andb_true_iff in Hs as [Hc Hs].
    change (String c s +:+ rest) with (String c (s +:+ rest)). cbn [span].
    rewrite Hc, IH by assumption. reflexivity.
Qed.

Lemma length_append (s t : string) :
  String.length (s +:+ t) = String.length s + String.length t.
Proof.
  induction s as [|c s IH]; [reflexivity|].
  change (String c s +:+ t) with (String c (s +:+ t)). simpl. rewrite IH. reflexivity.
Qed.

Lemma append_empty_r (s : string) : s +:+ "" = s.
Proof.
  induction s as [|c s IH]; [reflexivity|].
  change (String c s +:+ "") with (String c (s +:+ "")). rewrite IH. reflexivity.
Qed.

Lemma append_assoc (s t u : string) : (s +:+ t) +:+ u = s +:+ (t +:+ u).
Proof.
  induction s as [|c s IH]; [reflexivity|].
  change (String c (s +:+ t) +:+ u = String c (s +:+ t +:+ u)).
  change (String c ((s +:+ t) +:+ u) = String c (s +:+ t +:+ u)). rewrite IH. reflexivity.
Qed.

Lemma input_length_drop (input : string) (pos : nat) (c : ascii) (s : string) :
  string_drop pos input = String c s ->
  input_length input = pos + S (String.length s).
Proof.
  intros H. pose proof (string_drop_length _ _ _ _ H) as Hlt.
  pose proof (length_string_drop pos input) as Hlen. rewrite H in Hlen.
  simpl in Hlen. unfold input_length. lia.
Qed.

Lemma substr_drop (input : string) (pos n : nat) :
  substr input pos n = String.substring 0 n (string_drop pos input).
Proof. apply substring_string_drop. Qed.

Lemma atCommentOpen_head (input : string) (pos : nat) :
  Ascii.eqb (getChar input pos 0) "(" = false -> atCommentOpen input pos = false.
Proof.
  unfold atCommentOpen. rewrite getChar_charOf, substr_drop.
  destruct (string_drop pos input) as [|c s].
  - intros _. apply andb_false_r.
  - unfold charOf. cbn [String.get]. intros Hc.
    destruct s as [|c' s]; cbn; rewrite Hc; apply andb_false_r.
Qed.

Lemma skipWhitespaceAndCommentsLoop_stay (input : string) (fuel pos : nat) :
  isWhitespace (getChar input pos 0) = false ->
  atCommentOpen input pos = false ->
  skipWhitespaceAndCommentsLoop input fuel pos = Ok pos.
Proof.
  intros Hws Hc. apply skipWhitespace_fixed in Hws.
  destruct fuel; cbn [skipWhitespaceAndCommentsLoop];
    rewrite Hws, (skipComments_stay _ _ _ Hc); cbn; rewrite Nat.eqb_refl; reflexivity.
Qed.

Lemma skipWhitespaceAndComments_stay (input : string) (l : Cursor) :
  isWhitespace (getChar input (position l) 0) = false ->
  atCommentOpen input (position l) = false ->
  skipWhitespaceAndComments input l
  = Ok {| position := position l; tokenStart := position l |}.
Proof.
  intros Hws Hc. unfold skipWhitespaceAndComments.
  rewrite skipWhitespaceAndCommentsLoop_stay by assumption. reflexivity.
Qed.

(** At the end of the input the lexer stays. *)
Lemma getChar_end (input : string) (pos k : nat) :
  input_length input <= pos -> getChar input pos k = EOT.
Proof.
  intros H. rewrite getChar_charOf, string_drop_beyond by exact H. reflexivity.
Qed.

Lemma skipWhitespaceAndComments_end (input : string) (l : Cursor) :
  input_length input <= position l ->
  skipWhitespaceAndComments input l
  = Ok {| position := position l; tokenStart := position l |}.
Proof.
  intros H. apply skipWhitespaceAndComments_stay.
  - rewrite getChar_end by exact H. reflexivity.
  - apply atCommentOpen_head. rewrite getChar_end by exact H. reflexivity.
Qed.

Lemma skipWhitespace_run (input : string) (pos : nat) (ws rest : string) :
  string_drop pos input = ws +:+ rest ->
  allChars isWhitespace ws = true ->
  isWhitespace (charOf rest 0) = false ->
  skipWhitespace input pos = pos + String.length ws.
Proof.
  intros Hdrop Hws Hrest. unfold skipWhitespace.
  rewrite Hdrop, span_all by assumption. reflexivity.
Qed.

(** X2.  An input of whitespace only, the empty input included, has no
    token. *)
Theorem lex_whitespace_only (input : string) (options : Options) :
  allChars isWhitespace input = true -> lex input options = Ok [].
Proof.
  intros Hws.
  assert (Hskip : skipWhitespace input 0 = String.length input).
  { rewrite (skipWhitespace_run input 0 input "");
      [reflexivity | symmetry; apply append_empty_r | exact Hws | reflexivity]. }
  assert (Heot : forall k, getChar input (String.length input) k = EOT)
    by (intros k; apply getChar_end; unfold input_length; lia).
  assert (Hend : forall fuel,
             skipWhitespaceAndCommentsLoop input fuel (String.length input)
             = Ok (String.length input)).
  { intros fuel. apply skipWhitespaceAndCommentsLoop_stay.
    - rewrite Heot. reflexivity.
    - apply atCommentOpen_head. rewrite Heot. reflexivity. }
  assert (Hfirst : skipWhitespaceAndComments input {| position := 0; tokenStart := 0 |}
                   = Ok {| position := String.length input;
                           tokenStart := String.length input |}).
  { unfold skipWhitespaceAndComments. cbn [position skipWhitespaceAndCommentsLoop].
    rewrite Hskip.
    rewrite skipComments_stay by (apply atCommentOpen_head; rewrite Heot; reflexivity).
    cbn [mbind outcome_mbind outcome_bind].
    destruct (String.length input =? 0); [reflexivity|].
    unfold input_length at 1. rewrite Hend. reflexivity. }
  unfold lex. rewrite Hfirst.
  change (lexLoop input options (S (String.length input))
            {| position := String.length input; tokenStart := String.length input |} []
          = Ok []).
  cbn [lexLoop]. unfold finished, input_length. cbn [position].
  rewrite Nat.leb_refl. reflexivity.
Qed.

Lemma lex_whitespace_only_witness :
  lex (String " " (String "009" (String "010" (String "012" " ")))) defaultOptions = Ok [].
Proof.
  apply lex_whitespace_only. reflexivity.
Defined.

(** *** Comments *)

(** The text has a star followed by a closing parenthesis. *)
Fixpoint hasCommentClose (s : string) : bool :=
  match s with
  | EmptyString => false
  | String c s' =>
      (Ascii.eqb c "*" && Ascii.eqb (charOf s' 0) ")") || hasCommentClose s'
  end.

Lemma substring_two (c1 c2 : ascii) (s : string) :
  String.substring 0 2 (String c1 (String c2 s)) = String c1 (String c2 "").
Proof. simpl. destruct s; reflexivity. Qed.

Lemma eqb_two (c1 c2 d1 d2 : ascii) :
  String.eqb (String c1 (String c2 "")) (String d1 (String d2 ""))
  = Ascii.eqb c1 d1 && Ascii.eqb c2 d2.
Proof. simpl. destruct (Ascii.eqb c1 d1), (Ascii.eqb c2 d2); reflexivity. Qed.

(** Inside a comment that is not closed before the input ends, the
    lexer reaches the end and asks for more input. *)
Lemma skipComment_unclosed (input : string) (fuel : nat) :
  forall (pos openComments : nat) (s : string),
    string_drop pos input = s ->
    hasCommentClose s = false ->
    String.length s < fuel ->
    skipComment input fuel pos (S openComments) = Throw IncompleteError.
Proof.
  induction fuel as [|fuel IH]; intros pos n s Hdrop Hclose Hfuel; [lia|].
  cbn [skipComment].
  pose proof (length_string_drop pos input) as Hlen. rewrite Hdrop in Hlen.
  destruct s as [|c1 [|c2 s]].
  - replace (input_length input <? pos + 2) with true; [reflexivity|].
    symmetry. apply Nat.ltb_lt. unfold input_length. simpl in Hlen. lia.
  - replace (input_length input <? pos + 2) with true; [reflexivity|].
    symmetry. apply Nat.ltb_lt. unfold input_length. simpl in Hlen. lia.
  - replace (input_length input <? pos + 2) with false
      by (symmetry; apply Nat.ltb_ge; unfold input_length; simpl in Hlen; lia).
    rewrite substr_drop, Hdrop, substring_two.
    unfold commentOpen, commentClose. rewrite !eqb_two.
    cbn [hasCommentClose] in Hclose. change (charOf (String c2 s) 0) with c2 in Hclose.
    apply orb_false_iff in Hclose as [Hhere Hclose].
    assert (Hdrop1 : string_drop (pos + 1) input = String c2 s)
      by (rewrite string_drop_add, Hdrop; reflexivity).
    assert (Hdrop2 : string_drop (pos + 2) input = s)
      by (rewrite string_drop_add, Hdrop; reflexivity).
    destruct (Ascii.eqb c1 "(" && Ascii.eqb c2 "*").
    + apply (IH _ _ s Hdrop2).
      * cbn [hasCommentClose] in Hclose. apply orb_false_iff in Hclose as [_ H]. exact H.
      * simpl in Hfuel. lia.
    + rewrite Hhere. apply (IH _ _ (String c2 s) Hdrop1 Hclose). simpl in *. lia.
Qed.

(** X3.  A comment that is opened after whitespace, with no closing
    bracket in the rest of the input (further comments may be opened in
    it), makes the lexer throw an [IncompleteError]; at the start of the
    input this is the result of [lex]. *)
Theorem unclosed_comment_is_incomplete
        (input : string) (options : Options) (l : Cursor) (ws body : string) :
  string_drop (position l) input = ws +:+ commentOpen +:+ body ->
  allChars isWhitespace ws = true ->
  hasCommentClose body = false ->
  skipWhitespaceAndComments input l = Throw IncompleteError
  /\ (position l = 0 -> lex input options = Throw IncompleteError).
Proof.
  intros Hdrop Hws Hclose.
  assert (Hskip : skipWhitespaceAndComments input l = Throw IncompleteError).
  { unfold skipWhitespaceAndComments. cbn [skipWhitespaceAndCommentsLoop].
    rewrite (skipWhitespace_run input _ ws _ Hdrop Hws eq_refl).
    pose proof (string_drop_digits input _ ws _ Hdrop) as Hopen.
    change (string_drop (position l + String.length ws) input
            = String "(" (String "*" body)) in Hopen.
    pose proof (input_length_drop _ _ _ _ Hopen) as Hlen. simpl in Hlen.
    cbn [skipComments].
    replace (position l + String.length ws + 1 <? input_length input) with true
      by (symmetry; apply Nat.ltb_lt; lia).
    rewrite substr_drop, Hopen, substring_two, String.eqb_refl. cbn [andb].
    rewrite (skipComment_unclosed input _ _ 0 body);
      [reflexivity | | exact Hclose | lia].
    rewrite string_drop_add, Hopen. reflexivity. }
  split; [exact Hskip|].
  intros Hzero. unfold lex. destruct l as [p t]. cbn [position] in Hzero. subst p.
  unfold skipWhitespaceAndComments in *. cbn [position] in *.
  destruct (skipWhitespaceAndCommentsLoop input (S (input_length input)) 0);
    [discriminate Hskip | injection Hskip as ->; reflexivity].
Qed.

Lemma unclosed_comment_is_incomplete_witness :
  skipWhitespaceAndComments
    ("  " +:+ commentOpen +:+ " a " +:+ commentOpen +:+ " b ")
    {| position := 0; tokenStart := 0 |} = Throw IncompleteError
  /\ (position {| position := 0; tokenStart := 0 |} = 0 ->
      lex ("  " +:+ commentOpen +:+ " a " +:+ commentOpen +:+ " b ") defaultOptions
      = Throw IncompleteError).
Proof.
  apply (unclosed_comment_is_incomplete
           _ defaultOptions {| position := 0; tokenStart := 0 |} "  "
           (" a " +:+ commentOpen +:+ " b ")).
  - reflexivity.
  - reflexivity.
  - reflexivity.
Defined.

(** The text inside a comment: characters that are neither a star nor
    an opening parenthesis, and comments. *)
Inductive CommentBody : Set :=
| BodyEnd
| BodyChar (c : ascii) (rest : CommentBody)
| BodyComment (inner rest : CommentBody).

Fixpoint bodyText (b : CommentBody) : string :=
  match b with
  | BodyEnd => ""
  | BodyChar c rest => String c (bodyText rest)
  | BodyComment inner rest =>
      commentOpen +:+ bodyText inner +:+ commentClose +:+ bodyText rest
  end.

Fixpoint plainBody (b : CommentBody) : bool :=
  match b with
  | BodyEnd => true
  | BodyChar c rest => negb (Ascii.eqb c "*") && negb (Ascii.eqb c "(") && plainBody rest
  | BodyComment inner rest => plainBody inner && plainBody rest
  end.

(** The iterations of the loop on a body and the bracket that closes
    it. *)
Fixpoint bodySteps (b : CommentBody) : nat :=
  match b with
  | BodyEnd => 1
  | BodyChar _ rest => S (bodySteps rest)
  | BodyComment inner rest => S (bodySteps inner + bodySteps rest)
  end.

Lemma bodySteps_length (b : CommentBody) :
  bodySteps b <= String.length (bodyText b) + 1.
Proof.
  induction b as [|c rest IH|inner IHi rest IHr]; cbn [bodySteps bodyText].
  - simpl. lia.
  - simpl. lia.
  - unfold commentOpen, commentClose. rewrite !length_append.
    change (String.length (String "(" (String "*" ""))) with 2.
    change (String.length (String "*" (String ")" ""))) with 2. lia.
Qed.

Lemma skipComment_body (input : string) (b : CommentBody) :
  forall (fuel pos openComments : nat) (rest : string),
    string_drop pos input = bodyText b +:+ commentClose +:+ rest ->
    plainBody b = true ->
    bodySteps b <= fuel ->
    skipComment input fuel pos (S openComments)
    = skipComment input (fuel - bodySteps b)
        (pos + String.length (bodyText b) + 2) openComments.
Proof.
  induction b as [|c b IH|inner IHi b IHr]; intros fuel pos n rest Hdrop Hplain Hfuel;
    cbn [bodyText bodySteps plainBody] in *.
  - destruct fuel as [|fuel]; [lia|]. cbn [skipComment].
    change (string_drop pos input = String "*" (String ")" rest)) in Hdrop.
    pose proof (input_length_drop _ _ _ _ Hdrop) as Hlen. simpl in Hlen.
    replace (input_length input <? pos + 2) with false
      by (symmetry; apply Nat.ltb_ge; lia).
    rewrite substr_drop, Hdrop, substring_two. unfold commentOpen, commentClose.
    rewrite !eqb_two. cbn. rewrite Nat.sub_0_r, Nat.add_0_r. reflexivity.
  - destruct fuel as [|fuel]; [lia|]. cbn [skipComment].
    apply andb_true_iff in Hplain as [Hc Hplain]. apply andb_true_iff in Hc as [Hstar Hparen].
    apply negb_true_iff in Hstar, Hparen.
    change (string_drop pos input = String c (bodyText b +:+ commentClose +:+ rest)) in Hdrop.
    pose proof (input_length_drop _ _ _ _ Hdrop) as Hlen.
    assert (Hnext : exists c2 s2, bodyText b +:+ commentClose +:+ rest = String c2 s2).
    { destruct (bodyText b) as [|c2 s2]; [exists "*"%char | exists c2]; eexists; reflexivity. }
    destruct Hnext as (c2 & s2 & Hnext). rewrite Hnext in Hdrop, Hlen. simpl in Hlen.
    replace (input_length input <? pos + 2) with false
      by (symmetry; apply Nat.ltb_ge; lia).
    rewrite substr_drop, Hdrop, substring_two. unfold commentOpen, commentClose.
    rewrite !eqb_two, Hstar, Hparen. cbn [andb].
    rewrite (IH fuel (pos + 1) n rest).
    + cbn [String.length Nat.sub]. f_equal. lia.
    + rewrite string_drop_add, Hdrop, <- Hnext. reflexivity.
    + exact Hplain.
    + lia.
  - destruct fuel as [|fuel]; [lia|]. cbn [skipComment].
    apply andb_true_iff in Hplain as [Hinner Hplain].
    rewrite !append_assoc in Hdrop.
    change (string_drop pos input
            = String "(" (String "*"
                (bodyText inner +:+ commentClose +:+ bodyText b +:+ commentClose +:+ rest)))
      in Hdrop.
    pose proof (input_length_drop _ _ _ _ Hdrop) as Hlen. simpl in Hlen.
    replace (input_length input <? pos + 2) with false
      by (symmetry; apply Nat.ltb_ge; lia).
    rewrite substr_drop, Hdrop, substring_two, String.eqb_refl.
    rewrite (IHi fuel (pos + 2) (S n)
               (bodyText b +:+ commentClose +:+ rest));
      [| rewrite string_drop_add, Hdrop; reflexivity | exact Hinner | lia].
    rewrite (IHr (fuel - bodySteps inner) _ n rest); [| | exact Hplain | lia].
    + f_equal; [lia|]. unfold commentOpen, commentClose. rewrite !length_append.
      change (String.length (String "(" (String "*" ""))) with 2.
      change (String.length (String "*" (String ")" ""))) with 2. lia.
    + replace (pos + 2 + String.length (bodyText inner) + 2)
        with (pos + (2 + String.length (bodyText inner) + 2)) by lia.
      rewrite string_drop_add, Hdrop.
      change (string_drop (2 + String.length (bodyText inner) + 2)
                (String "(" (String "*" ?s)))
        with (string_drop (String.length (bodyText inner) + 2) s).
      rewrite string_drop_add, string_drop_append. reflexivity.
Qed.

Lemma skipWhitespaceAndCommentsLoop_whitespace
      (input : string) (fuel pos : nat) (ws rest : string) :
  string_drop pos input = ws +:+ rest ->
  allChars isWhitespace ws = true ->
  isWhitespace (charOf rest 0) = false ->
  Ascii.eqb (charOf rest 0) "(" = false ->
  skipWhitespaceAndCommentsLoop input (S fuel) pos = Ok (pos + String.length ws).
Proof.
  intros Hdrop Hws Hrest Hparen.
  pose proof (string_drop_digits input _ ws _ Hdrop) as Hp.
  assert (Hws' : isWhitespace (getChar input (pos + String.length ws) 0) = false)
    by (rewrite (getChar_at _ _ _ Hp); exact Hrest).
  assert (Hc' : atCommentOpen input (pos + String.length ws) = false)
    by (apply atCommentOpen_head; rewrite (getChar_at _ _ _ Hp); exact Hparen).
  cbn [skipWhitespaceAndCommentsLoop].
  rewrite (skipWhitespace_run input _ ws _ Hdrop Hws Hrest).
  rewrite (skipComments_stay _ _ _ Hc'). cbn [mbind outcome_mbind outcome_bind].
  destruct (pos + String.length ws =? pos); [reflexivity|].
  apply skipWhitespaceAndCommentsLoop_stay; assumption.
Qed.

(** X4.  Comments nest and are layout: after whitespace, a comment
    whose body consists of characters other than the star and the
    opening parenthesis and of comments of the same kind is skipped as a
    whole, up to the bracket that closes it, and so is the whitespace
    after it, when a token follows. *)
Theorem closed_comment_is_skipped
        (input : string) (l : Cursor) (ws : string) (b : CommentBody)
        (ws' rest : string) :
  string_drop (position l) input
  = ws +:+ commentOpen +:+ bodyText b +:+ commentClose +:+ ws' +:+ rest ->
  allChars isWhitespace ws = true ->
  plainBody b = true ->
  allChars isWhitespace ws' = true ->
  isWhitespace (charOf rest 0) = false ->
  Ascii.eqb (charOf rest 0) "(" = false ->
  let p := position l + String.length ws + String.length (bodyText b) + 4
           + String.length ws' in
  skipWhitespaceAndComments input l = Ok {| position := p; tokenStart := p |}.
Proof.
  intros Hdrop Hws Hplain Hws' Hrest Hparen p.
  pose proof (string_drop_digits input _ ws _ Hdrop) as Hopen.
  change (string_drop (position l + String.length ws) input
          = String "(" (String "*" (bodyText b +:+ commentClose +:+ ws' +:+ rest)))
    in Hopen.
  pose proof (input_length_drop _ _ _ _ Hopen) as Hlen.
  cbn [String.length] in Hlen. rewrite length_append in Hlen.
  assert (Hbody : string_drop (position l + String.length ws + 2) input
                  = bodyText b +:+ commentClose +:+ ws' +:+ rest)
    by (rewrite string_drop_add, Hopen; reflexivity).
  set (q := position l + String.length ws + String.length (bodyText b) + 4).
  assert (Hq : string_drop q input = ws' +:+ rest).
  { unfold q.
    replace (position l + String.length ws + String.length (bodyText b) + 4)
      with (position l + String.length ws + 2 + (String.length (bodyText b) + 2)) by lia.
    rewrite string_drop_add, Hbody, string_drop_add, string_drop_append. reflexivity. }
  assert (Hc' : atCommentOpen input q = false).
  { apply atCommentOpen_head. rewrite (getChar_at _ _ _ Hq).
    destruct ws' as [|w ws'']; [exact Hparen|].
    cbn [allChars] in Hws'. apply andb_true_iff in Hws' as [Hw _].
    change (Ascii.eqb w "(" = false).
    destruct (Ascii.eqb_spec w "(") as [->|]; [discriminate Hw | reflexivity]. }
  unfold skipWhitespaceAndComments. cbn [skipWhitespaceAndCommentsLoop].
  rewrite (skipWhitespace_run input _ ws _ Hdrop Hws eq_refl).
  cbn [skipComments].
  replace (position l + String.length ws + 1 <? input_length input) with true
    by (symmetry; apply Nat.ltb_lt; lia).
  rewrite substr_drop, Hopen, substring_two, String.eqb_refl. cbn [andb].
  pose proof (bodySteps_length b) as Hsteps.
  rewrite (skipComment_body input b _ _ 0 (ws' +:+ rest) Hbody Hplain) by lia.
  replace (position l + String.length ws + 2 + String.length (bodyText b) + 2) with q
    by (unfold q; lia).
  replace (skipComment input _ q 0) with (@Ok nat q)
    by (destruct (S (input_length input) - bodySteps b); reflexivity).
  cbn [mbind outcome_mbind outcome_bind].
  rewrite (skipComments_stay _ _ _ Hc'). cbn [mbind outcome_mbind outcome_bind].
  replace (q =? position l) with false by (symmetry; apply Nat.eqb_neq; unfold q; lia).
  destruct (input_length input) as [|fuel] eqn:Hfuel; [lia|].
  rewrite (skipWhitespaceAndCommentsLoop_whitespace input fuel q ws' rest Hq Hws' Hrest Hparen).
  reflexivity.
Qed.

Lemma closed_comment_is_skipped_witness :
  skipWhitespaceAndComments nestedCommentExample {| position := 3; tokenStart := 0 |}
  = Ok {| position := 21; tokenStart := 21 |}.
Proof.
  exact (closed_comment_is_skipped
           nestedCommentExample {| position := 3; tokenStart := 0 |} "  "
           (BodyChar " " (BodyChar "a" (BodyChar " "
              (BodyComment (BodyChar " " (BodyChar "b" (BodyChar " " BodyEnd)))
                 (BodyChar " " BodyEnd))))) " " "x"
           eq_refl eq_refl eq_refl eq_refl eq_refl eq_refl).
Defined.

End LexerLayout.

(** ** Integer constants within the range *)

Module LexerNumbers.
Import Lexer LexerFacts LexerLayout.

Local Open Scope nat_scope.

Definition inIntRange (z : Z) : bool := (MININT <=? z)%Z && (z <=? MAXINT)%Z.

(** The test of [makeNumberToken] on the first character of the text of
    the token: a digit other than zero. *)
Definition startsNumeric (token : string) : bool :=
  match String.get 0 token with
  | Some c => isNumber c false && negb (Ascii.eqb c "0")
  | None => false
  end.

(** The token of a constant: a word constant for the two word forms;
    otherwise a numeric token when the text starts with a digit from 1
    to 9 (such a constant may serve as a record label or a precedence),
    and an integer constant when it starts with [~] or [0]. *)
Definition constantToken (c : NumericConstant) : Token :=
  let text := constantText c in
  let v := Num (constantValue c) in
  if formWord (form c) then WordConstantToken text v
  else if startsNumeric text then NumericToken text v
  else IntegerConstantToken text v.

(** A decimal zero is not followed by the [w] or [x] of a prefix. *)
Definition notPrefix (c : NumericConstant) (rest : string) : bool :=
  match form c with
  | Decimal =>
      negb (String.eqb (digits c) "0"
            && (Ascii.eqb (charOf rest 0) "w" || Ascii.eqb (charOf rest 0) "x"))
  | _ => true
  end.

Lemma substring_prefix (s rest : string) :
  String.substring 0 (String.length s) (s +:+ rest) = s.
Proof.
  induction s as [|c s IH]; [destruct rest; reflexivity|].
  change (String c s +:+ rest) with (String c (s +:+ rest)). simpl. rewrite IH. reflexivity.
Qed.

Lemma substring_at (input : string) (pos : nat) (s rest : string) :
  string_drop pos input = s +:+ rest ->
  substring input pos (pos + String.length s) = s.
Proof.
  intros H. unfold substring.
  replace (pos + String.length s - pos) with (String.length s) by lia.
  rewrite substring_string_drop, H. apply substring_prefix.
Qed.

Lemma makeNumberToken_in_range (input : string) (l : Cursor)
      (value : string) (word hexadecimal : bool) (z : Z) :
  parseInt value (if hexadecimal then 16%Z else 10%Z) = Num z ->
  inIntRange z = true ->
  makeNumberToken input l value false word hexadecimal
  = Ok (let token := substring input (tokenStart l) (position l) in
        if word then WordConstantToken token (Num z)
        else if startsNumeric token then NumericToken token (Num z)
        else IntegerConstantToken token (Num z)).
Proof.
  intros Hv Hrange. unfold makeNumberToken, startsNumeric. cbn [andb]. rewrite Hv.
  unfold inIntRange in Hrange. apply andb_true_iff in Hrange as [Hlo Hhi].
  apply Z.leb_le in Hlo, Hhi. unfold number_gt, number_lt.
  destruct (Z.ltb_spec MAXINT z); [lia|]. destruct (Z.ltb_spec z MININT); [lia|].
  destruct word; [reflexivity|].
  destruct (String.get 0 (substring input (tokenStart l) (position l))); [|reflexivity].
  destruct (isNumber a false && negb (Ascii.eqb a "0")); reflexivity.
Qed.

Ltac decimal_tail Hreal finish :=
  unfold continuesAsReal in Hreal;
  destruct (Ascii.eqb (charOf _ 0) ".") eqn:?;
  destruct (isNumber (charOf _ 1) false) eqn:?;
  destruct (Ascii.eqb (charOf _ 0) "e") eqn:?;
  destruct (Ascii.eqb (charOf _ 0) "E") eqn:?;
  destruct (Ascii.eqb (charOf _ 1) "~" && isNumber (charOf _ 2) false) eqn:?;
  cbn [andb orb] in Hreal |- *; try discriminate Hreal; finish.

(** [lexNumber] on a constant that stands at the cursor and denotes a
    number within the range. *)
Lemma lexNumber_in_range (input : string) (l : Cursor) (c : NumericConstant)
      (rest : string) :
  string_drop (position l) input = constantText c +:+ rest ->
  tokenStart l = position l ->
  wellFormed c = true ->
  delimited c rest = true ->
  notPrefix c rest = true ->
  inIntRange (constantValue c) = true ->
  lexNumber input l
  = Ok (constantToken c,
        with_position l (position l + String.length (constantText c))).
Proof.
  destruct c as [neg f ds].
  unfold constantToken, constantText, wellFormed, delimited, notPrefix, constantValue.
  cbn [negative form digits]. intros Hdrop Hstart Hwf Hdelim Hprefix Hrange.
  apply andb_true_iff in Hwf as [Hwf Hsign]. apply andb_true_iff in Hwf as [Hne Hds].
  apply andb_true_iff in Hdelim as [Hstop Hreal].
  apply negb_true_iff in Hne, Hstop, Hreal, Hsign.
  assert (Hnonempty : ds <> "") by (intros ->; discriminate Hne).
  pose proof (parseInt_constant neg (formHexadecimal f) ds Hnonempty Hds) as Hvalue.
  cbv zeta in Hvalue.
  pose proof (fun l' word =>
                makeNumberToken_in_range input l' _ word (formHexadecimal f) _
                                         Hvalue Hrange) as Hmake.
  pose proof (substring_at input (position l) _ rest Hdrop) as Htext.
  set (text := (if neg then "~" else "") +:+ formPrefix f +:+ ds) in *.
  set (v := Num (if neg then (- digitsValue _ ds 0)%Z else digitsValue _ ds 0)) in *.
  assert (Hfinish : forall p word,
             p = position l + String.length text ->
             makeNumberToken input (with_position l p)
               ((if neg then "-" else "") +:+ ds) false word (formHexadecimal f)
             ≫= (fun t => mret (t, with_position l p))
             = Ok (if word then WordConstantToken text v
                   else if startsNumeric text then NumericToken text v
                        else IntegerConstantToken text v,
                   with_position l (position l + String.length text))).
  { intros p word ->. rewrite Hmake. cbn [with_position tokenStart position].
    rewrite Hstart, Htext. reflexivity. }
  clearbody v. clear Hmake Hvalue Hrange Htext.
  destruct ds as [|d0 ds']; [discriminate|]. clear Hne Hnonempty.
  assert (Hd0 : isNumber d0 (formHexadecimal f) = true).
  { cbn [allDigits] in Hds. apply andb_true_iff in Hds as [H _]. exact H. }
  destruct (isNumber_not_special d0 _ Hd0) as (Hd0t & Hd0w & Hd0x & _).
  assert (Hnext : Ascii.eqb d0 "0"
                  && (Ascii.eqb (charOf (ds' +:+ rest) 0) "w"
                      || Ascii.eqb (charOf (ds' +:+ rest) 0) "x") = false
                  \/ f <> Decimal).
  { destruct f; try (right; discriminate). left.
    destruct ds' as [|d1 ds''].
    - change ("" +:+ rest) with rest. apply negb_true_iff in Hprefix.
      destruct (Ascii.eqb_spec d0 "0") as [->|]; [exact Hprefix | reflexivity].
    - cbn [allDigits] in Hds. apply andb_true_iff in Hds as [_ H].
      apply andb_true_iff in H as [Hd1 _].
      destruct (isNumber_not_special d1 _ Hd1) as (_ & Hd1w & Hd1x & _).
      change (charOf (String d1 ds'' +:+ rest) 0) with d1.
      rewrite Hd1w, Hd1x. apply andb_false_r. }
  clear Hprefix.
  destruct f, neg; try discriminate Hsign; cbn [formHexadecimal formPrefix formWord] in *;
    subst text.
  - (* ~ and decimal digits *)
    destruct Hnext as [Hnext|]; [|contradiction].
    change (string_drop (position l) input
            = String "~" (String d0 (ds' +:+ rest))) in Hdrop.
    pose proof (string_drop_next _ _ _ _ Hdrop) as Hdrop1.
    pose proof (string_drop_digits _ _ (String d0 ds') rest Hdrop1) as Hend.
    unfold lexNumber.
    chars_at Hdrop. rewrite Ascii.eqb_refl. booleans.
    chars_at Hdrop1.
    change (charOf (String d0 (ds' +:+ rest)) 1) with (charOf (ds' +:+ rest) 0).
    rewrite Hnext. booleans.
    rewrite (readNumeric_digits input false _ (String d0 ds') rest Hdrop1 Hds Hstop).
    booleans. chars_at Hend.
    decimal_tail Hreal ltac:(apply Hfinish; simpl; lia).
  - (* decimal digits *)
    destruct Hnext as [Hnext|]; [|contradiction].
    change (string_drop (position l) input = String d0 (ds' +:+ rest)) in Hdrop.
    pose proof (string_drop_digits _ _ (String d0 ds') rest Hdrop) as Hend.
    unfold lexNumber.
    chars_at Hdrop. rewrite Hd0t. booleans.
    chars_at Hdrop.
    change (charOf (String d0 (ds' +:+ rest)) 1) with (charOf (ds' +:+ rest) 0).
    rewrite Hnext. booleans.
    rewrite (readNumeric_digits input false _ (String d0 ds') rest Hdrop Hds Hstop).
    booleans. chars_at Hend.
    decimal_tail Hreal ltac:(apply Hfinish; simpl; lia).
  - (* ~0x and hexadecimal digits *)
    change (string_drop (position l) input
            = String "~" (String "0" (String "x" (String d0 (ds' +:+ rest))))) in Hdrop.
    pose proof (string_drop_next _ _ _ _ Hdrop) as Hdrop1.
    pose proof (string_drop_next _ _ _ _ Hdrop1) as Hdrop2.
    assert (Hdrop3 : string_drop (S (S (position l)) + 1) input = String d0 ds' +:+ rest)
      by (rewrite string_drop_add, Hdrop2; reflexivity).
    unfold lexNumber.
    chars_at Hdrop. rewrite Ascii.eqb_refl. booleans.
    chars_at Hdrop1. rewrite ?Ascii.eqb_refl.
    change (Ascii.eqb "x" "w") with false. booleans.
    chars_at Hdrop2. rewrite ?Ascii.eqb_refl.
    change (Ascii.eqb "x" "w") with false. booleans.
    chars_at Hdrop2. rewrite Hd0. booleans.
    rewrite (readNumeric_digits input true _ (String d0 ds') rest Hdrop3 Hds Hstop).
    apply Hfinish. simpl. lia.
  - (* 0x and hexadecimal digits *)
    change (string_drop (position l) input
            = String "0" (String "x" (String d0 (ds' +:+ rest)))) in Hdrop.
    pose proof (string_drop_next _ _ _ _ Hdrop) as Hdrop1.
    assert (Hdrop2 : string_drop (S (position l) + 1) input = String d0 ds' +:+ rest)
      by (rewrite string_drop_add, Hdrop1; reflexivity).
    unfold lexNumber.
    chars_at Hdrop. change (Ascii.eqb "0" "~") with false. booleans.
    chars_at Hdrop. rewrite ?Ascii.eqb_refl.
    change (Ascii.eqb "x" "w") with false. booleans.
    chars_at Hdrop1. rewrite ?Ascii.eqb_refl.
    change (Ascii.eqb "x" "w") with false. booleans.
    chars_at Hdrop1. rewrite Hd0. booleans.
    rewrite (readNumeric_digits input true _ (String d0 ds') rest Hdrop2 Hds Hstop).
    apply Hfinish. simpl. lia.
  - (* 0w and decimal digits *)
    change (string_drop (position l) input
            = String "0" (String "w" (String d0 (ds' +:+ rest)))) in Hdrop.
    pose proof (string_drop_next _ _ _ _ Hdrop) as Hdrop1.
    assert (Hdrop2 : string_drop (S (position l) + 1) input = String d0 ds' +:+ rest)
      by (rewrite string_drop_add, Hdrop1; reflexivity).
    unfold lexNumber.
    chars_at Hdrop. change (Ascii.eqb "0" "~") with false. booleans.
    chars_at Hdrop. rewrite ?Ascii.eqb_refl.
    booleans.
    chars_at Hdrop1. rewrite ?Ascii.eqb_refl. booleans.
    chars_at Hdrop1. rewrite Hd0x. booleans.
    chars_at Hdrop1. rewrite Hd0. booleans.
    rewrite (readNumeric_digits input false _ (String d0 ds') rest Hdrop2 Hds Hstop).
    apply Hfinish. simpl. lia.
  - (* 0wx and hexadecimal digits *)
    change (string_drop (position l) input
            = String "0" (String "w" (String "x" (String d0 (ds' +:+ rest))))) in Hdrop.
    pose proof (string_drop_next _ _ _ _ Hdrop) as Hdrop1.
    assert (Hdrop2 : string_drop (S (position l) + 2) input = String d0 ds' +:+ rest)
      by (rewrite string_drop_add, Hdrop1; reflexivity).
    unfold lexNumber.
    chars_at Hdrop. change (Ascii.eqb "0" "~") with false. booleans.
    chars_at Hdrop. rewrite ?Ascii.eqb_refl.
    booleans.
    chars_at Hdrop1. rewrite ?Ascii.eqb_refl. booleans.
    chars_at Hdrop1. rewrite ?Ascii.eqb_refl. booleans.
    chars_at Hdrop1. rewrite Hd0. booleans.
    rewrite (readNumeric_digits input true _ (String d0 ds') rest Hdrop2 Hds Hstop).
    apply Hfinish. simpl. lia.
Qed.

(** X5.  An integer constant within [[MININT, MAXINT]] that stands at
    the position, in any of its forms, is read as one token that carries
    the value of the constant and the text of the constant: a word
    constant for [0w] and [0wx], a numeric token when the text starts
    with a digit from 1 to 9, an integer constant otherwise.  The lexer
    then goes on from the end of the constant. *)
Theorem nextToken_integer_constant
        (input : string) (options : Options) (l : Cursor)
        (c : NumericConstant) (rest : string) :
  string_drop (position l) input = constantText c +:+ rest ->
  wellFormed c = true ->
  delimited c rest = true ->
  notPrefix c rest = true ->
  inIntRange (constantValue c) = true ->
  nextToken input options l
  = skipWhitespaceAndComments input
      {| position := position l + String.length (constantText c);
         tokenStart := position l |}
    ≫= fun l' => Ok (constantToken c, l').
Proof.
  intros Hdrop Hwf Hdelim Hprefix Hrange. unfold nextToken. cbn [position].
  rewrite (constant_starts_number input _ c rest Hdrop Hwf).
  rewrite (lexNumber_in_range
             input {| position := position l; tokenStart := position l |} c rest
             Hdrop eq_refl Hwf Hdelim Hprefix Hrange).
  cbn [mbind outcome_mbind outcome_bind with_position position tokenStart].
  destruct (skipWhitespaceAndComments input _); reflexivity.
Qed.

Lemma nextToken_integer_constant_witness :
  nextToken "val x = 0wx1F; y" defaultOptions {| position := 8; tokenStart := 3 |}
  = Ok (WordConstantToken "0wx1F" (Num 31), {| position := 13; tokenStart := 13 |}).
Proof.
  exact (nextToken_integer_constant
           "val x = 0wx1F; y" defaultOptions {| position := 8; tokenStart := 3 |}
           (mkConstant false HexadecimalWord "1F") "; y"
           eq_refl eq_refl eq_refl eq_refl eq_refl).
Defined.

Lemma digit_not_layout (c : ascii) :
  isNumber c false || Ascii.eqb c "~" = true ->
  isWhitespace c = false /\ Ascii.eqb c "(" = false.
Proof.
  destruct c as [[] [] [] [] [] [] [] []]; try discriminate; intros _; split; reflexivity.
Qed.

Lemma wellFormed_text (c : NumericConstant) :
  wellFormed c = true -> exists c0 s, constantText c = String c0 s.
Proof.
  destruct c as [neg f [|d ds]]; unfold wellFormed, constantText; cbn [negative form digits].
  - discriminate.
  - intros _. destruct neg, f; eexists; eexists; reflexivity.
Qed.

(** X6.  The text of a well-formed integer constant within the range,
    lexed on its own, is exactly one token: the token of the constant,
    with its value. *)
Theorem lex_integer_constant (options : Options) (c : NumericConstant) :
  wellFormed c = true ->
  inIntRange (constantValue c) = true ->
  lex (constantText c) options = Ok [constantToken c].
Proof.
  intros Hwf Hrange. set (input := constantText c).
  assert (Hdrop : string_drop 0 input = constantText c +:+ "")
    by (rewrite append_empty_r; reflexivity).
  assert (Hdelim : delimited c "" = true) by (destruct c as [neg [] ds]; reflexivity).
  assert (Hprefix : notPrefix c "" = true).
  { destruct c as [neg [] ds]; try reflexivity. unfold notPrefix. cbn.
    rewrite andb_false_r. reflexivity. }
  pose proof (constant_starts_number input 0 c "" Hdrop Hwf) as Hstart.
  assert (Hfirst : skipWhitespaceAndComments input {| position := 0; tokenStart := 0 |}
                   = Ok {| position := 0; tokenStart := 0 |}).
  { assert (H : isNumber (getChar input 0 0) false || Ascii.eqb (getChar input 0 0) "~" = true).
    { destruct (isNumber (getChar input 0 0) false); [reflexivity|].
      destruct (Ascii.eqb (getChar input 0 0) "~"); [reflexivity | discriminate Hstart]. }
    apply digit_not_layout in H as [Hws Hparen].
    apply (skipWhitespaceAndComments_stay input {| position := 0; tokenStart := 0 |});
      [exact Hws | apply atCommentOpen_head; exact Hparen]. }
  destruct (wellFormed_text c Hwf) as (c0 & s & Htext).
  unfold lex. rewrite Hfirst.
  change (lexLoop input options (S (String.length input))
            {| position := 0; tokenStart := 0 |} [] = Ok [constantToken c]).
  cbn [lexLoop]. unfold finished at 1, input_length. cbn [position].
  replace (String.length input <=? 0) with false
    by (unfold input; rewrite Htext; reflexivity).
  rewrite (nextToken_integer_constant
             input options {| position := 0; tokenStart := 0 |} c ""
             Hdrop Hwf Hdelim Hprefix Hrange).
  cbn [position Nat.add]. fold input.
  rewrite (skipWhitespaceAndComments_end
             input {| position := String.length input; tokenStart := 0 |})
    by (unfold input_length; cbn [position]; lia).
  cbn [mbind outcome_mbind outcome_bind position].
  destruct (String.length input) as [|fuel] eqn:Hlen.
  - cbn [lexLoop]. unfold finished, input_length. cbn [position].
    rewrite Hlen. reflexivity.
  - cbn [lexLoop]. unfold finished, input_length. cbn [position].
    rewrite Hlen, Nat.leb_refl. reflexivity.
Qed.

Lemma lex_integer_constant_witness :
  lex "~0x3fffFFFF" defaultOptions
  = Ok [IntegerConstantToken "~0x3fffFFFF" (Num (-1073741823))].
Proof.
  exact (lex_integer_constant defaultOptions (mkConstant true Hexadecimal "3fffFFFF")
           eq_refl eq_refl).
Defined.

End LexerNumbers.

(** ** String and character constants *)

Module LexerStrings.
Import Lexer LexerFacts LexerLayout LexerNumbers.

Local Open Scope nat_scope.

(** What stands between the quotes of a string constant: a character
    as it is, one of the escapes of a backslash and a letter, a control
    escape, an escape of three decimal or of [u] and four hexadecimal
    digits, or whitespace between two backslashes. *)
Inductive StringItem : Set :=
| PlainChar (c : ascii)
| SimpleEscape (c : ascii)
| ControlEscape (c : ascii)
| DecimalEscape (d1 d2 d3 : ascii)
| UnicodeEscape (h1 h2 h3 h4 : ascii)
| Gap (ws : string).

Definition simpleEscapeCode (c : ascii) : option N :=
  if Ascii.eqb c "a" then Some 7%N
  else if Ascii.eqb c "b" then Some 8%N
  else if Ascii.eqb c "t" then Some 9%N
  else if Ascii.eqb c "n" then Some 10%N
  else if Ascii.eqb c "v" then Some 11%N
  else if Ascii.eqb c "f" then Some 12%N
  else if Ascii.eqb c "r" then Some 13%N
  else if Ascii.eqb c dquote then Some 34%N
  else if Ascii.eqb c "\" then Some 92%N
  else None.

Definition three (d1 d2 d3 : ascii) : string := String d1 (String d2 (String d3 "")).
Definition four (h1 h2 h3 h4 : ascii) : string :=
  String h1 (String h2 (String h3 (String h4 ""))).

Definition itemText (i : StringItem) : string :=
  match i with
  | PlainChar c => String c ""
  | SimpleEscape c => String "\" (String c "")
  | ControlEscape c => String "\" (String "^" (String c ""))
  | DecimalEscape d1 d2 d3 => String "\" (three d1 d2 d3)
  | UnicodeEscape h1 h2 h3 h4 => String "\" (String "u" (four h1 h2 h3 h4))
  | Gap ws => String "\" (ws +:+ "\")
  end.

(** The code units that an item contributes to the value. *)
Definition itemValue (i : StringItem) : list N :=
  match i with
  | PlainChar c => [charCode c]
  | SimpleEscape c => match simpleEscapeCode c with Some n => [n] | None => [] end
  | ControlEscape c => [(charCode c - 64)%N]
  | DecimalEscape d1 d2 d3 => [Z.to_N (digitsValue 10 (three d1 d2 d3) 0)]
  | UnicodeEscape h1 h2 h3 h4 => [Z.to_N (digitsValue 16 (four h1 h2 h3 h4) 0)]
  | Gap _ => []
  end.

(** A character may stand for itself when it is printable or a space or
    not ASCII, and is neither the quote nor the backslash. *)
Definition printable (c : ascii) : bool :=
  negb (((charCode c <? 33)%N || (126 <? charCode c)%N)
        && negb (charCode c =? 32)%N && (charCode c <? 128)%N).

Definition validItem (options : Options) (i : StringItem) : bool :=
  match i with
  | PlainChar c => printable c && negb (Ascii.eqb c dquote) && negb (Ascii.eqb c "\")
  | SimpleEscape c => match simpleEscapeCode c with Some _ => true | None => false end
  | ControlEscape c => (64 <=? charCode c)%N && (charCode c <=? 95)%N
  | DecimalEscape d1 d2 d3 =>
      allDigits false (three d1 d2 d3)
      && ((digitsValue 10 (three d1 d2 d3) 0 <? 256)%Z || allowUnicodeInStrings options)
  | UnicodeEscape h1 h2 h3 h4 =>
      allDigits true (four h1 h2 h3 h4)
      && ((digitsValue 16 (four h1 h2 h3 h4) 0 <? 256)%Z || allowUnicodeInStrings options)
  | Gap ws => allChars isWhitespace ws && negb (String.eqb ws "")
  end.

Fixpoint itemsText (items : list StringItem) : string :=
  match items with
  | [] => ""
  | i :: items' => itemText i +:+ itemsText items'
  end.

Definition itemsValue (items : list StringItem) : list N := concat (map itemValue items).

Lemma consumeChar_at (input : string) (pos : nat) (c : ascii) (s : string) :
  string_drop pos input = String c s -> consumeChar input pos = Ok (c, S pos).
Proof.
  intros H. unfold consumeChar, charAt. rewrite string_drop_get, H. reflexivity.
Qed.

Lemma lexEscape_simple (input : string) (options : Options) (c : ascii) (pos : nat) (n : N) :
  simpleEscapeCode c = Some n -> lexEscape input options c pos = Ok (n, pos).
Proof.
  unfold simpleEscapeCode, lexEscape. intros H.
  repeat match goal with
         | H : (if ?b then _ else _) = Some _ |- _ =>
             destruct b; [injection H as <-; reflexivity|]
         end.
  discriminate H.
Qed.

Lemma lexEscape_control (input : string) (options : Options) (pos : nat)
      (c : ascii) (s : string) :
  string_drop pos input = String c s ->
  (64 <=? charCode c)%N && (charCode c <=? 95)%N = true ->
  lexEscape input options "^" pos = Ok ((charCode c - 64)%N, S pos).
Proof.
  intros Hdrop Hc.
  change (lexEscape input options "^" pos)
    with ('(cc, pos) ← consumeChar input pos;
          if (charCode cc <? 64)%N || (95 <? charCode cc)%N then Throw LexerError
          else Ok ((charCode cc - 64)%N, pos)).
  rewrite (consumeChar_at _ _ _ _ Hdrop). cbn [mbind outcome_mbind outcome_bind].
  apply andb_true_iff in Hc as [Hlo Hhi]. apply N.leb_le in Hlo, Hhi.
  destruct (N.ltb_spec (charCode c) 64); [lia|].
  destruct (N.ltb_spec 95 (charCode c)); [lia|]. reflexivity.
Qed.

Lemma readNumericFrom_exact (hexadecimal : bool) (maxLength : Z) (ds rest : string) :
  forall len : nat,
    allDigits hexadecimal ds = true ->
    Z.of_nat (len + String.length ds) = maxLength ->
    readNumericFrom hexadecimal maxLength (ds +:+ rest) len = ds.
Proof.
  induction ds as [|d ds IH]; intros len Hds Hlen.
  - destruct rest as [|c rest]; [reflexivity|].
    change ("" +:+ String c rest) with (String c rest). cbn [readNumericFrom].
    simpl in Hlen. rewrite Nat.add_0_r in Hlen. rewrite Hlen, Z.eqb_refl.
    rewrite andb_false_r. reflexivity.
  - cbn [allDigits] in Hds. apply andb_true_iff in Hds as [Hd Hds].
    change (String d ds +:+ rest) with (String d (ds +:+ rest)). cbn [readNumericFrom].
    rewrite Hd. simpl in Hlen.
    destruct (Z.eqb_spec (Z.of_nat len) maxLength) as [E|_]; [lia|].
    cbn [negb andb]. rewrite IH; [reflexivity | exact Hds | simpl; lia].
Qed.

Lemma readNumeric_exact (input : string) (hexadecimal : bool) (pos : nat)
      (maxLength : Z) (ds rest : string) :
  string_drop pos input = ds +:+ rest ->
  allDigits hexadecimal ds = true ->
  Z.of_nat (String.length ds) = maxLength ->
  readNumeric input hexadecimal maxLength pos = (ds, pos + String.length ds).
Proof.
  intros Hdrop Hds Hlen. unfold readNumeric.
  rewrite Hdrop, (readNumericFrom_exact _ _ _ _ 0 Hds Hlen). reflexivity.
Qed.

Lemma parseInt_digits (hexadecimal : bool) (ds : string) :
  ds <> "" -> allDigits hexadecimal ds = true ->
  parseInt ds (if hexadecimal then 16 else 10)%Z
  = Num (digitsValue (if hexadecimal then 16 else 10)%Z ds 0).
Proof. intros Hne Hds. exact (parseInt_constant false hexadecimal ds Hne Hds). Qed.

Lemma lexEscape_unicode (input : string) (options : Options) (pos : nat)
      (h1 h2 h3 h4 : ascii) (rest : string) :
  string_drop pos input = four h1 h2 h3 h4 +:+ rest ->
  validItem options (UnicodeEscape h1 h2 h3 h4) = true ->
  lexEscape input options "u" pos
  = Ok (Z.to_N (digitsValue 16 (four h1 h2 h3 h4) 0), pos + 4).
Proof.
  intros Hdrop Hvalid. cbn [validItem] in Hvalid.
  apply andb_true_iff in Hvalid as [Hds Hsmall].
  change (lexEscape input options "u" pos)
    with (let '(s, pos) := readNumeric input true 4%Z pos in
          if negb (String.length s =? 4) then Throw LexerError
          else
            match parseInt s 16%Z with
            | Num v =>
                if (256 <=? v)%Z && negb (allowUnicodeInStrings options)
                then Throw LexerError
                else Ok (Z.to_N v, pos)
            | _ => Ok (0%N, pos)
            end).
  rewrite (readNumeric_exact input true pos 4%Z (four h1 h2 h3 h4) rest Hdrop Hds eq_refl).
  cbn [String.length four Nat.eqb negb].
  rewrite (parseInt_digits true (four h1 h2 h3 h4)) by (discriminate || exact Hds).
  replace ((256 <=? digitsValue 16 (four h1 h2 h3 h4) 0)%Z
           && negb (allowUnicodeInStrings options)) with false; [reflexivity|].
  destruct (allowUnicodeInStrings options); [symmetry; apply andb_false_r|].
  rewrite orb_false_r in Hsmall. apply Z.ltb_lt in Hsmall.
  destruct (Z.leb_spec 256 (digitsValue 16 (four h1 h2 h3 h4) 0)); [lia | reflexivity].
Qed.

Lemma lexEscape_digit (input : string) (options : Options) (c : ascii) (pos : nat) :
  isNumber c false = true ->
  lexEscape input options c pos
  = let '(s, pos) := readNumeric input false 3%Z (pos - 1) in
    if negb (String.length s =? 3) then Throw LexerError
    else
      match parseInt s 10%Z with
      | Num v =>
          if (256 <=? v)%Z && negb (allowUnicodeInStrings options)
          then Throw LexerError
          else Ok (Z.to_N v, pos)
      | _ => Ok (0%N, pos)
      end.
Proof.
  destruct c as [[] [] [] [] [] [] [] []]; try discriminate; intros _; reflexivity.
Qed.

Lemma lexEscape_decimal (input : string) (options : Options) (pos : nat)
      (d1 d2 d3 : ascii) (rest : string) :
  string_drop pos input = three d1 d2 d3 +:+ rest ->
  validItem options (DecimalEscape d1 d2 d3) = true ->
  lexEscape input options d1 (S pos)
  = Ok (Z.to_N (digitsValue 10 (three d1 d2 d3) 0), pos + 3).
Proof.
  intros Hdrop Hvalid. cbn [validItem] in Hvalid.
  apply andb_true_iff in Hvalid as [Hds Hsmall].
  assert (Hd1 : isNumber d1 false = true).
  { cbn [three allDigits] in Hds. apply andb_true_iff in Hds as [H _]. exact H. }
  rewrite (lexEscape_digit input options d1 (S pos) Hd1).
  cbn [Nat.sub]. rewrite Nat.sub_0_r.
  rewrite (readNumeric_exact input false pos 3%Z (three d1 d2 d3) rest Hdrop Hds eq_refl).
  cbn [String.length three Nat.eqb negb].
  rewrite (parseInt_digits false (three d1 d2 d3)) by (discriminate || exact Hds).
  replace ((256 <=? digitsValue 10 (three d1 d2 d3) 0)%Z
           && negb (allowUnicodeInStrings options)) with false; [reflexivity|].
  destruct (allowUnicodeInStrings options); [symmetry; apply andb_false_r|].
  rewrite orb_false_r in Hsmall. apply Z.ltb_lt in Hsmall.
  destruct (Z.leb_spec 256 (digitsValue 10 (three d1 d2 d3) 0)); [lia | reflexivity].
Qed.

Lemma itemsValue_cons (i : StringItem) (items : list StringItem) :
  itemsValue (i :: items) = (itemValue i ++ itemsValue items)%list.
Proof. reflexivity. Qed.

Lemma itemsText_length_cons (i : StringItem) (items : list StringItem) :
  String.length (itemsText (i :: items))
  = String.length (itemText i) + String.length (itemsText items).
Proof. cbn [itemsText]. apply length_append. Qed.

Lemma escape_not_whitespace (i : StringItem) (options : Options) (c : ascii) (s : string) :
  validItem options i = true ->
  itemText i = String "\" (String c s) ->
  match i with Gap _ => True | _ => isWhitespace c = false end.
Proof.
  destruct i as [p|e|k|d1 d2 d3|h1 h2 h3 h4|ws]; cbn [validItem itemText three four];
    intros Hvalid Htext; try exact I.
  - discriminate Htext.
  - injection Htext as <- _.
    unfold simpleEscapeCode in Hvalid.
    destruct e as [[] [] [] [] [] [] [] []]; try discriminate Hvalid; reflexivity.
  - injection Htext as <- _. reflexivity.
  - injection Htext as <- _. apply andb_true_iff in Hvalid as [Hds _].
    cbn [allDigits] in Hds. apply andb_true_iff in Hds as [Hd _].
    destruct d1 as [[] [] [] [] [] [] [] []]; try discriminate Hd; reflexivity.
  - injection Htext as <- _. reflexivity.
Qed.

(** The loop of [lexString] over valid items, whatever follows them. *)
Lemma lexStringLoop_items (input : string) (options : Options)
      (items : list StringItem) :
  forall (fuel pos : nat) (value : list N) (tail : string),
    string_drop pos input = itemsText items +:+ tail ->
    forallb (validItem options) items = true ->
    length items <= fuel ->
    lexStringLoop input options fuel pos value
    = lexStringLoop input options (fuel - length items)
        (pos + String.length (itemsText items)) (value ++ itemsValue items)%list.
Proof.
  induction items as [|i items IH]; intros fuel pos value tail0 Hdrop Hvalid Hfuel.
  - cbn [itemsValue map concat itemsText String.length length].
    rewrite app_nil_r, Nat.add_0_r, Nat.sub_0_r. reflexivity.
  - destruct fuel as [|fuel]; [simpl in Hfuel; lia|].
    cbn [forallb] in Hvalid. apply andb_true_iff in Hvalid as [Hi Hvalid].
    assert (Hfuel' : length items <= fuel) by (simpl in Hfuel; lia).
    cbn [itemsText] in Hdrop. rewrite append_assoc in Hdrop.
    rewrite itemsValue_cons, itemsText_length_cons, app_assoc.
    cbn [length Nat.sub].
    set (tail := itemsText items +:+ tail0) in *.
    pose proof (fun p v H => IH fuel p v tail0 H Hvalid Hfuel') as Hrest.
    clear IH. cbn [lexStringLoop].
    destruct i as [c|e|k|d1 d2 d3|h1 h2 h3 h4|ws];
      cbn [itemText itemValue validItem three four String.length] in *.
    + (* a character as it is *)
      apply andb_true_iff in Hi as [Hi Hslash]. apply andb_true_iff in Hi as [Hprint Hquote].
      apply negb_true_iff in Hslash, Hquote.
      change (string_drop pos input = String c tail) in Hdrop.
      rewrite (getChar_at _ _ _ Hdrop). cbn [charOf String.get].
      rewrite Hquote, Hslash, (consumeChar_at _ _ _ _ Hdrop).
      cbn [mbind outcome_mbind outcome_bind].
      unfold printable in Hprint. apply negb_true_iff in Hprint. rewrite Hprint.
      rewrite (Hrest (S pos) _ (string_drop_next _ _ _ _ Hdrop)).
      f_equal; lia.
    + (* backslash and a letter *)
      change (string_drop pos input = String "\" (String e tail)) in Hdrop.
      pose proof (string_drop_next _ _ _ _ Hdrop) as Hdrop1.
      pose proof (string_drop_next _ _ _ _ Hdrop1) as Hdrop2.
      pose proof (escape_not_whitespace (SimpleEscape e) options e "" Hi eq_refl) as Hws.
      cbv beta iota in Hws.
      rewrite (getChar_at _ _ _ Hdrop). cbn [charOf String.get].
      change (Ascii.eqb "\" dquote) with false. rewrite Ascii.eqb_refl. cbv iota.
      rewrite (getChar_at _ _ _ Hdrop1). cbn [charOf String.get]. rewrite Hws.
      rewrite (consumeChar_at _ _ _ _ Hdrop1). cbn [mbind outcome_mbind outcome_bind].
      destruct (simpleEscapeCode e) as [n|] eqn:Hcode; [|discriminate Hi].
      rewrite (lexEscape_simple input options e _ n Hcode).
      cbn [mbind outcome_mbind outcome_bind].
      rewrite (Hrest _ _ Hdrop2). f_equal; lia.
    + (* a control escape *)
      change (string_drop pos input = String "\" (String "^" (String k tail))) in Hdrop.
      pose proof (string_drop_next _ _ _ _ Hdrop) as Hdrop1.
      pose proof (string_drop_next _ _ _ _ Hdrop1) as Hdrop2.
      pose proof (string_drop_next _ _ _ _ Hdrop2) as Hdrop3.
      rewrite (getChar_at _ _ _ Hdrop). cbn [charOf String.get].
      change (Ascii.eqb "\" dquote) with false. rewrite Ascii.eqb_refl. cbv iota.
      rewrite (getChar_at _ _ _ Hdrop1). cbn [charOf String.get].
      change (isWhitespace "^") with false. cbv iota.
      rewrite (consumeChar_at _ _ _ _ Hdrop1). cbn [mbind outcome_mbind outcome_bind].
      rewrite (lexEscape_control input options _ k tail Hdrop2 Hi).
      cbn [mbind outcome_mbind outcome_bind].
      rewrite (Hrest _ _ Hdrop3). f_equal; lia.
    + (* three decimal digits *)
      change (string_drop pos input
              = String "\" (String d1 (String d2 (String d3 tail)))) in Hdrop.
      pose proof (string_drop_next _ _ _ _ Hdrop) as Hdrop1.
      pose proof (escape_not_whitespace (DecimalEscape d1 d2 d3) options d1
                    (String d2 (String d3 "")) Hi eq_refl) as Hws.
      cbv beta iota in Hws.
      rewrite (getChar_at _ _ _ Hdrop). cbn [charOf String.get].
      change (Ascii.eqb "\" dquote) with false. rewrite Ascii.eqb_refl. cbv iota.
      rewrite (getChar_at _ _ _ Hdrop1). cbn [charOf String.get]. rewrite Hws.
      rewrite (consumeChar_at _ _ _ _ Hdrop1). cbn [mbind outcome_mbind outcome_bind].
      rewrite (lexEscape_decimal input options (S pos) d1 d2 d3 tail Hdrop1 Hi).
      cbn [mbind outcome_mbind outcome_bind].
      rewrite (Hrest (S pos + 3) _);
        [f_equal; lia | rewrite string_drop_add, Hdrop1; reflexivity].
    + (* u and four hexadecimal digits *)
      change (string_drop pos input
              = String "\" (String "u"
                  (String h1 (String h2 (String h3 (String h4 tail)))))) in Hdrop.
      pose proof (string_drop_next _ _ _ _ Hdrop) as Hdrop1.
      pose proof (string_drop_next _ _ _ _ Hdrop1) as Hdrop2.
      rewrite (getChar_at _ _ _ Hdrop). cbn [charOf String.get].
      change (Ascii.eqb "\" dquote) with false. rewrite Ascii.eqb_refl. cbv iota.
      rewrite (getChar_at _ _ _ Hdrop1). cbn [charOf String.get].
      change (isWhitespace "u") with false. cbv iota.
      rewrite (consumeChar_at _ _ _ _ Hdrop1). cbn [mbind outcome_mbind outcome_bind].
      rewrite (lexEscape_unicode input options _ h1 h2 h3 h4 tail Hdrop2 Hi).
      cbn [mbind outcome_mbind outcome_bind].
      rewrite (Hrest (S (S pos) + 4) _);
        [f_equal; lia | rewrite string_drop_add, Hdrop2; reflexivity].
    + (* whitespace between two backslashes *)
      apply andb_true_iff in Hi as [Hws Hne]. apply negb_true_iff in Hne.
      assert (Hdrop' : string_drop pos input = String "\" (ws +:+ String "\" tail)).
      { rewrite Hdrop.
        change (String "\" ((ws +:+ "\") +:+ tail) = String "\" (ws +:+ String "\" tail)).
        rewrite append_assoc. reflexivity. }
      clear Hdrop. rename Hdrop' into Hdrop.
      destruct ws as [|w ws]; [discriminate Hne|].
      change (string_drop pos input
              = String "\" (String w (ws +:+ String "\" tail))) in Hdrop.
      pose proof (string_drop_next _ _ _ _ Hdrop) as Hdrop1.
      assert (Hw : isWhitespace w = true)
        by (cbn [allChars] in Hws; apply andb_true_iff in Hws as [H _]; exact H).
      rewrite (getChar_at _ _ _ Hdrop). cbn [charOf String.get].
      change (Ascii.eqb "\" dquote) with false. rewrite Ascii.eqb_refl. cbv iota.
      rewrite (getChar_at _ _ _ Hdrop1). cbn [charOf String.get]. rewrite Hw.
      rewrite (skipWhitespace_run input (S pos) (String w ws) (String "\" tail)
                 Hdrop1 Hws eq_refl).
      pose proof (string_drop_digits input (S pos) (String w ws) _ Hdrop1) as Hdrop2.
      rewrite (consumeChar_at _ _ _ _ Hdrop2). cbn [mbind outcome_mbind outcome_bind].
      rewrite Ascii.eqb_refl. cbn [negb].
      rewrite (Hrest _ _ (string_drop_next _ _ _ _ Hdrop2)).
      rewrite app_nil_r. f_equal. rewrite length_append. simpl. lia.
Qed.

Lemma items_length (items : list StringItem) :
  length items <= String.length (itemsText items).
Proof.
  induction items as [|i items IH]; [simpl; lia|].
  rewrite itemsText_length_cons. destruct i; simpl in *; lia.
Qed.

(** The text of a string constant with the given items. *)
Definition stringText (items : list StringItem) : string :=
  String dquote (itemsText items +:+ String dquote "").

Lemma stringText_length (items : list StringItem) :
  String.length (stringText items) = String.length (itemsText items) + 2.
Proof. unfold stringText. simpl. rewrite length_append. simpl. lia. Qed.

Lemma stringText_append (items : list StringItem) (rest : string) :
  stringText items +:+ rest = String dquote (itemsText items +:+ String dquote rest).
Proof.
  unfold stringText.
  change (String dquote ((itemsText items +:+ String dquote "") +:+ rest)
          = String dquote (itemsText items +:+ String dquote rest)).
  rewrite append_assoc. reflexivity.
Qed.

Lemma lexString_items (input : string) (options : Options) (l : Cursor)
      (items : list StringItem) (rest : string) :
  string_drop (position l) input = stringText items +:+ rest ->
  forallb (validItem options) items = true ->
  lexString input options l
  = Ok (StringConstantToken
          (substring input (position l) (position l + String.length (stringText items)))
          (itemsValue items),
        with_position l (position l + String.length (stringText items))).
Proof.
  intros Hdrop Hvalid. pose proof Hdrop as Hdrop0. rewrite stringText_append in Hdrop.
  pose proof (input_length_drop _ _ _ _ Hdrop) as Hlen. rewrite length_append in Hlen.
  pose proof (items_length items) as Hitems.
  pose proof (string_drop_next _ _ _ _ Hdrop) as Hdrop1.
  pose proof (string_drop_digits _ _ (itemsText items) _ Hdrop1) as Hquote.
  unfold lexString. rewrite (consumeChar_at _ _ _ _ Hdrop).
  cbn [mbind outcome_mbind outcome_bind]. rewrite Ascii.eqb_refl. cbn [negb].
  rewrite (lexStringLoop_items input options items _ _ [] _ Hdrop1 Hvalid) by lia.
  replace (lexStringLoop input options _ (S (position l) + String.length (itemsText items)) _)
    with (@Ok (list N * nat)
            (itemsValue items, S (position l) + String.length (itemsText items))).
  2:{ destruct (S (input_length input) - length items); cbn [lexStringLoop];
        rewrite (getChar_at _ _ _ Hquote); cbn [charOf String.get];
        rewrite Ascii.eqb_refl; reflexivity. }
  cbn [mbind outcome_mbind outcome_bind].
  rewrite (consumeChar_at _ _ _ _ Hquote). cbn [mbind outcome_mbind outcome_bind].
  rewrite Ascii.eqb_refl. cbn [negb]. rewrite stringText_length.
  replace (S (S (position l) + String.length (itemsText items)))
    with (position l + (String.length (itemsText items) + 2)) by lia.
  reflexivity.
Qed.

(** X7.  A string constant at the position is decoded item by item: a
    printable character, a space or a character that is not ASCII
    stands for itself; the escapes [\a \b \t \n \v \f \r], the escaped
    quote and the escaped backslash stand for their code; [\^c] stands
    for the code of [c] minus 64 when that code is from 64 to 95; [\ddd]
    and [\uxxxx] stand for the number that the digits denote, which must
    be below 256 unless [allowUnicodeInStrings] is set; whitespace
    between two backslashes contributes nothing.  The token has the text
    of the constant, and the lexer goes on after the closing quote. *)
Theorem nextToken_string_constant
        (input : string) (options : Options) (l : Cursor)
        (items : list StringItem) (rest : string) :
  string_drop (position l) input = stringText items +:+ rest ->
  forallb (validItem options) items = true ->
  nextToken input options l
  = skipWhitespaceAndComments input
      {| position := position l + String.length (stringText items);
         tokenStart := position l |}
    ≫= fun l' => Ok (StringConstantToken (stringText items) (itemsValue items), l').
Proof.
  intros Hdrop Hvalid. unfold nextToken. cbn [position].
  rewrite !(getChar_at _ _ _ Hdrop).
  change (charOf (stringText items +:+ rest) 0) with dquote.
  change (isNumber dquote false) with false. change (Ascii.eqb dquote "~") with false.
  cbn [orb andb]. rewrite Ascii.eqb_refl.
  rewrite (lexString_items input options
             {| position := position l; tokenStart := position l |} items rest Hdrop Hvalid).
  cbn [position]. rewrite (substring_at input (position l) _ rest Hdrop).
  cbn [mbind outcome_mbind outcome_bind with_position position tokenStart].
  destruct (skipWhitespaceAndComments input _); reflexivity.
Qed.

Definition exampleItems : list StringItem :=
  [PlainChar "a"; SimpleEscape "n"; DecimalEscape "0" "6" "5";
   UnicodeEscape "0" "0" "4" "2"; ControlEscape "A"; Gap "  "; PlainChar " "].

Lemma nextToken_string_constant_witness :
  nextToken ("val s = " +:+ stringText exampleItems +:+ "; x") defaultOptions
            {| position := 8; tokenStart := 0 |}
  = Ok (StringConstantToken (stringText exampleItems) [97; 10; 65; 66; 1; 32]%N,
        {| position := 31; tokenStart := 31 |}).
Proof.
  exact (nextToken_string_constant
           ("val s = " +:+ stringText exampleItems +:+ "; x") defaultOptions
           {| position := 8; tokenStart := 0 |} exampleItems "; x" eq_refl eq_refl).
Defined.

(** X8.  A character constant is a hash and a string constant whose
    value has exactly one code unit; with a value of another length,
    the empty one included, it is a [LexerError]. *)
Theorem nextToken_character_constant
        (input : string) (options : Options) (l : Cursor)
        (items : list StringItem) (rest : string) :
  string_drop (position l) input = String "#" (stringText items +:+ rest) ->
  forallb (validItem options) items = true ->
  nextToken input options l
  = if length (itemsValue items) =? 1
    then skipWhitespaceAndComments input
           {| position := position l + S (String.length (stringText items));
              tokenStart := position l |}
         ≫= fun l' => Ok (CharacterConstantToken (String "#" (stringText items))
                                                   (itemsValue items), l')
    else Throw LexerError.
Proof.
  intros Hdrop Hvalid. unfold nextToken. cbn [position].
  pose proof (string_drop_next _ _ _ _ Hdrop) as Hdrop1.
  rewrite !(getChar_at _ _ _ Hdrop). cbn [charOf String.get].
  change (String.get 0 (stringText items +:+ rest)) with (Some dquote).
  change (isNumber "#" false) with false. change (Ascii.eqb "#" "~") with false.
  change (Ascii.eqb "#" dquote) with false.
  cbn [orb andb]. rewrite !Ascii.eqb_refl. cbn [andb].
  unfold lexCharacter. cbn [position].
  rewrite (consumeChar_at _ _ _ _ Hdrop). cbn [mbind outcome_mbind outcome_bind].
  rewrite Ascii.eqb_refl. cbn [negb].
  rewrite (lexString_items input options
             (with_position {| position := position l; tokenStart := position l |}
                            (S (position l))) items rest Hdrop1 Hvalid).
  cbn [mbind outcome_mbind outcome_bind with_position position tokenStart].
  rewrite (substring_at input (S (position l)) _ rest Hdrop1).
  destruct (length (itemsValue items) =? 1); cbn [negb]; [|reflexivity].
  cbn [mbind outcome_mbind outcome_bind].
  replace (S (position l) + String.length (stringText items))
    with (position l + S (String.length (stringText items))) by lia.
  destruct (skipWhitespaceAndComments input _); reflexivity.
Qed.

Lemma nextToken_character_constant_witness :
  nextToken (String "#" (stringText [DecimalEscape "0" "6" "5"]) +:+ " ") defaultOptions
            {| position := 0; tokenStart := 0 |}
  = Ok (CharacterConstantToken (String "#" (stringText [DecimalEscape "0" "6" "5"]))
                               [65%N],
        {| position := 8; tokenStart := 8 |}).
Proof.
  exact (nextToken_character_constant
           (String "#" (stringText [DecimalEscape "0" "6" "5"]) +:+ " ") defaultOptions
           {| position := 0; tokenStart := 0 |} [DecimalEscape "0" "6" "5"] " "
           eq_refl eq_refl).
Defined.

(** X9.  A string constant that the input ends in, after valid items
    and before a closing quote, makes the lexer throw an
    [IncompleteError]. *)
Theorem unterminated_string_is_incomplete
        (input : string) (options : Options) (l : Cursor) (items : list StringItem) :
  string_drop (position l) input = String dquote (itemsText items) ->
  forallb (validItem options) items = true ->
  nextToken input options l = Throw IncompleteError.
Proof.
  intros Hdrop Hvalid. unfold nextToken. cbn [position].
  rewrite !(getChar_at _ _ _ Hdrop). cbn [charOf String.get].
  change (isNumber dquote false) with false. change (Ascii.eqb dquote "~") with false.
  cbn [orb andb]. rewrite Ascii.eqb_refl.
  pose proof (input_length_drop _ _ _ _ Hdrop) as Hlen.
  pose proof (items_length items) as Hitems.
  pose proof (string_drop_next _ _ _ _ Hdrop) as Hdrop1.
  assert (Hend : string_drop (S (position l) + String.length (itemsText items)) input = "").
  { apply string_drop_beyond. unfold input_length in Hlen. lia. }
  unfold lexString. cbn [position]. rewrite (consumeChar_at _ _ _ _ Hdrop).
  cbn [mbind outcome_mbind outcome_bind]. rewrite Ascii.eqb_refl. cbn [negb].
  rewrite (lexStringLoop_items input options items _ _ [] ""
             ltac:(rewrite append_empty_r; exact Hdrop1) Hvalid) by lia.
  destruct (S (input_length input) - length items) as [|fuel] eqn:Hfuel; [lia|].
  cbn [lexStringLoop]. rewrite (getChar_at _ _ _ Hend).
  change (charOf "" 0) with EOT. change (Ascii.eqb EOT dquote) with false.
  change (Ascii.eqb EOT "\") with false. cbv iota.
  unfold consumeChar, charAt. rewrite string_drop_get, Hend. reflexivity.
Qed.

Lemma unterminated_string_is_incomplete_witness :
  nextToken ("val s = " +:+ String dquote "abc") defaultOptions
            {| position := 8; tokenStart := 0 |}
  = Throw IncompleteError.
Proof.
  exact (unterminated_string_is_incomplete
           ("val s = " +:+ String dquote "abc") defaultOptions
           {| position := 8; tokenStart := 0 |}
           [PlainChar "a"; PlainChar "b"; PlainChar "c"] eq_refl eq_refl).
Defined.

(** X10.  After valid items, a character that is neither the quote nor
    the backslash and is an ASCII control character or the delete
    character, such as a tab or a line break, makes the string constant
    a [LexerError]. *)
Theorem control_character_in_string_is_rejected
        (input : string) (options : Options) (l : Cursor)
        (items : list StringItem) (c : ascii) (rest : string) :
  string_drop (position l) input = String dquote (itemsText items +:+ String c rest) ->
  forallb (validItem options) items = true ->
  printable c = false ->
  nextToken input options l = Throw LexerError.
Proof.
  intros Hdrop Hvalid Hc. unfold nextToken. cbn [position].
  rewrite !(getChar_at _ _ _ Hdrop). cbn [charOf String.get].
  change (isNumber dquote false) with false. change (Ascii.eqb dquote "~") with false.
  cbn [orb andb]. rewrite Ascii.eqb_refl.
  pose proof (input_length_drop _ _ _ _ Hdrop) as Hlen. rewrite length_append in Hlen.
  pose proof (items_length items) as Hitems.
  pose proof (string_drop_next _ _ _ _ Hdrop) as Hdrop1.
  pose proof (string_drop_digits _ _ (itemsText items) _ Hdrop1) as Hbad.
  assert (Hquote : Ascii.eqb c dquote = false /\ Ascii.eqb c "\" = false).
  { unfold printable in Hc.
    destruct c as [[] [] [] [] [] [] [] []]; try discriminate Hc; split; reflexivity. }
  destruct Hquote as [Hquote Hslash].
  unfold lexString. cbn [position]. rewrite (consumeChar_at _ _ _ _ Hdrop).
  cbn [mbind outcome_mbind outcome_bind]. rewrite Ascii.eqb_refl. cbn [negb].
  rewrite (lexStringLoop_items input options items _ _ [] _ Hdrop1 Hvalid) by lia.
  destruct (S (input_length input) - length items) as [|fuel] eqn:Hfuel;
    [simpl in Hlen; lia|].
  cbn [lexStringLoop]. rewrite (getChar_at _ _ _ Hbad). cbn [charOf String.get].
  rewrite Hquote, Hslash, (consumeChar_at _ _ _ _ Hbad).
  cbn [mbind outcome_mbind outcome_bind].
  unfold printable in Hc. apply negb_false_iff in Hc. rewrite Hc. reflexivity.
Qed.

Lemma control_character_in_string_is_rejected_witness :
  nextToken (String dquote ("ab" +:+ String "010" ("c" +:+ String dquote ""))) defaultOptions
            {| position := 0; tokenStart := 0 |}
  = Throw LexerError.
Proof.
  exact (control_character_in_string_is_rejected
           (String dquote ("ab" +:+ String "010" ("c" +:+ String dquote ""))) defaultOptions
           {| position := 0; tokenStart := 0 |}
           [PlainChar "a"; PlainChar "b"] "010" ("c" +:+ String dquote "")
           eq_refl eq_refl eq_refl).
Defined.

End LexerStrings.

(** ** Identifiers and keywords *)

Module LexerIdentifiers.
Import Lexer LexerFacts LexerLayout LexerNumbers LexerStrings.

Local Open Scope nat_scope.

Definition isLetter (c : ascii) : bool := between "a" "z" c || between "A" "Z" c.

Lemma isLetter_facts (c : ascii) :
  isLetter c = true ->
  isSymbolic c = false /\ isAlphanumeric c = true /\ isNumber c false = false
  /\ Ascii.eqb c "_" = false /\ Ascii.eqb c "'" = false /\ Ascii.eqb c "~" = false
  /\ Ascii.eqb c dquote = false /\ Ascii.eqb c "#" = false
  /\ Ascii.eqb c "*" = false /\ Ascii.eqb c "=" = false.
Proof.
  destruct c as [[] [] [] [] [] [] [] []]; try discriminate; intros _;
    repeat split; reflexivity.
Qed.

Lemma isSymbolic_facts (c : ascii) :
  isSymbolic c = true ->
  isAlphanumeric c = false /\ Ascii.eqb c "'" = false /\ isWhitespace c = false
  /\ isNumber c false = false /\ Ascii.eqb c dquote = false /\ Ascii.eqb c "." = false.
Proof.
  destruct c as [[] [] [] [] [] [] [] []]; try discriminate; intros _;
    repeat split; reflexivity.
Qed.

Lemma readToken_run (input : string) (p : ascii -> bool) (pos : nat) (s rest : string) :
  string_drop pos input = s +:+ rest ->
  allChars p s = true ->
  p (charOf rest 0) = false ->
  readToken input p pos = s.
Proof. intros Hdrop Hs Hrest. unfold readToken. rewrite Hdrop. apply span_all; assumption. Qed.

(** The token of a run of symbolic characters. *)
Definition symbolicToken (s : string) : Token :=
  if String.eqb s "*" then StarToken
  else if String.eqb s "=" then EqualsToken
  else if has_string reservedWords s then KeywordToken s
  else IdentifierToken s.

(** The token of a word that starts with a letter. *)
Definition wordToken (s : string) : Token :=
  if has_string reservedWords s then KeywordToken s else AlphanumericIdentifierToken s.

Lemma lexIdentifierOrKeyword_word (input : string) (l : Cursor)
      (c0 : ascii) (s rest : string) :
  string_drop (position l) input = String c0 s +:+ rest ->
  isLetter c0 = true ->
  allChars isAlphanumeric s = true ->
  isAlphanumeric (charOf rest 0) = false ->
  lexIdentifierOrKeyword input l
  = Ok (wordToken (String c0 s),
        with_position l (position l + String.length (String c0 s))).
Proof.
  intros Hdrop Hc0 Hs Hrest.
  destruct (isLetter_facts c0 Hc0)
    as (Hsym & Halnum & Hnum & Hunder & Hprime & _ & _ & _ & Hstar & Hequals).
  assert (Htoken : readToken input isAlphanumeric (position l) = String c0 s).
  { apply (readToken_run input _ _ _ rest Hdrop); [|exact Hrest].
    cbn [allChars]. rewrite Halnum, Hs. reflexivity. }
  unfold lexIdentifierOrKeyword.
  rewrite (getChar_at _ _ _ Hdrop). change (charOf (String c0 s +:+ rest) 0) with c0.
  rewrite Hsym, Halnum, Hnum, Hunder. cbn [negb andb]. rewrite Htoken.
  unfold classifyIdentifier, wordToken.
  replace (String.eqb (String c0 s) "*") with false
    by (cbn [String.eqb]; rewrite Hstar; reflexivity).
  replace (String.eqb (String c0 s) "=") with false
    by (cbn [String.eqb]; rewrite Hequals; reflexivity).
  rewrite Hprime, Halnum.
  destruct (has_string reservedWords (String c0 s)); reflexivity.
Qed.

(** X11.  The longest run of symbolic characters at the position is one
    token: the star token for [*], the equals token for [=], a keyword
    for the reserved words among them (such as [=>], [->], [:], [|],
    [#], [:>]), an identifier otherwise. *)
Theorem lexIdentifierOrKeyword_symbolic (input : string) (l : Cursor)
        (c0 : ascii) (s rest : string) :
  string_drop (position l) input = String c0 s +:+ rest ->
  allChars isSymbolic (String c0 s) = true ->
  isSymbolic (charOf rest 0) = false ->
  lexIdentifierOrKeyword input l
  = Ok (symbolicToken (String c0 s),
        with_position l (position l + String.length (String c0 s))).
Proof.
  intros Hdrop Hs Hrest.
  assert (Hc0 : isSymbolic c0 = true)
    by (cbn [allChars] in Hs; apply andb_true_iff in Hs as [H _]; exact H).
  destruct (isSymbolic_facts c0 Hc0) as (Halnum & Hprime & _).
  pose proof (readToken_run input _ _ _ rest Hdrop Hs Hrest) as Htoken.
  unfold lexIdentifierOrKeyword.
  rewrite (getChar_at _ _ _ Hdrop). change (charOf (String c0 s +:+ rest) 0) with c0.
  rewrite Hc0, Htoken. unfold classifyIdentifier, symbolicToken.
  rewrite Hprime, Halnum.
  destruct (String.eqb (String c0 s) "*"); [reflexivity|].
  destruct (String.eqb (String c0 s) "="); [reflexivity|].
  destruct (has_string reservedWords (String c0 s)); reflexivity.
Qed.

Lemma lexIdentifierOrKeyword_symbolic_witness :
  lexIdentifierOrKeyword "x =>> y" {| position := 2; tokenStart := 2 |}
  = Ok (IdentifierToken "=>>", {| position := 5; tokenStart := 2 |}).
Proof.
  exact (lexIdentifierOrKeyword_symbolic
           "x =>> y" {| position := 2; tokenStart := 2 |} "=" ">>" " y"
           eq_refl eq_refl eq_refl).
Defined.

(** What follows does not make a long identifier of the token before
    it: it is not a dot, or it is the three dots of a record wildcard. *)
Definition notQualified (rest : string) : bool :=
  negb (Ascii.eqb (charOf rest 0) ".")
  || (Ascii.eqb (charOf rest 1) "." && Ascii.eqb (charOf rest 2) ".").

(** X12.  A word (a letter followed by letters, digits, primes and
    underscores, as far as they go) is one token: a keyword if it is a
    reserved word, an alphanumeric identifier otherwise. *)
Theorem nextToken_word
        (input : string) (options : Options) (l : Cursor)
        (c0 : ascii) (s rest : string) :
  string_drop (position l) input = String c0 s +:+ rest ->
  isLetter c0 = true ->
  allChars isAlphanumeric s = true ->
  isAlphanumeric (charOf rest 0) = false ->
  notQualified rest = true ->
  nextToken input options l
  = skipWhitespaceAndComments input
      {| position := position l + String.length (String c0 s);
         tokenStart := position l |}
    ≫= fun l' => Ok (wordToken (String c0 s), l').
Proof.
  intros Hdrop Hc0 Hs Hrest Hdot.
  destruct (isLetter_facts c0 Hc0)
    as (_ & _ & Hnum & _ & _ & Htilde & Hquote & Hhash & _).
  pose proof (string_drop_digits input _ (String c0 s) rest Hdrop) as Hend.
  unfold nextToken. cbn [position].
  rewrite !(getChar_at _ _ _ Hdrop). change (charOf (String c0 s +:+ rest) 0) with c0.
  rewrite Hnum, Htilde, Hquote, Hhash. cbn [orb andb].
  unfold lexLongIdentifierOrKeyword.
  rewrite (lexIdentifierOrKeyword_word
             input {| position := position l; tokenStart := position l |}
             c0 s rest Hdrop Hc0 Hs Hrest).
  cbn [mbind outcome_mbind outcome_bind with_position position tokenStart].
  rewrite !(getChar_at _ _ _ Hend).
  unfold notQualified in Hdot.
  destruct (Ascii.eqb (charOf rest 0) "."); cbn [negb orb andb] in Hdot |- *.
  - rewrite Hdot.
    cbn [mbind outcome_mbind outcome_bind with_position position tokenStart].
    destruct (skipWhitespaceAndComments input _); reflexivity.
  - cbn [mbind outcome_mbind outcome_bind with_position position tokenStart].
    destruct (skipWhitespaceAndComments input _); reflexivity.
Qed.

Lemma nextToken_word_witness :
  nextToken "val x' = 1" defaultOptions {| position := 0; tokenStart := 0 |}
  = Ok (KeywordToken "val", {| position := 4; tokenStart := 4 |})
  /\ nextToken "val x' = 1" defaultOptions {| position := 4; tokenStart := 4 |}
     = Ok (AlphanumericIdentifierToken "x'", {| position := 7; tokenStart := 7 |}).
Proof.
  split.
  - exact (nextToken_word "val x' = 1" defaultOptions {| position := 0; tokenStart := 0 |}
             "v" "al" " x' = 1" eq_refl eq_refl eq_refl eq_refl eq_refl).
  - exact (nextToken_word "val x' = 1" defaultOptions {| position := 4; tokenStart := 4 |}
             "x" "'" " = 1" eq_refl eq_refl eq_refl eq_refl eq_refl).
Defined.

(** *** Long identifiers *)

(** A word that is not reserved: the name of a structure or of a
    value. *)
Definition isName (s : string) : bool :=
  match s with
  | EmptyString => false
  | String c0 s' => isLetter c0 && allChars isAlphanumeric s'
  end
  && negb (has_string reservedWords s).

(** [q1.q2. ... .qn.name] *)
Fixpoint qualifiedText (qualifiers : list string) (name : string) : string :=
  match qualifiers with
  | [] => name
  | q :: qualifiers' => q +:+ String "." (qualifiedText qualifiers' name)
  end.

Lemma lexIdentifierOrKeyword_name (input : string) (l : Cursor) (s rest : string) :
  string_drop (position l) input = s +:+ rest ->
  isName s = true ->
  isAlphanumeric (charOf rest 0) = false ->
  lexIdentifierOrKeyword input l
  = Ok (AlphanumericIdentifierToken s, with_position l (position l + String.length s)).
Proof.
  intros Hdrop Hname Hrest. unfold isName in Hname.
  apply andb_true_iff in Hname as [Hword Hfree]. apply negb_true_iff in Hfree.
  destruct s as [|c0 s]; [discriminate|]. apply andb_true_iff in Hword as [Hc0 Hs].
  rewrite (lexIdentifierOrKeyword_word input l c0 s rest Hdrop Hc0 Hs Hrest).
  unfold wordToken. rewrite Hfree. reflexivity.
Qed.

Lemma lexQualifiers_names (input : string) (qualifiers : list string) :
  forall (fuel : nat) (l : Cursor) (t : Token) (acc : list Token) (name rest : string),
    string_drop (position l) input
    = String "." (qualifiedText qualifiers name +:+ rest) ->
    instanceof_AlphanumericIdentifierToken t = true ->
    forallb isName qualifiers = true ->
    isName name = true ->
    isAlphanumeric (charOf rest 0) = false ->
    Ascii.eqb (charOf rest 0) "." = false ->
    length qualifiers < fuel ->
    exists start,
      lexQualifiers input fuel l t acc
      = Ok (AlphanumericIdentifierToken name,
            (acc ++ t :: map AlphanumericIdentifierToken qualifiers)%list,
            {| position := position l
                           + S (String.length (qualifiedText qualifiers name));
               tokenStart := start |}).
Proof.
  induction qualifiers as [|q qualifiers IH];
    intros fuel l t acc name rest Hdrop Ht Hqs Hname Hrest Hdot Hfuel;
    (destruct fuel as [|fuel]; [simpl in Hfuel; lia|]);
    cbn [lexQualifiers qualifiedText] in *;
    rewrite (consumeChar_at _ _ _ _ Hdrop); cbn [mbind outcome_mbind outcome_bind];
    rewrite Ht; cbn [negb];
    pose proof (string_drop_next _ _ _ _ Hdrop) as Hdrop1.
  - rewrite (lexIdentifierOrKeyword_name
               input {| position := S (position l); tokenStart := S (position l) |}
               name rest Hdrop1 Hname Hrest).
    cbn [mbind outcome_mbind outcome_bind with_position position tokenStart].
    rewrite (getChar_at _ _ _ (string_drop_digits input _ name rest Hdrop1)), Hdot.
    exists (S (position l)).
    replace (position l + S (String.length name)) with (S (position l) + String.length name) by lia.
    reflexivity.
  - cbn [forallb] in Hqs. apply andb_true_iff in Hqs as [Hq Hqs].
    rewrite append_assoc in Hdrop1.
    change (string_drop (S (position l)) input
            = q +:+ String "." (qualifiedText qualifiers name +:+ rest)) in Hdrop1.
    rewrite (lexIdentifierOrKeyword_name
               input {| position := S (position l); tokenStart := S (position l) |}
               q _ Hdrop1 Hq eq_refl).
    cbn [mbind outcome_mbind outcome_bind with_position position tokenStart].
    pose proof (string_drop_digits input _ q _ Hdrop1) as Hdrop2.
    rewrite (getChar_at _ _ _ Hdrop2). cbn [charOf String.get]. rewrite Ascii.eqb_refl.
    destruct (IH fuel {| position := S (position l) + String.length q;
                         tokenStart := S (position l) |}
                 (AlphanumericIdentifierToken q) (acc ++ [t])%list name rest
                 Hdrop2 eq_refl Hqs Hname Hrest Hdot ltac:(simpl in Hfuel; lia))
      as [start Hrun].
    unfold with_position. cbn [position tokenStart] in Hrun |- *.
    rewrite Hrun. exists start. cbn [position map].
    rewrite <- app_assoc. cbn [app]. rewrite length_append. cbn [String.length].
    replace (position l + S (String.length q + S (String.length (qualifiedText qualifiers name))))
      with (S (position l) + String.length q + S (String.length (qualifiedText qualifiers name)))
      by lia.
    reflexivity.
Qed.

Lemma skipWhitespaceAndComments_position (input : string) (l1 l2 : Cursor) :
  position l1 = position l2 ->
  skipWhitespaceAndComments input l1 = skipWhitespaceAndComments input l2.
Proof. unfold skipWhitespaceAndComments. intros ->. reflexivity. Qed.

Lemma isName_head (s : string) :
  isName s = true -> exists c0 s', s = String c0 s' /\ isLetter c0 = true.
Proof.
  unfold isName. intros H. apply andb_true_iff in H as [H _].
  destruct s as [|c0 s']; [discriminate|]. apply andb_true_iff in H as [H _]. eauto.
Qed.

Lemma qualifiedText_head (qualifiers : list string) (name : string) :
  forallb isName qualifiers = true -> isName name = true ->
  exists c0 s', qualifiedText qualifiers name = String c0 s' /\ isLetter c0 = true.
Proof.
  intros Hqs Hname. destruct qualifiers as [|q qualifiers]; cbn [qualifiedText].
  - apply isName_head, Hname.
  - cbn [forallb] in Hqs. apply andb_true_iff in Hqs as [Hq _].
    destruct (isName_head q Hq) as (c0 & s' & -> & Hc0).
    exists c0. eexists. split; [reflexivity | exact Hc0].
Qed.

Lemma qualifiedText_length (qualifiers : list string) (name : string) :
  length qualifiers <= String.length (qualifiedText qualifiers name).
Proof.
  induction qualifiers as [|q qualifiers IH]; cbn [qualifiedText length]; [lia|].
  rewrite length_append. cbn [String.length]. lia.
Qed.

(** X13.  A long identifier: names of structures, each followed by a
    dot, and a name.  When every part is a word that is not reserved,
    the whole is one token that lists the qualifiers in order as
    alphanumeric identifiers, with its last part as identifier and the
    whole text as text. *)
Theorem nextToken_long_identifier
        (input : string) (options : Options) (l : Cursor)
        (q : string) (qualifiers : list string) (name rest : string) :
  string_drop (position l) input = qualifiedText (q :: qualifiers) name +:+ rest ->
  forallb isName (q :: qualifiers) = true ->
  isName name = true ->
  isAlphanumeric (charOf rest 0) = false ->
  Ascii.eqb (charOf rest 0) "." = false ->
  nextToken input options l
  = skipWhitespaceAndComments input
      {| position := position l
                     + String.length (qualifiedText (q :: qualifiers) name);
         tokenStart := position l |}
    ≫= fun l' =>
         Ok (LongIdentifierToken (qualifiedText (q :: qualifiers) name)
               (map AlphanumericIdentifierToken (q :: qualifiers))
               (AlphanumericIdentifierToken name), l').
Proof.
  intros Hdrop Hqs Hname Hrest Hdot.
  pose proof (substring_at input (position l) _ rest Hdrop) as Htext.
  pose proof (length_string_drop (position l) input) as Hlen.
  rewrite Hdrop, length_append in Hlen.
  pose proof (qualifiedText_length (q :: qualifiers) name) as Hcount.
  cbn [forallb] in Hqs. apply andb_true_iff in Hqs as [Hq Hqs].
  destruct (isName_head q Hq) as (c0 & s' & Hqtext & Hc0).
  destruct (isLetter_facts c0 Hc0)
    as (_ & _ & Hnum & _ & _ & Htilde & Hquote & Hhash & _).
  destruct (qualifiedText_head qualifiers name Hqs Hname) as (n0 & n' & Hnext & Hn0).
  assert (Hn0dot : Ascii.eqb n0 "." = false)
    by (destruct n0 as [[] [] [] [] [] [] [] []]; try discriminate Hn0; reflexivity).
  cbn [qualifiedText] in Hdrop. rewrite append_assoc in Hdrop.
  change (string_drop (position l) input
          = q +:+ String "." (qualifiedText qualifiers name +:+ rest)) in Hdrop.
  pose proof (string_drop_digits input _ q _ Hdrop) as Hdrop1.
  unfold nextToken. cbn [position].
  assert (Hhead : getChar input (position l) 0 = c0).
  { rewrite (getChar_at _ _ _ Hdrop), Hqtext. reflexivity. }
  rewrite !Hhead, Hnum, Htilde, Hquote, Hhash. cbn [orb andb].
  unfold lexLongIdentifierOrKeyword.
  rewrite (lexIdentifierOrKeyword_name
             input {| position := position l; tokenStart := position l |}
             q _ Hdrop Hq eq_refl).
  cbn [mbind outcome_mbind outcome_bind with_position position tokenStart].
  assert (Hdot0 : getChar input (position l + String.length q) 0 = "."%char)
    by (rewrite (getChar_at _ _ _ Hdrop1); reflexivity).
  assert (Hdot1 : getChar input (position l + String.length q) 1 = n0)
    by (rewrite (getChar_at _ _ _ Hdrop1), Hnext; reflexivity).
  rewrite !Hdot0, Hdot1, Ascii.eqb_refl, Hn0dot. cbn [andb negb].
  destruct (lexQualifiers_names
              input qualifiers (S (input_length input))
              {| position := position l + String.length q; tokenStart := position l |}
              (AlphanumericIdentifierToken q) [] name rest
              Hdrop1 eq_refl Hqs Hname Hrest Hdot
              ltac:(unfold input_length; cbn [length] in Hcount; lia))
    as [start Hrun].
  unfold with_position. cbn [position tokenStart] in Hrun |- *. rewrite Hrun.
  cbn [mbind outcome_mbind outcome_bind position tokenStart app
       instanceof_IdentifierToken instanceof_StarToken instanceof_TypeVariableToken
       orb negb].
  replace (position l + String.length q + S (String.length (qualifiedText qualifiers name)))
    with (position l + String.length (qualifiedText (q :: qualifiers) name))
    by (cbn [qualifiedText]; rewrite length_append; cbn [String.length]; lia).
  rewrite Htext.
  rewrite (skipWhitespaceAndComments_position input
             {| position := position l + String.length (qualifiedText (q :: qualifiers) name);
                tokenStart := start |}
             {| position := position l + String.length (qualifiedText (q :: qualifiers) name);
                tokenStart := position l |} eq_refl).
  destruct (skipWhitespaceAndComments input _); reflexivity.
Qed.

Lemma nextToken_long_identifier_witness :
  nextToken "List.Pair.zip (a, b)" defaultOptions {| position := 0; tokenStart := 0 |}
  = Ok (LongIdentifierToken "List.Pair.zip"
          [AlphanumericIdentifierToken "List"; AlphanumericIdentifierToken "Pair"]
          (AlphanumericIdentifierToken "zip"),
        {| position := 14; tokenStart := 14 |}).
Proof.
  exact (nextToken_long_identifier
           "List.Pair.zip (a, b)" defaultOptions {| position := 0; tokenStart := 0 |}
           "List" ["Pair"] "zip" " (a, b)" eq_refl eq_refl eq_refl eq_refl eq_refl).
Defined.

(** X14.  A reserved word cannot qualify a name: a reserved word
    followed by a dot that does not start the three dots of a record
    wildcard is a [LexerError]. *)
Theorem keyword_before_dot_is_rejected
        (input : string) (options : Options) (l : Cursor)
        (c0 : ascii) (s rest : string) :
  string_drop (position l) input = String c0 s +:+ String "." rest ->
  isLetter c0 = true ->
  allChars isAlphanumeric s = true ->
  has_string reservedWords (String c0 s) = true ->
  Ascii.eqb (charOf rest 0) "." && Ascii.eqb (charOf rest 1) "." = false ->
  nextToken input options l = Throw LexerError.
Proof.
  intros Hdrop Hc0 Hs Hreserved Hdots.
  destruct (isLetter_facts c0 Hc0)
    as (_ & _ & Hnum & _ & _ & Htilde & Hquote & Hhash & _).
  pose proof (string_drop_digits input _ (String c0 s) _ Hdrop) as Hend.
  unfold nextToken. cbn [position].
  rewrite !(getChar_at _ _ _ Hdrop). change (charOf (String c0 s +:+ ?t) 0) with c0.
  rewrite Hnum, Htilde, Hquote, Hhash. cbn [orb andb].
  unfold lexLongIdentifierOrKeyword.
  rewrite (lexIdentifierOrKeyword_word
             input {| position := position l; tokenStart := position l |}
             c0 s _ Hdrop Hc0 Hs eq_refl).
  unfold wordToken. rewrite Hreserved.
  cbn [mbind outcome_mbind outcome_bind with_position position tokenStart].
  rewrite !(getChar_at _ _ _ Hend).
  change (charOf (String "." rest) 0) with "."%char.
  change (charOf (String "." rest) 1) with (charOf rest 0).
  change (charOf (String "." rest) 2) with (charOf rest 1).
  rewrite Ascii.eqb_refl. cbn [andb negb]. rewrite Hdots.
  cbn [lexQualifiers]. unfold with_position. cbn [position].
  rewrite (consumeChar_at _ _ _ _ Hend). reflexivity.
Qed.

Lemma keyword_before_dot_is_rejected_witness :
  nextToken "val.x" defaultOptions {| position := 0; tokenStart := 0 |}
  = Throw LexerError.
Proof.
  exact (keyword_before_dot_is_rejected
           "val.x" defaultOptions {| position := 0; tokenStart := 0 |}
           "v" "al" "x" eq_refl eq_refl eq_refl eq_refl eq_refl).
Defined.

End LexerIdentifiers.

(** ** More properties of values *)

Module ValuesProperties.
Import Ast Values.

Local Open Scope Z_scope.

(** *** Comparison of numbers *)

(** The numbers that [compareTo] finds equal: [NaN] and anything, and a
    number and itself. *)
Definition sameNumber (a b : number) : bool :=
  match a, b with
  | NaN, _ | _, NaN => true
  | Num x, Num y => x =? y
  | Infinity s, Infinity s' => Bool.eqb s s'
  | _, _ => false
  end.

Lemma compareNumbers_zero (a b : number) :
  (compareNumbers a b =? 0) = sameNumber a b.
Proof.
  unfold compareNumbers, sameNumber, number_ltb.
  destruct a as [x| |s], b as [y| |s']; try reflexivity.
  - destruct (Z.ltb_spec x y), (Z.ltb_spec y x), (Z.eqb_spec x y); try reflexivity; lia.
  - destruct s'; reflexivity.
  - destruct s; reflexivity.
  - destruct s, s'; reflexivity.
Qed.

(** X15.  [equals] of [Integer] and of [Word] goes through [compareTo]:
    two numbers are equal when neither is smaller than the other.  So a
    number equals itself and no other number, except that [NaN] is found
    equal to every number of its class. *)
Theorem equals_of_numbers (a b : number) :
  equals (Integer a) (Integer b) = Ok (sameNumber a b)
  /\ equals (Word a) (Word b) = Ok (sameNumber a b)
  /\ (forall x y : Z, sameNumber (Num x) (Num y) = true <-> x = y)
  /\ sameNumber NaN b = true /\ sameNumber a NaN = true.
Proof.
  split; [|split; [|split; [|split]]].
  - cbn [equals]. rewrite compareNumbers_zero. reflexivity.
  - cbn [equals]. rewrite compareNumbers_zero. reflexivity.
  - intros x y. cbn [sameNumber]. apply Z.eqb_eq.
  - reflexivity.
  - destruct a; reflexivity.
Qed.

(** X16.  [compareTo] of two numbers is antisymmetric: swapping the
    operands negates the result, also for infinities and [NaN]. *)
Theorem compareNumbers_antisymmetric (a b : number) :
  compareNumbers b a = - compareNumbers a b.
Proof.
  unfold compareNumbers, number_ltb.
  destruct a as [x| |s], b as [y| |s']; try reflexivity.
  - destruct (Z.ltb_spec x y), (Z.ltb_spec y x); try reflexivity; lia.
  - destruct s'; reflexivity.
  - destruct s; reflexivity.
  - destruct s, s'; reflexivity.
Qed.

(** *** Equality of values *)

(** X17.  [equals] of a record never answers [true]: it throws as soon
    as the other record has one of its labels, and answers [false]
    otherwise, also for two empty records and for a record and
    itself. *)
Theorem record_equals_is_never_true (entries : list (string * Value)) (other : Value) :
  equals (RecordValue entries) other <> Ok true
  /\ equals (RecordValue []) (RecordValue []) = Ok false
  /\ (entries <> [] ->
      equals (RecordValue entries) (RecordValue entries) = Throw TypeError).
Proof.
  split; [|split].
  - cbn [equals]. destruct other; try discriminate.
    destruct (existsb _ entries); discriminate.
  - reflexivity.
  - intros Hne. cbn [equals]. destruct entries as [|[label v] entries]; [contradiction|].
    cbn [existsb fst]. rewrite String.eqb_refl. reflexivity.
Qed.

(** Values that [equals] can compare with themselves: no function and
    no record, at any depth. *)
Fixpoint comparable (v : Value) : bool :=
  match v with
  | FunctionValue _ _ _ | RecordValue _ => false
  | ConstructedValue _ (Some a) _ | ExceptionValue _ (Some a) _ => comparable a
  | _ => true
  end.

Lemma compareReals_refl (r : real) : compareReals r r = 0.
Proof.
  unfold compareReals, real_ltb. destruct r as [q| |s].
  - rewrite (proj1 (Qeq_alt q q) (Qeq_refl q)). reflexivity.
  - reflexivity.
  - destruct s; reflexivity.
Qed.

Lemma sameNumber_refl (a : number) : sameNumber a a = true.
Proof. destruct a as [x| |s]; simpl; [apply Z.eqb_refl | reflexivity | destruct s; reflexivity]. Qed.

(** X18.  On a value without functions and records, [equals] with the
    value itself returns [true], without throwing. *)
Theorem equals_reflexive :
  forall v : Value, comparable v = true -> equals v v = Ok true.
Proof.
  fix IH 1. intros v Hv.
  destruct v as [b|s|s|n|n|r|entries|st recs body|name arg id|name arg id|name f|name k id|name k id];
    cbn [equals comparable] in *; try discriminate Hv.
  - rewrite Bool.eqb_reflx. reflexivity.
  - rewrite String.eqb_refl. reflexivity.
  - rewrite String.eqb_refl. reflexivity.
  - rewrite compareNumbers_zero, sameNumber_refl. reflexivity.
  - rewrite compareNumbers_zero, sameNumber_refl. reflexivity.
  - rewrite compareReals_refl. reflexivity.
  - rewrite String.eqb_refl, Z.eqb_refl. cbn [negb orb].
    destruct arg as [a|]; [apply IH, Hv | reflexivity].
  - rewrite String.eqb_refl, Z.eqb_refl. cbn [negb orb].
    destruct arg as [a|]; [apply IH, Hv | reflexivity].
  - rewrite String.eqb_refl. reflexivity.
  - rewrite String.eqb_refl, Z.eqb_refl. reflexivity.
  - rewrite String.eqb_refl, Z.eqb_refl. reflexivity.
Qed.

Lemma equals_reflexive_witness :
  equals (ConstructedValue "::"
            (Some (ExceptionValue "Fail" (Some (StringValue "x")) 2)) 0)
         (ConstructedValue "::"
            (Some (ExceptionValue "Fail" (Some (StringValue "x")) 2)) 0)
  = Ok true.
Proof.
  exact (equals_reflexive
           (ConstructedValue "::"
              (Some (ExceptionValue "Fail" (Some (StringValue "x")) 2)) 0) eq_refl).
Defined.

(** The class of a value. *)
Definition classOf (v : Value) : nat :=
  match v with
  | BoolValue _ => 0 | CharValue _ => 1 | StringValue _ => 2 | Word _ => 3
  | Integer _ => 4 | Real _ => 5 | RecordValue _ => 6 | FunctionValue _ _ _ => 7
  | ConstructedValue _ _ _ => 8 | ExceptionValue _ _ _ => 9
  | PredefinedFunction _ _ => 10 | ValueConstructor _ _ _ => 11
  | ExceptionConstructor _ _ _ => 12
  end%nat.

(** A character and a string with the same text. *)
Definition sameText (a b : Value) : bool :=
  match a, b with
  | CharValue s, StringValue s' | StringValue s, CharValue s' => String.eqb s s'
  | _, _ => false
  end.

(** X19.  Values of different classes are never equal, with one
    exception: a character and a string are compared by their text.  A
    function cannot be compared at all: its [equals] throws. *)
Theorem equals_across_classes (a b : Value) :
  classOf a <> classOf b ->
  equals a b = match a with
               | FunctionValue _ _ _ => Throw InternalInterpreterError
               | _ => Ok (sameText a b)
               end.
Proof.
  intros Hclass. destruct a, b; try reflexivity; exfalso; apply Hclass; reflexivity.
Qed.

Lemma equals_across_classes_witness :
  equals (Integer (Num 1)) (Word (Num 1)) = Ok false
  /\ equals (CharValue "a") (StringValue "a") = Ok true.
Proof.
  split.
  - exact (equals_across_classes (Integer (Num 1)) (Word (Num 1))
             ltac:(discriminate)).
  - exact (equals_across_classes (CharValue "a") (StringValue "a")
             ltac:(discriminate)).
Defined.

(** *** Division and remainder *)





(** Beyond [2 ^ 53] the rounding shows: the exact quotient of [2 ^ 60]
    by 3 is 384307168202282325. *)
Example divide_rounds_the_quotient :
  Integer_divide (Num (2 ^ 60)) (Num 3) = Integer (Num 384307168202282304)
  /\ 2 ^ 60 / 3 = 384307168202282325.
Proof. split; reflexivity. Qed.

End ValuesProperties.

(** ** What simplification leaves *)

Module SimplifyProperties.
Import Ast Declarations Evaluation.

(** No function declaration is left among the declarations of [d]
    (declarations inside expressions are not looked at). *)
Fixpoint isCore (d : Declaration) : bool :=
  match d with
  | FunctionDeclaration _ _ _ _ => false
  | AbstypeDeclaration _ _ _ declaration _ => isCore declaration
  | LocalDeclaration _ declaration body _ => isCore declaration && isCore body
  | SequentialDeclaration _ declarations _ => forallb isCore declarations
  | _ => true
  end.

(** The number of declarations at the leaves of sequences, local
    declarations and abstract types. *)
Fixpoint leaves (d : Declaration) : nat :=
  match d with
  | AbstypeDeclaration _ _ _ declaration _ => S (leaves declaration)
  | LocalDeclaration _ declaration body _ => (leaves declaration + leaves body)%nat
  | SequentialDeclaration _ declarations _ => list_sum (map leaves declarations)
  | _ => 1%nat
  end.

Lemma list_sum_cons (n : nat) (l : list nat) : list_sum (n :: l) = (n + list_sum l)%nat.
Proof. reflexivity. Qed.

Section WithSimplifiers.

Variable Expression_simplify : Expression -> outcome Expression.
Variable Type_simplify : Type_ -> Type_.

Abbreviation simplify := (Declaration_simplify Expression_simplify Type_simplify).

(** X21.  Simplification removes the derived form [fun]: where it
    succeeds, its result has no function declaration at any depth of
    sequences, local declarations and abstract types; it keeps the [id]
    of the declaration and the number of declarations in it. *)
Theorem simplify_removes_function_declarations :
  forall d d' : Declaration,
    simplify d = Ok d' ->
    isCore d' = true /\ Declaration_id d' = Declaration_id d /\ leaves d' = leaves d.
Proof.
  fix IH 1. intros d d' H. destruct d; simpl in H.
  - destruct (mapM _ valueBinding) as [valBnd|]; [|discriminate].
    injection H as <-. repeat split; reflexivity.
  - injection H as <-. repeat split; reflexivity.
  - injection H as <-. repeat split; reflexivity.
  - injection H as <-. repeat split; reflexivity.
  - destruct (Declaration_simplify _ _ d) as [declaration'|] eqn:Hd; [|discriminate].
    destruct typeBinding; [discriminate|]. injection H as <-.
    destruct (IH _ _ Hd) as (Hcore & _ & Hleaves). cbn [isCore Declaration_id leaves].
    rewrite Hcore, Hleaves. repeat split; reflexivity.
  - injection H as <-. repeat split; reflexivity.
  - destruct (Declaration_simplify _ _ d1) as [declaration'|] eqn:Hd1; [|discriminate].
    destruct (Declaration_simplify _ _ d2) as [body'|] eqn:Hd2; [|discriminate].
    injection H as <-.
    destruct (IH _ _ Hd1) as (Hcore1 & _ & Hleaves1).
    destruct (IH _ _ Hd2) as (Hcore2 & _ & Hleaves2).
    cbn [isCore Declaration_id leaves]. rewrite Hcore1, Hcore2, Hleaves1, Hleaves2. repeat split; reflexivity.
  - injection H as <-. repeat split; reflexivity.
  - injection H as <-. repeat split; reflexivity.
  - revert d' H.
    set (simplifyAll :=
           fix simplifyAll (l : list Declaration) : outcome (list Declaration) :=
             match l with
             | [] => Ok []
             | x :: l' =>
                 y ← Declaration_simplify Expression_simplify Type_simplify x;
                 ys ← simplifyAll l'; Ok (y :: ys)
             end).
    assert (Hall : forall l l', simplifyAll l = Ok l' ->
                     forallb isCore l' = true
                     /\ list_sum (map leaves l') = list_sum (map leaves l)).
    { clear -IH. intros l; induction l as [|x l IHl]; intros l' H; simpl in H.
      - injection H as <-. repeat split; reflexivity.
      - destruct (Declaration_simplify _ _ x) as [y|] eqn:Hx; [|discriminate].
        destruct (simplifyAll l) as [ys|] eqn:Hl; [|discriminate].
        injection H as <-.
        destruct (IH _ _ Hx) as (Hcore & _ & Hleaves).
        destruct (IHl _ eq_refl) as (Hcores & Hsum).
        cbn [forallb map]. rewrite !list_sum_cons, Hcore, Hcores, Hleaves, Hsum. repeat split; reflexivity. }
    intros d' H.
    destruct (simplifyAll declarations) as [decls|] eqn:Hd; [|discriminate].
    injection H as <-. destruct (Hall _ _ Hd) as (Hcores & Hsum).
    cbn [isCore Declaration_id leaves]. rewrite Hcores, Hsum. repeat split; reflexivity.
  - destruct (mapM _ functionValueBinding) as [valbnd|]; [|discriminate].
    injection H as <-. repeat split; reflexivity.
  - injection H as <-. repeat split; reflexivity.
  - injection H as <-. repeat split; reflexivity.
  - injection H as <-. repeat split; reflexivity.
Qed.

End WithSimplifiers.

Lemma simplify_removes_function_declarations_witness :
  isCore (SequentialDeclaration 0
            [ValueDeclaration 0 [] [] 2;
             LocalDeclaration 1 (EmptyDeclaration 3) (ValueDeclaration 5 [] [] 4) 6] 1)
  = true
  /\ Declaration_id
       (SequentialDeclaration 0
          [ValueDeclaration 0 [] [] 2;
           LocalDeclaration 1 (EmptyDeclaration 3) (ValueDeclaration 5 [] [] 4) 6] 1)
     = Declaration_id
         (SequentialDeclaration 0
            [FunctionDeclaration 0 [] [] 2;
             LocalDeclaration 1 (EmptyDeclaration 3) (FunctionDeclaration 5 [] [] 4) 6] 1)
  /\ leaves
       (SequentialDeclaration 0
          [ValueDeclaration 0 [] [] 2;
           LocalDeclaration 1 (EmptyDeclaration 3) (ValueDeclaration 5 [] [] 4) 6] 1)
     = leaves
         (SequentialDeclaration 0
            [FunctionDeclaration 0 [] [] 2;
             LocalDeclaration 1 (EmptyDeclaration 3) (FunctionDeclaration 5 [] [] 4) 6] 1).
Proof.
  exact (simplify_removes_function_declarations
           Simplifier.Expression_simplify Simplifier.Type_simplify
           (SequentialDeclaration 0
              [FunctionDeclaration 0 [] [] 2;
               LocalDeclaration 1 (EmptyDeclaration 3) (FunctionDeclaration 5 [] [] 4) 6] 1)
           _ eq_refl).
Defined.

End SimplifyProperties.

(** ** More properties of the evaluation of declarations *)

Module EvaluationProperties.
Import Ast Values States Evaluation HeapFacts InitialState.

Section WithEvaluator.

Variable Expression_compute : Expression -> State -> Eval (Value * bool).
Variable Pattern_matches : Expression -> State -> Value -> Eval (option (list (string * Value))).

(** What is assumed of the evaluator of expressions here: computing an
    expression and matching a pattern leave the frames that exist as
    they are. *)
Hypothesis Expression_compute_preserves :
  forall e s h, preserves h (snd (Expression_compute e s h)).
Hypothesis Pattern_matches_preserves :
  forall p s v h, preserves h (snd (Pattern_matches p s v h)).

Lemma ValueBinding_compute_preserves (b : ValueBinding) (state : State) (h : Heap) :
  preserves h (snd (ValueBinding_compute Expression_compute Pattern_matches b state h)).
Proof.
  destruct b as [position isRec pattern expression].
  unfold ValueBinding_compute, Eval_then, Eval_bind.
  pose proof (Expression_compute_preserves expression state h) as He.
  destruct (Expression_compute expression state h) as [[[v threw]|e] h1]; [|exact He].
  cbn [snd fst] in *. destruct threw; [exact He|].
  pose proof (Pattern_matches_preserves pattern state v h1) as Hp.
  destruct (Pattern_matches pattern state v h1) as [[bindings|e] h2]; cbn [snd] in *;
    exact (preserves_trans _ _ _ He Hp).
Qed.

Lemma collectBindings_preserves (valueBinding : list ValueBinding) (state : State) :
  forall (isRec : bool) (result recursives : list (string * Value)) (h : Heap),
    preserves h (snd (collectBindings Expression_compute Pattern_matches
                        state valueBinding isRec result recursives h)).
Proof.
  induction valueBinding as [|b valueBinding IH]; intros isRec result recursives h;
    cbn [collectBindings].
  - apply preserves_refl.
  - unfold Eval_then, Eval_bind.
    pose proof (ValueBinding_compute_preserves b state h) as Hb.
    destruct (ValueBinding_compute _ _ b state h) as [[[bindings exception]|e] h1];
      cbn [snd] in *; [|exact Hb].
    destruct exception as [exception|]; [destruct bindings; exact Hb|].
    destruct bindings as [bindings|]; [|exact Hb].
    destruct (isRec || isRecursive b); exact (preserves_trans _ _ _ Hb (IH _ _ _ _)).
Qed.

Lemma forEach_write_Ok {A : Type} (s : State) (f : A -> string) (g : A -> Value)
      (l : list A) (h : Heap) :
  fst (forEach (fun entry => setDynamicValue s (f entry) (g entry)) l h) = Ok tt.
Proof.
  revert h. induction l as [|x l IH]; intros h; [reflexivity|].
  cbn [forEach]. unfold Eval_then, Eval_bind.
  unfold setDynamicValue at 1. unfold updateFrame, modify. apply IH.
Qed.

(** X22.  A value declaration binds all of its names or none: the
    bindings are written only after every right-hand side was computed
    and matched.  When one of them raises an exception, fails to match
    or throws, every frame that existed, that of the state included, is
    as it was before the declaration. *)
Theorem value_declaration_binds_all_or_nothing
        (valueBinding : list ValueBinding) (state : State) (h : Heap) :
  let r := ValueDeclaration_evaluate Expression_compute Pattern_matches
             valueBinding state h in
  match fst r with
  | Ok result => resultThrew result = true
  | Throw _ => True
  end ->
  preserves h (snd r).
Proof.
  intros r. subst r. unfold ValueDeclaration_evaluate, Eval_then, Eval_bind.
  pose proof (collectBindings_preserves valueBinding state false [] [] h) as Hc.
  destruct (collectBindings _ _ state valueBinding false [] [] h)
    as [[[exception|[result recursives]]|e] h1]; cbn [snd fst] in *.
  - intros _. exact Hc.
  - pose proof (forEach_write_Ok state fst snd result h1) as H1.
    destruct (forEach _ result h1) as [o1 h2]. cbn [fst] in H1. subst o1.
    pose proof (forEach_write_Ok state
                  (fun entry => fst (tieRecursive recursives entry))
                  (fun entry => snd (tieRecursive recursives entry)) recursives h2) as H2.
    destruct (forEach _ recursives h2) as [o2 h3]. cbn [fst] in H2. subst o2.
    cbn [fst]. discriminate.
  - intros _. exact Hc.
Qed.

End WithEvaluator.

Lemma computeFragment_preserves (e : Expression) (s : State) (h : Heap) :
  preserves h (snd (computeFragment e s h)).
Proof.
  destruct e; cbn [computeFragment]; try apply preserves_refl.
  unfold Eval_then, Eval_bind, gets.
  destruct (getDynamicValue h s (getText name)); apply preserves_refl.
Qed.

Lemma matchesFragment_preserves (p : Expression) (s : State) (v : Value) (h : Heap) :
  preserves h (snd (matchesFragment p s v h)).
Proof. destruct p; apply preserves_refl. Qed.

(** [val x = fn y => y and z = w], where [w] is not bound *)
Definition failingBindings : list ValueBinding :=
  [ mkValueBinding 4 false (ValueIdentifier 4 (AlphanumericIdentifierToken "x" 4))
      (Lambda 8 (mkMatch 11
         [(ValueIdentifier 11 (AlphanumericIdentifierToken "y" 11),
           ValueIdentifier 16 (AlphanumericIdentifierToken "y" 16))]));
    mkValueBinding 22 false (ValueIdentifier 22 (AlphanumericIdentifierToken "z" 22))
      (ValueIdentifier 26 (AlphanumericIdentifierToken "w" 26)) ].

Lemma value_declaration_binds_all_or_nothing_witness :
  preserves initialHeap
    (snd (ValueDeclaration_evaluate computeFragment matchesFragment
            failingBindings getInitialState initialHeap)).
Proof.
  exact (value_declaration_binds_all_or_nothing
           computeFragment matchesFragment
           computeFragment_preserves matchesFragment_preserves
           failingBindings getInitialState initialHeap I).
Defined.

(** *** Constructors of a datatype *)

Definition arity (argumentType : option Type_) : Z :=
  match argumentType with Some _ => 1 | None => 0 end.

(** The entry of a constructor: its name, bound to a value constructor
    of that name whose arity is 1 if the constructor has an argument
    type and 0 otherwise. *)
Definition constructorEntry (entry : string * Value) (c : Token * option Type_) : Prop :=
  exists id : Z,
    entry = (getText (fst c), ValueConstructor (getText (fst c)) (arity (snd c)) id).

Lemma computeConstructors_entries (state : State) (type : list (Token * option Type_)) :
  forall (ve : list (string * Value)) (connames : list string) (h : Heap),
  exists (ve' : list (string * Value)) (h' : Heap),
    computeConstructors state type ve connames h
    = (Ok ((ve ++ ve')%list, (connames ++ map (fun c => getText (fst c)) type)%list), h')
    /\ Forall2 constructorEntry ve' type.
Proof.
  induction type as [|[constructor argumentType] type IH]; intros ve connames h.
  - exists [], h. rewrite !app_nil_r. split; [reflexivity | constructor].
  - cbn [computeConstructors]. unfold Eval_then, Eval_bind, gets.
    unfold incrementValueIdentifierId at 1. unfold updateFrame, modify.
    match goal with
    | |- context [computeConstructors state type ?v ?n ?g] =>
        destruct (IH v n g) as (ve' & h' & Hrun & Hentries)
    end.
    rewrite Hrun. eexists (_ :: ve'), h'. split.
    + rewrite <- !app_assoc. reflexivity.
    + constructor; [|exact Hentries]. eexists. reflexivity.
Qed.

(** X23.  [compute] of a datatype binding never throws.  It returns one
    entry per constructor, in the order of the declaration: the name of
    the constructor bound to a value constructor of that name, with
    arity 1 exactly when the constructor has an argument type; and it
    returns the name of the type with the names of its constructors in
    the same order. *)
Theorem DatatypeBinding_compute_entries
        (position : Position) (typeVariableSequence : list Type_) (name : Token)
        (type : list (Token * option Type_)) (state : State) (h : Heap) :
  exists (ve : list (string * Value)) (h' : Heap),
    DatatypeBinding_compute
      (mkDatatypeBinding position typeVariableSequence name type) state h
    = (Ok (ve, (getText name, map (fun c => getText (fst c)) type)), h')
    /\ Forall2 constructorEntry ve type.
Proof.
  destruct (computeConstructors_entries state type [] [] h) as (ve & h' & Hrun & Hentries).
  exists ve, h'. split; [|exact Hentries].
  unfold DatatypeBinding_compute, Eval_then, Eval_bind. rewrite Hrun. reflexivity.
Qed.

(** *** Exceptions are generative *)

Lemma lookupChain_here {A : Type} (get : Frame -> option A) (h : Heap) (s : State)
      (frame : Frame) (x : A) :
  h !! s = Some frame -> get frame = Some x ->
  lookupChain get (length h) h s = Some x.
Proof.
  intros Hframe Hget. pose proof (lookup_lt_Some _ _ _ Hframe) as Hlt.
  destruct (length h) as [|fuel]; [lia|]. cbn [lookupChain]. rewrite Hframe, Hget.
  reflexivity.
Qed.

Lemma evaluate_direct_exception_binding
      (position : Position) (name : Token) (type : option Type_)
      (state : State) (h : Heap) :
  (state < length h)%nat ->
  getRebindStatus h state (getText name) = Allowed ->
  exists h1 : Heap,
    ExceptionBinding_evaluate (DirectExceptionBinding position name type) state h
    = (Ok (state, false, None), h1)
    /\ length h1 = length h
    /\ getDynamicValue h1 state (getText name)
       = Some (ExceptionConstructor (getText name) (arity type)
                 (getValueIdentifierId h state (getText name)))
    /\ getValueIdentifierId h1 state (getText name)
       = getValueIdentifierId h state (getText name) + 1
    /\ getRebindStatus h1 state (getText name) = Allowed.
Proof.
  intros Hstate Hallowed.
  destruct (lookup_lt_is_Some_2 h state Hstate) as [frame Hframe].
  unfold ExceptionBinding_evaluate, Eval_then, Eval_bind, gets.
  unfold incrementValueIdentifierId, setDynamicValue, updateFrame, modify.
  match goal with
  | |- context [getRebindStatus (alter ?f state h) state _] =>
      set (f1 := f);
      assert (Hstatus : getRebindStatus (alter f1 state h) state (getText name) = Allowed)
  end.
  { unfold getRebindStatus in *. rewrite length_alter.
    rewrite Rebinding.lookupChain_alter by (intros fr; split; reflexivity).
    exact Hallowed. }
  rewrite Hstatus. eexists. split; [reflexivity|].
  match goal with
  | |- context [alter ?f state (alter f1 state h)] => set (f2 := f)
  end.
  assert (Hframe1 : alter f2 state (alter f1 state h) !! state = Some (f2 (f1 frame)))
    by (rewrite !list_lookup_alter_eq, Hframe; reflexivity).
  split; [rewrite !length_alter; reflexivity|]. split; [|split].
  - unfold getDynamicValue. apply (lookupChain_here _ _ _ _ _ Hframe1).
    unfold f2. cbn [dynamicValues]. apply lookup_insert_eq.
  - unfold getValueIdentifierId at 1.
    rewrite (lookupChain_here _ _ _ _ (getValueIdentifierId h state (getText name) + 1)
               Hframe1); [reflexivity|].
    unfold f2, f1. cbn [valueIdentifierId]. apply lookup_insert_eq.
  - unfold getRebindStatus in *. rewrite !length_alter.
    rewrite !Rebinding.lookupChain_alter by (intros fr; split; reflexivity).
    exact Hallowed.
Qed.

(** X24.  Exceptions are generative: when a direct exception binding
    of a name that may be rebound is evaluated twice in a state, the
    two exception constructors that the name is bound to differ in
    their id (the first has the id that the counter of the name had, the
    second the next one), so that an exception value made by the first
    is not equal to one made by the second. *)
Theorem exceptions_are_generative
        (position : Position) (name : Token) (type : option Type_)
        (state : State) (h : Heap) :
  (state < length h)%nat ->
  getRebindStatus h state (getText name) = Allowed ->
  let binding := DirectExceptionBinding position name type in
  let first := getValueIdentifierId h state (getText name) in
  exists h1 h2 : Heap,
    ExceptionBinding_evaluate binding state h = (Ok (state, false, None), h1)
    /\ ExceptionBinding_evaluate binding state h1 = (Ok (state, false, None), h2)
    /\ getDynamicValue h1 state (getText name)
       = Some (ExceptionConstructor (getText name) (arity type) first)
    /\ getDynamicValue h2 state (getText name)
       = Some (ExceptionConstructor (getText name) (arity type) (first + 1))
    /\ forall argument argument',
        equals (ExceptionConstructor_construct (getText name) first argument)
               (ExceptionConstructor_construct (getText name) (first + 1) argument')
        = Ok false.
Proof.
  intros Hstate Hallowed binding first.
  destruct (evaluate_direct_exception_binding position name type state h Hstate Hallowed)
    as (h1 & Hrun1 & Hlen1 & Hvalue1 & Hid1 & Hallowed1).
  destruct (evaluate_direct_exception_binding position name type state h1
              ltac:(rewrite Hlen1; exact Hstate) Hallowed1)
    as (h2 & Hrun2 & _ & Hvalue2 & _ & _).
  exists h1, h2. split; [exact Hrun1|]. split; [exact Hrun2|]. split; [exact Hvalue1|].
  split; [rewrite Hvalue2, Hid1; reflexivity|].
  intros argument argument'. unfold ExceptionConstructor_construct. cbn [equals].
  rewrite String.eqb_refl.
  replace (first =? first + 1) with false by (symmetry; apply Z.eqb_neq; lia).
  reflexivity.
Qed.

Lemma exceptions_are_generative_witness :
  exists h1 h2 : Heap,
    ExceptionBinding_evaluate
      (DirectExceptionBinding 10 (AlphanumericIdentifierToken "E" 10) None)
      getInitialState initialHeap = (Ok (getInitialState, false, None), h1)
    /\ ExceptionBinding_evaluate
         (DirectExceptionBinding 10 (AlphanumericIdentifierToken "E" 10) None)
         getInitialState h1 = (Ok (getInitialState, false, None), h2)
    /\ getDynamicValue h1 getInitialState "E" = Some (ExceptionConstructor "E" 0 0)
    /\ getDynamicValue h2 getInitialState "E" = Some (ExceptionConstructor "E" 0 1)
    /\ forall argument argument',
        equals (ExceptionConstructor_construct "E" 0 argument)
               (ExceptionConstructor_construct "E" 1 argument')
        = Ok false.
Proof.
  exact (exceptions_are_generative
           10 (AlphanumericIdentifierToken "E" 10) None getInitialState initialHeap
           ltac:(unfold getInitialState, initialHeap; simpl; lia) eq_refl).
Defined.

End EvaluationProperties.


(** ** The lexer makes progress *)

Module LexerProgress.
Import Lexer LexerFacts LexerLayout LexerNumbers LexerStrings LexerIdentifiers.

Local Open Scope nat_scope.

Lemma readNumericFrom_nonempty (hexadecimal : bool) (s : string) :
  isNumber (charOf s 0) hexadecimal = true ->
  1 <= String.length (readNumericFrom hexadecimal (-1) s 0).
Proof.
  destruct s as [|c s]; [destruct hexadecimal; discriminate|].
  unfold charOf. cbn [String.get readNumericFrom].
  intros ->. cbn [andb].
  change (negb (Z.of_nat 0 =? -1)%Z) with true. cbn [String.length]. lia.
Qed.

Ltac split_ifs H :=
  repeat match type of H with
         | context [if ?b then _ else _] => destruct b eqn:?
         end.

Ltac token_made H :=
  match type of H with
  | context [makeNumberToken ?i ?c ?v ?r ?w ?x] =>
      destruct (makeNumberToken i c v r w x); [|discriminate H];
      cbn [mbind mret outcome_mbind outcome_mret outcome_bind] in H;
      injection H as _ <-; cbn [position with_position]
  end.

Lemma lexNumber_advances (input : string) (l l' : Cursor) (t : Token) :
  isNumber (getChar input (position l) 0) false
  || (Ascii.eqb (getChar input (position l) 0) "~"
      && isNumber (getChar input (position l) 1) false) = true ->
  lexNumber input l = Ok (t, l') ->
  position l < position l'.
Proof.
  intros Hstart H.
  assert (Hkey : Ascii.eqb (getChar input (position l) 0) "~" = true
                 \/ 1 <= String.length
                           (readNumericFrom false (-1) (string_drop (position l) input) 0)).
  { destruct (Ascii.eqb (getChar input (position l) 0) "~"); [left; reflexivity|].
    right. apply readNumericFrom_nonempty. rewrite <- getChar_charOf.
    rewrite andb_false_l, orb_false_r in Hstart. exact Hstart. }
  clear Hstart. unfold lexNumber in H.
  set (neg := Ascii.eqb (getChar input (position l) 0) "~") in *.
  destruct neg eqn:Hneg; cbv iota in H.
  - clear Hkey.
    set (prefixed := Ascii.eqb (getChar input (S (position l)) 0) "0" && _) in H.
    destruct prefixed; cbn [andb] in H.
    + set (W := Ascii.eqb (getChar input (S (S (position l))) 0) "w") in H.
      destruct W; cbv iota in H;
        set (X := Ascii.eqb (getChar input (S (S (position l))) _) "x") in H;
        destruct X; cbn [andb orb] in H; unfold readNumeric in H; cbv zeta in H;
        split_ifs H; token_made H; lia.
    + unfold readNumeric in H; cbv zeta in H; split_ifs H; token_made H; lia.
  - destruct Hkey as [Hkey|Hkey]; [discriminate|].
    set (prefixed := Ascii.eqb (getChar input (position l) 0) "0" && _) in H.
    destruct prefixed; cbn [andb] in H.
    + set (W := Ascii.eqb (getChar input (S (position l)) 0) "w") in H.
      destruct W; cbv iota in H;
        set (X := Ascii.eqb (getChar input (S (position l)) _) "x") in H;
        destruct X; cbn [andb orb] in H; unfold readNumeric in H; cbv zeta in H;
        split_ifs H; token_made H; lia.
    + unfold readNumeric in H; cbv zeta in H; split_ifs H; token_made H; lia.
Qed.

Lemma consumeChar_next (input : string) (pos : nat) (c : ascii) (pos' : nat) :
  consumeChar input pos = Ok (c, pos') -> pos' = S pos.
Proof.
  unfold consumeChar. destruct (charAt input pos); [|discriminate].
  intros H; injection H as _ <-. reflexivity.
Qed.

Lemma lexEscape_le (input : string) (options : Options) (c : ascii) (pos : nat)
      (code : N) (pos' : nat) :
  lexEscape input options c pos = Ok (code, pos') -> pos <= pos'.
Proof.
  unfold lexEscape, readNumeric. cbv zeta. intros H.
  repeat match type of H with
         | (if Ascii.eqb c ?k then _ else _) = _ =>
             destruct (Ascii.eqb c k); [try (injection H as _ <-; lia)|]
         end.
  - destruct (consumeChar input pos) as [[cc p]|] eqn:Hc; [|discriminate].
    apply consumeChar_next in Hc. subst p.
    cbn [mbind outcome_mbind outcome_bind] in H.
    destruct (_ || _); [discriminate|]. injection H as _ <-. lia.
  - destruct (negb (String.length _ =? 4)); [discriminate|].
    destruct (parseInt _ 16%Z); [destruct (_ && _); [discriminate|]| |];
      injection H as _ <-; lia.
  - destruct (negb (isNumber c false)); [discriminate|].
    destruct (String.length _ =? 3) eqn:Hlen; [|discriminate].
    apply Nat.eqb_eq in Hlen. cbn [negb] in H.
    destruct (parseInt _ 10%Z); [destruct (_ && _); [discriminate|]| |];
      injection H as _ <-; lia.
Qed.

Lemma lexStringLoop_le (input : string) (options : Options) (fuel : nat) :
  forall (pos : nat) (value value' : list N) (pos' : nat),
    lexStringLoop input options fuel pos value = Ok (value', pos') -> pos <= pos'.
Proof.
  induction fuel as [|fuel IH]; intros pos value value' pos' H; cbn [lexStringLoop] in H.
  - destruct (Ascii.eqb _ dquote); [injection H as _ <-; lia | discriminate].
  - destruct (Ascii.eqb (getChar input pos 0) dquote); [injection H as _ <-; lia|].
    destruct (Ascii.eqb (getChar input pos 0) "\").
    + destruct (isWhitespace (getChar input (S pos) 0)).
      * destruct (consumeChar input (skipWhitespace input (S pos))) as [[c p]|] eqn:Hc;
          [|discriminate].
        apply consumeChar_next in Hc. subst p.
        cbn [mbind outcome_mbind outcome_bind] in H.
        destruct (negb (Ascii.eqb c "\")); [discriminate|].
        apply IH in H. pose proof (skipWhitespace_le input (S pos)). lia.
      * destruct (consumeChar input (S pos)) as [[c p]|] eqn:Hc; [|discriminate].
        apply consumeChar_next in Hc. subst p.
        cbn [mbind outcome_mbind outcome_bind] in H.
        destruct (lexEscape input options c (S (S pos))) as [[code p]|] eqn:He;
          [|discriminate].
        apply lexEscape_le in He. cbn [mbind outcome_mbind outcome_bind] in H.
        apply IH in H. lia.
    + destruct (consumeChar input pos) as [[c p]|] eqn:Hc; [|discriminate].
      apply consumeChar_next in Hc. subst p.
      cbn [mbind outcome_mbind outcome_bind] in H.
      destruct (_ && _); [discriminate|]. apply IH in H. lia.
Qed.

Lemma lexString_advances (input : string) (options : Options) (l l' : Cursor) (t : Token) :
  lexString input options l = Ok (t, l') -> position l < position l'.
Proof.
  unfold lexString. intros H.
  destruct (consumeChar input (position l)) as [[c p]|] eqn:Hc; [|discriminate].
  apply consumeChar_next in Hc. subst p. cbn [mbind outcome_mbind outcome_bind] in H.
  destruct (negb (Ascii.eqb c dquote)); [discriminate|].
  destruct (lexStringLoop input options _ (S (position l)) []) as [[value p]|] eqn:Hloop;
    [|discriminate].
  apply lexStringLoop_le in Hloop. cbn [mbind outcome_mbind outcome_bind] in H.
  destruct (consumeChar input p) as [[c' p']|] eqn:Hc'; [|discriminate].
  apply consumeChar_next in Hc'. subst p'. cbn [mbind outcome_mbind outcome_bind] in H.
  destruct (negb (Ascii.eqb c' dquote)); [discriminate|].
  injection H as _ <-. cbn [position with_position]. lia.
Qed.

Lemma lexCharacter_advances (input : string) (options : Options) (l l' : Cursor)
      (t : Token) :
  lexCharacter input options l = Ok (t, l') -> position l < position l'.
Proof.
  unfold lexCharacter. intros H.
  destruct (consumeChar input (position l)) as [[c p]|] eqn:Hc; [|discriminate].
  apply consumeChar_next in Hc. subst p. cbn [mbind outcome_mbind outcome_bind] in H.
  destruct (negb (Ascii.eqb c "#")); [discriminate|].
  destruct (lexString input options (with_position l (S (position l))))
    as [[t1 l1]|] eqn:Hs; [|discriminate].
  apply lexString_advances in Hs. cbn [position with_position] in Hs.
  cbn [mbind outcome_mbind outcome_bind] in H.
  destruct t1; try discriminate. destruct (negb (length value =? 1)); [discriminate|].
  injection H as _ <-. lia.
Qed.

Lemma readToken_nonempty (input : string) (p : ascii -> bool) (pos : nat) :
  p EOT = false ->
  p (getChar input pos 0) = true ->
  1 <= String.length (readToken input p pos).
Proof.
  intros Hend. rewrite getChar_charOf. unfold readToken, charOf.
  destruct (string_drop pos input) as [|c s]; cbn [String.get span].
  - rewrite Hend. discriminate.
  - intros ->. cbn [String.length]. lia.
Qed.

Lemma lexIdentifierOrKeyword_advances (input : string) (l l' : Cursor) (t : Token) :
  lexIdentifierOrKeyword input l = Ok (t, l') -> position l < position l'.
Proof.
  unfold lexIdentifierOrKeyword. cbv zeta. intros H.
  destruct (isSymbolic (getChar input (position l) 0)) eqn:Hsym.
  { pose proof (readToken_nonempty input isSymbolic (position l) eq_refl Hsym).
    destruct (classifyIdentifier _ _); [|discriminate].
    injection H as _ <-. cbn [position with_position]. lia. }
  destruct (isAlphanumeric (getChar input (position l) 0)) eqn:Halnum.
  - cbn [andb] in H. destruct (negb (isNumber _ false) && negb (Ascii.eqb _ "_")).
    + pose proof (readToken_nonempty input isAlphanumeric (position l) eq_refl Halnum).
      destruct (classifyIdentifier _ _); [|discriminate].
      injection H as _ <-. cbn [position with_position]. lia.
    + destruct (has_string reservedWords _).
      * destruct (consumeChar input (position l)) as [[c p]|] eqn:Hc; [|discriminate].
        apply consumeChar_next in Hc. subst p. injection H as _ <-.
        cbn [position with_position]. lia.
      * destruct (_ && _); [|discriminate]. injection H as _ <-.
        cbn [position with_position]. lia.
  - cbn [andb] in H. destruct (has_string reservedWords _).
    + destruct (consumeChar input (position l)) as [[c p]|] eqn:Hc; [|discriminate].
      apply consumeChar_next in Hc. subst p. injection H as _ <-.
      cbn [position with_position]. lia.
    + destruct (_ && _); [|discriminate]. injection H as _ <-.
      cbn [position with_position]. lia.
Qed.

Lemma lexQualifiers_advances (input : string) (fuel : nat) :
  forall (l : Cursor) (t : Token) (qualifiers : list Token) (t' : Token)
         (qualifiers' : list Token) (l' : Cursor),
    lexQualifiers input fuel l t qualifiers = Ok (t', qualifiers', l') ->
    position l < position l'.
Proof.
  induction fuel as [|fuel IH]; intros l t qualifiers t' qualifiers' l' H;
    cbn [lexQualifiers] in H; [discriminate|].
  destruct (consumeChar input (position l)) as [[c p]|] eqn:Hc; [|discriminate].
  apply consumeChar_next in Hc. subst p. cbn [mbind outcome_mbind outcome_bind] in H.
  destruct (negb (instanceof_AlphanumericIdentifierToken t)); [discriminate|].
  destruct (lexIdentifierOrKeyword input _) as [[t1 l1]|] eqn:Hid; [|discriminate].
  apply lexIdentifierOrKeyword_advances in Hid. cbn [position] in Hid.
  cbn [mbind outcome_mbind outcome_bind] in H.
  destruct (Ascii.eqb (getChar input (position l1) 0) ".").
  - apply IH in H. lia.
  - injection H as _ _ <-. lia.
Qed.

Lemma lexLongIdentifierOrKeyword_advances (input : string) (l l' : Cursor) (t : Token) :
  lexLongIdentifierOrKeyword input l = Ok (t, l') -> position l < position l'.
Proof.
  unfold lexLongIdentifierOrKeyword. cbv zeta. intros H.
  destruct (lexIdentifierOrKeyword input l) as [[t1 l1]|] eqn:Hid; [|discriminate].
  apply lexIdentifierOrKeyword_advances in Hid.
  cbn [mbind outcome_mbind outcome_bind] in H.
  destruct (_ && _); [injection H as _ <-; lia|].
  destruct (negb _); [injection H as _ <-; lia|].
  destruct (lexQualifiers input _ l1 t1 []) as [[[t2 qs] l2]|] eqn:Hq; [|discriminate].
  apply lexQualifiers_advances in Hq. cbn [mbind outcome_mbind outcome_bind] in H.
  destruct (_ || _); [discriminate|]. injection H as _ <-. lia.
Qed.

Lemma nextToken_stops (input : string) (options : Options) (l l' : Cursor) (t : Token) :
  nextToken input options l = Ok (t, l') ->
  exists l1,
    position l < position l1
    /\ skipWhitespaceAndCommentsLoop input (S (input_length input)) (position l1)
       = Ok (position l').
Proof.
  unfold nextToken. cbv zeta. cbn [position]. intros H.
  match type of H with
  | context [mbind _ ?m] => destruct m as [[t1 l1]|] eqn:Htok; [|discriminate H]
  end.
  cbn [mbind outcome_mbind outcome_bind] in H.
  unfold skipWhitespaceAndComments in H.
  destruct (skipWhitespaceAndCommentsLoop input _ (position l1)) as [p|] eqn:Hskip;
    [|discriminate].
  cbn [mbind mret outcome_mbind outcome_mret outcome_bind] in H.
  injection H as _ <-. cbn [position].
  exists l1. split; [|exact Hskip].
  set (l0 := {| position := position l; tokenStart := position l |}) in Htok.
  change (position l) with (position l0) in Htok |- *.
  destruct (isNumber _ false || _) eqn:Hnum.
  { exact (lexNumber_advances input l0 l1 t1 Hnum Htok). }
  destruct (Ascii.eqb (getChar input (position l0) 0) dquote).
  { exact (lexString_advances input options l0 l1 t1 Htok). }
  destruct (Ascii.eqb (getChar input (position l0) 0) "#" && _).
  { exact (lexCharacter_advances input options l0 l1 t1 Htok). }
  exact (lexLongIdentifierOrKeyword_advances input l0 l1 t1 Htok).
Qed.

Lemma nextToken_lt (input : string) (options : Options) (l l' : Cursor) (t : Token) :
  nextToken input options l = Ok (t, l') -> position l < position l'.
Proof.
  intros H. apply nextToken_stops in H as (l1 & Hlt & Hskip).
  apply skipWhitespaceAndCommentsLoop_spec in Hskip as (Hle & _). lia.
Qed.

(** X25. Every token consumes input: when [nextToken] returns a token,
    the lexer has moved strictly forward, and it stands at the end of
    the input or at a character that is neither whitespace nor the
    opening of a comment. *)
Theorem nextToken_advances (input : string) (options : Options) (l l' : Cursor)
        (t : Token) :
  nextToken input options l = Ok (t, l') ->
  position l < position l'
  /\ isWhitespace (getChar input (position l') 0) = false
  /\ atCommentOpen input (position l') = false.
Proof.
  intros H. apply nextToken_stops in H as (l1 & Hlt & Hskip).
  apply skipWhitespaceAndCommentsLoop_spec in Hskip as (Hle & Hws & Hopen).
  repeat split; [lia | assumption..].
Qed.

Lemma nextToken_advances_witness :
  let l' := {| position := 4; tokenStart := 4 |} in
  nextToken "val x = 1" defaultOptions {| position := 0; tokenStart := 0 |}
  = Ok (KeywordToken "val", l')
  /\ 0 < 4
  /\ isWhitespace (getChar "val x = 1" 4 0) = false
  /\ atCommentOpen "val x = 1" 4 = false.
Proof.
  split; [reflexivity|].
  exact (nextToken_advances "val x = 1" defaultOptions
           {| position := 0; tokenStart := 0 |} {| position := 4; tokenStart := 4 |}
           (KeywordToken "val") eq_refl).
Defined.

End LexerProgress.

(** ** The lexer terminates *)

Module LexerTermination.
Import Lexer LexerFacts LexerLayout LexerProgress.
Local Open Scope nat_scope.

(** The loops of the embedding run on fuel; [bounded m] says that the
    computation [m] ended before its fuel did. *)
Definition bounded {A : Type} (m : outcome A) : Prop := m <> Throw OutOfFuel.

Lemma bounded_Ok {A : Type} (a : A) : bounded (Ok a).
Proof. discriminate. Qed.

Lemma bounded_bind {A B : Type} (m : outcome A) (k : A -> outcome B) :
  bounded m ->
  (forall a, m = Ok a -> bounded (k a)) ->
  bounded (m ≫= k).
Proof.
  unfold bounded. destruct m as [a|e]; cbn [mbind outcome_mbind outcome_bind];
    intros Hm Hk; [apply Hk; reflexivity | congruence].
Qed.

Lemma get_Some_lt (s : string) :
  forall (n : nat) (c : ascii), String.get n s = Some c -> n < String.length s.
Proof.
  induction s as [|c0 s IH]; intros n c H; [discriminate|].
  destruct n as [|n]; cbn [String.get String.length] in *; [lia|].
  apply IH in H. lia.
Qed.

Lemma consumeChar_inside (input : string) (pos : nat) (c : ascii) (pos' : nat) :
  consumeChar input pos = Ok (c, pos') -> pos < input_length input /\ pos' = S pos.
Proof.
  unfold consumeChar, charAt, input_length.
  destruct (String.get pos input) eqn:Hget; [|discriminate].
  intros H; injection H as _ <-. split; [exact (get_Some_lt _ _ _ Hget) | reflexivity].
Qed.

Lemma consumeChar_bounded (input : string) (pos : nat) : bounded (consumeChar input pos).
Proof. unfold bounded, consumeChar. destruct (charAt input pos); discriminate. Qed.

Lemma skipComment_bounded (input : string) (fuel : nat) :
  forall pos openComments,
    input_length input - pos < fuel ->
    bounded (skipComment input fuel pos openComments).
Proof.
  induction fuel as [|fuel IH]; intros pos n Hfuel; [lia|].
  destruct n as [|n]; cbn [skipComment]; [apply bounded_Ok|].
  destruct (input_length input <? pos + 2) eqn:Hend; [discriminate|].
  apply Nat.ltb_ge in Hend.
  destruct (String.eqb _ commentOpen); [apply IH; lia|].
  destruct (String.eqb _ commentClose); apply IH; lia.
Qed.

Lemma skipComments_bounded (input : string) (fuel : nat) :
  forall pos,
    input_length input - pos < fuel ->
    bounded (skipComments input fuel pos).
Proof.
  induction fuel as [|fuel IH]; intros pos Hfuel; [lia|].
  cbn [skipComments].
  destruct (pos + 1 <? input_length input) eqn:Hin; [|apply bounded_Ok].
  apply Nat.ltb_lt in Hin. cbn [andb].
  destruct (String.eqb _ commentOpen); [|apply bounded_Ok].
  apply bounded_bind; [apply skipComment_bounded; lia|].
  intros q Hq. apply skipComment_le in Hq. apply IH. lia.
Qed.

Lemma skipWhitespace_end (input : string) (pos : nat) :
  input_length input <= pos -> skipWhitespace input pos = pos.
Proof.
  intros H. unfold skipWhitespace. rewrite string_drop_beyond by exact H.
  cbn [span String.length]. lia.
Qed.

Lemma skipWhitespaceAndCommentsLoop_bounded (input : string) (fuel : nat) :
  forall pos,
    input_length input - pos < fuel ->
    bounded (skipWhitespaceAndCommentsLoop input fuel pos).
Proof.
  induction fuel as [|fuel IH]; intros pos Hfuel; [lia|].
  cbn [skipWhitespaceAndCommentsLoop].
  apply bounded_bind; [apply skipComments_bounded; lia|].
  intros q Hq. destruct (q =? pos) eqn:Hsame; [apply bounded_Ok|].
  apply Nat.eqb_neq in Hsame. apply IH.
  pose proof (skipWhitespace_le input pos) as Hws.
  pose proof (skipComments_le _ _ _ _ Hq) as Hle.
  destruct (le_lt_dec (input_length input) pos) as [Hend|Hin]; [|lia].
  exfalso. apply Hsame.
  rewrite (skipWhitespace_end _ _ Hend) in Hq. cbn [skipComments] in Hq.
  replace (pos + 1 <? input_length input) with false in Hq
    by (symmetry; apply Nat.ltb_ge; lia).
  cbn [andb] in Hq. injection Hq as <-. reflexivity.
Qed.

Lemma skipWhitespaceAndComments_bounded (input : string) (l : Cursor) :
  bounded (skipWhitespaceAndComments input l).
Proof.
  unfold skipWhitespaceAndComments. apply bounded_bind.
  - apply skipWhitespaceAndCommentsLoop_bounded. lia.
  - intros p _. apply bounded_Ok.
Qed.

Lemma makeNumberToken_bounded (input : string) (l : Cursor) (value : string)
      (real word hexadecimal : bool) :
  bounded (makeNumberToken input l value real word hexadecimal).
Proof.
  unfold bounded, makeNumberToken. cbv zeta.
  repeat match goal with
         | |- context [if ?b then _ else _] => destruct b
         end; try discriminate.
  all: destruct (String.get 0 _) as [c|]; [destruct (_ && _)|]; discriminate.
Qed.

Ltac token_bounded H :=
  match type of H with
  | context [makeNumberToken ?i ?c ?v ?r ?w ?x] =>
      let Hmake := fresh "Hmake" in
      destruct (makeNumberToken i c v r w x) eqn:Hmake;
      [discriminate H|];
      cbn [mbind outcome_mbind outcome_bind] in H; injection H as ->;
      exact (makeNumberToken_bounded _ _ _ _ _ _ Hmake)
  end.

Lemma lexNumber_bounded (input : string) (l : Cursor) : bounded (lexNumber input l).
Proof.
  unfold bounded, lexNumber, readNumeric. cbv zeta. intros H.
  split_ifs H; token_bounded H.
Qed.

Lemma lexEscape_bounded (input : string) (options : Options) (c : ascii) (pos : nat) :
  bounded (lexEscape input options c pos).
Proof.
  unfold bounded, lexEscape, readNumeric. cbv zeta.
  repeat match goal with
         | |- (if Ascii.eqb c ?k then _ else _) <> _ =>
             destruct (Ascii.eqb c k); [try discriminate|]
         end.
  - apply bounded_bind; [apply consumeChar_bounded|]. intros [cc p] _.
    destruct (_ || _); discriminate.
  - destruct (negb _); [discriminate|].
    destruct (parseInt _ 16%Z); [destruct (_ && _)| |]; discriminate.
  - destruct (negb (isNumber c false)); [discriminate|].
    destruct (negb _); [discriminate|].
    destruct (parseInt _ 10%Z); [destruct (_ && _)| |]; discriminate.
Qed.

Lemma lexStringLoop_bounded (input : string) (options : Options) (fuel : nat) :
  forall (pos : nat) (value : list N),
    input_length input - pos < fuel ->
    bounded (lexStringLoop input options fuel pos value).
Proof.
  induction fuel as [|fuel IH]; intros pos value Hfuel; [lia|].
  cbn [lexStringLoop].
  destruct (Ascii.eqb (getChar input pos 0) dquote); [apply bounded_Ok|].
  destruct (Ascii.eqb (getChar input pos 0) "\").
  - destruct (isWhitespace (getChar input (S pos) 0)).
    + apply bounded_bind; [apply consumeChar_bounded|].
      intros [c p] Hc. apply consumeChar_inside in Hc as [Hin ->].
      destruct (negb (Ascii.eqb c "\")); [discriminate|]. apply IH.
      pose proof (skipWhitespace_le input (S pos)). lia.
    + apply bounded_bind; [apply consumeChar_bounded|].
      intros [c p] Hc. apply consumeChar_inside in Hc as [Hin ->].
      apply bounded_bind; [apply lexEscape_bounded|].
      intros [code p] He. apply lexEscape_le in He. apply IH. lia.
  - apply bounded_bind; [apply consumeChar_bounded|].
    intros [c p] Hc. apply consumeChar_inside in Hc as [Hin ->].
    destruct (_ && _); [discriminate|]. apply IH. lia.
Qed.

Lemma lexString_bounded (input : string) (options : Options) (l : Cursor) :
  bounded (lexString input options l).
Proof.
  unfold lexString. cbv zeta.
  apply bounded_bind; [apply consumeChar_bounded|]. intros [c p] _.
  destruct (negb (Ascii.eqb c dquote)); [discriminate|].
  apply bounded_bind; [apply lexStringLoop_bounded; lia|]. intros [value q] _.
  apply bounded_bind; [apply consumeChar_bounded|]. intros [c' q'] _.
  destruct (negb (Ascii.eqb c' dquote)); discriminate.
Qed.

Lemma lexCharacter_bounded (input : string) (options : Options) (l : Cursor) :
  bounded (lexCharacter input options l).
Proof.
  unfold lexCharacter.
  apply bounded_bind; [apply consumeChar_bounded|]. intros [c p] _.
  destruct (negb (Ascii.eqb c "#")); [discriminate|].
  apply bounded_bind; [apply lexString_bounded|]. intros [t l'] _.
  destruct t; try discriminate. destruct (negb _); discriminate.
Qed.

Lemma classifyIdentifier_bounded (firstChar : ascii) (token : string) :
  bounded (classifyIdentifier firstChar token).
Proof.
  unfold bounded, classifyIdentifier.
  repeat match goal with
         | |- context [if ?b then _ else _] => destruct b
         end; discriminate.
Qed.

Lemma lexIdentifierOrKeyword_bounded (input : string) (l : Cursor) :
  bounded (lexIdentifierOrKeyword input l).
Proof.
  unfold lexIdentifierOrKeyword. cbv zeta.
  assert (Hscan : forall p : ascii -> bool,
             bounded (classifyIdentifier (getChar input (position l) 0)
                                         (readToken input p (position l))
                      ≫= λ t, mret (t, with_position l
                                         (position l
                                          + String.length
                                              (readToken input p (position l)))))).
  { intros p. apply bounded_bind; [apply classifyIdentifier_bounded|].
    intros t _. apply bounded_Ok. }
  destruct (isSymbolic _); [apply Hscan|].
  destruct (_ && _ && _); [apply Hscan|].
  destruct (has_string reservedWords _).
  - apply bounded_bind; [apply consumeChar_bounded|]. intros [c p] _. apply bounded_Ok.
  - destruct (_ && _ && _); discriminate.
Qed.

Lemma lexQualifiers_bounded (input : string) (fuel : nat) :
  forall (l : Cursor) (t : Token) (qualifiers : list Token),
    input_length input - position l < fuel ->
    bounded (lexQualifiers input fuel l t qualifiers).
Proof.
  induction fuel as [|fuel IH]; intros l t qualifiers Hfuel; [lia|].
  cbn [lexQualifiers].
  apply bounded_bind; [apply consumeChar_bounded|].
  intros [c p] Hc. apply consumeChar_inside in Hc as [Hin ->].
  destruct (negb (instanceof_AlphanumericIdentifierToken t)); [discriminate|].
  apply bounded_bind; [apply lexIdentifierOrKeyword_bounded|].
  intros [t1 l1] Hid. apply lexIdentifierOrKeyword_advances in Hid.
  cbn [position] in Hid.
  destruct (Ascii.eqb (getChar input (position l1) 0) "."); [|apply bounded_Ok].
  apply IH. lia.
Qed.

Lemma lexLongIdentifierOrKeyword_bounded (input : string) (l : Cursor) :
  bounded (lexLongIdentifierOrKeyword input l).
Proof.
  unfold lexLongIdentifierOrKeyword. cbv zeta.
  apply bounded_bind; [apply lexIdentifierOrKeyword_bounded|]. intros [t1 l1] _.
  destruct (_ && _ && _); [apply bounded_Ok|].
  destruct (negb _); [apply bounded_Ok|].
  apply bounded_bind; [apply lexQualifiers_bounded; lia|]. intros [[t2 qs] l2] _.
  destruct (_ || _); discriminate.
Qed.

Lemma nextToken_bounded (input : string) (options : Options) (l : Cursor) :
  bounded (nextToken input options l).
Proof.
  unfold nextToken. cbv zeta.
  apply bounded_bind.
  - destruct (_ || _); [apply lexNumber_bounded|].
    destruct (Ascii.eqb _ dquote); [apply lexString_bounded|].
    destruct (_ && _); [apply lexCharacter_bounded|].
    apply lexLongIdentifierOrKeyword_bounded.
  - intros [t1 l1] _. apply bounded_bind; [apply skipWhitespaceAndComments_bounded|].
    intros l2 _. apply bounded_Ok.
Qed.

Lemma lexLoop_bounded (input : string) (options : Options) (fuel : nat) :
  forall (l : Cursor) (result : list Token),
    input_length input - position l < fuel ->
    bounded (lexLoop input options fuel l result).
Proof.
  induction fuel as [|fuel IH]; intros l result Hfuel; [lia|].
  cbn [lexLoop]. unfold finished.
  destruct (input_length input <=? position l) eqn:Hend; [apply bounded_Ok|].
  apply Nat.leb_gt in Hend.
  apply bounded_bind; [apply nextToken_bounded|].
  intros [t l'] Hnext. apply nextToken_lt in Hnext. apply IH. lia.
Qed.

(** X26. The lexer terminates on every input: each of its loops ends
    within the number of steps that the length of the input allows, so
    [lex] returns the tokens or throws one of the lexer's own errors. *)
Theorem lex_terminates (s : string) (options : Options) :
  lex s options <> Throw OutOfFuel.
Proof.
  unfold lex. apply bounded_bind; [apply skipWhitespaceAndComments_bounded|].
  intros l _. apply lexLoop_bounded. unfold input_length. lia.
Qed.

End LexerTermination.

(** ** Real constants *)

Module LexerReals.
Import Lexer LexerFacts LexerLayout LexerNumbers.

Local Open Scope nat_scope.

(** The exponent of a real constant as it is written: [e] or [E], an
    optional [~], digits. *)
Record Exponent : Set :=
  mkExponent { marker : ascii; exponentNegative : bool; exponentDigits : string }.

(** A real constant as it is written: an optional [~], digits, then a
    fraction (a point and digits), an exponent, or both. *)
Record RealConstant : Set :=
  mkReal { realNegative : bool; whole : string;
           fraction : option string; exponent : option Exponent }.

Definition fractionText (f : option string) : string :=
  match f with Some fs => String "." fs | None => "" end.

Definition exponentText (e : option Exponent) : string :=
  match e with
  | Some e => String (marker e) ((if exponentNegative e then "~" else "")
                                 +:+ exponentDigits e)
  | None => ""
  end.

(** The exponent in the text that is handed to [parseFloat]: the marker
    is [e] and the sign is [-]. *)
Definition exponentLiteral (e : option Exponent) : string :=
  match e with
  | Some e => String "e" ((if exponentNegative e then "-" else "")
                          +:+ exponentDigits e)
  | None => ""
  end.

Definition realText (r : RealConstant) : string :=
  (if realNegative r then "~" else "") +:+ whole r
  +:+ fractionText (fraction r) +:+ exponentText (exponent r).

Definition realLiteral (r : RealConstant) : string :=
  (if realNegative r then "-" else "") +:+ whole r
  +:+ fractionText (fraction r) +:+ exponentLiteral (exponent r).

Definition present {A : Type} (o : option A) : bool :=
  match o with Some _ => true | None => false end.

Definition digitString (s : string) : bool :=
  negb (String.eqb s "") && allDigits false s.

Definition validExponent (e : Exponent) : bool :=
  (Ascii.eqb (marker e) "e" || Ascii.eqb (marker e) "E")
  && digitString (exponentDigits e).

(** Every part has at least one digit, and there is a fraction or an
    exponent. *)
Definition wellFormedReal (r : RealConstant) : bool :=
  digitString (whole r)
  && match fraction r with Some fs => digitString fs | None => true end
  && match exponent r with Some e => validExponent e | None => true end
  && (present (fraction r) || present (exponent r)).

Definition continuesAsExponent (rest : string) : bool :=
  (Ascii.eqb (charOf rest 0) "e" || Ascii.eqb (charOf rest 0) "E")
  && (isNumber (charOf rest 1) false
      || (Ascii.eqb (charOf rest 1) "~" && isNumber (charOf rest 2) false)).

(** The constant ends where [rest] begins: no further digit, and no
    exponent after a constant that has none. *)
Definition delimitedReal (r : RealConstant) (rest : string) : bool :=
  negb (isNumber (charOf rest 0) false)
  && match exponent r with
     | Some _ => true
     | None => negb (continuesAsExponent rest)
     end.

(** The parts of [lexNumber] that follow the digits of a decimal
    constant, with the names of the source. *)
Definition finishNumber (input : string) (l : Cursor) (pos : nat) (value : string)
           (real : bool) : outcome (Token * Cursor) :=
  t ← makeNumberToken input (with_position l pos) value real false false;
  mret (t, with_position l pos).

Definition lexExponent (input : string) (l : Cursor) (pos : nat) (value : string)
           (real : bool) : outcome (Token * Cursor) :=
  if Ascii.eqb (getChar input pos 0) "e" || Ascii.eqb (getChar input pos 0) "E" then
    if isNumber (getChar input pos 1) false then
      let '(digits, pos') := readNumeric input false (-1)%Z (S pos) in
      finishNumber input l pos' (value ++ "e" ++ digits) true
    else if Ascii.eqb (getChar input pos 1) "~" && isNumber (getChar input pos 2) false
    then
      let '(digits, pos') := readNumeric input false (-1)%Z (pos + 2) in
      finishNumber input l pos' (value ++ "e-" ++ digits) true
    else finishNumber input l pos value real
  else finishNumber input l pos value real.

Definition lexFraction (input : string) (l : Cursor) (pos : nat) (value : string)
  : outcome (Token * Cursor) :=
  if Ascii.eqb (getChar input pos 0) "." then
    if isNumber (getChar input pos 1) false then
      let '(digits, pos') := readNumeric input false (-1)%Z (S pos) in
      lexExponent input l pos' (value ++ "." ++ digits) true
    else finishNumber input l pos value false
  else lexExponent input l pos value false.

Lemma digitString_head (s : string) :
  digitString s = true ->
  exists d ds, s = String d ds /\ isNumber d false = true /\ allDigits false s = true.
Proof.
  unfold digitString. destruct s as [|d ds]; [discriminate|]. cbn [String.eqb negb andb].
  intros H. exists d, ds. repeat split; [|exact H].
  cbn [allDigits] in H. apply andb_true_iff in H as [H _]. exact H.
Qed.

(** [lexNumber] on the digits of a decimal constant that are followed
    by something other than a digit, [w] or [x]. *)
Lemma lexNumber_decimal (input : string) (l : Cursor) (neg : bool) (ws rest : string) :
  string_drop (position l) input = (if neg then "~" else "") +:+ ws +:+ rest ->
  digitString ws = true ->
  isNumber (charOf rest 0) false = false ->
  Ascii.eqb (charOf rest 0) "w" || Ascii.eqb (charOf rest 0) "x" = false ->
  lexNumber input l
  = lexFraction input l
      (position l + String.length ((if neg then "~" else "") +:+ ws))
      ((if neg then "-" else "") +:+ ws).
Proof.
  intros Hdrop Hws Hstop Hnext.
  destruct (digitString_head ws Hws) as (d0 & ds' & -> & Hd0 & Hds).
  destruct (isNumber_not_special d0 _ Hd0) as (Hd0t & Hd0w & Hd0x & _).
  assert (Hsecond : Ascii.eqb (charOf (ds' +:+ rest) 0) "w"
                    || Ascii.eqb (charOf (ds' +:+ rest) 0) "x" = false).
  { destruct ds' as [|d1 ds'']; [exact Hnext|].
    cbn [allDigits] in Hds. apply andb_true_iff in Hds as [_ H].
    apply andb_true_iff in H as [Hd1 _].
    destruct (isNumber_not_special d1 _ Hd1) as (_ & Hd1w & Hd1x & _).
    change (charOf (String d1 ds'' +:+ rest) 0) with d1. rewrite Hd1w, Hd1x. reflexivity. }
  destruct neg.
  - change (string_drop (position l) input
            = String "~" (String d0 (ds' +:+ rest))) in Hdrop.
    pose proof (string_drop_next _ _ _ _ Hdrop) as Hdrop1.
    unfold lexNumber.
    chars_at Hdrop. rewrite Ascii.eqb_refl. booleans.
    chars_at Hdrop1.
    change (charOf (String d0 (ds' +:+ rest)) 1) with (charOf (ds' +:+ rest) 0).
    rewrite Hsecond. booleans.
    rewrite (readNumeric_digits input false _ (String d0 ds') rest Hdrop1 Hds Hstop).
    booleans.
    replace (position l + String.length ("~" +:+ String d0 ds'))
      with (S (position l) + String.length (String d0 ds')) by (simpl; lia).
    reflexivity.
  - change (string_drop (position l) input = String d0 (ds' +:+ rest)) in Hdrop.
    unfold lexNumber.
    chars_at Hdrop. rewrite Hd0t. booleans.
    chars_at Hdrop.
    change (charOf (String d0 (ds' +:+ rest)) 1) with (charOf (ds' +:+ rest) 0).
    rewrite Hsecond. booleans.
    rewrite (readNumeric_digits input false _ (String d0 ds') rest Hdrop Hds Hstop).
    booleans. reflexivity.
Qed.

Lemma marker_facts (m : ascii) :
  Ascii.eqb m "e" || Ascii.eqb m "E" = true ->
  isNumber m false = false /\ Ascii.eqb m "." = false
  /\ Ascii.eqb m "w" = false /\ Ascii.eqb m "x" = false.
Proof.
  intros H. apply orb_true_iff in H as [H|H]; apply Ascii.eqb_eq in H; subst m;
    repeat split; reflexivity.
Qed.

Lemma lexExponent_spec (input : string) (l : Cursor) (pos : nat) (value : string)
      (real : bool) (e : option Exponent) (rest : string) :
  string_drop pos input = exponentText e +:+ rest ->
  match e with
  | Some e => validExponent e = true /\ isNumber (charOf rest 0) false = false
  | None => continuesAsExponent rest = false
  end ->
  lexExponent input l pos value real
  = finishNumber input l (pos + String.length (exponentText e))
                 (value +:+ exponentLiteral e) (real || present e).
Proof.
  intros Hdrop He. destruct e as [[m neg es]|]; cbn [exponentText exponentLiteral present
    marker exponentNegative exponentDigits] in *.
  - destruct He as [Hvalid Hstop]. unfold validExponent in Hvalid.
    cbn [marker exponentDigits] in Hvalid. apply andb_true_iff in Hvalid as [Hm Hes].
    destruct (digitString_head es Hes) as (d0 & ds' & -> & Hd0 & Hds).
    destruct (isNumber_not_special d0 _ Hd0) as (Hd0t & _).
    rewrite orb_true_r. unfold lexExponent. destruct neg.
    + change (string_drop pos input
              = String m (String "~" (String d0 (ds' +:+ rest)))) in Hdrop.
      assert (Hdrop2 : string_drop (pos + 2) input = String d0 ds' +:+ rest)
        by (rewrite string_drop_add, Hdrop; reflexivity).
      chars_at Hdrop. rewrite Hm, Hd0, Ascii.eqb_refl.
      change (isNumber "~" false) with false. booleans.
      rewrite (readNumeric_digits input false _ (String d0 ds') rest Hdrop2 Hds Hstop).
      replace (pos + 2 + String.length (String d0 ds'))
        with (pos + String.length (String m ("~" +:+ String d0 ds'))) by (simpl; lia).
      reflexivity.
    + change (string_drop pos input = String m (String d0 (ds' +:+ rest))) in Hdrop.
      pose proof (string_drop_next _ _ _ _ Hdrop) as Hdrop1.
      chars_at Hdrop. rewrite Hm, Hd0.
      rewrite (readNumeric_digits input false _ (String d0 ds') rest Hdrop1 Hds Hstop).
      replace (S pos + String.length (String d0 ds'))
        with (pos + String.length (String m ("" +:+ String d0 ds'))) by (simpl; lia).
      reflexivity.
  - change (string_drop pos input = rest) in Hdrop.
    cbn [String.length]. rewrite Nat.add_0_r, append_empty_r, orb_false_r.
    unfold lexExponent. chars_at Hdrop. unfold continuesAsExponent in He.
    destruct (Ascii.eqb (charOf rest 0) "e" || Ascii.eqb (charOf rest 0) "E");
      [|reflexivity].
    cbn [andb] in He. apply orb_false_iff in He as [-> ->]. reflexivity.
Qed.

Lemma lexFraction_spec (input : string) (l : Cursor) (pos : nat) (value : string)
      (f : option string) (rest : string) :
  string_drop pos input = fractionText f +:+ rest ->
  match f with
  | Some fs => digitString fs = true /\ isNumber (charOf rest 0) false = false
  | None => Ascii.eqb (charOf rest 0) "." = false
  end ->
  lexFraction input l pos value
  = lexExponent input l (pos + String.length (fractionText f))
                (value +:+ fractionText f) (present f).
Proof.
  intros Hdrop Hf. destruct f as [fs|]; cbn [fractionText present] in *.
  - destruct Hf as [Hfs Hstop].
    destruct (digitString_head fs Hfs) as (d0 & ds' & -> & Hd0 & Hds).
    change (string_drop pos input = String "." (String d0 (ds' +:+ rest))) in Hdrop.
    pose proof (string_drop_next _ _ _ _ Hdrop) as Hdrop1.
    unfold lexFraction. chars_at Hdrop. rewrite Ascii.eqb_refl, Hd0.
    rewrite (readNumeric_digits input false _ (String d0 ds') rest Hdrop1 Hds Hstop).
    replace (S pos + String.length (String d0 ds'))
      with (pos + String.length (String "." (String d0 ds'))) by (simpl; lia).
    reflexivity.
  - change (string_drop pos input = rest) in Hdrop.
    cbn [String.length]. rewrite Nat.add_0_r, append_empty_r.
    unfold lexFraction. chars_at Hdrop. rewrite Hf. reflexivity.
Qed.

Lemma finishNumber_real (input : string) (l : Cursor) (pos : nat) (value : string) :
  finishNumber input l pos value true
  = Ok (RealConstantToken (substring input (tokenStart l) pos) value,
        with_position l pos).
Proof. reflexivity. Qed.

(** What follows the whole part of a well-formed real constant. *)
Lemma real_tail_head (f : option string) (e : option Exponent) (rest : string) :
  match e with Some e => validExponent e = true | None => True end ->
  present f || present e = true ->
  let tail := fractionText f +:+ exponentText e +:+ rest in
  isNumber (charOf tail 0) false = false
  /\ Ascii.eqb (charOf tail 0) "w" || Ascii.eqb (charOf tail 0) "x" = false.
Proof.
  intros He Hsome. destruct f as [fs|]; [split; reflexivity|].
  destruct e as [[m neg es]|]; [|discriminate].
  unfold validExponent in He. apply andb_true_iff in He as [Hm _].
  cbn [marker] in Hm. destruct (marker_facts m Hm) as (Hd & _ & Hw & Hx).
  cbv zeta. cbn [fractionText exponentText marker].
  change (charOf ("" +:+ String m _ +:+ rest) 0) with m.
  rewrite Hd, Hw, Hx. split; reflexivity.
Qed.

Lemma lexNumber_real (input : string) (l : Cursor) (r : RealConstant) (rest : string) :
  string_drop (position l) input = realText r +:+ rest ->
  tokenStart l = position l ->
  wellFormedReal r = true ->
  delimitedReal r rest = true ->
  lexNumber input l
  = Ok (RealConstantToken (realText r) (realLiteral r),
        with_position l (position l + String.length (realText r))).
Proof.
  destruct r as [neg ws f e]. unfold realText, realLiteral, wellFormedReal, delimitedReal.
  cbn [realNegative whole fraction exponent]. intros Hdrop Hstart Hwf Hdelim.
  apply andb_true_iff in Hwf as [Hwf Hsome]. apply andb_true_iff in Hwf as [Hwf He].
  apply andb_true_iff in Hwf as [Hws Hf]. apply andb_true_iff in Hdelim as [Hstop Hexp].
  apply negb_true_iff in Hstop.
  pose proof (substring_at input (position l) _ rest Hdrop) as Htext.
  rewrite !append_assoc in Hdrop.
  assert (He' : match e with Some e => validExponent e = true | None => True end)
    by (destruct e; [exact He | exact I]).
  destruct (real_tail_head f e rest He' Hsome) as [Htail Hnext].
  rewrite (lexNumber_decimal input l neg ws _ Hdrop Hws Htail Hnext).
  assert (Hdrop1 : string_drop (position l + String.length ((if neg then "~" else "") +:+ ws))
                               input
                   = fractionText f +:+ exponentText e +:+ rest)
    by (apply string_drop_digits; rewrite append_assoc; exact Hdrop).
  assert (Hdrop2 : string_drop (position l
                                + String.length ((if neg then "~" else "") +:+ ws)
                                + String.length (fractionText f)) input
                   = exponentText e +:+ rest)
    by (apply string_drop_digits; exact Hdrop1).
  rewrite (lexFraction_spec input l _ _ f (exponentText e +:+ rest) Hdrop1).
  2:{ destruct f as [fs|].
      - split; [exact Hf|]. destruct e as [[m en es]|]; [|exact Hstop].
        unfold validExponent in He. apply andb_true_iff in He as [Hm _].
        cbn [marker] in Hm. destruct (marker_facts m Hm) as (Hd & _).
        exact Hd.
      - destruct e as [[m en es]|]; [|discriminate Hsome].
        unfold validExponent in He. apply andb_true_iff in He as [Hm _].
        cbn [marker] in Hm. destruct (marker_facts m Hm) as (_ & Hp & _).
        exact Hp. }
  rewrite (lexExponent_spec input l _ _ _ e rest Hdrop2).
  2:{ destruct e as [e|]; [split; [exact He | exact Hstop]|].
      apply negb_true_iff in Hexp. exact Hexp. }
  rewrite Hsome, finishNumber_real, Hstart.
  rewrite <- !Nat.add_assoc, <- !length_append, !append_assoc, Htext. reflexivity.
Qed.

(** X27.  A real constant that stands at the position (an optional [~],
    digits, then a fraction, an exponent or both) is read as one real
    constant token with the text of the constant; the text handed to
    [parseFloat] is that of the constant with [-] for each [~] and [e]
    for the exponent marker.  No range is checked. *)
Theorem nextToken_real_constant
        (input : string) (options : Options) (l : Cursor)
        (r : RealConstant) (rest : string) :
  string_drop (position l) input = realText r +:+ rest ->
  wellFormedReal r = true ->
  delimitedReal r rest = true ->
  nextToken input options l
  = skipWhitespaceAndComments input
      {| position := position l + String.length (realText r);
         tokenStart := position l |}
    ≫= fun l' => Ok (RealConstantToken (realText r) (realLiteral r), l').
Proof.
  intros Hdrop Hwf Hdelim. unfold nextToken. cbn [position].
  assert (Hstart : isNumber (getChar input (position l) 0) false
                   || (Ascii.eqb (getChar input (position l) 0) "~"
                       && isNumber (getChar input (position l) 1) false) = true).
  { destruct r as [neg ws f e]. unfold wellFormedReal in Hwf. unfold realText in Hdrop.
    cbn [realNegative whole fraction exponent] in Hwf, Hdrop.
    apply andb_true_iff in Hwf as [Hwf _]. apply andb_true_iff in Hwf as [Hwf _].
    apply andb_true_iff in Hwf as [Hws _].
    rewrite !append_assoc in Hdrop.
    apply (constant_starts_number input (position l) (mkConstant neg Decimal ws)
                                  (fractionText f +:+ exponentText e +:+ rest)).
    - unfold constantText. cbn [negative form digits formPrefix].
      rewrite append_nil, append_assoc. exact Hdrop.
    - unfold wellFormed. cbn [negative form digits formHexadecimal formWord].
      unfold digitString in Hws. rewrite Hws. reflexivity. }
  rewrite Hstart.
  rewrite (lexNumber_real
             input {| position := position l; tokenStart := position l |} r rest
             Hdrop eq_refl Hwf Hdelim).
  cbn [mbind outcome_mbind outcome_bind with_position position tokenStart].
  destruct (skipWhitespaceAndComments input _); reflexivity.
Qed.

Lemma nextToken_real_constant_witness :
  nextToken "val x = ~12.50E~3 ;" defaultOptions {| position := 8; tokenStart := 3 |}
  = Ok (RealConstantToken "~12.50E~3" "-12.50e-3",
        {| position := 18; tokenStart := 18 |}).
Proof.
  exact (nextToken_real_constant
           "val x = ~12.50E~3 ;" defaultOptions {| position := 8; tokenStart := 3 |}
           (mkReal true "12" (Some "50") (Some (mkExponent "E" true "3"))) " ;"
           eq_refl eq_refl eq_refl).
Defined.

End LexerReals.

(** ** The text of a token *)

Module LexerTexts.
Import Lexer LexerFacts LexerLayout LexerNumbers LexerIdentifiers LexerProgress.

Local Open Scope nat_scope.

Lemma substring_none (n : nat) (s : string) : String.substring n 0 s = "".
Proof.
  revert s; induction n as [|n IH]; intros [|c s]; cbn [String.substring];
    [reflexivity.. | apply IH].
Qed.

(** The substring that starts at a character of the input. *)
Lemma substring_cons (input : string) (a b : nat) (c : ascii) :
  charAt input a = Some c ->
  a < b ->
  substring input a b = String c (substring input (S a) b).
Proof.
  unfold charAt, substring. intros Hget Hlt.
  replace (b - a) with (S (b - S a)) by lia. generalize (b - S a) as n. clear Hlt.
  revert input Hget; induction a as [|a IH]; intros [|c0 s] Hget n; try discriminate.
  - cbn [String.get] in Hget. injection Hget as ->. reflexivity.
  - cbn [String.get] in Hget. cbn [String.substring]. apply IH. exact Hget.
Qed.

Lemma substring_empty (input : string) (a : nat) : substring input a a = "".
Proof. unfold substring. rewrite Nat.sub_diag. apply substring_none. Qed.

Lemma getChar_charAt (input : string) (pos k : nat) :
  getChar input pos k <> EOT -> charAt input (pos + k) = Some (getChar input pos k).
Proof. unfold getChar. destruct (charAt input (pos + k)); [reflexivity | congruence]. Qed.

(** A run of characters read by [readToken] is the text between the
    position and the position after it. *)
Lemma span_prefix (p : ascii -> bool) (s : string) :
  String.substring 0 (String.length (span p s)) s = span p s.
Proof.
  induction s as [|c s IH]; [reflexivity|]. cbn [span].
  destruct (p c); [|reflexivity]. cbn [String.length String.substring]. rewrite IH.
  reflexivity.
Qed.

Lemma readToken_text (input : string) (p : ascii -> bool) (pos : nat) :
  substring input pos (pos + String.length (readToken input p pos))
  = readToken input p pos.
Proof.
  unfold substring, readToken.
  replace (pos + String.length (span p (string_drop pos input)) - pos)
    with (String.length (span p (string_drop pos input))) by lia.
  rewrite substring_string_drop. apply span_prefix.
Qed.

Lemma makeNumberToken_text (input : string) (l : Cursor) (value : string)
      (real word hexadecimal : bool) (t : Token) :
  makeNumberToken input l value real word hexadecimal = Ok t ->
  Token_text t = substring input (tokenStart l) (position l).
Proof.
  unfold makeNumberToken. cbv zeta.
  repeat match goal with
         | |- context [if ?b then _ else _] => destruct b
         end; try discriminate.
  all: try (intros H; injection H as <-; reflexivity).
  all: destruct (String.get 0 _) as [c|]; [destruct (_ && _)|];
    intros H; injection H as <-; reflexivity.
Qed.

Ltac token_text H :=
  match type of H with
  | context [makeNumberToken ?i ?c ?v ?r ?w ?x] =>
      let Hmake := fresh "Hmake" in
      destruct (makeNumberToken i c v r w x) eqn:Hmake; [|discriminate H];
      cbn [mbind mret outcome_mbind outcome_mret outcome_bind] in H;
      injection H as <- <-;
      exact (makeNumberToken_text _ _ _ _ _ _ _ Hmake)
  end.

Lemma lexNumber_text (input : string) (l l' : Cursor) (t : Token) :
  lexNumber input l = Ok (t, l') ->
  Token_text t = substring input (tokenStart l) (position l').
Proof.
  unfold lexNumber, readNumeric. cbv zeta. intros H.
  split_ifs H; token_text H.
Qed.

Lemma lexString_text (input : string) (options : Options) (l l' : Cursor) (t : Token) :
  lexString input options l = Ok (t, l') ->
  Token_text t = substring input (position l) (position l').
Proof.
  unfold lexString. cbv zeta. intros H.
  destruct (consumeChar input (position l)) as [[c p]|]; [|discriminate].
  cbn [mbind outcome_mbind outcome_bind] in H.
  destruct (negb (Ascii.eqb c dquote)); [discriminate|].
  destruct (lexStringLoop input options _ p []) as [[value q]|]; [|discriminate].
  cbn [mbind outcome_mbind outcome_bind] in H.
  destruct (consumeChar input q) as [[c' q']|]; [|discriminate].
  cbn [mbind outcome_mbind outcome_bind] in H.
  destruct (negb (Ascii.eqb c' dquote)); [discriminate|].
  injection H as <- <-. reflexivity.
Qed.

Lemma consumeChar_charAt (input : string) (pos : nat) (c : ascii) (pos' : nat) :
  consumeChar input pos = Ok (c, pos') -> charAt input pos = Some c /\ pos' = S pos.
Proof.
  unfold consumeChar. destruct (charAt input pos); [|discriminate].
  intros H; injection H as <- <-. split; reflexivity.
Qed.

Lemma lexCharacter_text (input : string) (options : Options) (l l' : Cursor)
      (t : Token) :
  lexCharacter input options l = Ok (t, l') ->
  Token_text t = substring input (position l) (position l').
Proof.
  unfold lexCharacter. intros H.
  destruct (consumeChar input (position l)) as [[c p]|] eqn:Hc; [|discriminate].
  apply consumeChar_charAt in Hc as [Hc ->].
  cbn [mbind outcome_mbind outcome_bind] in H.
  destruct (Ascii.eqb_spec c "#") as [->|]; [|discriminate]. cbn [negb] in H.
  destruct (lexString input options (with_position l (S (position l))))
    as [[t1 l1]|] eqn:Hs; [|discriminate].
  pose proof (lexString_advances _ _ _ _ _ Hs) as Hlt.
  apply lexString_text in Hs. cbn [position with_position] in Hs, Hlt.
  cbn [mbind outcome_mbind outcome_bind] in H.
  destruct t1; try discriminate. destruct (negb _); [discriminate|].
  injection H as <- <-. cbn [Token_text] in *.
  rewrite (substring_cons input (position l) (position l1) "#" Hc) by lia.
  rewrite Hs. reflexivity.
Qed.

Lemma classifyIdentifier_text (firstChar : ascii) (token : string) (t : Token) :
  classifyIdentifier firstChar token = Ok t -> Token_text t = token.
Proof.
  unfold classifyIdentifier.
  destruct (String.eqb_spec token "*") as [->|_];
    [intros H; injection H as <-; reflexivity|].
  destruct (String.eqb_spec token "=") as [->|_];
    [intros H; injection H as <-; reflexivity|].
  repeat match goal with
         | |- context [if ?b then _ else _] => destruct b
         end; try discriminate; intros H; injection H as <-; reflexivity.
Qed.

Lemma getChar_is (input : string) (pos k : nat) (c : ascii) :
  Ascii.eqb (getChar input pos k) c = true ->
  c <> EOT ->
  charAt input (pos + k) = Some c.
Proof.
  intros H Hc. apply Ascii.eqb_eq in H. rewrite <- H. apply getChar_charAt.
  rewrite H. exact Hc.
Qed.

Lemma lexIdentifierOrKeyword_text (input : string) (l l' : Cursor) (t : Token) :
  lexIdentifierOrKeyword input l = Ok (t, l') ->
  Token_text t = substring input (position l) (position l').
Proof.
  unfold lexIdentifierOrKeyword. cbv zeta. intros H.
  assert (Hscan : forall p : ascii -> bool,
             classifyIdentifier (getChar input (position l) 0)
                                (readToken input p (position l))
             ≫= (λ t, mret (t, with_position l
                                  (position l
                                   + String.length (readToken input p (position l)))))
             = Ok (t, l') ->
             Token_text t = substring input (position l) (position l')).
  { intros p.
    destruct (classifyIdentifier (getChar input (position l) 0)
                                 (readToken input p (position l)))
      as [t1|] eqn:Hclass; [|discriminate].
    intros Hp. injection Hp as <- <-. cbn [position with_position].
    rewrite readToken_text. exact (classifyIdentifier_text _ _ _ Hclass). }
  destruct (isSymbolic _); [exact (Hscan _ H)|].
  destruct (_ && _ && _); [exact (Hscan _ H)|].
  destruct (has_string reservedWords _).
  - destruct (consumeChar input (position l)) as [[c p]|] eqn:Hc; [|discriminate].
    apply consumeChar_charAt in Hc as [Hc ->]. injection H as <- <-.
    cbn [position with_position Token_text].
    rewrite (substring_cons input _ _ c Hc) by lia. rewrite substring_empty. reflexivity.
  - destruct (Ascii.eqb (getChar input (position l) 0) ".") eqn:H0; [|discriminate].
    destruct (Ascii.eqb (getChar input (position l) 1) ".") eqn:H1; [|discriminate].
    destruct (Ascii.eqb (getChar input (position l) 2) ".") eqn:H2; [|discriminate].
    injection H as <- <-. cbn [position with_position Token_text].
    apply getChar_is in H0, H1, H2; try discriminate.
    rewrite Nat.add_0_r in H0.
    rewrite (substring_cons input _ _ "." H0) by lia.
    replace (position l + 1) with (S (position l)) in H1 by lia.
    rewrite (substring_cons input _ _ "." H1) by lia.
    replace (position l + 2) with (S (S (position l))) in H2 by lia.
    rewrite (substring_cons input _ _ "." H2) by lia.
    replace (position l + 3) with (S (S (S (position l)))) by lia.
    rewrite substring_empty. reflexivity.
Qed.

Lemma lexLongIdentifierOrKeyword_text (input : string) (l l' : Cursor) (t : Token) :
  tokenStart l = position l ->
  lexLongIdentifierOrKeyword input l = Ok (t, l') ->
  Token_text t = substring input (position l) (position l').
Proof.
  unfold lexLongIdentifierOrKeyword. cbv zeta. intros Hstart H.
  destruct (lexIdentifierOrKeyword input l) as [[t1 l1]|] eqn:Hid; [|discriminate].
  apply lexIdentifierOrKeyword_text in Hid.
  cbn [mbind outcome_mbind outcome_bind] in H.
  destruct (_ && _ && _); [injection H as <- <-; exact Hid|].
  destruct (negb _); [injection H as <- <-; exact Hid|].
  destruct (lexQualifiers input _ l1 t1 []) as [[[t2 qs] l2]|]; [|discriminate].
  cbn [mbind outcome_mbind outcome_bind] in H.
  destruct (_ || _); [discriminate|]. injection H as <- <-.
  cbn [Token_text]. rewrite Hstart. reflexivity.
Qed.

(** X28.  The text of a token is the input it was read from: when
    [nextToken] returns a token, its text is the part of the input from
    the position to some later position, from where whitespace and
    comments are skipped up to the new position. *)
Theorem nextToken_text (input : string) (options : Options) (l l' : Cursor)
        (t : Token) :
  nextToken input options l = Ok (t, l') ->
  exists p,
    position l < p
    /\ Token_text t = substring input (position l) p
    /\ skipWhitespaceAndComments input {| position := p; tokenStart := position l |}
       = Ok l'.
Proof.
  unfold nextToken. cbv zeta. cbn [position]. intros H.
  match type of H with
  | context [mbind _ ?m] => destruct m as [[t1 l1]|] eqn:Htok; [|discriminate H]
  end.
  cbn [mbind outcome_mbind outcome_bind] in H.
  destruct (skipWhitespaceAndComments input l1) as [l2|] eqn:Hskip; [|discriminate].
  cbn [mbind mret outcome_mbind outcome_mret outcome_bind] in H.
  injection H as <- <-. exists (position l1).
  set (l0 := {| position := position l; tokenStart := position l |}) in Htok.
  change (position l) with (position l0) at 1 2.
  assert (Hgoal : position l0 < position l1
                  /\ Token_text t1 = substring input (position l0) (position l1)).
  { destruct (isNumber _ false || _) eqn:Hnum.
    { split; [exact (lexNumber_advances input l0 l1 t1 Hnum Htok)|].
      exact (lexNumber_text input l0 l1 t1 Htok). }
    destruct (Ascii.eqb (getChar input (position l) 0) dquote).
    { split; [exact (lexString_advances input options l0 l1 t1 Htok)|].
      exact (lexString_text input options l0 l1 t1 Htok). }
    destruct (Ascii.eqb (getChar input (position l) 0) "#" && _).
    { split; [exact (lexCharacter_advances input options l0 l1 t1 Htok)|].
      exact (lexCharacter_text input options l0 l1 t1 Htok). }
    split; [exact (lexLongIdentifierOrKeyword_advances input l0 l1 t1 Htok)|].
    exact (lexLongIdentifierOrKeyword_text input l0 l1 t1 eq_refl Htok). }
  destruct Hgoal as [Hlt Htext]. repeat split; [exact Hlt | exact Htext|].
  rewrite <- Hskip. apply skipWhitespaceAndComments_position. reflexivity.
Qed.

Lemma nextToken_text_witness :
  exists p,
    3 < p
    /\ Token_text (LongIdentifierToken "List.map" [AlphanumericIdentifierToken "List"]
                                       (AlphanumericIdentifierToken "map"))
       = substring "op List.map xs" 3 p
    /\ skipWhitespaceAndComments "op List.map xs"
                                 {| position := p; tokenStart := 3 |}
       = Ok {| position := 12; tokenStart := 12 |}.
Proof.
  exact (nextToken_text "op List.map xs" defaultOptions
           {| position := 3; tokenStart := 0 |} {| position := 12; tokenStart := 12 |}
           (LongIdentifierToken "List.map" [AlphanumericIdentifierToken "List"]
                                (AlphanumericIdentifierToken "map"))
           eq_refl).
Defined.

End LexerTexts.
